(** * The event hub of [lib/ui.js]

    A shallow embedding of the [UI] class of [lib/ui.js] together with the
    parts of the host it drives: the [Disposable], [CompositeDisposable] and
    [Emitter] classes of the [atom] module (event-kit), the style sheets of
    the document, the [setImmediate] queue, and promises.

    JavaScript objects live in typed stores (lists indexed by allocation
    order); a reference is an index.  Every method is a computation in a
    state-and-exception monad, so that aliasing, in-place mutation and
    [TypeError]s are the ones of the source. *)

From stdpp Require Import base option list strings gmap.

Open Scope string_scope.
Open Scope list_scope.

(** ** Values, functions, and disposal actions *)

(** Payloads that travel through emitters. *)
Inductive value :=
| VUndefined
| VBool (b : bool)
| VString (s : string)
| VPaths (l : list string)
| VChange (from to : list string)      (* the object {from, to} of line 256 *)
| VOther (n : nat).

(** Functions registered on the hub ([this.emitter]).
    [Handler h] is a function supplied by a client; its body is opaque to the
    hub, and running it is recorded in the log.
    [Deferred w h] is the wrapper built at lines 81-83 around client
    function [h]; [w] is the identity of that closure. *)
Inductive hfn :=
| Handler (h : nat)
| Deferred (w h : nat).

(** Callbacks that the class registers on collaborator streams. *)
Inductive cb :=
| CbSetProjects (k : nat)              (* line 22: to => this.setProjects(to) *)
| CbThemes (k : nat)                   (* lines 23-26 *)
| CbDestroy (cd : nat)                 (* line 216: _ => cd.dispose() *)
| CbChangePath (cd p : nat).           (* lines 217-220: resolve of promise p *)

#[global] Instance value_eq_dec : EqDecision value.
Proof. solve_decision. Defined.
#[global] Instance hfn_eq_dec : EqDecision hfn.
Proof. solve_decision. Defined.
#[global] Instance cb_eq_dec : EqDecision cb.
Proof. solve_decision. Defined.

(** The function a [Disposable] was constructed with. *)
Inductive action :=
| ANoop                                          (* line 88: () => {} *)
| AOffHub (e : nat) (name : string) (f : hfn)    (* Emitter.on's cleanup, hub *)
| AOffStream (e : nat) (name : string) (f : cb)  (* Emitter.on's cleanup, stream *)
| ADetach (cd : nat)                             (* line 215 *)
| ARestoreTop (rule : nat) (offset : string).    (* line 203 *)

(** Members of [this.disposables]: plain disposables, or the composite
    built by [waitToSave]. *)
Inductive member :=
| MPlain (d : nat)
| MGroup (g : nat).

#[global] Instance member_eq_dec : EqDecision member.
Proof. solve_decision. Defined.

(** ** Objects *)

Record Disposable := mkDisposable {
  d_disposed : bool;
  d_action : option action               (* null once disposed *)
}.

(** [CompositeDisposable], polymorphic in what it holds.  [c_members] is the
    JavaScript [Set] in insertion order; the [null] written by [dispose] is
    the empty list (every access is guarded by [c_disposed]). *)
Record Composite (A : Type) := mkComposite {
  c_disposed : bool;
  c_members : list A
}.
Arguments mkComposite {A}.
Arguments c_disposed {A}.
Arguments c_members {A}.

(** [Emitter], polymorphic in the functions it holds. *)
Record Emitter (F : Type) := mkEmitter {
  e_disposed : bool;
  e_subscriptions : nat;                              (* a Composite nat *)
  e_handlers : option (gmap string (list F))          (* handlersByEventName *)
}.
Arguments mkEmitter {F}.
Arguments e_disposed {F}.
Arguments e_subscriptions {F}.
Arguments e_handlers {F}.

Inductive promise :=
| Pending
| Resolved (v : value)
| Rejected.

Record CSSRule := mkRule {
  selectorText : option string;          (* undefined for at-rules *)
  cssText : string;                      (* the text line 162 reads; it is read
                                            of rules with the selector
                                            .theme-colour-check only, whose
                                            style nothing here writes *)
  style_top : string                     (* rule.style.top *)
}.

Record StyleSheet := mkSheet {
  ownerNode : option (option string);    (* the node's sourcePath, if any *)
  cssRules : list nat                    (* references into the rule store *)
}.

(** Work handed to [setImmediate]. *)
Inductive task :=
| TCall (h : nat) (v : value)            (* line 82 *)
| TCheckMotif.                           (* line 24 *)

(** What an observer of the program can see happen. *)
Inductive event :=
| Called (h : nat) (v : value)           (* the body of client function h ran *)
| Emitted (name : string) (v : value)    (* line 100 dispatched on the hub *)
| ResolveCall (p : nat) (v : value).     (* line 219 called resolve *)

#[global] Instance event_eq_dec : EqDecision event.
Proof. solve_decision. Defined.

(** ** Program state *)

Record state := mkState {
  delayNext : bool;                       (* line 6 *)
  ui_disposables : option nat;            (* this.disposables *)
  ui_emitter : option nat;                (* this.emitter *)
  ui_projects : option (list string);     (* this.projects *)
  ui_lightTheme : option bool;            (* this.lightTheme *)
  ui_restoreOffset : option nat;          (* this.restoreOffset *)
  plain : list Disposable;
  groups : list (Composite nat);
  roots : list (Composite member);
  hubs : list (Emitter hfn);
  streams : list (Emitter cb);
  promises : list promise;
  rules : list CSSRule;
  styleSheets : list StyleSheet;          (* document.styleSheets *)
  packagePath : option string;            (* loadedPackages["file-icons"].path *)
  atom_project : nat;                     (* stream behind atom.project *)
  atom_themes : nat;                      (* stream behind atom.themes *)
  immediates : list task;                 (* pending setImmediate callbacks *)
  closures : nat;                         (* closures created so far *)
  log : list event
}.

Definition set_delayNext (x : bool) (s : state) : state :=
  mkState x (ui_disposables s) (ui_emitter s) (ui_projects s) (ui_lightTheme s)
    (ui_restoreOffset s) (plain s) (groups s) (roots s) (hubs s) (streams s)
    (promises s) (rules s) (styleSheets s) (packagePath s) (atom_project s)
    (atom_themes s) (immediates s) (closures s) (log s).
Definition set_ui_disposables (x : option nat) (s : state) : state :=
  mkState (delayNext s) x (ui_emitter s) (ui_projects s) (ui_lightTheme s)
    (ui_restoreOffset s) (plain s) (groups s) (roots s) (hubs s) (streams s)
    (promises s) (rules s) (styleSheets s) (packagePath s) (atom_project s)
    (atom_themes s) (immediates s) (closures s) (log s).
Definition set_ui_emitter (x : option nat) (s : state) : state :=
  mkState (delayNext s) (ui_disposables s) x (ui_projects s) (ui_lightTheme s)
    (ui_restoreOffset s) (plain s) (groups s) (roots s) (hubs s) (streams s)
    (promises s) (rules s) (styleSheets s) (packagePath s) (atom_project s)
    (atom_themes s) (immediates s) (closures s) (log s).
Definition set_ui_projects (x : option (list string)) (s : state) : state :=
  mkState (delayNext s) (ui_disposables s) (ui_emitter s) x (ui_lightTheme s)
    (ui_restoreOffset s) (plain s) (groups s) (roots s) (hubs s) (streams s)
    (promises s) (rules s) (styleSheets s) (packagePath s) (atom_project s)
    (atom_themes s) (immediates s) (closures s) (log s).
Definition set_ui_lightTheme (x : option bool) (s : state) : state :=
  mkState (delayNext s) (ui_disposables s) (ui_emitter s) (ui_projects s) x
    (ui_restoreOffset s) (plain s) (groups s) (roots s) (hubs s) (streams s)
    (promises s) (rules s) (styleSheets s) (packagePath s) (atom_project s)
    (atom_themes s) (immediates s) (closures s) (log s).
Definition set_ui_restoreOffset (x : option nat) (s : state) : state :=
  mkState (delayNext s) (ui_disposables s) (ui_emitter s) (ui_projects s)
    (ui_lightTheme s) x (plain s) (groups s) (roots s) (hubs s) (streams s)
    (promises s) (rules s) (styleSheets s) (packagePath s) (atom_project s)
    (atom_themes s) (immediates s) (closures s) (log s).
Definition set_plain (x : list Disposable) (s : state) : state :=
  mkState (delayNext s) (ui_disposables s) (ui_emitter s) (ui_projects s)
    (ui_lightTheme s) (ui_restoreOffset s) x (groups s) (roots s) (hubs s)
    (streams s) (promises s) (rules s) (styleSheets s) (packagePath s)
    (atom_project s) (atom_themes s) (immediates s) (closures s) (log s).
Definition set_groups (x : list (Composite nat)) (s : state) : state :=
  mkState (delayNext s) (ui_disposables s) (ui_emitter s) (ui_projects s)
    (ui_lightTheme s) (ui_restoreOffset s) (plain s) x (roots s) (hubs s)
    (streams s) (promises s) (rules s) (styleSheets s) (packagePath s)
    (atom_project s) (atom_themes s) (immediates s) (closures s) (log s).
Definition set_roots (x : list (Composite member)) (s : state) : state :=
  mkState (delayNext s) (ui_disposables s) (ui_emitter s) (ui_projects s)
    (ui_lightTheme s) (ui_restoreOffset s) (plain s) (groups s) x (hubs s)
    (streams s) (promises s) (rules s) (styleSheets s) (packagePath s)
    (atom_project s) (atom_themes s) (immediates s) (closures s) (log s).
Definition set_hubs (x : list (Emitter hfn)) (s : state) : state :=
  mkState (delayNext s) (ui_disposables s) (ui_emitter s) (ui_projects s)
    (ui_lightTheme s) (ui_restoreOffset s) (plain s) (groups s) (roots s) x
    (streams s) (promises s) (rules s) (styleSheets s) (packagePath s)
    (atom_project s) (atom_themes s) (immediates s) (closures s) (log s).
Definition set_streams (x : list (Emitter cb)) (s : state) : state :=
  mkState (delayNext s) (ui_disposables s) (ui_emitter s) (ui_projects s)
    (ui_lightTheme s) (ui_restoreOffset s) (plain s) (groups s) (roots s)
    (hubs s) x (promises s) (rules s) (styleSheets s) (packagePath s)
    (atom_project s) (atom_themes s) (immediates s) (closures s) (log s).
Definition set_promises (x : list promise) (s : state) : state :=
  mkState (delayNext s) (ui_disposables s) (ui_emitter s) (ui_projects s)
    (ui_lightTheme s) (ui_restoreOffset s) (plain s) (groups s) (roots s)
    (hubs s) (streams s) x (rules s) (styleSheets s) (packagePath s)
    (atom_project s) (atom_themes s) (immediates s) (closures s) (log s).
Definition set_rules (x : list CSSRule) (s : state) : state :=
  mkState (delayNext s) (ui_disposables s) (ui_emitter s) (ui_projects s)
    (ui_lightTheme s) (ui_restoreOffset s) (plain s) (groups s) (roots s)
    (hubs s) (streams s) (promises s) x (styleSheets s) (packagePath s)
    (atom_project s) (atom_themes s) (immediates s) (closures s) (log s).
Definition set_immediates (x : list task) (s : state) : state :=
  mkState (delayNext s) (ui_disposables s) (ui_emitter s) (ui_projects s)
    (ui_lightTheme s) (ui_restoreOffset s) (plain s) (groups s) (roots s)
    (hubs s) (streams s) (promises s) (rules s) (styleSheets s) (packagePath s)
    (atom_project s) (atom_themes s) x (closures s) (log s).
Definition set_closures (x : nat) (s : state) : state :=
  mkState (delayNext s) (ui_disposables s) (ui_emitter s) (ui_projects s)
    (ui_lightTheme s) (ui_restoreOffset s) (plain s) (groups s) (roots s)
    (hubs s) (streams s) (promises s) (rules s) (styleSheets s) (packagePath s)
    (atom_project s) (atom_themes s) (immediates s) x (log s).
Definition set_log (x : list event) (s : state) : state :=
  mkState (delayNext s) (ui_disposables s) (ui_emitter s) (ui_projects s)
    (ui_lightTheme s) (ui_restoreOffset s) (plain s) (groups s) (roots s)
    (hubs s) (streams s) (promises s) (rules s) (styleSheets s) (packagePath s)
    (atom_project s) (atom_themes s) (immediates s) (closures s) x.

(** ** The monad of methods *)

Inductive error :=
| TypeError                (* a property of undefined or null was read *)
| EmitterDisposed          (* Emitter.on: 'Emitter has been disposed' *)
| Dangling.                (* a reference outside its store; no JavaScript
                              program reaches this *)

Inductive outcome (A : Type) :=
| Ok (a : A) (s : state)
| Throw (e : error) (s : state).
Arguments Ok {A}.
Arguments Throw {A}.

Definition M (A : Type) := state -> outcome A.

Definition ret {A} (a : A) : M A := fun s => Ok a s.
Definition throw {A} (e : error) : M A := fun s => Throw e s.
Definition bind {A B} (m : M A) (k : A -> M B) : M B :=
  fun s => match m s with
           | Ok a s' => k a s'
           | Throw e s' => Throw e s'
           end.
Definition get : M state := fun s => Ok s s.
Definition modify (f : state -> state) : M unit := fun s => Ok tt (f s).

Notation "x <- m ;; k" := (bind m (fun x => k))
  (at level 100, m at next level, right associativity).
Notation "m ;;; k" := (bind m (fun _ => k))
  (at level 100, right associativity).

(** The state an outcome leaves behind, and whether it completed. *)
Definition final {A} (o : outcome A) : state :=
  match o with Ok _ s => s | Throw _ s => s end.
Definition completes {A} (o : outcome A) : Prop :=
  match o with Ok _ _ => True | Throw _ _ => False end.

(** [for (const x of l) body(x)]: the first exception ends the loop. *)
Fixpoint forEach {A} (body : A -> M unit) (l : list A) : M unit :=
  match l with
  | [] => ret tt
  | x :: l' => body x ;;; forEach body l'
  end.

(** Reading a reference. *)
Definition deref {A} (store : state -> list A) (i : nat) : M A :=
  fun s => match store s !! i with
           | Some a => Ok a s
           | None => Throw Dangling s
           end.

(** Reading a field that may be undefined, for a property access on it. *)
Definition defined {A} (field : state -> option A) : M A :=
  fun s => match field s with
           | Some a => Ok a s
           | None => Throw TypeError s
           end.

Definition emit_log (e : event) : M unit :=
  modify (fun s => set_log (log s ++ [e]) s).

(** ** The [atom] module: Disposable, CompositeDisposable, Emitter *)

(** *** CompositeDisposable: the operations on one object *)

Section CompositeObject.
Context {A : Type} `{EqDecision A}.

(** [add]: ignored once disposed; a [Set] keeps one copy, in insertion
    order. *)
Definition Composite_add (x : A) (c : Composite A) : Composite A :=
  if c_disposed c then c
  else if decide (x ∈ c_members c) then c
  else mkComposite false (c_members c ++ [x]).

(** [remove]: ignored once disposed; the member is not disposed. *)
Definition Composite_remove (x : A) (c : Composite A) : Composite A :=
  if c_disposed c then c
  else mkComposite false (filter (λ y, y ≠ x) (c_members c)).
End CompositeObject.

(** *** Emitter: the handler table *)

(** [handlersByEventName] is a plain object ([{}]): reading it under a name
    it has no entry for finds what [Object.prototype] has under that name,
    a function or an object, where undefined was meant. *)
Definition object_prototype : list string :=
  ["constructor"; "__defineGetter__"; "__defineSetter__"; "hasOwnProperty";
   "__lookupGetter__"; "__lookupSetter__"; "isPrototypeOf";
   "propertyIsEnumerable"; "toString"; "valueOf"; "__proto__"; "toLocaleString"].

Definition is_inherited (name : string) : bool :=
  existsb (String.eqb name) object_prototype.

Section HandlerTable.
Context {F : Type} `{EqDecision F}.

(** [handlersByEventName[name]] is an inherited property, not a list of
    handlers. *)
Definition inherited (name : string) (m : gmap string (list F)) : bool :=
  match m !! name with
  | Some _ => false
  | None => is_inherited name
  end.

(** [handlers.indexOf(f)] then [splice]: the first occurrence goes. *)
Fixpoint remove_first (f : F) (l : list F) : list F :=
  match l with
  | [] => []
  | x :: l' => if decide (x = f) then l' else x :: remove_first f l'
  end.

Definition table_on (name : string) (f : F) (m : gmap string (list F))
  : gmap string (list F) :=
  match m !! name with
  | Some l => <[name := l ++ [f]]> m
  | None => <[name := [f]]> m
  end.

Definition table_off (name : string) (f : F) (m : gmap string (list F))
  : gmap string (list F) :=
  match m !! name with
  | Some l =>
      match remove_first f l with
      | [] => delete name m
      | l' => <[name := l']> m
      end
  | None => m
  end.

(** [Emitter.off]: nothing once disposed.  It is called by the Disposable
    that [on] returned and by nothing else, hence under a name for which
    [on] found no inherited property. *)
Definition Emitter_off_obj (name : string) (f : F) (em : Emitter F) : Emitter F :=
  if e_disposed em then em
  else mkEmitter false (e_subscriptions em) (table_off name f <$> e_handlers em).
End HandlerTable.

(** *** Allocation and in-place update *)

Definition new_plain (a : action) : M nat :=
  fun s => Ok (length (plain s)) (set_plain (plain s ++ [mkDisposable false (Some a)]) s).

Definition new_group (ms : list nat) : M nat :=
  fun s => Ok (length (groups s)) (set_groups (groups s ++ [mkComposite false ms]) s).

Definition new_root : M nat :=
  fun s => Ok (length (roots s)) (set_roots (roots s ++ [mkComposite false []]) s).

Definition group_add (g x : nat) : M unit :=
  c <- deref groups g ;;
  modify (fun s => set_groups (<[g := Composite_add x c]> (groups s)) s).

Definition group_remove (g x : nat) : M unit :=
  c <- deref groups g ;;
  modify (fun s => set_groups (<[g := Composite_remove x c]> (groups s)) s).

Definition root_add (r : nat) (x : member) : M unit :=
  c <- deref roots r ;;
  modify (fun s => set_roots (<[r := Composite_add x c]> (roots s)) s).

Definition root_remove (r : nat) (x : member) : M unit :=
  c <- deref roots r ;;
  modify (fun s => set_roots (<[r := Composite_remove x c]> (roots s)) s).

Definition hub_off (e : nat) (name : string) (f : hfn) : M unit :=
  em <- deref hubs e ;;
  modify (fun s => set_hubs (<[e := Emitter_off_obj name f em]> (hubs s)) s).

Definition stream_off (e : nat) (name : string) (f : cb) : M unit :=
  em <- deref streams e ;;
  modify (fun s => set_streams (<[e := Emitter_off_obj name f em]> (streams s)) s).

(** *** Disposable *)

(** Running the function disposable [d] was built with. *)
Definition run_action (d : nat) (a : action) : M unit :=
  match a with
  | ANoop => ret tt
  | AOffHub e name f =>
      (* () => { this.subscriptions.remove(disposable); this.off(name, f) } *)
      em <- deref hubs e ;;
      group_remove (e_subscriptions em) d ;;;
      hub_off e name f
  | AOffStream e name f =>
      em <- deref streams e ;;
      group_remove (e_subscriptions em) d ;;;
      stream_off e name f
  | ADetach cd =>
      (* _ => this.disposables.remove(cd) *)
      r <- defined ui_disposables ;;
      root_remove r (MGroup cd)
  | ARestoreTop rule offset =>
      (* _ => rule.style.top = offset *)
      ru <- deref rules rule ;;
      modify (fun s => set_rules
        (<[rule := mkRule (selectorText ru) (cssText ru) offset]> (rules s)) s)
  end.

(** [Disposable.dispose]: at most once; the flag is set before the action
    runs and the action is dropped after it. *)
Definition Disposable_dispose (d : nat) : M unit :=
  o <- deref plain d ;;
  if d_disposed o then ret tt
  else
    modify (fun s => set_plain (<[d := mkDisposable true (d_action o)]> (plain s)) s) ;;;
    match d_action o with
    | Some a => run_action d a
    | None => ret tt
    end ;;;
    modify (fun s => set_plain (<[d := mkDisposable true None]> (plain s)) s).

(** *** CompositeDisposable.dispose *)

Definition group_dispose (g : nat) : M unit :=
  c <- deref groups g ;;
  if c_disposed c then ret tt
  else
    modify (fun s => set_groups (<[g := mkComposite true (c_members c)]> (groups s)) s) ;;;
    forEach Disposable_dispose (c_members c) ;;;
    modify (fun s => set_groups (<[g := mkComposite true []]> (groups s)) s).

Definition member_dispose (x : member) : M unit :=
  match x with
  | MPlain d => Disposable_dispose d
  | MGroup g => group_dispose g
  end.

Definition root_dispose (r : nat) : M unit :=
  c <- deref roots r ;;
  if c_disposed c then ret tt
  else
    modify (fun s => set_roots (<[r := mkComposite true (c_members c)]> (roots s)) s) ;;;
    forEach member_dispose (c_members c) ;;;
    modify (fun s => set_roots (<[r := mkComposite true []]> (roots s)) s).

(** *** Emitter *)

Section EmitterClass.
Context {F : Type} `{EqDecision F}.
Variable store : state -> list (Emitter F).
Variable set_store : list (Emitter F) -> state -> state.
Variable cleanup : nat -> string -> F -> action.

(** [new Emitter()]: the constructor calls [clear], which builds the
    subscriptions composite and an empty table. *)
Definition Emitter_new : M nat :=
  subs <- new_group [] ;;
  fun s => Ok (length (store s))
              (set_store (store s ++ [mkEmitter false subs (Some ∅)]) s).

(** [on(eventName, handler)] *)
Definition Emitter_on (e : nat) (name : string) (f : F) : M nat :=
  em <- deref store e ;;
  if e_disposed em then throw EmitterDisposed
  else
    tbl <- (match e_handlers em with
            | Some tbl => ret tbl
            | None => throw TypeError
            end) ;;
    if inherited name tbl then throw TypeError     (* currentHandlers.push(handler) *)
    else
      modify (fun s => set_store
        (<[e := mkEmitter false (e_subscriptions em) (Some (table_on name f tbl))]>
           (store s)) s) ;;;
      d <- new_plain (cleanup e name f) ;;
      group_add (e_subscriptions em) d ;;;
      ret d.

(** [emit(eventName, value)]: the handlers are those of the table when the
    call starts. *)
Definition Emitter_emit (dispatch : F -> value -> M unit)
    (e : nat) (name : string) (v : value) : M unit :=
  em <- deref store e ;;
  match e_handlers em with
  | None => ret tt
  | Some tbl =>
      if inherited name tbl then throw TypeError   (* handlers.slice() *)
      else
        match tbl !! name with
        | None => ret tt
        | Some l => forEach (fun f => dispatch f v) l
        end
  end.

(** [dispose()] *)
Definition Emitter_dispose (e : nat) : M unit :=
  em <- deref store e ;;
  group_dispose (e_subscriptions em) ;;;
  modify (fun s => set_store
    (alter (fun em' => mkEmitter true (e_subscriptions em') None) e (store s)) s).
End EmitterClass.

Definition hub_new : M nat := Emitter_new hubs set_hubs.
Definition hub_on : nat -> string -> hfn -> M nat := Emitter_on hubs set_hubs AOffHub.
Definition hub_dispose : nat -> M unit := Emitter_dispose hubs set_hubs.
Definition stream_new : M nat := Emitter_new streams set_streams.
Definition stream_on : nat -> string -> cb -> M nat := Emitter_on streams set_streams AOffStream.

(** ** The host's scheduler *)

Definition setImmediate (t : task) : M unit :=
  modify (fun s => set_immediates (immediates s ++ [t]) s).

(** ** The class UI *)

(** Calling a function registered on the hub with one argument. *)
Definition call_hfn (f : hfn) (v : value) : M unit :=
  match f with
  | Handler h => emit_log (Called h v)
  | Deferred _ h =>
      (* function(...args){ setImmediate(() => originalHandler.call(this, ...args)) } *)
      setImmediate (TCall h v)
  end.

Definition hub_emit : nat -> string -> value -> M unit :=
  Emitter_emit hubs call_hfn.

(** lines 31-36 *)
Definition reset : M unit :=
  s <- get ;;
  match ui_disposables s with Some r => root_dispose r | None => ret tt end ;;;
  match ui_emitter s with Some e => hub_dispose e | None => ret tt end ;;;
  r <- new_root ;;
  modify (set_ui_disposables (Some r)) ;;;
  e <- hub_new ;;
  modify (set_ui_emitter (Some e)).

(** lines 11-13 *)
Definition constructor : M unit := reset.

(** lines 78-89 *)
Definition subscribe (eventName : string) (handler : nat) : M nat :=
  s <- get ;;
  f <- (if delayNext s then
          let w := closures s in
          modify (set_closures (S w)) ;;;
          modify (set_delayNext false) ;;;
          ret (Deferred w handler)
        else ret (Handler handler)) ;;
  s <- get ;;
  match ui_emitter s with
  | Some e => hub_on e eventName f
  | None => new_plain ANoop
  end.

(** lines 98-101.  [Emitter.emit] takes one value: of the spread [...args]
    it sees the first, or undefined. *)
Definition emit (eventName : string) (args : list value) : M unit :=
  s <- get ;;
  match ui_emitter s with
  | None => ret tt
  | Some e =>
      let v := default VUndefined (head args) in
      emit_log (Emitted eventName v) ;;;
      hub_emit e eventName v
  end.

(** lines 109-112; the getter returns [this]. *)
Definition delay : M unit := modify (set_delayNext true).

(** lines 128-136: each [emitX(...$)] is [this.emit(name, $)]. *)
Definition emitMotifChanged (args : list value) : M unit := emit "motif-changed" args.
Definition emitProjectsAvailable (args : list value) : M unit := emit "projects-available" args.
Definition emitProjectsChanged (args : list value) : M unit := emit "projects-changed" args.
Definition emitProjectsEmptied (args : list value) : M unit := emit "projects-emptied" args.
Definition emitOpenedArchive (args : list value) : M unit := emit "open-archive" args.
Definition emitOpenedEditor (args : list value) : M unit := emit "open-editor" args.
Definition emitOpenedFile (args : list value) : M unit := emit "open-file" args.
Definition emitOpenedBlank (args : list value) : M unit := emit "open-blank" args.
Definition emitOpenedProject (args : list value) : M unit := emit "open-project" args.

(** lines 116-125: each [onX(fn)] is [this.subscribe(name, fn)]. *)
Definition onMotifChanged (fn : nat) : M nat := subscribe "motif-changed" fn.
Definition onOpenArchive (fn : nat) : M nat := subscribe "open-archive" fn.
Definition onOpenEditor (fn : nat) : M nat := subscribe "open-editor" fn.
Definition onOpenFile (fn : nat) : M nat := subscribe "open-file" fn.
Definition onOpenBlank (fn : nat) : M nat := subscribe "open-blank" fn.
Definition onOpenProject (fn : nat) : M nat := subscribe "open-project" fn.
Definition onProjectsAvailable (fn : nat) : M nat := subscribe "projects-available" fn.
Definition onProjectsChanged (fn : nat) : M nat := subscribe "projects-changed" fn.
Definition onProjectsEmptied (fn : nat) : M nat := subscribe "projects-emptied" fn.
Definition onSaveNewFile (fn : nat) : M nat := subscribe "save-new-file" fn.

(** An open text editor, as line 141 sees it: the object, and what its
    [getFileName()] returns (a string, or undefined). *)
Record TextEditor := mkEditor {
  ed_ref : nat;
  getFileName : option string
}.

(** Truthiness of a string or undefined. *)
Definition truthy (x : option string) : bool :=
  match x with
  | Some "" => false
  | Some _ => true
  | None => false
  end.

(** lines 139-143.  [editors] is what [atom.textEditors.editors] holds when
    the method is called; [fn(editor)] is the call of a client function. *)
Definition observeFiles (editors : list TextEditor) (fn : nat) : M nat :=
  forEach (fun editor =>
             if truthy (getFileName editor)
             then emit_log (Called fn (VOther (ed_ref editor)))
             else ret tt) editors ;;;
  onOpenFile fn.

(** [Array.prototype.join] on an array of strings. *)
Fixpoint join (sep : string) (l : list string) : string :=
  match l with
  | [] => ""
  | [x] => x
  | x :: l' => x +:+ sep +:+ join sep l'
  end.

Definition newline : string := String (Ascii.ascii_of_nat 10) EmptyString.

(** lines 249-258 *)
Definition setProjects (to : list string) : M unit :=
  from <- defined ui_projects ;;
  if decide (join newline from ≠ join newline to) then
    modify (set_ui_projects (Some to)) ;;;
    match to with
    | _ :: _ => emitProjectsAvailable []
    | [] => emitProjectsEmptied []
    end ;;;
    emitProjectsChanged [VChange from to]
  else ret tt.

(** lines 182-209 *)
Definition offsetSelector : string :=
  ".list-group .icon::before, .list-tree .icon::before".

(** The body of the innermost [if], lines 195-205, for rule [r]. *)
Definition patchOffset (r : nat) (ru : CSSRule) : M unit :=
  let offset := style_top ru in
  modify (fun s => set_rules
    (<[r := mkRule (selectorText ru) (cssText ru) ""]> (rules s)) s) ;;;
  s <- get ;;
  match ui_restoreOffset s with
  | Some old =>
      Disposable_dispose old ;;;
      d <- defined ui_disposables ;;
      root_remove d (MPlain old)
  | None => ret tt
  end ;;;
  n <- new_plain (ARestoreTop r offset) ;;
  modify (set_ui_restoreOffset (Some n)) ;;;
  d <- defined ui_disposables ;;
  root_add d (MPlain n).

(** The inner loop; [true] when the method returned from inside it. *)
Fixpoint fixOffset_rules (rs : list nat) : M bool :=
  match rs with
  | [] => ret false
  | r :: rs' =>
      ru <- deref rules r ;;
      if decide (selectorText ru = Some offsetSelector ∧ style_top ru ≠ "")
      then patchOffset r ru ;;; ret true
      else fixOffset_rules rs'
  end.

Fixpoint fixOffset_sheets (sheets : list StyleSheet) : M unit :=
  match sheets with
  | [] => ret tt
  | sh :: sheets' =>
      returned <- fixOffset_rules (cssRules sh) ;;
      if returned : bool then ret tt else fixOffset_sheets sheets'
  end.

Definition fixOffset : M unit :=
  s <- get ;;
  fixOffset_sheets (styleSheets s).

(** *** Promises *)

Definition new_promise : M nat :=
  fun s => Ok (length (promises s)) (set_promises (promises s ++ [Pending]) s).

(** Calling the [resolve] function of promise [p]: only a pending promise
    changes. *)
Definition resolve (p : nat) (v : value) : M unit :=
  emit_log (ResolveCall p v) ;;;
  pr <- deref promises p ;;
  match pr with
  | Pending => modify (fun s => set_promises (<[p := Resolved v]> (promises s)) s)
  | _ => ret tt
  end.

(** [new Promise(executor)]: an exception of the executor rejects. *)
Definition run_executor (p : nat) (body : M unit) : M unit :=
  fun s => match body s with
           | Ok _ s' => Ok tt s'
           | Throw _ s' =>
               match promises s' !! p with
               | Some Pending => Ok tt (set_promises (<[p := Rejected]> (promises s')) s')
               | _ => Ok tt s'
               end
           end.

(** [new CompositeDisposable(...ms)]: the constructor adds each argument. *)
Definition new_group_of (ms : list nat) : M nat :=
  new_group (c_members (foldl (fun c x => Composite_add x c) (mkComposite false []) ms)).

(** lines 212-224.  [editor] is the stream of the document's notifications;
    [onDidDestroy] and [onDidChangePath] register on it and return the
    disposable that unregisters.  The closures of lines 215-220 capture the
    binding [cd], which holds the composite built at line 214. *)
Definition waitToSave (editor : nat) : M nat :=
  p <- new_promise ;;
  run_executor p (
    s <- get ;;
    let cd := length (groups s) in
    d1 <- new_plain (ADetach cd) ;;
    d2 <- stream_on editor "did-destroy" (CbDestroy cd) ;;
    d3 <- stream_on editor "did-change-path" (CbChangePath cd p) ;;
    cd' <- new_group_of [d1; d2; d3] ;;
    r <- defined ui_disposables ;;
    root_add r (MGroup cd')) ;;;
  ret p.

(** lines 17-28 *)
Definition init : M unit :=
  modify (set_ui_projects (Some [])) ;;;
  modify (set_ui_lightTheme (Some false)) ;;;
  r <- defined ui_disposables ;;
  s <- get ;;
  modify (set_closures (S (S (closures s)))) ;;;
  d1 <- stream_on (atom_project s) "did-change-paths" (CbSetProjects (closures s)) ;;
  d2 <- stream_on (atom_themes s) "did-change-active-themes" (CbThemes (S (closures s))) ;;
  root_add r (MPlain d1) ;;;
  root_add r (MPlain d2).

(** *** Collaborator streams *)

(** Calling a callback of lines 22-26 and 216-220 with one argument. *)
Definition call_cb (f : cb) (v : value) : M unit :=
  match f with
  | CbSetProjects _ =>
      match v with
      | VPaths l => setProjects l
      | VUndefined => setProjects []          (* the default of line 249 *)
      | _ => throw TypeError
      end
  | CbThemes _ => setImmediate TCheckMotif ;;; fixOffset
  | CbDestroy cd => group_dispose cd
  | CbChangePath cd p => group_dispose cd ;;; resolve p v
  end.

Definition stream_emit : nat -> string -> value -> M unit :=
  Emitter_emit streams call_cb.

(** The document reports a new path, or its destruction. *)
Definition notify_path_changed (editor : nat) (file : string) : M unit :=
  stream_emit editor "did-change-path" (VString file).
Definition notify_destroyed (editor : nat) : M unit :=
  stream_emit editor "did-destroy" VUndefined.

(** *** The theme colour *)

(** Built-ins of the runtime, and [rgbToHSL] of [lib/utils/general.js]. *)
Record host := mkHost {
  num : Type;                                      (* JavaScript numbers *)
  path_join : list string -> string;               (* path.join *)
  match_rgb : string -> option string;             (* s.match(/rgb\(.+\)/), element 0 *)
  match_channels : string -> option (list string); (* s.match(/[\d.]+(?=[,)])/g) *)
  Number : string -> num;
  rgbToHSL : list num -> list num;
  ge_half : num -> bool                            (* x >= .5 *)
}.

Section Host.
Variable env : host.

(** lines 146-155 *)
Definition getStyleElement (filename : string) : M (option StyleSheet) :=
  packagePath <- defined packagePath ;;
  let stylePath := path_join env [packagePath; "styles"; filename] in
  s <- get ;;
  ret (List.find (fun sh => bool_decide (ownerNode sh = Some (Some stylePath)))
                 (styleSheets s)).

(** The loop of lines 160-166 over the rules of the sheet. *)
Fixpoint themeColour_rules (rs : list nat) : M (option (list (num env))) :=
  match rs with
  | [] => ret None
  | r :: rs' =>
      ru <- deref rules r ;;
      if decide (selectorText ru = Some ".theme-colour-check") then
        match match_rgb env (cssText ru) with
        | Some m =>
            match match_channels env m with
            | Some l => ret (Some (map (Number env) l))
            | None => throw TypeError          (* null.map *)
            end
        | None => ret None
        end
      else themeColour_rules rs'
  end.

(** lines 158-168 *)
Definition getThemeColour : M (option (list (num env))) :=
  styleSheet <- getStyleElement "colours.less" ;;
  match styleSheet with
  | Some sh => themeColour_rules (cssRules sh)
  | None => throw TypeError                    (* null.cssRules *)
  end.

(** [rgbToHSL(colour)[2] >= .5]; a missing element compares false. *)
Definition isLightColour (colour : list (num env)) : bool :=
  match rgbToHSL env colour !! 2 with
  | Some l => ge_half env l
  | None => false
  end.

(** lines 175-178, for the flag [isLight] computed at line 174 *)
Definition motif_edge (isLight : bool) : M unit :=
  s <- get ;;
  if decide (Some isLight ≠ ui_lightTheme s) then
    modify (set_ui_lightTheme (Some isLight)) ;;;
    emitMotifChanged [VBool isLight]
  else ret tt.

(** lines 171-179 *)
Definition checkMotif : M unit :=
  colour <- getThemeColour ;;
  match colour with
  | None => ret tt
  | Some c => motif_edge (isLightColour c)
  end.

(** *** One turn of the scheduler *)

Definition run_task (t : task) : M unit :=
  match t with
  | TCall h v => emit_log (Called h v)
  | TCheckMotif => checkMotif
  end.

(** The oldest pending [setImmediate] callback runs, if there is one. *)
Definition turn : M unit :=
  s <- get ;;
  match immediates s with
  | [] => ret tt
  | t :: ts => modify (set_immediates ts) ;;; run_task t
  end.

(** *** Everything that can happen to the module *)

Inductive call :=
| CInit
| CReset
| CDelay
| CSubscribe (name : string) (h : nat)
| CEmit (name : string) (args : list value)
| CSetProjects (to : list string)
| CCheckMotif
| CFixOffset
| CWaitToSave (editor : nat)
| CDispose (d : nat)                       (* someone disposes a Disposable *)
| CPathChanged (editor : nat) (file : string)
| CDestroyed (editor : nat)
| CProjectPaths (l : list string)          (* atom.project reports its paths *)
| CThemesChanged                           (* atom.themes reports a change *)
| COpenDocument                            (* the host creates a document *)
| CTurn.

Definition exec (c : call) : M unit :=
  match c with
  | CInit => init
  | CReset => reset
  | CDelay => delay
  | CSubscribe name h => subscribe name h ;;; ret tt
  | CEmit name args => emit name args
  | CSetProjects to => setProjects to
  | CCheckMotif => checkMotif
  | CFixOffset => fixOffset
  | CWaitToSave editor => waitToSave editor ;;; ret tt
  | CDispose d => Disposable_dispose d
  | CPathChanged editor file => notify_path_changed editor file
  | CDestroyed editor => notify_destroyed editor
  | CProjectPaths l =>
      s <- get ;; stream_emit (atom_project s) "did-change-paths" (VPaths l)
  | CThemesChanged =>
      s <- get ;; stream_emit (atom_themes s) "did-change-active-themes" VUndefined
  | COpenDocument => stream_new ;;; ret tt
  | CTurn => turn
  end.

(** An exception ends the call that raised it; the host goes on. *)
Definition run (cs : list call) (s : state) : state :=
  foldl (fun s c => final (exec c s)) s cs.
End Host.

(** ** States to start from *)

(** The host before the module is loaded: no object yet but the two streams
    of [atom.project] and [atom.themes]. *)
Definition blank (sheets : list StyleSheet) (rs : list CSSRule) (pkg : option string) : state :=
  mkState false None None None None None [] [mkComposite false []; mkComposite false []]
    [] [] [mkEmitter false 0 (Some ∅); mkEmitter false 1 (Some ∅)] [] rs sheets pkg
    0 1 [] 0 [].

(** line 262: [module.exports = new UI()]. *)
Definition loaded (sheets : list StyleSheet) (rs : list CSSRule) (pkg : option string) : state :=
  final (constructor (blank sheets rs pkg)).

(** * Reasoning about methods *)

Lemma bind_Ok {A B} (m : M A) (k : A -> M B) s a s' :
  m s = Ok a s' -> (x <- m ;; k x) s = k a s'.
Proof. intros E. unfold bind. now rewrite E. Qed.

Lemma bind_Throw {A B} (m : M A) (k : A -> M B) s e s' :
  m s = Throw e s' -> (x <- m ;; k x) s = Throw e s'.
Proof. intros E. unfold bind. now rewrite E. Qed.

Lemma deref_Ok {A} (store : state -> list A) i a s :
  store s !! i = Some a -> deref store i s = Ok a s.
Proof. intros E. unfold deref. now rewrite E. Qed.

Lemma defined_Ok {A} (field : state -> option A) a s :
  field s = Some a -> defined field s = Ok a s.
Proof. intros E. unfold defined. now rewrite E. Qed.

Lemma inherited_own {F} name (tbl : gmap string (list F)) :
  is_inherited name = false -> inherited name tbl = false.
Proof. intros E. unfold inherited. now destruct (tbl !! name). Qed.

Lemma inherited_true {F} name (tbl : gmap string (list F)) :
  inherited name tbl = true -> is_inherited name = true.
Proof. unfold inherited. now destruct (tbl !! name). Qed.

(** ** Parts of the state a computation leaves alone *)

Definition keeps {A X} (f : state -> X) (m : M A) : Prop :=
  forall s, f (final (m s)) = f s.

Section Keeps.
Context {X : Type} (f : state -> X).

Lemma keeps_ret {A} (a : A) : keeps f (ret a).
Proof. now intros s. Qed.

Lemma keeps_throw {A} e : keeps f (@throw A e).
Proof. now intros s. Qed.

Lemma keeps_get : keeps f get.
Proof. now intros s. Qed.

Lemma keeps_deref {A} (store : state -> list A) i : keeps f (deref store i).
Proof. intros s. unfold deref. now destruct (store s !! i). Qed.

Lemma keeps_defined {A} (field : state -> option A) : keeps f (defined field).
Proof. intros s. unfold defined. now destruct (field s). Qed.

Lemma keeps_modify g : (forall s, f (g s) = f s) -> keeps f (modify g).
Proof. intros H s. apply H. Qed.

Lemma keeps_bind {A B} (m : M A) (k : A -> M B) :
  keeps f m -> (forall a, keeps f (k a)) -> keeps f (x <- m ;; k x).
Proof.
  intros Hm Hk s. unfold bind. specialize (Hm s).
  destruct (m s) as [a s'|e s']; simpl in *; [|exact Hm].
  rewrite Hk. exact Hm.
Qed.

Lemma keeps_forEach {A} (body : A -> M unit) l :
  (forall a, keeps f (body a)) -> keeps f (forEach body l).
Proof.
  intros Hb. induction l as [|a l IH]; simpl.
  - apply keeps_ret.
  - apply keeps_bind; auto.
Qed.
End Keeps.

(** One step of a proof that a method keeps a projection: peel a bind, close
    a leaf, or split on what the code branches on. *)
Ltac keeps_step :=
  match goal with
  | |- keeps _ (bind _ _) => apply keeps_bind; [|intros]
  | |- keeps _ (ret _) => apply keeps_ret
  | |- keeps _ (throw _) => apply keeps_throw
  | |- keeps _ get => apply keeps_get
  | |- keeps _ (deref _ _) => apply keeps_deref
  | |- keeps _ (defined _) => apply keeps_defined
  | |- keeps _ (modify _) => apply keeps_modify; intros; first [reflexivity | solve [auto]]
  | |- keeps _ (forEach _ _) => apply keeps_forEach; intros
  | |- keeps _ (match ?x with _ => _ end) => destruct x
  | |- keeps _ (if ?x then _ else _) => destruct x
  | H : keeps ?f ?m |- keeps ?f ?m => exact H
  end.
Ltac keeps_tac := repeat keeps_step.

(** ** The delay flag is touched by [subscribe] and [delay] only *)

Create HintDb keeps.
Create HintDb pres.

Ltac keeps_auto := repeat first [keeps_step | solve [auto with keeps]].

Lemma dn_new_plain a : keeps delayNext (new_plain a).
Proof. now intros s. Qed.
Lemma dn_new_group ms : keeps delayNext (new_group ms).
Proof. now intros s. Qed.
Lemma dn_new_root : keeps delayNext new_root.
Proof. now intros s. Qed.
Lemma dn_new_promise : keeps delayNext new_promise.
Proof. now intros s. Qed.
#[global] Hint Resolve dn_new_plain dn_new_group dn_new_root dn_new_promise : keeps.

Lemma dn_group_add g x : keeps delayNext (group_add g x).
Proof. unfold group_add. keeps_auto. Qed.
Lemma dn_group_remove g x : keeps delayNext (group_remove g x).
Proof. unfold group_remove. keeps_auto. Qed.
Lemma dn_root_add r x : keeps delayNext (root_add r x).
Proof. unfold root_add. keeps_auto. Qed.
Lemma dn_root_remove r x : keeps delayNext (root_remove r x).
Proof. unfold root_remove. keeps_auto. Qed.
Lemma dn_hub_off e n f : keeps delayNext (hub_off e n f).
Proof. unfold hub_off. keeps_auto. Qed.
Lemma dn_stream_off e n f : keeps delayNext (stream_off e n f).
Proof. unfold stream_off. keeps_auto. Qed.
#[global] Hint Resolve dn_group_add dn_group_remove dn_root_add dn_root_remove
  dn_hub_off dn_stream_off : keeps.

Lemma dn_run_action d a : keeps delayNext (run_action d a).
Proof. unfold run_action. keeps_auto. Qed.
#[global] Hint Resolve dn_run_action : keeps.

Lemma dn_Disposable_dispose d : keeps delayNext (Disposable_dispose d).
Proof. unfold Disposable_dispose. keeps_auto. Qed.
#[global] Hint Resolve dn_Disposable_dispose : keeps.

Lemma dn_group_dispose g : keeps delayNext (group_dispose g).
Proof. unfold group_dispose. keeps_auto. Qed.
#[global] Hint Resolve dn_group_dispose : keeps.

Lemma dn_member_dispose x : keeps delayNext (member_dispose x).
Proof. unfold member_dispose. keeps_auto. Qed.
#[global] Hint Resolve dn_member_dispose : keeps.

Lemma dn_root_dispose r : keeps delayNext (root_dispose r).
Proof. unfold root_dispose. keeps_auto. Qed.
#[global] Hint Resolve dn_root_dispose : keeps.

Lemma dn_hub_new : keeps delayNext hub_new.
Proof.
  unfold hub_new, Emitter_new. keeps_auto.
Qed.
Lemma dn_stream_new : keeps delayNext stream_new.
Proof.
  unfold stream_new, Emitter_new. keeps_auto.
Qed.
Lemma dn_hub_on e n f : keeps delayNext (hub_on e n f).
Proof. unfold hub_on, Emitter_on. keeps_auto. Qed.
Lemma dn_stream_on e n f : keeps delayNext (stream_on e n f).
Proof. unfold stream_on, Emitter_on. keeps_auto. Qed.
Lemma dn_hub_dispose e : keeps delayNext (hub_dispose e).
Proof. unfold hub_dispose, Emitter_dispose. keeps_auto. Qed.
#[global] Hint Resolve dn_hub_new dn_stream_new dn_hub_on dn_stream_on dn_hub_dispose : keeps.

Lemma dn_setImmediate t : keeps delayNext (setImmediate t).
Proof. unfold setImmediate. keeps_auto. Qed.
Lemma dn_emit_log e : keeps delayNext (emit_log e).
Proof. unfold emit_log. keeps_auto. Qed.
#[global] Hint Resolve dn_setImmediate dn_emit_log : keeps.

Lemma dn_call_hfn f v : keeps delayNext (call_hfn f v).
Proof. unfold call_hfn. keeps_auto. Qed.
#[global] Hint Resolve dn_call_hfn : keeps.

Lemma dn_hub_emit e n v : keeps delayNext (hub_emit e n v).
Proof. unfold hub_emit, Emitter_emit. keeps_auto. Qed.
#[global] Hint Resolve dn_hub_emit : keeps.

Lemma dn_reset : keeps delayNext reset.
Proof. unfold reset. keeps_auto. Qed.

Lemma dn_emit n args : keeps delayNext (emit n args).
Proof. unfold emit. keeps_auto. Qed.
#[global] Hint Resolve dn_reset dn_emit : keeps.

Lemma dn_setProjects to : keeps delayNext (setProjects to).
Proof.
  unfold setProjects, emitProjectsAvailable, emitProjectsEmptied,
    emitProjectsChanged. keeps_auto.
Qed.

Lemma dn_patchOffset r ru : keeps delayNext (patchOffset r ru).
Proof. unfold patchOffset. keeps_auto. Qed.
#[global] Hint Resolve dn_setProjects dn_patchOffset : keeps.

Lemma dn_fixOffset_rules rs : keeps delayNext (fixOffset_rules rs).
Proof. induction rs; simpl; keeps_auto. Qed.
#[global] Hint Resolve dn_fixOffset_rules : keeps.

Lemma dn_fixOffset_sheets l : keeps delayNext (fixOffset_sheets l).
Proof. induction l; simpl; keeps_auto. Qed.
#[global] Hint Resolve dn_fixOffset_sheets : keeps.

Lemma dn_fixOffset : keeps delayNext fixOffset.
Proof. unfold fixOffset. keeps_auto. Qed.

Lemma dn_resolve p v : keeps delayNext (resolve p v).
Proof. unfold resolve. keeps_auto. Qed.

Lemma dn_run_executor p body : keeps delayNext body -> keeps delayNext (run_executor p body).
Proof.
  intros H s. unfold run_executor. specialize (H s).
  destruct (body s) as [a s'|e s']; simpl in *; [exact H|].
  destruct (promises s' !! p) as [[]|]; exact H.
Qed.
#[global] Hint Resolve dn_fixOffset dn_resolve : keeps.

Lemma dn_waitToSave editor : keeps delayNext (waitToSave editor).
Proof.
  unfold waitToSave. keeps_auto. apply dn_run_executor.
  unfold new_group_of. keeps_auto.
Qed.

Lemma dn_init : keeps delayNext init.
Proof. unfold init. keeps_auto. Qed.

Lemma dn_call_cb f v : keeps delayNext (call_cb f v).
Proof. unfold call_cb. keeps_auto. Qed.
#[global] Hint Resolve dn_waitToSave dn_init dn_call_cb : keeps.

Lemma dn_stream_emit e n v : keeps delayNext (stream_emit e n v).
Proof. unfold stream_emit, Emitter_emit. keeps_auto. Qed.
#[global] Hint Resolve dn_stream_emit : keeps.

Section KeepsHost.
Variable env : host.

Lemma dn_getStyleElement fn : keeps delayNext (getStyleElement env fn).
Proof. unfold getStyleElement. keeps_auto. Qed.

Lemma dn_themeColour_rules rs : keeps delayNext (themeColour_rules env rs).
Proof. induction rs; simpl; keeps_auto. Qed.

Lemma dn_getThemeColour : keeps delayNext (getThemeColour env).
Proof.
  unfold getThemeColour. keeps_auto.
  - apply dn_getStyleElement.
  - apply dn_themeColour_rules.
Qed.

Lemma dn_checkMotif : keeps delayNext (checkMotif env).
Proof.
  unfold checkMotif, motif_edge, emitMotifChanged. keeps_auto.
  apply dn_getThemeColour.
Qed.

Lemma dn_turn : keeps delayNext (turn env).
Proof.
  unfold turn, run_task. keeps_auto. apply dn_checkMotif.
Qed.
End KeepsHost.

(** ** Disposal touches the object stores only *)

Section DisposalFrame.
Context {X : Type} (f : state -> X).
Hypothesis f_plain : forall x s, f (set_plain x s) = f s.
Hypothesis f_groups : forall x s, f (set_groups x s) = f s.
Hypothesis f_roots : forall x s, f (set_roots x s) = f s.
Hypothesis f_hubs : forall x s, f (set_hubs x s) = f s.
Hypothesis f_streams : forall x s, f (set_streams x s) = f s.
Hypothesis f_rules : forall x s, f (set_rules x s) = f s.

Lemma fr_run_action d a : keeps f (run_action d a).
Proof.
  unfold run_action, group_remove, root_remove, hub_off, stream_off. keeps_auto.
Qed.

Lemma fr_Disposable_dispose d : keeps f (Disposable_dispose d).
Proof. unfold Disposable_dispose. keeps_auto. apply fr_run_action. Qed.

Lemma fr_group_dispose g : keeps f (group_dispose g).
Proof. unfold group_dispose. keeps_auto. apply fr_Disposable_dispose. Qed.

Lemma fr_member_dispose x : keeps f (member_dispose x).
Proof.
  destruct x; simpl; [apply fr_Disposable_dispose | apply fr_group_dispose].
Qed.

Lemma fr_root_dispose r : keeps f (root_dispose r).
Proof. unfold root_dispose. keeps_auto. apply fr_member_dispose. Qed.

Lemma fr_hub_dispose e : keeps f (hub_dispose e).
Proof. unfold hub_dispose, Emitter_dispose. keeps_auto. apply fr_group_dispose. Qed.
End DisposalFrame.

(** ** Invariants *)

Definition pres {A} (I : state -> Prop) (m : M A) : Prop :=
  forall s, I s -> I (final (m s)).

Section Pres.
Context (I : state -> Prop).

Lemma pres_ret {A} (a : A) : pres I (ret a).
Proof. now intros s. Qed.

Lemma pres_throw {A} e : pres I (@throw A e).
Proof. now intros s. Qed.

Lemma pres_get : pres I get.
Proof. now intros s. Qed.

Lemma pres_deref {A} (store : state -> list A) i : pres I (deref store i).
Proof. intros s. unfold deref. now destruct (store s !! i). Qed.

Lemma pres_defined {A} (field : state -> option A) : pres I (defined field).
Proof. intros s. unfold defined. now destruct (field s). Qed.

Lemma pres_modify g : (forall s, I s -> I (g s)) -> pres I (modify g).
Proof. intros H s. apply H. Qed.

Lemma pres_bind {A B} (m : M A) (k : A -> M B) :
  pres I m -> (forall a, pres I (k a)) -> pres I (x <- m ;; k x).
Proof.
  intros Hm Hk s Hs. unfold bind. specialize (Hm s Hs).
  destruct (m s) as [a s'|e s']; simpl in *; [|exact Hm].
  now apply Hk.
Qed.

Lemma pres_forEach {A} (body : A -> M unit) l :
  (forall a, a ∈ l -> pres I (body a)) -> pres I (forEach body l).
Proof.
  induction l as [|a l IH]; intros Hb; simpl.
  - apply pres_ret.
  - apply pres_bind.
    + apply Hb. left.
    + intros _. apply IH. intros b Hin. apply Hb. now right.
Qed.

Lemma pres_run_executor p body :
  pres I body ->
  (forall s, I s -> I (set_promises (<[p := Rejected]> (promises s)) s)) ->
  pres I (run_executor p body).
Proof.
  intros Hb Hr s Hs. unfold run_executor. specialize (Hb s Hs).
  destruct (body s) as [a s'|e s']; simpl in *; [exact Hb|].
  destruct (promises s' !! p) as [[]|]; simpl; auto.
Qed.
End Pres.

Ltac pres_step :=
  match goal with
  | |- pres _ (bind _ _) => apply pres_bind; [|intros]
  | |- pres _ (ret _) => apply pres_ret
  | |- pres _ (throw _) => apply pres_throw
  | |- pres _ get => apply pres_get
  | |- pres _ (deref _ _) => apply pres_deref
  | |- pres _ (defined _) => apply pres_defined
  | |- pres _ (forEach _ _) => apply pres_forEach; intros
  | |- pres _ (match ?x with _ => _ end) => destruct x
  | |- pres _ (if ?x then _ else _) => destruct x
  | H : pres ?f ?m |- pres ?f ?m => exact H
  end.

(** ** What the hub holds, and what a dispatch does *)

(** Two states with the same fields are the same state. *)
Lemma state_ext (s t : state) :
  delayNext s = delayNext t -> ui_disposables s = ui_disposables t ->
  ui_emitter s = ui_emitter t -> ui_projects s = ui_projects t ->
  ui_lightTheme s = ui_lightTheme t -> ui_restoreOffset s = ui_restoreOffset t ->
  plain s = plain t -> groups s = groups t -> roots s = roots t ->
  hubs s = hubs t -> streams s = streams t -> promises s = promises t ->
  rules s = rules t -> styleSheets s = styleSheets t ->
  packagePath s = packagePath t -> atom_project s = atom_project t ->
  atom_themes s = atom_themes t -> immediates s = immediates t ->
  closures s = closures t -> log s = log t -> s = t.
Proof. destruct s, t; simpl; intros; subst; reflexivity. Qed.

(** The functions registered for [name] on hub [e], in registration order. *)
Definition registered (e : nat) (name : string) (s : state) : list hfn :=
  match hubs s !! e with
  | Some em =>
      match e_handlers em with
      | Some tbl => default [] (tbl !! name)
      | None => []
      end
  | None => []
  end.

(** What a dispatch of [v] over [l] runs at once, and what it schedules. *)
Definition calls_of (v : value) (l : list hfn) : list event :=
  flat_map (fun f => match f with Handler h => [Called h v] | Deferred _ _ => [] end) l.
Definition tasks_of (v : value) (l : list hfn) : list task :=
  flat_map (fun f => match f with Handler _ => [] | Deferred _ h => [TCall h v] end) l.

Lemma calls_of_app v l1 l2 : calls_of v (l1 ++ l2) = calls_of v l1 ++ calls_of v l2.
Proof. unfold calls_of. now rewrite flat_map_app. Qed.
Lemma tasks_of_app v l1 l2 : tasks_of v (l1 ++ l2) = tasks_of v l1 ++ tasks_of v l2.
Proof. unfold tasks_of. now rewrite flat_map_app. Qed.

Lemma dispatch_hfn v l s :
  forEach (fun f => call_hfn f v) l s =
  Ok tt (set_immediates (immediates s ++ tasks_of v l)
           (set_log (log s ++ calls_of v l) s)).
Proof.
  revert s. induction l as [|f l IH]; intros s; simpl.
  - unfold ret. f_equal. apply state_ext; simpl; now rewrite ?app_nil_r.
  - unfold bind. destruct f as [h|w h]; simpl.
    + unfold emit_log, modify. rewrite IH. f_equal.
      apply state_ext; simpl; try reflexivity. now rewrite <- app_assoc.
    + unfold setImmediate, modify. rewrite IH. f_equal.
      apply state_ext; simpl; try reflexivity. now rewrite <- app_assoc.
Qed.

Lemma table_on_lookup {F} name (f : F) tbl :
  default [] (table_on name f tbl !! name) = default [] (tbl !! name) ++ [f].
Proof.
  unfold table_on. destruct (tbl !! name) eqn:E; now rewrite lookup_insert_eq.
Qed.

Lemma table_on_lookup_ne {F} name name' (f : F) tbl :
  name <> name' -> table_on name f tbl !! name' = tbl !! name'.
Proof.
  intros Hne. unfold table_on. destruct (tbl !! name); now rewrite lookup_insert_ne.
Qed.

(** [hub_on] on a live hub. *)
Lemma hub_on_live e name f s em tbl c :
  hubs s !! e = Some em -> e_disposed em = false -> e_handlers em = Some tbl ->
  groups s !! e_subscriptions em = Some c -> is_inherited name = false ->
  hub_on e name f s =
  Ok (length (plain s))
     (set_groups (<[e_subscriptions em := Composite_add (length (plain s)) c]> (groups s))
        (set_plain (plain s ++ [mkDisposable false (Some (AOffHub e name f))])
           (set_hubs (<[e := mkEmitter false (e_subscriptions em)
                              (Some (table_on name f tbl))]> (hubs s)) s))).
Proof.
  intros He Hd Ht Hg Hn. unfold hub_on, Emitter_on.
  rewrite (bind_Ok _ _ _ _ _ (deref_Ok _ _ _ _ He)). rewrite Hd, Ht.
  unfold new_plain, group_add, bind, ret, modify, deref; simpl.
  rewrite (inherited_own _ _ Hn). now rewrite Hg.
Qed.

(** [hub_on] under a name that [Object.prototype] defines. *)
Lemma hub_on_inherited e name f s em tbl :
  hubs s !! e = Some em -> e_disposed em = false -> e_handlers em = Some tbl ->
  inherited name tbl = true ->
  hub_on e name f s = Throw TypeError s.
Proof.
  intros He Hd Ht Hn. unfold hub_on, Emitter_on.
  rewrite (bind_Ok _ _ _ _ _ (deref_Ok _ _ _ _ He)). rewrite Hd, Ht.
  unfold bind, ret. now rewrite Hn.
Qed.

(** [emit] on a hub whose table is there. *)
Lemma emit_live e name args s em tbl :
  ui_emitter s = Some e -> hubs s !! e = Some em -> e_handlers em = Some tbl ->
  is_inherited name = false ->
  let v := default VUndefined (head args) in
  let l := default [] (tbl !! name) in
  emit name args s =
  Ok tt (set_immediates (immediates s ++ tasks_of v l)
           (set_log (log s ++ [Emitted name v] ++ calls_of v l) s)).
Proof.
  intros Hu He Ht Hn v l. unfold emit, bind, get. rewrite Hu.
  unfold emit_log, modify, hub_emit, Emitter_emit, bind, deref. simpl.
  rewrite He, Ht, (inherited_own _ _ Hn). subst l. destruct (tbl !! name) as [l|]; simpl.
  - rewrite dispatch_hfn. f_equal. apply state_ext; simpl; try reflexivity.
    now rewrite <- app_assoc.
  - unfold ret. f_equal. apply state_ext; simpl; try reflexivity.
    now rewrite app_nil_r.
Qed.

Lemma lookup_snoc {A} (l : list A) x : (l ++ [x]) !! length l = Some x.
Proof. now apply list_lookup_middle. Qed.

Lemma insert_snoc {A} (l : list A) x y : <[length l := y]> (l ++ [x]) = l ++ [y].
Proof.
  rewrite insert_app_r_alt by lia. now rewrite Nat.sub_diag.
Qed.

(** [subscribe], with the branch on the flag taken apart: the function that
    gets registered, and the state once the flag has been consumed. *)
Definition wrapped (s : state) (handler : nat) : hfn :=
  if delayNext s then Deferred (closures s) handler else Handler handler.
Definition consumed (s : state) : state :=
  if delayNext s then set_delayNext false (set_closures (S (closures s)) s) else s.

Lemma subscribe_unfold name h s :
  subscribe name h s =
  match ui_emitter s with
  | Some e => hub_on e name (wrapped s h) (consumed s)
  | None => new_plain ANoop (consumed s)
  end.
Proof.
  unfold subscribe, wrapped, consumed, bind, get.
  destruct (delayNext s); simpl; destruct (ui_emitter s); reflexivity.
Qed.

Lemma consumed_delayNext s : delayNext (consumed s) = false.
Proof. unfold consumed. destruct (delayNext s) eqn:E; simpl; auto. Qed.

Lemma consumed_plain s : plain (consumed s) = plain s.
Proof. unfold consumed. now destruct (delayNext s). Qed.
Lemma consumed_hubs s : hubs (consumed s) = hubs s.
Proof. unfold consumed. now destruct (delayNext s). Qed.
Lemma consumed_groups s : groups (consumed s) = groups s.
Proof. unfold consumed. now destruct (delayNext s). Qed.
Lemma consumed_log s : log (consumed s) = log s.
Proof. unfold consumed. now destruct (delayNext s). Qed.
Lemma consumed_immediates s : immediates (consumed s) = immediates s.
Proof. unfold consumed. now destruct (delayNext s). Qed.
Lemma consumed_ui_emitter s : ui_emitter (consumed s) = ui_emitter s.
Proof. unfold consumed. now destruct (delayNext s). Qed.

Lemma subscribe_resets_flag name h s : delayNext (final (subscribe name h s)) = false.
Proof.
  rewrite subscribe_unfold. destruct (ui_emitter s).
  - rewrite dn_hub_on. apply consumed_delayNext.
  - simpl. apply consumed_delayNext.
Qed.

Lemma subscribe_live name h s e em tbl c :
  ui_emitter s = Some e -> hubs s !! e = Some em -> e_disposed em = false ->
  e_handlers em = Some tbl -> groups s !! e_subscriptions em = Some c ->
  is_inherited name = false ->
  subscribe name h s =
  Ok (length (plain s))
     (set_groups (<[e_subscriptions em := Composite_add (length (plain s)) c]> (groups s))
        (set_plain (plain s ++ [mkDisposable false (Some (AOffHub e name (wrapped s h)))])
           (set_hubs (<[e := mkEmitter false (e_subscriptions em)
                              (Some (table_on name (wrapped s h) tbl))]> (hubs s))
              (consumed s)))).
Proof.
  intros Hu He Hd Ht Hg Hn. rewrite subscribe_unfold, Hu.
  erewrite hub_on_live; eauto.
  - now rewrite consumed_plain, consumed_hubs, consumed_groups.
  - now rewrite consumed_hubs.
  - now rewrite consumed_groups.
Qed.

Lemma registered_after_on e name f s em tbl st' :
  hubs s !! e = Some em -> e_handlers em = Some tbl ->
  hubs st' = <[e := mkEmitter false (e_subscriptions em) (Some (table_on name f tbl))]> (hubs s) ->
  registered e name st' = registered e name s ++ [f].
Proof.
  intros He Ht Hs. unfold registered. rewrite Hs, He, Ht.
  rewrite list_lookup_insert_eq by (eapply lookup_lt_Some; eauto). simpl.
  apply table_on_lookup.
Qed.

Lemma elem_of_calls_of h v v' l :
  Called h v ∈ calls_of v' l -> Handler h ∈ l.
Proof.
  unfold calls_of. rewrite !list_elem_of_In, in_flat_map.
  intros [f [Hf Hin]]. destruct f as [h'|w h']; simpl in Hin.
  - destruct Hin as [Hin|[]]. now inversion Hin; subst.
  - destruct Hin.
Qed.

(** * The claims *)

(** C9. With no emitter on the object ([this.emitter] undefined), [emit]
    returns at once and leaves the state as it was, so no handler runs;
    [subscribe] returns a fresh Disposable built from the empty function,
    registers nothing anywhere, and disposing that Disposable only marks it
    disposed.  Neither call throws. *)
Theorem torn_down_hub_is_inert name h args s :
  ui_emitter s = None ->
  emit name args s = Ok tt s /\
  exists s',
    subscribe name h s = Ok (length (plain s)) s' /\
    plain s' = plain s ++ [mkDisposable false (Some ANoop)] /\
    hubs s' = hubs s /\ groups s' = groups s /\
    log s' = log s /\ immediates s' = immediates s /\
    Disposable_dispose (length (plain s)) s' =
      Ok tt (set_plain (plain s ++ [mkDisposable true None]) s').
Proof.
  intros Hu. split.
  - unfold emit, bind, get. now rewrite Hu.
  - rewrite subscribe_unfold, Hu. unfold new_plain. rewrite consumed_plain.
    eexists. split; [reflexivity|]. simpl.
    rewrite consumed_hubs, consumed_groups, consumed_log, consumed_immediates.
    repeat split.
    unfold Disposable_dispose, bind, deref. simpl.
    rewrite lookup_snoc. simpl.
    unfold modify, ret. f_equal.
    apply state_ext; simpl; try reflexivity.
    now rewrite !insert_snoc.
Qed.

Lemma torn_down_hub_is_inert_witness :
  emit "open-file" [VOther 0] (blank [] [] None) = Ok tt (blank [] [] None) /\
  exists s',
    subscribe "open-file" 7 (blank [] [] None) = Ok 0 s' /\
    plain s' = [mkDisposable false (Some ANoop)] /\
    hubs s' = [] /\ groups s' = groups (blank [] [] None) /\
    log s' = [] /\ immediates s' = [] /\
    Disposable_dispose 0 s' = Ok tt (set_plain [mkDisposable true None] s').
Proof.
  apply (torn_down_hub_is_inert "open-file" 7 [VOther 0] (blank [] [] None)).
  reflexivity.
Defined.





(** ** Where a call of a handler can come from *)

Lemma remove_first_elem {F} `{EqDecision F} (f0 f : F) l :
  f ∈ remove_first f0 l -> f ∈ l.
Proof.
  induction l as [|x l IH]; simpl; [easy|].
  destruct (decide (x = f0)).
  - intros. now right.
  - rewrite !elem_of_cons. intros [->|Hin]; auto.
Qed.

Lemma table_off_elem {F} `{EqDecision F} n0 (f0 : F) tbl n l f :
  table_off n0 f0 tbl !! n = Some l -> f ∈ l ->
  exists l0, tbl !! n = Some l0 /\ f ∈ l0.
Proof.
  unfold table_off. destruct (tbl !! n0) as [l1|] eqn:E1; [|eauto].
  destruct (decide (n0 = n)) as [->|Hne].
  - destruct (remove_first f0 l1) as [|x l'] eqn:E2.
    + now rewrite lookup_delete_eq.
    + rewrite lookup_insert_eq. intros [= <-] Hin. exists l1. split; [easy|].
      apply (remove_first_elem f0). now rewrite E2.
  - destruct (remove_first f0 l1).
    + rewrite lookup_delete_ne by easy. eauto.
    + rewrite lookup_insert_ne by easy. eauto.
Qed.

Lemma table_on_elem {F} n0 (f0 : F) tbl n l f :
  table_on n0 f0 tbl !! n = Some l -> f ∈ l ->
  f = f0 \/ exists l0, tbl !! n = Some l0 /\ f ∈ l0.
Proof.
  unfold table_on. destruct (decide (n0 = n)) as [->|Hne].
  - destruct (tbl !! n) as [l1|] eqn:E1; rewrite lookup_insert_eq; intros [= <-].
    + rewrite elem_of_app, list_elem_of_singleton. intros [?|?]; eauto.
    + rewrite list_elem_of_singleton. auto.
  - destruct (tbl !! n0); rewrite lookup_insert_ne by easy; eauto.
Qed.

Definition fn_of (f : hfn) : nat :=
  match f with Handler h => h | Deferred _ h => h end.

Section Provenance.
Variable H : nat -> Prop.        (* the client functions subscribed so far *)
Variable T0 : list task.         (* the tasks that were already pending *)
Variable L0 : list event.        (* the log so far *)

Definition task_ok (t : task) : Prop :=
  match t with
  | TCall h v => H h \/ TCall h v ∈ T0
  | TCheckMotif => True
  end.

Definition event_ok (ev : event) : Prop :=
  match ev with
  | Called h v => H h \/ TCall h v ∈ T0
  | _ => True
  end.

(** The hub of the object holds functions of [H] only. *)
Definition hub_ok (s : state) : Prop :=
  forall e em tbl n l f,
    ui_emitter s = Some e -> hubs s !! e = Some em -> e_handlers em = Some tbl ->
    tbl !! n = Some l -> f ∈ l -> H (fn_of f).

Definition since (s : state) : Prop :=
  hub_ok s /\ Forall task_ok (immediates s) /\
  exists delta, log s = L0 ++ delta /\ Forall event_ok delta.

Ltac since_step :=
  first
    [ pres_step
    | match goal with
      | |- pres _ (modify _) => apply pres_modify; intros ? HI; exact HI
      end
    | solve [auto with pres] ].
Ltac since_auto := repeat since_step.

Lemma since_new_plain a : pres since (new_plain a).
Proof. intros s Hs; exact Hs. Qed.
Lemma since_new_group ms : pres since (new_group ms).
Proof. intros s Hs; exact Hs. Qed.
Lemma since_new_root : pres since new_root.
Proof. intros s Hs; exact Hs. Qed.
Lemma since_new_promise : pres since new_promise.
Proof. intros s Hs; exact Hs. Qed.
Hint Resolve since_new_plain since_new_group since_new_root since_new_promise : pres.

Lemma since_emit_log ev : event_ok ev -> pres since (emit_log ev).
Proof.
  intros Hev s (Hh & Ht & delta & Hl & Hd). repeat split; try assumption.
  exists (delta ++ [ev]). simpl. split.
  - rewrite Hl. now rewrite app_assoc.
  - apply Forall_app. split; [assumption|]. now constructor.
Qed.

Lemma since_setImmediate t : task_ok t -> pres since (setImmediate t).
Proof.
  intros Hok s (Hh & Ht & Hl). repeat split; try assumption.
  simpl. apply Forall_app. split; [assumption|]. now constructor.
Qed.

Lemma since_group_add g x : pres since (group_add g x).
Proof. unfold group_add. since_auto. Qed.
Lemma since_group_remove g x : pres since (group_remove g x).
Proof. unfold group_remove. since_auto. Qed.
Lemma since_root_add r x : pres since (root_add r x).
Proof. unfold root_add. since_auto. Qed.
Lemma since_root_remove r x : pres since (root_remove r x).
Proof. unfold root_remove. since_auto. Qed.
Lemma since_stream_off e n f : pres since (stream_off e n f).
Proof. unfold stream_off. since_auto. Qed.
Hint Resolve since_group_add since_group_remove since_root_add since_root_remove
  since_stream_off : pres.

Lemma since_hub_off e0 n0 f0 : pres since (hub_off e0 n0 f0).
Proof.
  intros s (Hh & Ht & Hl). unfold hub_off, bind, deref.
  destruct (hubs s !! e0) as [em0|] eqn:E0; simpl; [|easy].
  repeat split; try assumption.
  intros e em tbl n l f Hu He Htb Hn Hin. simpl in *.
  apply list_lookup_insert_Some in He as [(-> & <- & _)|(Hne & He)].
  - unfold Emitter_off_obj in Htb. destruct (e_disposed em0) eqn:Ed.
    + eapply Hh; eauto.
    + simpl in Htb. destruct (e_handlers em0) as [tbl0|] eqn:Et; [|easy].
      simpl in Htb. injection Htb as <-.
      destruct (table_off_elem _ _ _ _ _ _ Hn Hin) as (l0 & Hl0 & Hin0).
      eapply Hh; eauto.
  - eapply Hh; eauto.
Qed.
Hint Resolve since_hub_off : pres.

Lemma since_run_action d a : pres since (run_action d a).
Proof. unfold run_action. since_auto. Qed.
Hint Resolve since_run_action : pres.

Lemma since_Disposable_dispose d : pres since (Disposable_dispose d).
Proof. unfold Disposable_dispose. since_auto. Qed.
Hint Resolve since_Disposable_dispose : pres.

Lemma since_group_dispose g : pres since (group_dispose g).
Proof. unfold group_dispose. since_auto. Qed.
Hint Resolve since_group_dispose : pres.

Lemma since_member_dispose x : pres since (member_dispose x).
Proof. unfold member_dispose. since_auto. Qed.
Hint Resolve since_member_dispose : pres.

Lemma since_root_dispose r : pres since (root_dispose r).
Proof. unfold root_dispose. since_auto. Qed.
Hint Resolve since_root_dispose : pres.

Lemma since_hub_dispose e0 : pres since (hub_dispose e0).
Proof.
  unfold hub_dispose, Emitter_dispose. since_auto.
  apply pres_modify. intros s (Hh & Ht & Hl). repeat split; try assumption.
  intros e em tbl n l f Hu He Htb Hn Hin. simpl in *.
  rewrite list_lookup_alter in He.
  destruct (decide (e0 = e)) as [->|Hne].
  - destruct (hubs s !! e); simpl in He; [|easy].
    injection He as <-. simpl in Htb. discriminate.
  - eapply Hh; eauto.
Qed.
Hint Resolve since_hub_dispose : pres.

Lemma since_congr s s' :
  ui_emitter s' = ui_emitter s -> hubs s' = hubs s ->
  immediates s' = immediates s -> log s' = log s -> since s -> since s'.
Proof.
  intros Hu Hh Hi Hl (Hk & Ht & Hd). unfold since, hub_ok.
  rewrite Hu, Hh, Hi, Hl. auto.
Qed.

Lemma since_hub_on e0 n0 f0 : H (fn_of f0) -> pres since (hub_on e0 n0 f0).
Proof.
  intros Hf0 s Hs. unfold hub_on, Emitter_on, bind, deref.
  destruct (hubs s !! e0) as [em0|] eqn:E0; [|exact Hs].
  destruct (e_disposed em0); [exact Hs|].
  destruct (e_handlers em0) as [tbl0|] eqn:Et; [|exact Hs].
  simpl. destruct (inherited n0 tbl0); [exact Hs|].
  assert (Hs' : since (set_hubs (<[e0 := mkEmitter false (e_subscriptions em0)
                                    (Some (table_on n0 f0 tbl0))]> (hubs s)) s)).
  { destruct Hs as (Hh & Ht & Hl). repeat split; try assumption.
    intros e em tbl n l f Hu He Htb Hn Hin. simpl in *.
    apply list_lookup_insert_Some in He as [(-> & <- & _)|(Hne & He)].
    - simpl in Htb. injection Htb as <-.
      destruct (table_on_elem _ _ _ _ _ _ Hn Hin) as [->|(l0 & Hl0 & Hin0)]; [easy|].
      eapply Hh; eauto.
    - eapply Hh; eauto. }
  unfold new_plain, group_add, bind, deref, modify, ret. simpl.
  destruct (groups s !! e_subscriptions em0); simpl;
    (eapply since_congr; [..|exact Hs']; reflexivity).
Qed.

Lemma since_hub_new : pres since hub_new.
Proof.
  intros s (Hh & Ht & Hl). unfold hub_new, Emitter_new, bind, new_group. simpl.
  repeat split; try assumption.
  intros e em tbl n l f Hu He Htb Hn Hin. simpl in *.
  apply lookup_app_Some in He as [He|[_ He]].
  - eapply Hh; eauto.
  - apply list_lookup_singleton_Some in He as [_ <-]. simpl in Htb.
    injection Htb as <-. now rewrite lookup_empty in Hn.
Qed.
Hint Resolve since_hub_new : pres.

(** [reset] installs a hub that holds nothing. *)
Lemma since_reset : pres since reset.
Proof.
  unfold reset. apply pres_bind; [apply pres_get|]. intros s0.
  apply pres_bind; [destruct (ui_disposables s0); since_auto|]. intros _.
  apply pres_bind; [destruct (ui_emitter s0); since_auto|]. intros _.
  intros s (Hh & Ht & Hl).
  unfold bind, new_root, modify, hub_new, Emitter_new, bind, new_group. simpl.
  repeat split; try assumption.
  intros e em tbl n l f Hu He Htb Hn Hin. simpl in *.
  injection Hu as <-. rewrite lookup_snoc in He. injection He as <-.
  simpl in Htb. injection Htb as <-. now rewrite lookup_empty in Hn.
Qed.
Hint Resolve since_reset : pres.

Lemma since_call_hfn f v : H (fn_of f) -> pres since (call_hfn f v).
Proof.
  intros Hf. destruct f; simpl.
  - apply since_emit_log. now left.
  - apply since_setImmediate. now left.
Qed.

Lemma since_emit n args : pres since (emit n args).
Proof.
  intros s Hs. unfold emit, bind, get.
  destruct (ui_emitter s) as [e|] eqn:Eu; [|exact Hs].
  pose proof (since_emit_log (Emitted n (default VUndefined (head args))) Logic.I s Hs)
    as Hs1.
  simpl in *.
  set (s1 := set_log _ s) in *.
  unfold hub_emit, Emitter_emit, bind, deref.
  destruct (hubs s1 !! e) as [em|] eqn:Ee; [|exact Hs1].
  destruct (e_handlers em) as [tbl|] eqn:Et; [|exact Hs1].
  destruct (inherited n tbl); [exact Hs1|].
  destruct (tbl !! n) as [l|] eqn:El; [|exact Hs1].
  apply pres_forEach; [|exact Hs1].
  intros f Hin. apply since_call_hfn.
  destruct Hs1 as (Hh & _). eapply Hh; eauto.
Qed.
Hint Resolve since_emit : pres.

Lemma since_subscribe n h : H h -> pres since (subscribe n h).
Proof.
  intros Hh s Hs. rewrite subscribe_unfold.
  assert (Hc : since (consumed s)).
  { eapply since_congr; [..|exact Hs]; unfold consumed; now destruct (delayNext s). }
  destruct (ui_emitter s); [|exact Hc].
  apply since_hub_on; [|exact Hc].
  unfold wrapped. now destruct (delayNext s).
Qed.

Lemma since_setProjects to : pres since (setProjects to).
Proof.
  unfold setProjects, emitProjectsAvailable, emitProjectsEmptied,
    emitProjectsChanged. since_auto.
Qed.
Hint Resolve since_setProjects : pres.

Lemma since_patchOffset r ru : pres since (patchOffset r ru).
Proof. unfold patchOffset. since_auto. Qed.
Hint Resolve since_patchOffset : pres.

Lemma since_fixOffset_rules rs : pres since (fixOffset_rules rs).
Proof. induction rs; simpl; since_auto. Qed.
Hint Resolve since_fixOffset_rules : pres.

Lemma since_fixOffset_sheets l : pres since (fixOffset_sheets l).
Proof. induction l; simpl; since_auto. Qed.
Hint Resolve since_fixOffset_sheets : pres.

Lemma since_fixOffset : pres since fixOffset.
Proof. unfold fixOffset. since_auto. Qed.
Hint Resolve since_fixOffset : pres.

Lemma since_stream_on e n f : pres since (stream_on e n f).
Proof. unfold stream_on, Emitter_on. since_auto. Qed.
Lemma since_stream_new : pres since stream_new.
Proof. intros s Hs. exact Hs. Qed.
Hint Resolve since_stream_on since_stream_new : pres.

Lemma since_resolve p v : pres since (resolve p v).
Proof.
  unfold resolve. since_auto. now apply since_emit_log.
Qed.
Hint Resolve since_resolve : pres.

Lemma since_waitToSave editor : pres since (waitToSave editor).
Proof.
  unfold waitToSave. since_auto.
  apply pres_run_executor; [|intros s Hs; exact Hs].
  unfold new_group_of. since_auto.
Qed.

Lemma since_init : pres since init.
Proof. unfold init. since_auto. Qed.
Hint Resolve since_waitToSave since_init : pres.

Lemma since_call_cb f v : pres since (call_cb f v).
Proof.
  unfold call_cb. since_auto. now apply since_setImmediate.
Qed.
Hint Resolve since_call_cb : pres.

Lemma since_stream_emit e n v : pres since (stream_emit e n v).
Proof. unfold stream_emit, Emitter_emit. since_auto. Qed.
Hint Resolve since_stream_emit : pres.

Variable env : host.

Lemma since_getThemeColour : pres since (getThemeColour env).
Proof.
  unfold getThemeColour, getStyleElement. since_auto.
  match goal with |- pres _ (themeColour_rules _ ?rs) => induction rs end;
    simpl; since_auto.
Qed.

Lemma since_checkMotif : pres since (checkMotif env).
Proof.
  unfold checkMotif, motif_edge, emitMotifChanged. since_auto.
  apply since_getThemeColour.
Qed.

Lemma since_turn : pres since (turn env).
Proof.
  intros s Hs. unfold turn, bind, get.
  destruct (immediates s) as [|t ts] eqn:Ei; [exact Hs|]. simpl.
  destruct Hs as (Hh & Ht & Hl). rewrite Ei in Ht.
  apply Forall_cons in Ht as [Ht1 Ht2].
  assert (Hs' : since (set_immediates ts s)) by (repeat split; assumption).
  destruct t as [h v|]; simpl.
  - exact (since_emit_log (Called h v) Ht1 _ Hs').
  - exact (since_checkMotif _ Hs').
Qed.

(** Every call keeps the invariant, provided the functions it subscribes
    are in [H]. *)
Lemma since_exec c :
  (forall n h, c = CSubscribe n h -> H h) -> pres since (exec env c).
Proof.
  intros Hc. destruct c; simpl;
    unfold notify_path_changed, notify_destroyed; since_auto.
  - apply since_subscribe. eapply Hc; eauto.
  - apply since_checkMotif.
  - apply since_turn.
Qed.

Lemma since_run cs s :
  (forall n h, CSubscribe n h ∈ cs -> H h) -> since s -> since (run env cs s).
Proof.
  revert s. induction cs as [|c cs IH]; intros s Hc Hs; simpl; [exact Hs|].
  apply IH.
  - intros n h Hin. apply (Hc n h). now right.
  - apply since_exec; [|exact Hs]. intros n h ->. apply (Hc n h). left.
Qed.
End Provenance.

(** ** [reset], taken apart *)

(** lines 32-33 *)
Definition teardown : M unit :=
  s <- get ;;
  match ui_disposables s with Some r => root_dispose r | None => ret tt end ;;;
  match ui_emitter s with Some e => hub_dispose e | None => ret tt end.

(** lines 34-35, from the state the disposals left *)
Definition installed (s : state) : state :=
  set_ui_emitter (Some (length (hubs s)))
    (set_hubs (hubs s ++ [mkEmitter false (length (groups s)) (Some ∅)])
       (set_groups (groups s ++ [mkComposite false []])
          (set_ui_disposables (Some (length (roots s)))
             (set_roots (roots s ++ [mkComposite false []]) s)))).

Lemma reset_unfold s :
  reset s = match teardown s with
            | Ok _ s' => Ok tt (installed s')
            | Throw e s' => Throw e s'
            end.
Proof.
  unfold reset, teardown, bind, get.
  destruct (match ui_disposables s with Some r => root_dispose r | None => ret tt end s)
    as [[] s'|e s']; [|reflexivity].
  destruct (match ui_emitter s with Some e => hub_dispose e | None => ret tt end s')
    as [[] s''|e s'']; reflexivity.
Qed.

Lemma keeps_teardown {X} (f : state -> X) :
  (forall x s, f (set_plain x s) = f s) -> (forall x s, f (set_groups x s) = f s) ->
  (forall x s, f (set_roots x s) = f s) -> (forall x s, f (set_hubs x s) = f s) ->
  (forall x s, f (set_streams x s) = f s) -> (forall x s, f (set_rules x s) = f s) ->
  keeps f teardown.
Proof.
  intros. unfold teardown. keeps_auto.
  - now apply fr_root_dispose.
  - now apply fr_hub_dispose.
Qed.

(** After a [reset] that returned, the object has a new hub, and nothing is
    registered on it. *)
Lemma reset_installs s s1 :
  reset s = Ok tt s1 ->
  exists e subs,
    ui_emitter s1 = Some e /\
    hubs s1 !! e = Some (mkEmitter false subs (Some ∅)) /\
    groups s1 !! subs = Some (mkComposite false []) /\
    log s1 = log s /\ immediates s1 = immediates s /\ closures s1 = closures s.
Proof.
  rewrite reset_unfold. destruct (teardown s) as [[] s'|] eqn:E; [|easy].
  intros [= <-]. exists (length (hubs s')), (length (groups s')).
  pose proof (keeps_teardown log) as Hl. pose proof (keeps_teardown immediates) as Hi.
  pose proof (keeps_teardown closures) as Hc.
  unfold keeps in *. specialize (Hl ltac:(easy) ltac:(easy) ltac:(easy)
    ltac:(easy) ltac:(easy) ltac:(easy) s).
  specialize (Hi ltac:(easy) ltac:(easy) ltac:(easy) ltac:(easy) ltac:(easy)
    ltac:(easy) s).
  specialize (Hc ltac:(easy) ltac:(easy) ltac:(easy) ltac:(easy) ltac:(easy)
    ltac:(easy) s).
  rewrite E in Hl, Hi, Hc. simpl in *.
  repeat split; try assumption; apply lookup_snoc.
Qed.

(** C4. Let [reset] return, and let any calls follow: emits, subscriptions,
    turns of the scheduler, notifications of the collaborators, further
    resets.  Whenever a client function is called after the reset, either
    it was subscribed after the reset, or the call is a deferred one that an
    [emit] before the reset had already scheduled.  A function that was
    only registered before the reset is never called by an [emit] issued
    after it, whatever the event name. *)
Theorem stale_handlers_are_gone env s s1 cs :
  reset s = Ok tt s1 ->
  exists delta,
    log (run env cs s1) = log s1 ++ delta /\
    forall h v, Called h v ∈ delta ->
      (exists n, CSubscribe n h ∈ cs) \/ TCall h v ∈ immediates s1.
Proof.
  intros Hr.
  destruct (reset_installs _ _ Hr) as (e & subs & Hu & He & _).
  set (H := fun h => exists n, CSubscribe n h ∈ cs).
  assert (Hs1 : since H (immediates s1) (log s1) s1).
  { repeat split.
    - intros e' em tbl n l f Hu' He' Htb Hn Hin.
      rewrite Hu in Hu'. injection Hu' as <-. rewrite He in He'.
      injection He' as <-. simpl in Htb. injection Htb as <-.
      now rewrite lookup_empty in Hn.
    - apply Forall_forall. intros [h v|] Hin; simpl; auto.
    - exists []. split; [now rewrite app_nil_r|constructor]. }
  pose proof (since_run H (immediates s1) (log s1) env cs s1) as Hrun.
  destruct Hrun as (_ & _ & delta & Hl & Hd); [|exact Hs1|].
  { intros n h Hin. exists n. exact Hin. }
  exists delta. split; [exact Hl|].
  intros h v Hin. rewrite Forall_forall in Hd. exact (Hd _ Hin).
Qed.

Definition quiet_host : host :=
  mkHost nat (fun _ => "") (fun _ => None) (fun _ => None)
    (fun _ => 0) (fun l => l) (fun _ => false).

Lemma stale_handlers_are_gone_witness :
  let s := final (subscribe "open-file" 5 (loaded [] [] None)) in
  let s1 := final (reset s) in
  let cs := [CEmit "open-file" [VOther 1]; CSubscribe "open-file" 6;
             CEmit "open-file" [VOther 2]] in
  exists delta,
    log (run quiet_host cs s1) = log s1 ++ delta /\
    forall h v, Called h v ∈ delta ->
      (exists n, CSubscribe n h ∈ cs) \/ TCall h v ∈ immediates s1.
Proof.
  intros s s1 cs. apply (stale_handlers_are_gone quiet_host s s1 cs).
  vm_compute. reflexivity.
Defined.

(** ** The flag across calls *)

Definition is_subscribe (c : call) : bool :=
  match c with CSubscribe _ _ => true | _ => false end.

Lemma dn_exec env c s :
  is_subscribe c = false -> c <> CDelay ->
  delayNext (final (exec env c s)) = delayNext s.
Proof.
  intros Hq Hd. revert s. change (keeps delayNext (exec env c)).
  destruct c; simpl in *; try discriminate; try congruence;
    unfold notify_path_changed, notify_destroyed; keeps_auto.
  - apply dn_checkMotif.
  - apply dn_turn.
Qed.

Lemma dn_run env cs s :
  Forall (fun c => is_subscribe c = false) cs -> delayNext s = true ->
  delayNext (run env cs s) = true.
Proof.
  revert s. induction cs as [|c cs IH]; intros s Hq Hs; simpl; [exact Hs|].
  apply Forall_cons in Hq as [Hc Hq]. apply IH; [exact Hq|].
  assert (Hcase : c = CDelay \/ c <> CDelay) by (destruct c; auto; right; discriminate).
  destruct Hcase as [->|Hne]; [reflexivity|].
  now rewrite dn_exec.
Qed.

(** C10. [reset] leaves the flag as it was, and so does every call other
    than [subscribe] (reading [delay] sets it).  Once [delay] has been read,
    the flag is still set after any number of calls among which there is no
    [subscribe].  In particular, after [delay] and then a [reset] that
    returned, the new hub holds nothing, and the next [subscribe], for an
    event [name] that is not the name of a property of [Object.prototype],
    registers the deferring wrapper around its handler there, consuming the
    flag. *)
Theorem delay_flag_survives_reset env s s1 name h cs :
  reset (final (delay s)) = Ok tt s1 ->
  Forall (fun c => is_subscribe c = false) cs ->
  is_inherited name = false ->
  delayNext (final (reset s)) = delayNext s /\
  (forall c s', is_subscribe c = false -> c <> CDelay ->
     delayNext (final (exec env c s')) = delayNext s') /\
  delayNext (final (delay s)) = true /\
  delayNext (run env cs (final (delay s))) = true /\
  delayNext s1 = true /\
  exists e d s2,
    ui_emitter s1 = Some e /\
    registered e name s1 = [] /\
    subscribe name h s1 = Ok d s2 /\
    registered e name s2 = [Deferred (closures s) h] /\
    delayNext s2 = false.
Proof.
  intros Hr Hq Hn.
  split; [apply dn_reset|]. split; [intros; now apply dn_exec|].
  split; [reflexivity|]. split; [now apply dn_run|].
  assert (Hd1 : delayNext s1 = true).
  { pose proof (dn_reset (final (delay s))) as Hk. now rewrite Hr in Hk. }
  split; [exact Hd1|].
  destruct (reset_installs _ _ Hr) as (e & subs & Hu & He & Hg & _ & _ & Hc).
  pose proof (subscribe_live name h s1 e _ ∅ _ Hu He eq_refl eq_refl Hg Hn) as E.
  match type of E with _ = Ok ?d ?st => exists e, d, st end.
  split; [exact Hu|]. split.
  { unfold registered. rewrite He. reflexivity. }
  split; [exact E|]. split.
  - unfold registered. simpl.
    rewrite list_lookup_insert_eq by (eapply lookup_lt_Some; eauto). simpl.
    unfold wrapped. rewrite Hd1, Hc. simpl.
    unfold table_on. rewrite lookup_empty. now rewrite lookup_insert_eq.
  - simpl. apply consumed_delayNext.
Qed.

Lemma delay_flag_survives_reset_witness :
  let s := loaded [] [] None in
  let s1 := final (reset (final (delay s))) in
  let cs := [CEmit "open-file" []; CReset; CSetProjects ["a"]; CTurn] in
  delayNext (final (reset s)) = delayNext s /\
  (forall c s', is_subscribe c = false -> c <> CDelay ->
     delayNext (final (exec quiet_host c s')) = delayNext s') /\
  delayNext (final (delay s)) = true /\
  delayNext (run quiet_host cs (final (delay s))) = true /\
  delayNext s1 = true /\
  exists e d s2,
    ui_emitter s1 = Some e /\
    registered e "open-file" s1 = [] /\
    subscribe "open-file" 3 s1 = Ok d s2 /\
    registered e "open-file" s2 = [Deferred (closures s) 3] /\
    delayNext s2 = false.
Proof.
  intros s s1 cs.
  apply (delay_flag_survives_reset quiet_host s s1 "open-file" 3 cs).
  - vm_compute. reflexivity.
  - repeat constructor.
  - reflexivity.
Defined.


(** ** Project roots *)

(** The events a log shows as dispatched on the hub. *)
Definition emitted (l : list event) : list (string * value) :=
  omap (fun ev => match ev with Emitted n v => Some (n, v) | _ => None end) l.

Lemma emitted_app l1 l2 : emitted (l1 ++ l2) = emitted l1 ++ emitted l2.
Proof. apply omap_app. Qed.

Lemma emitted_Emitted n v l : emitted (Emitted n v :: l) = (n, v) :: emitted l.
Proof. reflexivity. Qed.

Lemma emitted_calls_of v l : emitted (calls_of v l) = [].
Proof.
  induction l as [|[h|w h] l IH]; simpl; auto.
Qed.

Definition nl : Ascii.ascii := Ascii.ascii_of_nat 10.

Fixpoint nl_free (p : string) : Prop :=
  match p with
  | EmptyString => True
  | String a p' => a <> nl /\ nl_free p'
  end.

(** A path that is not empty and holds no line feed. *)
Definition plain_path (p : string) : Prop := p <> "" /\ nl_free p.

Lemma append_nil_l (b : string) : "" +:+ b = b.
Proof. reflexivity. Qed.
Lemma append_cons c (a b : string) : String c a +:+ b = String c (a +:+ b).
Proof. reflexivity. Qed.

Lemma nl_free_app_nl a b : ~ nl_free (a +:+ newline +:+ b).
Proof.
  unfold newline. induction a as [|c a IH];
    repeat first [rewrite append_nil_l | rewrite append_cons]; simpl.
  - intros [Hc _]. now apply Hc.
  - intros [_ Hf]. now apply IH.
Qed.

Lemma app_nl_inj a a' b b' :
  nl_free a -> nl_free a' ->
  a +:+ newline +:+ b = a' +:+ newline +:+ b' -> a = a' /\ b = b'.
Proof.
  unfold newline. revert a'.
  induction a as [|c a IH]; intros [|c' a'];
    repeat first [rewrite append_nil_l | rewrite append_cons]; simpl.
  - intros _ _ [= ->]. auto.
  - intros _ [Hc _] [= <- _]. now contradict Hc.
  - intros [Hc _] _ [= -> _]. now contradict Hc.
  - intros [_ Ha] [_ Ha'] [= -> E]. destruct (IH a' Ha Ha' E) as [-> ->]. auto.
Qed.

Lemma join_cons2 sep x y l : join sep (x :: y :: l) = x +:+ sep +:+ join sep (y :: l).
Proof. reflexivity. Qed.

Lemma append_empty a b : a +:+ b = "" -> a = "".
Proof. destruct a; rewrite ?append_cons; [auto|discriminate]. Qed.

Lemma join_empty l : Forall plain_path l -> join newline l = "" -> l = [].
Proof.
  destruct l as [|x [|y l]]; [auto| |]; intros Hf E.
  - simpl in E. apply Forall_cons in Hf as [[Hx _] _]. now contradict Hx.
  - rewrite join_cons2 in E. apply append_empty in E.
    apply Forall_cons in Hf as [[Hx _] _]. now contradict Hx.
Qed.

(** On such paths [join] loses nothing. *)
Lemma join_inj l1 l2 :
  Forall plain_path l1 -> Forall plain_path l2 ->
  join newline l1 = join newline l2 -> l1 = l2.
Proof.
  revert l2. induction l1 as [|x l1 IH]; intros l2 H1 H2 E.
  - symmetry. apply join_empty; [exact H2|]. now rewrite <- E.
  - destruct l2 as [|y l2]; [now apply join_empty|].
    apply Forall_cons in H1 as [[_ Hx] H1]. apply Forall_cons in H2 as [[_ Hy] H2].
    destruct l1 as [|x2 l1], l2 as [|y2 l2].
    + simpl in E. now subst.
    + rewrite join_cons2 in E. change (join newline [x]) with x in E. subst x.
      now apply nl_free_app_nl in Hx.
    + rewrite join_cons2 in E. change (join newline [y]) with y in E. subst y.
      now apply nl_free_app_nl in Hy.
    + rewrite !join_cons2 in E. apply app_nl_inj in E as [-> E]; [|easy|easy].
      f_equal. now apply IH.
Qed.

(** The event that tells whether roots remain. *)
Definition availability (to : list string) : string :=
  match to with
  | _ :: _ => "projects-available"
  | [] => "projects-emptied"
  end.

Lemma availability_own to : is_inherited (availability to) = false.
Proof. now destruct to. Qed.

Lemma setProjects_same s from to :
  ui_projects s = Some from -> join newline from = join newline to ->
  setProjects to s = Ok tt s.
Proof.
  intros Hp E. unfold setProjects, bind, defined. rewrite Hp.
  destruct (decide (join newline from <> join newline to)); [contradiction|reflexivity].
Qed.

Lemma setProjects_changed s from to e em tbl :
  ui_projects s = Some from -> ui_emitter s = Some e -> hubs s !! e = Some em ->
  e_handlers em = Some tbl -> join newline from <> join newline to ->
  setProjects to s =
    (emit (availability to) [] ;;; emit "projects-changed" [VChange from to])
      (set_ui_projects (Some to) s) /\
  exists s',
    setProjects to s = Ok tt s' /\ ui_projects s' = Some to /\
    log s' = log s ++
      [Emitted (availability to) VUndefined] ++
      calls_of VUndefined (default [] (tbl !! availability to)) ++
      [Emitted "projects-changed" (VChange from to)] ++
      calls_of (VChange from to) (default [] (tbl !! "projects-changed")).
Proof.
  intros Hp Hu He Ht Hne.
  assert (E0 : setProjects to s =
    (emit (availability to) [] ;;; emit "projects-changed" [VChange from to])
      (set_ui_projects (Some to) s)).
  { unfold setProjects, bind, defined. rewrite Hp.
    destruct (decide (join newline from <> join newline to)); [|contradiction].
    unfold modify, emitProjectsAvailable, emitProjectsEmptied, emitProjectsChanged.
    destruct to; reflexivity. }
  split; [exact E0|]. rewrite E0.
  set (sa := set_ui_projects (Some to) s).
  pose proof (emit_live e (availability to) [] sa em tbl Hu He Ht (availability_own to)) as E1.
  simpl in E1.
  match type of E1 with _ = Ok tt ?st => set (sb := st) in * end.
  pose proof (emit_live e "projects-changed" [VChange from to] sb em tbl Hu He Ht eq_refl) as E2.
  simpl in E2.
  unfold bind. rewrite E1, E2. eexists. split; [reflexivity|].
  split; [reflexivity|]. simpl. rewrite <- !app_assoc. reflexivity.
Qed.

Lemma emitted_grows (l : list event) n v r : emitted (l ++ Emitted n v :: r) <> emitted l.
Proof.
  rewrite emitted_app. simpl. intros E.
  apply (f_equal length) in E. rewrite length_app in E. simpl in E. lia.
Qed.

(** C2, as the code has it.  On a live hub, [setProjects] dispatches nothing
    exactly when the stored and the new sequence give the same text once
    joined with line feeds.  Hence equal sequences never emit; and two
    sequences that differ do emit whenever each of their paths is non-empty
    and free of line feeds. *)
Theorem setProjects_silent_iff_same_text s from to e em tbl :
  ui_projects s = Some from -> ui_emitter s = Some e -> hubs s !! e = Some em ->
  e_handlers em = Some tbl ->
  (emitted (log (final (setProjects to s))) = emitted (log s)
     <-> join newline from = join newline to) /\
  (from = to -> emitted (log (final (setProjects to s))) = emitted (log s)) /\
  (Forall plain_path from -> Forall plain_path to -> from <> to ->
     emitted (log (final (setProjects to s))) <> emitted (log s)).
Proof.
  intros Hp Hu He Ht.
  assert (Hiff : emitted (log (final (setProjects to s))) = emitted (log s)
                 <-> join newline from = join newline to).
  { split.
    - intros Hsame. destruct (decide (join newline from = join newline to)) as [|Hne]; [easy|].
      destruct (setProjects_changed s from to e em tbl Hp Hu He Ht Hne)
        as (_ & s' & E & _ & Hl).
      rewrite E in Hsame. simpl in Hsame. rewrite Hl in Hsame.
      now apply emitted_grows in Hsame.
    - intros E. now rewrite (setProjects_same s from to Hp E). }
  split; [exact Hiff|]. split.
  - intros ->. now apply Hiff.
  - intros Hf Ht' Hne Hsame. apply Hne. apply join_inj; [easy|easy|].
    now apply Hiff.
Qed.

Lemma setProjects_silent_iff_same_text_witness :
  let s := final (init (loaded [] [] None)) in
  (emitted (log (final (setProjects ["/a"; "/b"] s))) = emitted (log s)
     <-> join newline [] = join newline ["/a"; "/b"]) /\
  ([] = ["/a"; "/b"] ->
     emitted (log (final (setProjects ["/a"; "/b"] s))) = emitted (log s)) /\
  (Forall plain_path [] -> Forall plain_path ["/a"; "/b"] -> [] <> ["/a"; "/b"] ->
     emitted (log (final (setProjects ["/a"; "/b"] s))) <> emitted (log s)).
Proof.
  intros s.
  apply (setProjects_silent_iff_same_text s [] ["/a"; "/b"] 0
           (mkEmitter false 2 (Some ∅)) ∅); vm_compute; reflexivity.
Defined.

(** The claim C2 fails as stated: with no root stored, the sequence holding
    one empty path differs from the stored one, and nothing is dispatched. *)
Lemma setProjects_misses_empty_path :
  let s := final (init (loaded [] [] None)) in
  ui_projects s = Some [] /\ [] <> [""] /\
  setProjects [""] s = Ok tt s /\
  emitted (log (final (setProjects [""] s))) = emitted (log s).
Proof.
  intros s. split; [vm_compute; reflexivity|]. split; [discriminate|].
  split; vm_compute; reflexivity.
Qed.




(** ** The motif *)

(** Reading the theme colour changes nothing. *)
Lemma getThemeColour_pure env s : final (getThemeColour env s) = s.
Proof.
  revert s. change (keeps (fun s => s) (getThemeColour env)).
  unfold getThemeColour, getStyleElement. keeps_auto.
  match goal with |- keeps _ (themeColour_rules _ ?rs) => induction rs end;
    simpl; keeps_auto.
Qed.

(** The readings at which the flag flips, starting from the stored [cur]. *)
Fixpoint flips (cur : option bool) (bs : list bool) : list bool :=
  match bs with
  | [] => []
  | b :: bs' =>
      if decide (Some b ≠ cur) then b :: flips (Some b) bs' else flips cur bs'
  end.

(** [n] readings that alternate, the first being [b]. *)
Fixpoint alternate (n : nat) (b : bool) : list bool :=
  match n with
  | 0 => []
  | S n' => b :: alternate n' (negb b)
  end.

Lemma flips_same b n : flips (Some b) (replicate n b) = [].
Proof.
  induction n as [|n IH]; simpl; [easy|].
  destruct (decide (Some b ≠ Some b)); [contradiction|exact IH].
Qed.

Lemma flips_replicate cur b n : length (flips cur (replicate n b)) <= 1.
Proof.
  induction n as [|n IH]; simpl; [lia|].
  destruct (decide (Some b ≠ cur)); [|exact IH].
  simpl. rewrite flips_same. simpl. lia.
Qed.

Lemma flips_alternate b n : flips (Some (negb b)) (alternate n b) = alternate n b.
Proof.
  revert b. induction n as [|n IH]; intros b; simpl; [easy|].
  destruct (decide (Some b ≠ Some (negb b))) as [_|Hn].
  - f_equal. rewrite <- (negb_involutive b) at 1. apply IH.
  - exfalso. apply Hn. destruct b; discriminate.
Qed.

Lemma motif_edge_live b s e em tbl :
  ui_emitter s = Some e -> hubs s !! e = Some em -> e_handlers em = Some tbl ->
  exists s',
    motif_edge b s = Ok tt s' /\
    ui_emitter s' = Some e /\ hubs s' = hubs s /\
    ui_lightTheme s' = Some b /\
    emitted (log s') = emitted (log s) ++
      (if decide (Some b ≠ ui_lightTheme s) then [("motif-changed", VBool b)] else []) /\
    (ui_lightTheme s = Some b -> s' = s).
Proof.
  intros Hu He Ht. unfold motif_edge, bind, get.
  destruct (decide (Some b ≠ ui_lightTheme s)) as [Hne|Heq].
  - unfold modify, emitMotifChanged.
    pose proof (emit_live e "motif-changed" [VBool b] (set_ui_lightTheme (Some b) s)
                  em tbl Hu He Ht eq_refl) as E.
    simpl in E. rewrite E. eexists. split; [reflexivity|]. simpl.
    repeat split; try assumption.
    + rewrite emitted_app, emitted_Emitted, emitted_calls_of. reflexivity.
    + intros Hb. now rewrite Hb in Hne.
  - exists s. apply dec_stable in Heq.
    repeat split; try assumption; [now symmetry|]. now rewrite app_nil_r.
Qed.

Lemma motif_edges_live bs s e em tbl :
  ui_emitter s = Some e -> hubs s !! e = Some em -> e_handlers em = Some tbl ->
  exists s',
    forEach motif_edge bs s = Ok tt s' /\
    emitted (log s') = emitted (log s) ++
      map (fun b => ("motif-changed", VBool b)) (flips (ui_lightTheme s) bs).
Proof.
  revert s. induction bs as [|b bs IH]; intros s Hu He Ht; simpl.
  - exists s. split; [reflexivity|]. now rewrite app_nil_r.
  - destruct (motif_edge_live b s e em tbl Hu He Ht)
      as (s1 & E1 & Hu1 & Hh1 & Hl1 & Hlog1 & Hsame).
    destruct (IH s1 Hu1) with (1 := eq_trans (f_equal (fun h => h !! e) Hh1) He)
      as (s2 & E2 & Hlog2); [exact Ht|].
    exists s2. unfold bind. rewrite E1. split; [exact E2|].
    rewrite Hlog2, Hlog1, Hl1.
    destruct (decide (Some b ≠ ui_lightTheme s)) as [Hne|Heq]; simpl.
    + now rewrite <- app_assoc.
    + apply dec_stable in Heq. rewrite <- Heq. now rewrite app_nil_r.
Qed.

(** C5. On a live hub, one call of [checkMotif]: when a colour sample [c]
    is read, it dispatches motif-changed with the derived flag and stores
    the flag if that flag differs from the stored one, and does nothing at
    all if it is the stored one; when no sample is read, the state is left
    as it was.  For a sequence of derived readings, the events dispatched
    are one motif-changed per reading that differs from the flag then
    stored: at most one for identical readings, one per reading when they
    alternate. *)
Theorem checkMotif_is_edge_triggered env s e em tbl :
  ui_emitter s = Some e -> hubs s !! e = Some em -> e_handlers em = Some tbl ->
  (forall c, getThemeColour env s = Ok (Some c) s ->
     let b := isLightColour env c in
     checkMotif env s = motif_edge b s /\
     (ui_lightTheme s <> Some b ->
        exists s', checkMotif env s = Ok tt s' /\ ui_lightTheme s' = Some b /\
          emitted (log s') = emitted (log s) ++ [("motif-changed", VBool b)]) /\
     (ui_lightTheme s = Some b -> checkMotif env s = Ok tt s)) /\
  ((forall c, getThemeColour env s <> Ok (Some c) s) ->
     final (checkMotif env s) = s) /\
  (forall bs, exists s',
     forEach motif_edge bs s = Ok tt s' /\
     emitted (log s') = emitted (log s) ++
       map (fun b => ("motif-changed", VBool b)) (flips (ui_lightTheme s) bs)) /\
  (forall cur b n, length (flips cur (replicate n b)) <= 1) /\
  (forall b n, flips (Some (negb b)) (alternate n b) = alternate n b).
Proof.
  intros Hu He Ht. split; [|split; [|split; [|split]]].
  - intros c Hc b.
    assert (E : checkMotif env s = motif_edge b s).
    { unfold checkMotif, bind. now rewrite Hc. }
    split; [exact E|]. rewrite E.
    destruct (motif_edge_live b s e em tbl Hu He Ht)
      as (s' & E' & _ & _ & Hl & Hlog & Hsame).
    split.
    + intros Hne. exists s'. split; [exact E'|]. split; [exact Hl|].
      rewrite Hlog. destruct (decide (Some b ≠ ui_lightTheme s)) as [|Heq]; [easy|].
      apply dec_stable in Heq. now rewrite Heq in Hne.
    + intros Heq. rewrite E'. f_equal. now apply Hsame.
  - intros Hno. unfold checkMotif, bind.
    pose proof (getThemeColour_pure env s) as Hp.
    destruct (getThemeColour env s) as [[c|] s'|err s'] eqn:E; simpl in *; subst s'.
    + exfalso. now apply (Hno c).
    + reflexivity.
    + reflexivity.
  - intros bs. now apply (motif_edges_live bs s e em tbl).
  - apply flips_replicate.
  - apply flips_alternate.
Qed.

(** A host to run examples on: paths join with a slash, the first regular
    expression always matches all of its subject, the second finds it as
    one channel, and a colour is light when that channel is not empty. *)
Definition demo_host : host :=
  mkHost nat (String.concat "/") (fun s => Some s) (fun s => Some [s])
    String.length (fun l => [0; 0; hd 0 l]) (fun n => Nat.leb 1 n).

Definition demo_sheets : list StyleSheet :=
  [mkSheet (Some (Some "/pkg/styles/colours.less")) [0]].
Definition demo_rules : list CSSRule :=
  [mkRule (Some ".theme-colour-check") "rgb(255, 255, 255)" ""].

Lemma checkMotif_is_edge_triggered_witness :
  let s := final (init (loaded demo_sheets demo_rules (Some "/pkg"))) in
  exists s',
    checkMotif demo_host s = Ok tt s' /\ ui_lightTheme s' = Some true /\
    emitted (log s') = emitted (log s) ++ [("motif-changed", VBool true)].
Proof.
  intros s.
  assert (Hu : ui_emitter s = Some 0) by (vm_compute; reflexivity).
  assert (He : hubs s !! 0 = Some (mkEmitter false 2 (Some ∅))) by (vm_compute; reflexivity).
  destruct (checkMotif_is_edge_triggered demo_host s 0 _ ∅ Hu He eq_refl) as [H _].
  apply (H [18]); [vm_compute; reflexivity|discriminate].
Defined.

(** ** A missing style sheet *)

(** C7, at the input where it fails.  The package is loaded and the document
    holds no style sheet: [getStyleElement] returns null, [getThemeColour]
    reads [cssRules] of it, and the [TypeError] leaves [checkMotif].  (A
    sheet without the rule, or a rule without a colour, does give null and
    a silent [checkMotif].) *)
Theorem getThemeColour_faults_without_sheet :
  let s := loaded [] [] (Some "/pkg") in
  getStyleElement demo_host "colours.less" s = Ok None s /\
  getThemeColour demo_host s = Throw TypeError s /\
  checkMotif demo_host s = Throw TypeError s.
Proof.
  intros s. repeat split; vm_compute; reflexivity.
Qed.

(** The same for every host and every state in which no sheet is the one
    looked for. *)
Lemma getThemeColour_null_sheet env s :
  getStyleElement env "colours.less" s = Ok None s ->
  getThemeColour env s = Throw TypeError s /\ checkMotif env s = Throw TypeError s.
Proof.
  intros E. unfold checkMotif, getThemeColour, bind. now rewrite E.
Qed.

(** The absences that are handled: no rule with the selector, or no colour
    in its text. *)
Lemma getThemeColour_no_rule env s sh :
  getStyleElement env "colours.less" s = Ok (Some sh) s ->
  Forall (fun r => exists ru, rules s !! r = Some ru /\
            (selectorText ru <> Some ".theme-colour-check" \/
             match_rgb env (cssText ru) = None)) (cssRules sh) ->
  getThemeColour env s = Ok None s /\ checkMotif env s = Ok tt s.
Proof.
  intros E Hf.
  assert (Hr : themeColour_rules env (cssRules sh) s = Ok None s).
  { induction Hf as [|r rs (ru & Hru & Hno) _ IH]; simpl; [reflexivity|].
    unfold bind, deref. rewrite Hru.
    destruct (decide (selectorText ru = Some ".theme-colour-check")) as [Hs|_].
    - destruct Hno as [Hno|Hno]; [contradiction|]. now rewrite Hno.
    - exact IH. }
  unfold checkMotif, getThemeColour, bind. rewrite E, Hr. auto.
Qed.

(** ** The style patch *)

(** Disposable [d] is a restoring capability that has not been used. *)
Definition restorer (s : state) (d : nat) : Prop :=
  exists r off, plain s !! d = Some (mkDisposable false (Some (ARestoreTop r off))).

(** Every such capability is the one the object holds. *)
Definition one_patch (s : state) : Prop :=
  forall d, restorer s d -> ui_restoreOffset s = Some d.

Definition no_patch (s : state) : Prop := forall d, ~ restorer s d.

Lemma no_patch_one s : no_patch s -> one_patch s.
Proof. intros H d Hd. now apply H in Hd. Qed.

Lemma restorer_mark s d x d' :
  restorer (set_plain (<[d := mkDisposable true x]> (plain s)) s) d' ->
  restorer s d' /\ d' <> d.
Proof.
  intros (r & off & Hl). simpl in Hl.
  apply list_lookup_insert_Some in Hl as [(-> & [=] & _)|(Hne & Hl)].
  split; [now exists r, off|auto].
Qed.

Lemma one_mark s d x :
  one_patch s -> one_patch (set_plain (<[d := mkDisposable true x]> (plain s)) s).
Proof.
  intros H d' Hd'. apply restorer_mark in Hd' as [Hd' _]. now apply H.
Qed.

Lemma one_new_plain a :
  (forall r off, a <> ARestoreTop r off) -> pres one_patch (new_plain a).
Proof.
  intros Ha s H d (r & off & Hl). simpl in *.
  apply lookup_app_Some in Hl as [Hl|[_ Hl]].
  - apply H. now exists r, off.
  - apply list_lookup_singleton_Some in Hl as [_ [= ->]]. exfalso. now apply (Ha r off).
Qed.

Ltac one_step :=
  first
    [ pres_step
    | match goal with
      | |- pres _ (modify _) => apply pres_modify; intros ? HI; exact HI
      | |- pres _ (new_plain _) => apply one_new_plain; intros; discriminate
      end
    | solve [auto with one] ].
Ltac one_auto := repeat one_step.

Create HintDb one.

Lemma one_new_group ms : pres one_patch (new_group ms).
Proof. intros s Hs; exact Hs. Qed.
Lemma one_new_root : pres one_patch new_root.
Proof. intros s Hs; exact Hs. Qed.
Lemma one_new_promise : pres one_patch new_promise.
Proof. intros s Hs; exact Hs. Qed.
Lemma one_emit_log ev : pres one_patch (emit_log ev).
Proof. intros s Hs; exact Hs. Qed.
Lemma one_setImmediate t : pres one_patch (setImmediate t).
Proof. intros s Hs; exact Hs. Qed.
#[global] Hint Resolve one_new_group one_new_root one_new_promise one_emit_log
  one_setImmediate : one.

Lemma one_run_action d a : pres one_patch (run_action d a).
Proof.
  unfold run_action, group_remove, root_remove, hub_off, stream_off. one_auto.
Qed.
#[global] Hint Resolve one_run_action : one.

Lemma one_Disposable_dispose d : pres one_patch (Disposable_dispose d).
Proof.
  unfold Disposable_dispose. one_auto;
    apply pres_modify; intros; now apply one_mark.
Qed.
#[global] Hint Resolve one_Disposable_dispose : one.

Lemma one_group_dispose g : pres one_patch (group_dispose g).
Proof. unfold group_dispose. one_auto. Qed.
#[global] Hint Resolve one_group_dispose : one.

Lemma one_member_dispose x : pres one_patch (member_dispose x).
Proof. unfold member_dispose. one_auto. Qed.
#[global] Hint Resolve one_member_dispose : one.

Lemma one_root_dispose r : pres one_patch (root_dispose r).
Proof. unfold root_dispose. one_auto. Qed.
#[global] Hint Resolve one_root_dispose : one.

Lemma one_hub_dispose e : pres one_patch (hub_dispose e).
Proof. unfold hub_dispose, Emitter_dispose. one_auto. Qed.
Lemma one_hub_new : pres one_patch hub_new.
Proof. intros s Hs; exact Hs. Qed.
Lemma one_stream_new : pres one_patch stream_new.
Proof. intros s Hs; exact Hs. Qed.
Lemma one_hub_on e n f : pres one_patch (hub_on e n f).
Proof. unfold hub_on, Emitter_on, group_add. one_auto. Qed.
Lemma one_stream_on e n f : pres one_patch (stream_on e n f).
Proof. unfold stream_on, Emitter_on, group_add. one_auto. Qed.
#[global] Hint Resolve one_hub_dispose one_hub_new one_stream_new one_hub_on
  one_stream_on : one.

Lemma one_reset : pres one_patch reset.
Proof. unfold reset. one_auto. Qed.

Lemma one_emit n args : pres one_patch (emit n args).
Proof. unfold emit, hub_emit, Emitter_emit, call_hfn. one_auto. Qed.

Lemma one_subscribe n h : pres one_patch (subscribe n h).
Proof. unfold subscribe. one_auto. Qed.
#[global] Hint Resolve one_reset one_emit one_subscribe : one.

Lemma one_setProjects to : pres one_patch (setProjects to).
Proof.
  unfold setProjects, emitProjectsAvailable, emitProjectsEmptied,
    emitProjectsChanged. one_auto.
Qed.
#[global] Hint Resolve one_setProjects : one.

Lemma run_action_plain d a : keeps plain (run_action d a).
Proof.
  unfold run_action, group_remove, root_remove, hub_off, stream_off. keeps_auto.
Qed.

(** What a completed [dispose] did to the store of disposables. *)
Lemma Disposable_dispose_Ok_plain d s s' :
  Disposable_dispose d s = Ok tt s' ->
  exists o, plain s !! d = Some o /\
    ((d_disposed o = true /\ s' = s) \/
     (d_disposed o = false /\ plain s' = <[d := mkDisposable true None]> (plain s))).
Proof.
  unfold Disposable_dispose, bind, deref.
  destruct (plain s !! d) as [o|] eqn:Eo; [|discriminate].
  intros E. exists o. split; [reflexivity|].
  destruct (d_disposed o) eqn:Ed.
  - injection E as <-. now left.
  - right. split; [reflexivity|]. revert E. unfold modify at 1.
    set (s1 := set_plain _ s).
    assert (Hp : forall s2, final (match d_action o with
                                   | Some a => run_action d a
                                   | None => ret tt
                                   end s1) = s2 -> plain s2 = plain s1).
    { intros s2 <-. destruct (d_action o); [apply run_action_plain|reflexivity]. }
    destruct (match d_action o with Some a => run_action d a | None => ret tt end s1)
      as [[] s2|e s2]; [|discriminate].
    intros [= <-]. simpl. rewrite (Hp s2 eq_refl). subst s1. simpl.
    apply list_insert_insert_eq.
Qed.

(** Disposing the capability the object holds leaves none in use. *)
Lemma dispose_held s old s' :
  one_patch s -> ui_restoreOffset s = Some old ->
  Disposable_dispose old s = Ok tt s' -> no_patch s'.
Proof.
  intros H Ho E d (r & off & Hl).
  destruct (Disposable_dispose_Ok_plain _ _ _ E) as (o & Eo & [[Hd ->]|[Hd Hp]]).
  - assert (Some d = Some old) as [= ->].
    { rewrite <- Ho. symmetry. apply H. now exists r, off. }
    rewrite Eo in Hl. injection Hl as ->. discriminate.
  - rewrite Hp in Hl.
    apply list_lookup_insert_Some in Hl as [(-> & [=] & _)|(Hne & Hl)].
    assert (Some d = Some old) as [= ->]; [|congruence].
    rewrite <- Ho. symmetry. apply H. now exists r, off.
Qed.

(** Lines 203-204 from a state without capability in use. *)
Lemma install_patch s r off :
  no_patch s ->
  one_patch (final ((n <- new_plain (ARestoreTop r off) ;;
                     modify (set_ui_restoreOffset (Some n)) ;;;
                     d <- defined ui_disposables ;;
                     root_add d (MPlain n)) s)).
Proof.
  intros Hq. unfold bind at 1, new_plain. unfold bind at 1, modify at 1.
  set (s2 := set_ui_restoreOffset _ _).
  assert (H2 : one_patch s2).
  { intros d (r' & off' & Hl). subst s2. simpl in *.
    apply lookup_app_Some in Hl as [Hl|[Hge Hl]].
    - exfalso. apply (Hq d). now exists r', off'.
    - apply list_lookup_singleton_Some in Hl as [Hd _]. f_equal. lia. }
  revert H2. generalize s2. change (pres one_patch (d <- defined ui_disposables ;;
                                                    root_add d (MPlain (length (plain s))))).
  unfold root_add. one_auto.
Qed.

Lemma one_patchOffset r ru : pres one_patch (patchOffset r ru).
Proof.
  intros s Hs. unfold patchOffset. unfold bind at 1, modify at 1.
  set (s1 := set_rules _ s). unfold bind at 1, get.
  assert (H1 : one_patch s1) by exact Hs.
  unfold bind at 1.
  destruct (ui_restoreOffset s1) as [old|] eqn:Eo.
  - unfold bind at 1.
    destruct (Disposable_dispose old s1) as [[] s2|e s2] eqn:Ed.
    + pose proof (dispose_held _ _ _ H1 Eo Ed) as H2.
      unfold bind at 1, defined.
      destruct (ui_disposables s2) as [root|]; [|now apply no_patch_one].
      unfold root_remove, bind at 1, deref.
      destruct (roots s2 !! root) as [c|]; [|now apply no_patch_one].
      unfold modify at 1. apply install_patch. exact H2.
    + pose proof (one_Disposable_dispose old s1 H1) as H2. now rewrite Ed in H2.
  - unfold ret at 1. apply install_patch. intros d Hd. apply H1 in Hd. congruence.
Qed.
#[global] Hint Resolve one_patchOffset : one.

Lemma one_fixOffset_rules rs : pres one_patch (fixOffset_rules rs).
Proof. induction rs; simpl; one_auto. Qed.
#[global] Hint Resolve one_fixOffset_rules : one.

Lemma one_fixOffset_sheets l : pres one_patch (fixOffset_sheets l).
Proof. induction l; simpl; one_auto. Qed.
#[global] Hint Resolve one_fixOffset_sheets : one.

Lemma one_fixOffset : pres one_patch fixOffset.
Proof. unfold fixOffset. one_auto. Qed.
#[global] Hint Resolve one_fixOffset : one.

Lemma one_resolve p v : pres one_patch (resolve p v).
Proof. unfold resolve. one_auto. Qed.
#[global] Hint Resolve one_resolve : one.

Lemma one_waitToSave editor : pres one_patch (waitToSave editor).
Proof.
  unfold waitToSave. one_auto.
  apply pres_run_executor; [|intros s Hs; exact Hs].
  unfold new_group_of, root_add. one_auto.
Qed.

Lemma one_init : pres one_patch init.
Proof. unfold init, root_add. one_auto. Qed.

Lemma one_call_cb f v : pres one_patch (call_cb f v).
Proof. unfold call_cb. one_auto. Qed.
#[global] Hint Resolve one_waitToSave one_init one_call_cb : one.

Lemma one_stream_emit e n v : pres one_patch (stream_emit e n v).
Proof. unfold stream_emit, Emitter_emit. one_auto. Qed.
#[global] Hint Resolve one_stream_emit : one.

Lemma one_checkMotif env : pres one_patch (checkMotif env).
Proof.
  unfold checkMotif, motif_edge, emitMotifChanged, getThemeColour, getStyleElement.
  one_auto.
  match goal with |- pres _ (themeColour_rules _ ?rs) => induction rs end;
    simpl; one_auto.
Qed.
#[global] Hint Resolve one_checkMotif : one.

(** No call puts a second capability in use. *)
Lemma one_exec env c : pres one_patch (exec env c).
Proof.
  destruct c; simpl; unfold notify_path_changed, notify_destroyed, delay,
    turn, run_task; one_auto.
Qed.

(** *** The rule the loops of [fixOffset] stop at *)

Definition patchable (ru : CSSRule) : Prop :=
  selectorText ru = Some offsetSelector /\ style_top ru <> "".

Fixpoint scan_rules (rs : list nat) (s : state) : option (nat * CSSRule) :=
  match rs with
  | [] => None
  | r :: rs' =>
      match rules s !! r with
      | Some ru => if decide (patchable ru) then Some (r, ru) else scan_rules rs' s
      | None => None
      end
  end.

Fixpoint scan_sheets (sheets : list StyleSheet) (s : state) : option (nat * CSSRule) :=
  match sheets with
  | [] => None
  | sh :: sheets' =>
      match scan_rules (cssRules sh) s with
      | Some x => Some x
      | None => scan_sheets sheets' s
      end
  end.

Definition to_patch (s : state) : option (nat * CSSRule) :=
  scan_sheets (styleSheets s) s.

(** Every rule of every sheet is there. *)
Definition rules_valid (s : state) : Prop :=
  Forall (fun sh => Forall (fun r => r < length (rules s)) (cssRules sh)) (styleSheets s).

(** What [this.restoreOffset] holds is a Disposable that has been disposed
    or restores a rule that is there. *)
Definition handle_ok (s : state) : Prop :=
  forall old, ui_restoreOffset s = Some old ->
    exists o, plain s !! old = Some o /\
      (d_disposed o = true \/
       exists r off, o = mkDisposable false (Some (ARestoreTop r off)) /\
                     r < length (rules s)).

(** The object is constructed, its composite is in use, and the patch
    manager is in order. *)
Definition ready (root : nat) (s : state) : Prop :=
  ui_disposables s = Some root /\
  (exists rc, roots s !! root = Some rc /\ c_disposed rc = false) /\
  rules_valid s /\ handle_ok s /\ one_patch s.

Lemma scan_rules_Some rs s r ru :
  scan_rules rs s = Some (r, ru) -> rules s !! r = Some ru /\ patchable ru.
Proof.
  induction rs as [|r' rs IH]; simpl; [discriminate|].
  destruct (rules s !! r') as [ru'|] eqn:E; [|discriminate].
  destruct (decide (patchable ru')); [|exact IH].
  intros [= <- <-]. auto.
Qed.

Lemma scan_sheets_Some l s r ru :
  scan_sheets l s = Some (r, ru) -> rules s !! r = Some ru /\ patchable ru.
Proof.
  induction l as [|sh l IH]; simpl; [discriminate|].
  destruct (scan_rules (cssRules sh) s) as [[r' ru']|] eqn:E; [|exact IH].
  intros [= <- <-]. eapply scan_rules_Some; eauto.
Qed.

Lemma fixOffset_rules_scan rs s :
  Forall (fun r => r < length (rules s)) rs ->
  fixOffset_rules rs s =
  match scan_rules rs s with
  | Some (r, ru) => (patchOffset r ru ;;; ret true) s
  | None => Ok false s
  end.
Proof.
  induction 1 as [|r rs Hr _ IH]; simpl; [reflexivity|].
  apply lookup_lt_is_Some in Hr as [ru Hru].
  unfold bind at 1, deref. rewrite Hru.
  unfold patchable.
  destruct (decide (selectorText ru = Some offsetSelector /\ style_top ru <> ""));
    [reflexivity|exact IH].
Qed.

Lemma fixOffset_sheets_scan l s :
  Forall (fun sh => Forall (fun r => r < length (rules s)) (cssRules sh)) l ->
  fixOffset_sheets l s =
  match scan_sheets l s with
  | Some (r, ru) => (patchOffset r ru ;;; ret tt) s
  | None => Ok tt s
  end.
Proof.
  induction 1 as [|sh l Hsh _ IH]; simpl; [reflexivity|].
  unfold bind at 1. rewrite (fixOffset_rules_scan _ _ Hsh).
  destruct (scan_rules (cssRules sh) s) as [[r ru]|].
  - unfold bind, ret. destruct (patchOffset r ru s); reflexivity.
  - exact IH.
Qed.

Lemma fixOffset_scan s :
  rules_valid s ->
  fixOffset s =
  match to_patch s with
  | Some (r, ru) => (patchOffset r ru ;;; ret tt) s
  | None => Ok tt s
  end.
Proof.
  intros Hv. unfold fixOffset, bind at 1, get. now apply fixOffset_sheets_scan.
Qed.

(** *** Disposing a Disposable whose action is known *)

Lemma dispose_spent s d o :
  plain s !! d = Some o -> d_disposed o = true -> Disposable_dispose d s = Ok tt s.
Proof.
  intros Ho Hd. unfold Disposable_dispose, bind, deref. now rewrite Ho, Hd.
Qed.

Lemma dispose_restorer s d r off ru :
  plain s !! d = Some (mkDisposable false (Some (ARestoreTop r off))) ->
  rules s !! r = Some ru ->
  Disposable_dispose d s =
  Ok tt (set_plain (<[d := mkDisposable true None]> (plain s))
           (set_rules (<[r := mkRule (selectorText ru) (cssText ru) off]> (rules s)) s)).
Proof.
  intros Ho Hr. unfold Disposable_dispose, bind, deref. rewrite Ho. simpl.
  unfold modify, run_action, bind, deref. simpl. rewrite Hr. simpl.
  f_equal. apply state_ext; simpl; try reflexivity.
  apply list_insert_insert_eq.
Qed.

(** *** One patch, step by step *)

(** lines 198-201 *)
Definition release_held : M unit :=
  s <- get ;;
  match ui_restoreOffset s with
  | Some old =>
      Disposable_dispose old ;;;
      d <- defined ui_disposables ;;
      root_remove d (MPlain old)
  | None => ret tt
  end.

(** lines 203-204 *)
Definition install (r : nat) (offset : string) : M unit :=
  n <- new_plain (ARestoreTop r offset) ;;
  modify (set_ui_restoreOffset (Some n)) ;;;
  d <- defined ui_disposables ;;
  root_add d (MPlain n).

(** line 196 *)
Definition cleared (r : nat) (ru : CSSRule) (s : state) : state :=
  set_rules (<[r := mkRule (selectorText ru) (cssText ru) ""]> (rules s)) s.

Lemma patchOffset_unfold r ru s :
  patchOffset r ru s = (release_held ;;; install r (style_top ru)) (cleared r ru s).
Proof. reflexivity. Qed.

Lemma ready_cleared root r ru s : ready root s -> ready root (cleared r ru s).
Proof.
  intros (Hu & Hr & Hv & Hh & Ho). repeat split; try assumption.
  - unfold rules_valid, cleared in *. simpl. now rewrite length_insert.
  - intros old Hold. destruct (Hh old Hold) as (o & Hp & Hc).
    exists o. split; [exact Hp|]. unfold cleared. simpl. now rewrite length_insert.
Qed.

Lemma Composite_remove_not_elem {A} `{EqDecision A} (x : A) c :
  c_disposed c = false -> x ∉ c_members (Composite_remove x c).
Proof.
  intros Hd. unfold Composite_remove. rewrite Hd. simpl.
  rewrite list_elem_of_filter. tauto.
Qed.

Lemma Composite_remove_disposed {A} `{EqDecision A} (x : A) c :
  c_disposed (Composite_remove x c) = c_disposed c.
Proof. unfold Composite_remove. now destruct (c_disposed c) eqn:E. Qed.

Lemma Composite_add_disposed {A} `{EqDecision A} (x : A) c :
  c_disposed (Composite_add x c) = c_disposed c.
Proof.
  unfold Composite_add. destruct (c_disposed c) eqn:E; [exact E|].
  now destruct (decide (x ∈ c_members c)).
Qed.

Lemma Composite_add_elem {A} `{EqDecision A} (x y : A) c :
  c_disposed c = false ->
  (y ∈ c_members (Composite_add x c) <-> y = x \/ y ∈ c_members c).
Proof.
  intros Hd. unfold Composite_add. rewrite Hd.
  destruct (decide (x ∈ c_members c)) as [Hin|Hni]; simpl.
  - split; [auto|]. intros [->|?]; auto.
  - rewrite elem_of_app, list_elem_of_singleton. tauto.
Qed.

Lemma held_unique s old d :
  one_patch s -> ui_restoreOffset s = Some old -> restorer s d -> d = old.
Proof. intros H Ho Hd. apply H in Hd. congruence. Qed.

(** What lines 198-201 leave, from a state in order. *)
Lemma release_held_ready root s :
  ready root s ->
  exists s2,
    release_held s = Ok tt s2 /\ no_patch s2 /\
    length (plain s2) = length (plain s) /\
    ui_disposables s2 = Some root /\
    (exists c2, roots s2 !! root = Some c2 /\ c_disposed c2 = false /\
       forall old, ui_restoreOffset s = Some old -> MPlain old ∉ c_members c2) /\
    length (rules s2) = length (rules s) /\ styleSheets s2 = styleSheets s /\
    (forall old, ui_restoreOffset s = Some old ->
       old < length (plain s) /\
       exists o, plain s2 !! old = Some o /\ d_disposed o = true).
Proof.
  intros (Hu & (rc & Hr & Hrd) & Hv & Hh & Ho).
  unfold release_held, bind at 1, get.
  destruct (ui_restoreOffset s) as [old|] eqn:Eo.
  - destruct (Hh old Eo) as (o & Hp & Hc).
    assert (Hlt : old < length (plain s)) by (eapply lookup_lt_Some; eauto).
    assert (Hrl : root < length (roots s)) by (eapply lookup_lt_Some; eauto).
    destruct Hc as [Hd|(r & off & -> & Hlr)].
    + unfold bind at 1. rewrite (dispose_spent s old o Hp Hd).
      unfold bind, defined. rewrite Hu. unfold root_remove, bind, deref. rewrite Hr.
      eexists. split; [reflexivity|]. simpl.
      split.
      { intros d (r & off & Hl). simpl in Hl.
        assert (d = old) as -> by (apply (held_unique s); auto; now exists r, off).
        rewrite Hp in Hl. injection Hl as ->. discriminate. }
      split; [reflexivity|]. split; [exact Hu|]. split.
      { eexists. split; [now apply list_lookup_insert_eq|].
        split; [now rewrite Composite_remove_disposed|].
        intros ? [= <-]. now apply Composite_remove_not_elem. }
      split; [reflexivity|]. split; [reflexivity|].
      intros ? [= <-]. split; [exact Hlt|]. now exists o.
    + apply lookup_lt_is_Some in Hlr as [ru Hru].
      unfold bind at 1. rewrite (dispose_restorer s old r off ru Hp Hru).
      unfold bind, defined. simpl. rewrite Hu. unfold root_remove, bind, deref.
      simpl. rewrite Hr.
      eexists. split; [reflexivity|]. simpl.
      split.
      { intros d (r' & off' & Hl). simpl in Hl.
        apply list_lookup_insert_Some in Hl as [(_ & [=] & _)|(Hne & Hl)].
        apply Hne. symmetry. apply (held_unique s); auto. now exists r', off'. }
      split; [now rewrite length_insert|]. split; [exact Hu|]. split.
      { eexists. split; [now apply list_lookup_insert_eq|].
        split; [now rewrite Composite_remove_disposed|].
        intros ? [= <-]. now apply Composite_remove_not_elem. }
      split; [now rewrite length_insert|]. split; [reflexivity|].
      intros ? [= <-]. split; [exact Hlt|].
      eexists. split; [now apply list_lookup_insert_eq|reflexivity].
  - exists s. split; [reflexivity|].
    split. { intros d Hd. apply Ho in Hd. congruence. }
    split; [reflexivity|]. split; [exact Hu|]. split.
    { exists rc. repeat split; try assumption. discriminate. }
    split; [reflexivity|]. split; [reflexivity|]. discriminate.
Qed.

(** What lines 203-204 leave. *)
Lemma install_ready root r off s c :
  ui_disposables s = Some root -> roots s !! root = Some c ->
  install r off s =
  Ok tt (set_roots (<[root := Composite_add (MPlain (length (plain s))) c]> (roots s))
           (set_ui_restoreOffset (Some (length (plain s)))
              (set_plain (plain s ++ [mkDisposable false (Some (ARestoreTop r off))]) s))).
Proof.
  intros Hu Hr. unfold install, new_plain, bind, modify, defined. simpl.
  rewrite Hu. unfold root_add, bind, deref, modify. simpl. now rewrite Hr.
Qed.

(** One pass through lines 195-205 from a state in order. *)
Lemma patchOffset_ready root s r ru :
  ready root s -> rules s !! r = Some ru ->
  exists s4,
    patchOffset r ru s = Ok tt s4 /\
    ui_restoreOffset s4 = Some (length (plain s)) /\
    plain s4 !! length (plain s) =
      Some (mkDisposable false (Some (ARestoreTop r (style_top ru)))) /\
    (forall old, ui_restoreOffset s = Some old ->
       (exists o, plain s4 !! old = Some o /\ d_disposed o = true) /\
       (exists c, roots s4 !! root = Some c /\ MPlain old ∉ c_members c)) /\
    (exists c, roots s4 !! root = Some c /\ MPlain (length (plain s)) ∈ c_members c) /\
    ready root s4.
Proof.
  intros Hrdy Hru. rewrite patchOffset_unfold.
  pose proof (ready_cleared root r ru s Hrdy) as Hc.
  destruct (release_held_ready root _ Hc)
    as (s2 & E2 & Hno & Hlen & Hu2 & (c2 & Hr2 & Hd2 & Hout) & Hlr & Hss & Hold).
  change (plain (cleared r ru s)) with (plain s) in *.
  change (ui_restoreOffset (cleared r ru s)) with (ui_restoreOffset s) in *.
  change (styleSheets (cleared r ru s)) with (styleSheets s) in *.
  assert (Hlr' : length (rules s2) = length (rules s)).
  { rewrite Hlr. unfold cleared. simpl. apply length_insert. }
  assert (Hrl : root < length (roots s2)) by (eapply lookup_lt_Some; eauto).
  unfold bind at 1. rewrite E2.
  rewrite (install_ready root r (style_top ru) s2 c2 Hu2 Hr2). rewrite Hlen.
  eexists. split; [reflexivity|]. simpl.
  assert (Hn : (plain s2 ++ [mkDisposable false (Some (ARestoreTop r (style_top ru)))])
               !! length (plain s)
               = Some (mkDisposable false (Some (ARestoreTop r (style_top ru))))).
  { rewrite <- Hlen. apply lookup_snoc. }
  assert (Hc4 : <[root := Composite_add (MPlain (length (plain s))) c2]> (roots s2) !! root
                = Some (Composite_add (MPlain (length (plain s))) c2))
    by now apply list_lookup_insert_eq.
  split; [reflexivity|]. split; [exact Hn|]. split; [|split].
  - intros old Ho. destruct (Hold old Ho) as (Hlt & o & Hpo & Hdo). split.
    + exists o. split; [|exact Hdo]. now apply lookup_app_l_Some.
    + eexists. split; [exact Hc4|].
      rewrite Composite_add_elem by exact Hd2. intros [[= ->]|Hin]; [lia|].
      now apply (Hout old Ho).
  - eexists. split; [exact Hc4|]. rewrite Composite_add_elem by exact Hd2. now left.
  - split; [exact Hu2|]. split.
    { eexists. split; [exact Hc4|]. now rewrite Composite_add_disposed. }
    split.
    { unfold rules_valid. simpl. rewrite Hss, Hlr'. now destruct Hrdy as (_ & _ & Hv & _). }
    split.
    { intros old [= <-]. eexists. split; [exact Hn|]. right.
      exists r, (style_top ru). split; [reflexivity|]. simpl. rewrite Hlr'.
      eapply lookup_lt_Some; eauto. }
    intros d (r' & off' & Hl). simpl in *. f_equal.
    apply lookup_app_Some in Hl as [Hl|[Hge Hl]].
    + exfalso. apply (Hno d). now exists r', off'.
    + apply list_lookup_singleton_Some in Hl as [Hd _]. lia.
Qed.

Lemma ready_unique root s d d' :
  ready root s -> ui_restoreOffset s = Some d -> restorer s d' -> d' = d.
Proof. intros (_ & _ & _ & _ & Ho) Hd Hr. now apply (held_unique s). Qed.

(** C8. No call ever leaves two restoring capabilities in use: if every one
    in use is the one the object holds, that is still so after any call.
    From a state in order in which the loops find a rule to patch,
    [fixOffset] returns having disposed the capability held before, which
    is then no member of [this.disposables], and holding a new one that
    restores the value the rule had.  After a second [fixOffset] right away
    there is exactly one capability in use, the one held; the value it
    restores is not empty, and it is the value its rule had when the call
    that installed it ran (the first call, when the second finds nothing to
    patch because the rule is now cleared); disposing it writes that value
    back. *)
Theorem one_restoring_capability env root s r0 ru0 :
  ready root s -> to_patch s = Some (r0, ru0) ->
  (forall c s', one_patch s' -> one_patch (final (exec env c s'))) /\
  (exists s1,
     fixOffset s = Ok tt s1 /\
     ui_restoreOffset s1 = Some (length (plain s)) /\
     plain s1 !! length (plain s) =
       Some (mkDisposable false (Some (ARestoreTop r0 (style_top ru0)))) /\
     rules s !! r0 = Some ru0 /\
     forall old, ui_restoreOffset s = Some old ->
       (exists o, plain s1 !! old = Some o /\ d_disposed o = true) /\
       (exists c, roots s1 !! root = Some c /\ MPlain old ∉ c_members c)) /\
  (exists s1 s2 d r off,
     fixOffset s = Ok tt s1 /\ fixOffset s1 = Ok tt s2 /\
     ui_restoreOffset s2 = Some d /\
     plain s2 !! d = Some (mkDisposable false (Some (ARestoreTop r off))) /\
     (forall d', restorer s2 d' -> d' = d) /\
     off <> "" /\
     ((exists ru, to_patch s1 = Some (r, ru) /\ rules s1 !! r = Some ru /\
                  style_top ru = off) \/
      (to_patch s1 = None /\ s2 = s1 /\ r = r0 /\ off = style_top ru0)) /\
     exists s3, Disposable_dispose d s2 = Ok tt s3 /\
                style_top <$> rules s3 !! r = Some off).
Proof.
  intros Hrdy Hp.
  split; [intros c s'; apply one_exec|].
  destruct (scan_sheets_Some _ _ _ _ Hp) as [Hru0 [_ Hne0]].
  destruct (patchOffset_ready root s r0 ru0 Hrdy Hru0)
    as (s1 & E1 & Hh1 & Hn1 & Hold1 & Hin1 & Hrdy1).
  assert (F1 : fixOffset s = Ok tt s1).
  { rewrite fixOffset_scan by apply Hrdy. rewrite Hp. unfold bind. now rewrite E1. }
  split.
  { exists s1. split; [exact F1|]. split; [exact Hh1|]. split; [exact Hn1|].
    split; [exact Hru0|exact Hold1]. }
  assert (Hfin : forall s2 d r off,
    ready root s2 -> ui_restoreOffset s2 = Some d ->
    plain s2 !! d = Some (mkDisposable false (Some (ARestoreTop r off))) ->
    (forall d', restorer s2 d' -> d' = d) /\
    exists s3, Disposable_dispose d s2 = Ok tt s3 /\
               style_top <$> rules s3 !! r = Some off).
  { intros s2 d r off Hr2 Hd2 Hpl. split.
    - intros d' Hd'. eapply ready_unique; eauto.
    - destruct Hr2 as (_ & _ & _ & Hh & _).
      destruct (Hh d Hd2) as (o & Ho & [Hdo|(r' & off' & -> & Hlt)]).
      + rewrite Hpl in Ho. injection Ho as <-. discriminate.
      + rewrite Hpl in Ho. injection Ho as <- <-.
        apply lookup_lt_is_Some in Hlt as [ru Hru].
        rewrite (dispose_restorer s2 d r off ru Hpl Hru).
        eexists. split; [reflexivity|]. simpl.
        rewrite list_lookup_insert_eq by (eapply lookup_lt_Some; eauto).
        reflexivity. }
  destruct (to_patch s1) as [[r1 ru1]|] eqn:Hp1.
  - destruct (scan_sheets_Some _ _ _ _ Hp1) as [Hru1 [_ Hne1]].
    destruct (patchOffset_ready root s1 r1 ru1 Hrdy1 Hru1)
      as (s2 & E2 & Hh2 & Hn2 & _ & _ & Hrdy2).
    assert (F2 : fixOffset s1 = Ok tt s2).
    { rewrite fixOffset_scan by apply Hrdy1. rewrite Hp1. unfold bind. now rewrite E2. }
    destruct (Hfin _ _ _ _ Hrdy2 Hh2 Hn2) as [Hu Hd].
    exists s1, s2, (length (plain s1)), r1, (style_top ru1).
    split; [exact F1|]. split; [exact F2|]. split; [exact Hh2|]. split; [exact Hn2|].
    split; [exact Hu|]. split; [exact Hne1|]. split; [|exact Hd].
    left. now exists ru1.
  - assert (F2 : fixOffset s1 = Ok tt s1).
    { rewrite fixOffset_scan by apply Hrdy1. now rewrite Hp1. }
    destruct (Hfin _ _ _ _ Hrdy1 Hh1 Hn1) as [Hu Hd].
    exists s1, s1, (length (plain s)), r0, (style_top ru0).
    split; [exact F1|]. split; [exact F2|]. split; [exact Hh1|]. split; [exact Hn1|].
    split; [exact Hu|]. split; [exact Hne0|]. split; [|exact Hd].
    right. auto.
Qed.

Definition patch_sheets : list StyleSheet := [mkSheet None [0]].
Definition patch_rules : list CSSRule := [mkRule (Some offsetSelector) "" "5px"].

Lemma one_restoring_capability_witness :
  let s := loaded patch_sheets patch_rules None in
  exists s1 s2 d r off,
    fixOffset s = Ok tt s1 /\ fixOffset s1 = Ok tt s2 /\
    ui_restoreOffset s2 = Some d /\
    plain s2 !! d = Some (mkDisposable false (Some (ARestoreTop r off))) /\
    (forall d', restorer s2 d' -> d' = d) /\
    off <> "" /\
    ((exists ru, to_patch s1 = Some (r, ru) /\ rules s1 !! r = Some ru /\
                 style_top ru = off) \/
     (to_patch s1 = None /\ s2 = s1 /\ r = 0 /\ off = "5px")) /\
    exists s3, Disposable_dispose d s2 = Ok tt s3 /\
               style_top <$> rules s3 !! r = Some off.
Proof.
  intros s.
  assert (Hrdy : ready 0 s).
  { split; [vm_compute; reflexivity|]. split.
    { exists (mkComposite false []). split; vm_compute; reflexivity. }
    split.
    { unfold rules_valid. change (styleSheets s) with patch_sheets.
      change (rules s) with patch_rules. repeat constructor. }
    split.
    { intros old Hold. vm_compute in Hold. discriminate. }
    intros d (r & off & Hl). change (plain s) with (@nil Disposable) in Hl.
    now rewrite lookup_nil in Hl. }
  assert (Hp : to_patch s = Some (0, mkRule (Some offsetSelector) "" "5px"))
    by (vm_compute; reflexivity).
  exact (proj2 (proj2 (one_restoring_capability quiet_host 0 s 0 _ Hrdy Hp))).
Defined.

(** ** Waiting for a document to be saved *)

(** The callbacks registered for [name], whether or not the table has the
    key. *)
Definition entries {F} (tbl : gmap string (list F)) (name : string) : list F :=
  default [] (tbl !! name).

Lemma remove_first_app_ne {F} `{EqDecision F} (f : F) l tail :
  f ∉ tail -> remove_first f (l ++ tail) = remove_first f l ++ tail.
Proof.
  intros Hn. induction l as [|x l IH]; simpl.
  - induction tail as [|y tail IH]; simpl; [reflexivity|].
    apply not_elem_of_cons in Hn as [Hne Hn].
    destruct (decide (y = f)); [congruence|]. f_equal. now apply IH.
  - destruct (decide (x = f)); [reflexivity|]. now rewrite IH.
Qed.

Lemma remove_first_Forall {F} `{EqDecision F} (P : F -> Prop) (f : F) l :
  Forall P l -> Forall P (remove_first f l).
Proof.
  induction 1 as [|x l Hx Hl IH]; simpl; [constructor|].
  destruct (decide (x = f)); [exact Hl|]. now constructor.
Qed.

Lemma entries_table_off {F} `{EqDecision F} n (f : F) tbl n' :
  entries (table_off n f tbl) n' =
  if decide (n = n') then remove_first f (entries tbl n) else entries tbl n'.
Proof.
  unfold entries, table_off. destruct (decide (n = n')) as [<-|Hne].
  - destruct (tbl !! n) as [l|] eqn:E; simpl.
    + destruct (remove_first f l) eqn:Er.
      * now rewrite lookup_delete_eq.
      * now rewrite lookup_insert_eq.
    + now rewrite E.
  - destruct (tbl !! n) as [l|] eqn:E; [|reflexivity].
    destruct (remove_first f l).
    + now rewrite lookup_delete_ne.
    + now rewrite lookup_insert_ne.
Qed.

(** The values [resolve] of promise [p] was called with, in order. *)
Definition resolved_with (p : nat) (l : list event) : list value :=
  omap (fun ev => match ev with
                  | ResolveCall q v => if decide (q = p) then Some v else None
                  | _ => None
                  end) l.

Lemma resolved_with_app p l1 l2 :
  resolved_with p (l1 ++ l2) = resolved_with p l1 ++ resolved_with p l2.
Proof. apply omap_app. Qed.

Lemma Composite_remove_absent {A} `{EqDecision A} (x : A) c :
  x ∉ c_members c -> Composite_remove x c = c.
Proof.
  intros Hn. unfold Composite_remove. destruct c as [[] ms]; simpl in *; [reflexivity|].
  f_equal. induction ms as [|y ms IH]; [reflexivity|].
  apply not_elem_of_cons in Hn as [Hne Hn].
  rewrite filter_cons_True by congruence. f_equal. now apply IH.
Qed.

Lemma Composite_remove_Forall {A} `{EqDecision A} (P : A -> Prop) (x : A) c :
  Forall P (c_members c) -> Forall P (c_members (Composite_remove x c)).
Proof.
  intros Hf. unfold Composite_remove. destruct (c_disposed c); [exact Hf|].
  simpl. rewrite Forall_forall in *. intros y Hy.
  apply list_elem_of_filter in Hy as [_ Hy]. now apply Hf.
Qed.

(** What a document can report. *)
Inductive note :=
| PathChanged (file : string)
| Destroyed.

Definition notify (editor : nat) (n : note) : M unit :=
  match n with
  | PathChanged file => notify_path_changed editor file
  | Destroyed => notify_destroyed editor
  end.

Section Waiter.
Variables (ed root cd p d1 subs : nat).
Variables (NG NP NH NS NR : nat).

(** The two callbacks of the call of [waitToSave] under study. *)
Definition ours_d : cb := CbDestroy cd.
Definition ours_p : cb := CbChangePath cd p.

(** A callback that an earlier [waitToSave] registered. *)
Definition old_cb (f : cb) : Prop :=
  match f with
  | CbDestroy g => g < cd /\ g <> subs
  | CbChangePath g q => g < cd /\ g <> subs /\ q < p
  | _ => False
  end.

(** An action that refers to objects that are there, and to none of ours. *)
Definition old_action (a : action) : Prop :=
  match a with
  | ANoop => True
  | AOffHub e _ _ => e < NH
  | AOffStream e _ f => e < NS /\ f <> ours_d /\ f <> ours_p
  | ADetach _ => True
  | ARestoreTop r _ => r < NR
  end.

(** What is known of the objects of the call under study. *)
Record ours := mkOurs {
  armed_d : bool;               (* the callback of line 216 is registered *)
  armed_p : bool;               (* the callback of line 217 is registered *)
  o_cd : Composite nat;         (* the composite of line 214 *)
  o_ds : list Disposable;       (* its three members, lines 215-217 *)
  o_promise : promise;
  o_resolved : list value;      (* what resolve was called with so far *)
  gone : bool                   (* cd is no member of this.disposables *)
}.

Definition tail_of (b : bool) (f : cb) : list cb := if b then [f] else [].

Definition I_roots (w : ours) (rs : list (Composite member)) : Prop :=
  exists c, rs !! root = Some c /\ c_disposed c = false /\
            (gone w = true -> MGroup cd ∉ c_members c).

Definition I_groups (w : ours) (gs : list (Composite nat)) : Prop :=
  length gs = NG /\ gs !! cd = Some (o_cd w) /\
  Forall (fun x => d1 <= x) (c_members (o_cd w)) /\
  forall g c, gs !! g = Some c -> g < cd -> g <> subs ->
              Forall (fun m => m < d1) (c_members c).

Definition I_plain (w : ours) (ps : list Disposable) : Prop :=
  length ps = NP /\ d1 <= NP /\
  (forall i o, o_ds w !! i = Some o -> ps !! (d1 + i) = Some o) /\
  forall m o a, ps !! m = Some o -> m < d1 -> d_action o = Some a -> old_action a.

Definition I_streams (w : ours) (ss : list (Emitter cb)) : Prop :=
  length ss = NS /\
  (exists em tbl,
     ss !! ed = Some em /\ e_disposed em = false /\ e_subscriptions em = subs /\
     e_handlers em = Some tbl /\
     (exists l, entries tbl "did-destroy" = l ++ tail_of (armed_d w) ours_d /\
                Forall old_cb l) /\
     (exists l, entries tbl "did-change-path" = l ++ tail_of (armed_p w) ours_p /\
                Forall old_cb l)) /\
  forall e em, ss !! e = Some em -> e_subscriptions em < NG.

Definition I_hubs (hs : list (Emitter hfn)) : Prop :=
  length hs = NH /\ forall e em, hs !! e = Some em -> e_subscriptions em < NG.

Definition Inv (w : ours) (s : state) : Prop :=
  ui_disposables s = Some root /\ I_roots w (roots s) /\ I_groups w (groups s) /\
  I_plain w (plain s) /\ I_streams w (streams s) /\ I_hubs (hubs s) /\
  length (rules s) = NR /\ promises s !! p = Some (o_promise w) /\
  resolved_with p (log s) = o_resolved w.

(** A step that returns and keeps what is known. *)
Definition safe (w : ours) (m : M unit) : Prop :=
  forall s, Inv w s -> exists s', m s = Ok tt s' /\ Inv w s'.

Lemma safe_ret w : safe w (ret tt).
Proof. intros s Hs. now exists s. Qed.

Lemma safe_bind w (m k : M unit) : safe w m -> safe w k -> safe w (m ;;; k).
Proof.
  intros Hm Hk s Hs. destruct (Hm s Hs) as (s1 & E1 & H1).
  destruct (Hk s1 H1) as (s2 & E2 & H2). exists s2. unfold bind. now rewrite E1.
Qed.

Lemma safe_forEach {A} w (body : A -> M unit) l :
  (forall a, a ∈ l -> safe w (body a)) -> safe w (forEach body l).
Proof.
  induction l as [|a l IH]; intros Hb; simpl; [apply safe_ret|].
  apply safe_bind; [apply Hb; left|]. apply IH. intros b Hin. apply Hb. now right.
Qed.

Lemma safe_group_remove w g m :
  g < NG -> m < d1 -> safe w (group_remove g m).
Proof.
  intros Hg Hm s (Hu & Hr & (Hlen & Hcd & Hge & Hmem) & Hrest).
  unfold group_remove, bind, deref.
  destruct (lookup_lt_is_Some_2 (groups s) g) as [c Hc]; [lia|]. rewrite Hc.
  eexists. split; [reflexivity|]. split; [exact Hu|]. split; [exact Hr|].
  split; [|exact Hrest]. simpl. split; [now rewrite length_insert|]. split; [|split].
  - destruct (decide (g = cd)) as [->|Hne].
    + rewrite list_lookup_insert_eq by lia. f_equal.
      rewrite Hcd in Hc. injection Hc as <-. apply Composite_remove_absent.
      intros Hin. rewrite Forall_forall in Hge. apply Hge in Hin. lia.
    + now rewrite list_lookup_insert_ne.
  - exact Hge.
  - intros g' c' Hl Hlt Hns.
    apply list_lookup_insert_Some in Hl as [(-> & <- & _)|(Hne & Hl)].
    + apply Composite_remove_Forall. eapply Hmem; eauto.
    + eapply Hmem; eauto.
Qed.

Lemma safe_root_remove w x : safe w (root_remove root x).
Proof.
  intros s (Hu & (c & Hc & Hd & Hg) & Hrest).
  unfold root_remove, bind, deref. rewrite Hc.
  eexists. split; [reflexivity|]. split; [exact Hu|]. split; [|exact Hrest].
  exists (Composite_remove x c). simpl. split.
  - apply list_lookup_insert_eq. eapply lookup_lt_Some; eauto.
  - split; [now rewrite Composite_remove_disposed|].
    intros Hgone Hin. apply (Hg Hgone).
    unfold Composite_remove in Hin. rewrite Hd in Hin. simpl in Hin.
    now apply list_elem_of_filter in Hin as [_ Hin].
Qed.

Lemma safe_hub_off w e n f : e < NH -> safe w (hub_off e n f).
Proof.
  intros He s (Hu & Hr & Hg & Hp & Hs & (Hlen & Hsub) & Hrest).
  unfold hub_off, bind, deref.
  destruct (lookup_lt_is_Some_2 (hubs s) e) as [em Hem]; [lia|]. rewrite Hem.
  eexists. split; [reflexivity|].
  split; [exact Hu|]. split; [exact Hr|]. split; [exact Hg|]. split; [exact Hp|].
  split; [exact Hs|]. split; [|exact Hrest]. simpl.
  split; [now rewrite length_insert|].
  intros e' em' Hl.
  apply list_lookup_insert_Some in Hl as [(-> & <- & _)|(Hne & Hl)].
  - unfold Emitter_off_obj. destruct (e_disposed em); simpl; eapply Hsub; eauto.
  - eapply Hsub; eauto.
Qed.

Lemma tail_of_not_elem b f g : f <> g -> f ∉ tail_of b g.
Proof.
  intros Hne. unfold tail_of. destruct b.
  - rewrite list_elem_of_singleton. exact Hne.
  - apply not_elem_of_nil.
Qed.

Lemma safe_stream_off w e n f :
  e < NS -> f <> ours_d -> f <> ours_p -> safe w (stream_off e n f).
Proof.
  intros He Hfd Hfp s (Hu & Hr & Hg & Hp & (Hlen & Hed & Hsub) & Hrest).
  unfold stream_off, bind, deref.
  destruct (lookup_lt_is_Some_2 (streams s) e) as [em Hem]; [lia|]. rewrite Hem.
  eexists. split; [reflexivity|].
  split; [exact Hu|]. split; [exact Hr|]. split; [exact Hg|]. split; [exact Hp|].
  split; [|exact Hrest]. simpl.
  split; [now rewrite length_insert|]. split.
  - destruct Hed as (em0 & tbl & Hl & Hd & Hs & Ht & (ld & Eld & Hld) & (lp & Elp & Hlp)).
    destruct (decide (e = ed)) as [->|Hne].
    + rewrite Hl in Hem. injection Hem as <-.
      exists (Emitter_off_obj n f em0), (table_off n f tbl).
      split; [apply list_lookup_insert_eq; lia|].
      unfold Emitter_off_obj. rewrite Hd, Ht. simpl.
      repeat split; try assumption.
      * rewrite entries_table_off. destruct (decide (n = "did-destroy")) as [->|_].
        -- exists (remove_first f ld). rewrite Eld. split.
           ++ apply remove_first_app_ne. now apply tail_of_not_elem.
           ++ now apply remove_first_Forall.
        -- now exists ld.
      * rewrite entries_table_off. destruct (decide (n = "did-change-path")) as [->|_].
        -- exists (remove_first f lp). rewrite Elp. split.
           ++ apply remove_first_app_ne. now apply tail_of_not_elem.
           ++ now apply remove_first_Forall.
        -- now exists lp.
    + exists em0, tbl. rewrite list_lookup_insert_ne by exact Hne.
      repeat split; try assumption; [now exists ld|now exists lp].
  - intros e' em' Hl.
    apply list_lookup_insert_Some in Hl as [(-> & <- & _)|(Hne & Hl)].
    + unfold Emitter_off_obj. destruct (e_disposed em); simpl; eapply Hsub; eauto.
    + eapply Hsub; eauto.
Qed.

Lemma safe_restore w r off : r < NR -> safe w (run_action 0 (ARestoreTop r off)).
Proof.
  intros Hlt s (Hu & Hr & Hg & Hp & Hs & Hh & Hru & Hrest).
  unfold run_action, bind, deref.
  destruct (lookup_lt_is_Some_2 (rules s) r) as [ru Hl]; [lia|]. rewrite Hl.
  eexists. split; [reflexivity|].
  split; [exact Hu|]. split; [exact Hr|]. split; [exact Hg|]. split; [exact Hp|].
  split; [exact Hs|]. split; [exact Hh|]. split; [|exact Hrest].
  simpl. now rewrite length_insert.
Qed.

(** Running the action of an old Disposable [m]. *)
Lemma safe_run_action w m a : m < d1 -> old_action a -> safe w (run_action m a).
Proof.
  intros Hm Ha. destruct a as [|e n f|e n f|g|r off]; simpl in Ha.
  - apply safe_ret.
  - intros s Hs. pose proof Hs as (_ & _ & _ & _ & _ & (Hlen & Hsub) & _).
    unfold run_action, bind at 1, deref.
    destruct (lookup_lt_is_Some_2 (hubs s) e) as [em Hem]; [lia|]. rewrite Hem.
    apply (safe_bind w (group_remove (e_subscriptions em) m) (hub_off e n f)); auto.
    + apply safe_group_remove; [eapply Hsub; eauto|exact Hm].
    + now apply safe_hub_off.
  - destruct Ha as (He & Hfd & Hfp).
    intros s Hs. pose proof Hs as (_ & _ & _ & _ & (Hlen & _ & Hsub) & _).
    unfold run_action, bind at 1, deref.
    destruct (lookup_lt_is_Some_2 (streams s) e) as [em Hem]; [lia|]. rewrite Hem.
    apply (safe_bind w (group_remove (e_subscriptions em) m) (stream_off e n f)); auto.
    + apply safe_group_remove; [eapply Hsub; eauto|exact Hm].
    + now apply safe_stream_off.
  - intros s Hs. pose proof Hs as (Hu & _).
    unfold run_action, bind at 1, defined. rewrite Hu.
    now apply safe_root_remove.
  - now apply safe_restore.
Qed.

Lemma safe_set_plain w m o' :
  m < d1 -> (forall a, d_action o' = Some a -> old_action a) ->
  safe w (modify (fun s => set_plain (<[m := o']> (plain s)) s)).
Proof.
  intros Hm Ho s (Hu & Hr & Hg & (Hlen & Hd1 & Hds & Hact) & Hrest).
  eexists. split; [reflexivity|].
  split; [exact Hu|]. split; [exact Hr|]. split; [exact Hg|]. split; [|exact Hrest].
  simpl. split; [now rewrite length_insert|]. split; [exact Hd1|]. split.
  - intros i o Hi. rewrite list_lookup_insert_ne by lia. now apply Hds.
  - intros m' o a Hl Hlt Ha.
    apply list_lookup_insert_Some in Hl as [(-> & <- & _)|(Hne & Hl)].
    + now apply Ho.
    + eapply Hact; eauto.
Qed.

Lemma safe_dispose w m : m < d1 -> safe w (Disposable_dispose m).
Proof.
  intros Hm s Hs. pose proof Hs as (_ & _ & _ & (Hlen & H1 & _ & Hact) & _).
  destruct (lookup_lt_is_Some_2 (plain s) m) as [o Ho]; [lia|].
  unfold Disposable_dispose, bind at 1, deref. rewrite Ho.
  destruct (d_disposed o) eqn:Ed; [now apply safe_ret|].
  assert (Hsafe : (forall a, d_action o = Some a -> old_action a) ->
            safe w (modify (fun s => set_plain (<[m := mkDisposable true (d_action o)]>
                                                  (plain s)) s) ;;;
                    match d_action o with Some a => run_action m a | None => ret tt end ;;;
                    modify (fun s => set_plain (<[m := mkDisposable true None]>
                                                  (plain s)) s))).
  { intros Hok. apply safe_bind; [now apply safe_set_plain|].
    apply safe_bind; [|apply safe_set_plain; [exact Hm|discriminate]].
    destruct (d_action o) as [a|]; [|apply safe_ret].
    apply safe_run_action; [exact Hm|]. now apply Hok. }
  apply Hsafe; [|exact Hs].
  intros a Ha. eapply Hact; eauto.
Qed.

Lemma safe_set_group w g c' :
  g < cd -> Forall (fun m => m < d1) (c_members c') ->
  safe w (modify (fun s => set_groups (<[g := c']> (groups s)) s)).
Proof.
  intros Hg Hc s (Hu & Hr & (Hlen & Hcd & Hge & Hmem) & Hrest).
  eexists. split; [reflexivity|].
  split; [exact Hu|]. split; [exact Hr|]. split; [|exact Hrest].
  simpl. split; [now rewrite length_insert|].
  rewrite list_lookup_insert_ne by lia. repeat split; try assumption.
  intros g' c Hl Hlt Hns.
  apply list_lookup_insert_Some in Hl as [(-> & <- & _)|(Hne & Hl)].
  - exact Hc.
  - eapply Hmem; eauto.
Qed.

(** Disposing the composite of an earlier waiter. *)
Lemma safe_group_dispose w g : g < cd -> g <> subs -> safe w (group_dispose g).
Proof.
  intros Hg Hns s Hs. pose proof Hs as (_ & _ & (Hlen & Hcd & _ & Hmem) & _).
  apply lookup_lt_Some in Hcd.
  destruct (lookup_lt_is_Some_2 (groups s) g) as [c Hc]; [lia|].
  unfold group_dispose, bind at 1, deref. rewrite Hc.
  destruct (c_disposed c) eqn:Ed; [now apply safe_ret|].
  pose proof (Hmem g c Hc Hg Hns) as Hms.
  apply (safe_bind w); [now apply safe_set_group| |exact Hs].
  apply safe_bind; [|apply safe_set_group; [exact Hg|constructor]].
  apply safe_forEach. intros m Hin. apply safe_dispose.
  rewrite Forall_forall in Hms. now apply Hms.
Qed.

Lemma resolved_with_other p0 q v l :
  q <> p0 -> resolved_with p0 (l ++ [ResolveCall q v]) = resolved_with p0 l.
Proof.
  intros Hne. rewrite resolved_with_app. simpl.
  destruct (decide (q = p0)); [contradiction|]. apply app_nil_r.
Qed.

Lemma safe_resolve w q v : q < p -> safe w (resolve q v).
Proof.
  intros Hq s (Hu & Hr & Hg & Hp & Hs & Hh & Hru & Hpr & Hl).
  pose proof (lookup_lt_Some _ _ _ Hpr) as Hlt.
  destruct (lookup_lt_is_Some_2 (promises s) q) as [pr Hq']; [lia|].
  unfold resolve, emit_log, bind, modify, deref. simpl. rewrite Hq'.
  assert (Hlog : resolved_with p (log s ++ [ResolveCall q v]) = o_resolved w).
  { rewrite resolved_with_other by lia. exact Hl. }
  destruct pr; (eexists; split; [reflexivity|]);
    (split; [exact Hu|]; split; [exact Hr|]; split; [exact Hg|]; split; [exact Hp|];
     split; [exact Hs|]; split; [exact Hh|]; split; [exact Hru|];
     split; [|exact Hlog]); simpl; rewrite ?list_lookup_insert_ne by lia; exact Hpr.
Qed.

Lemma safe_call_cb w f v : old_cb f -> safe w (call_cb f v).
Proof.
  destruct f as [k|k|g|g q]; simpl; try contradiction.
  - intros [Hg Hns]. now apply safe_group_dispose.
  - intros (Hg & Hns & Hq). apply safe_bind.
    + now apply safe_group_dispose.
    + now apply safe_resolve.
Qed.

Lemma safe_dispatch w l v : Forall old_cb l -> safe w (forEach (fun f => call_cb f v) l).
Proof.
  intros Hl. apply safe_forEach. intros f Hin. apply safe_call_cb.
  rewrite Forall_forall in Hl. now apply Hl.
Qed.

(** *** Steps on our own objects *)

Definition with_cd (C : Composite nat) (w : ours) : ours :=
  mkOurs (armed_d w) (armed_p w) C (o_ds w) (o_promise w) (o_resolved w) (gone w).
Definition with_ds (ds : list Disposable) (w : ours) : ours :=
  mkOurs (armed_d w) (armed_p w) (o_cd w) ds (o_promise w) (o_resolved w) (gone w).
Definition with_gone (w : ours) : ours :=
  mkOurs (armed_d w) (armed_p w) (o_cd w) (o_ds w) (o_promise w) (o_resolved w) true.
Definition with_armed (bd bp : bool) (w : ours) : ours :=
  mkOurs bd bp (o_cd w) (o_ds w) (o_promise w) (o_resolved w) (gone w).
Definition with_promise (pr : promise) (V : list value) (w : ours) : ours :=
  mkOurs (armed_d w) (armed_p w) (o_cd w) (o_ds w) pr V (gone w).

(** A step that returns and takes what is known from [w] to [w']. *)
Definition step (w w' : ours) (m : M unit) : Prop :=
  forall s, Inv w s -> exists s', m s = Ok tt s' /\ Inv w' s'.

Lemma step_safe w m : safe w m -> step w w m.
Proof. intros H. exact H. Qed.

Lemma step_bind w1 w2 w3 (m k : M unit) :
  step w1 w2 m -> step w2 w3 k -> step w1 w3 (m ;;; k).
Proof.
  intros Hm Hk s Hs. destruct (Hm s Hs) as (s1 & E1 & H1).
  destruct (Hk s1 H1) as (s2 & E2 & H2). exists s2. unfold bind. now rewrite E1.
Qed.

Lemma step_set_cd w C' :
  Forall (fun x => d1 <= x) (c_members C') ->
  step w (with_cd C' w) (modify (fun s => set_groups (<[cd := C']> (groups s)) s)).
Proof.
  intros HC s (Hu & Hr & (Hlen & Hcd & Hge & Hmem) & Hrest).
  eexists. split; [reflexivity|].
  split; [exact Hu|]. split; [exact Hr|]. split; [|exact Hrest]. simpl.
  split; [now rewrite length_insert|]. split.
  { apply list_lookup_insert_eq. eapply lookup_lt_Some; eauto. }
  split; [exact HC|].
  intros g c Hl Hlt Hns. rewrite list_lookup_insert_ne in Hl by lia.
  eapply Hmem; eauto.
Qed.

Lemma step_set_ds w i o' :
  i < length (o_ds w) ->
  step w (with_ds (<[i := o']> (o_ds w)) w)
    (modify (fun s => set_plain (<[d1 + i := o']> (plain s)) s)).
Proof.
  intros Hi s (Hu & Hr & Hg & (Hlen & Hd1 & Hds & Hact) & Hrest).
  eexists. split; [reflexivity|].
  split; [exact Hu|]. split; [exact Hr|]. split; [exact Hg|]. split; [|exact Hrest].
  simpl. split; [now rewrite length_insert|]. split; [exact Hd1|]. split.
  - intros j o Hj.
    apply list_lookup_insert_Some in Hj as [(Heq & <- & _)|(Hne & Hj)].
    + subst j. apply list_lookup_insert_eq.
      destruct (lookup_lt_is_Some_2 (o_ds w) i Hi) as [o0 Ho0].
      eapply lookup_lt_Some. eapply Hds; eauto.
    + rewrite list_lookup_insert_ne by lia. now apply Hds.
  - intros m o a Hl Hlt Ha. rewrite list_lookup_insert_ne in Hl by lia.
    eapply Hact; eauto.
Qed.

(** line 215 runs *)
Lemma step_detach w x : step w (with_gone w) (run_action x (ADetach cd)).
Proof.
  intros s (Hu & (c & Hc & Hd & Hg) & Hrest).
  unfold run_action, bind, defined. rewrite Hu.
  unfold root_remove, bind, deref. rewrite Hc.
  eexists. split; [reflexivity|]. split; [exact Hu|]. split; [|exact Hrest].
  exists (Composite_remove (MGroup cd) c). simpl. split.
  - apply list_lookup_insert_eq. eapply lookup_lt_Some; eauto.
  - split; [now rewrite Composite_remove_disposed|].
    intros _. now apply Composite_remove_not_elem.
Qed.

Lemma step_group_remove w g m :
  c_disposed (o_cd w) = true -> g < NG -> step w w (group_remove g m).
Proof.
  intros Hdis Hg s (Hu & Hr & (Hlen & Hcd & Hge & Hmem) & Hrest).
  unfold group_remove, bind, deref.
  destruct (lookup_lt_is_Some_2 (groups s) g) as [c Hc]; [lia|]. rewrite Hc.
  eexists. split; [reflexivity|]. split; [exact Hu|]. split; [exact Hr|].
  split; [|exact Hrest]. simpl. split; [now rewrite length_insert|]. split; [|split].
  - destruct (decide (g = cd)) as [->|Hne].
    + rewrite list_lookup_insert_eq by lia. f_equal.
      rewrite Hcd in Hc. injection Hc as <-.
      unfold Composite_remove. now rewrite Hdis.
    + now rewrite list_lookup_insert_ne.
  - exact Hge.
  - intros g' c' Hl Hlt Hns.
    apply list_lookup_insert_Some in Hl as [(-> & <- & _)|(Hne & Hl)].
    + apply Composite_remove_Forall. eapply Hmem; eauto.
    + eapply Hmem; eauto.
Qed.

Lemma old_cb_ours_d : ~ old_cb ours_d.
Proof. simpl. lia. Qed.
Lemma old_cb_ours_p : ~ old_cb ours_p.
Proof. simpl. lia. Qed.

Lemma remove_first_last {F} `{EqDecision F} (f : F) l :
  f ∉ l -> remove_first f (l ++ [f]) = l.
Proof.
  intros Hn. induction l as [|x l IH]; simpl.
  - destruct (decide (f = f)); [reflexivity|contradiction].
  - apply not_elem_of_cons in Hn as [Hne Hn].
    destruct (decide (x = f)); [congruence|]. f_equal. now apply IH.
Qed.

Lemma old_not_elem l f : Forall old_cb l -> ~ old_cb f -> f ∉ l.
Proof. intros Hl Hf Hin. rewrite Forall_forall in Hl. now apply Hf, Hl. Qed.

(** The cleanup of line 216's subscription runs. *)
Lemma step_off_d w :
  armed_d w = true ->
  step w (with_armed false (armed_p w) w) (stream_off ed "did-destroy" ours_d).
Proof.
  intros Ha s (Hu & Hr & Hg & Hp & (Hlen & Hed & Hsub) & Hrest).
  destruct Hed as (em & tbl & Hl & Hd & Hs & Ht & (ld & Eld & Hld) & (lp & Elp & Hlp)).
  unfold stream_off, bind, deref. rewrite Hl.
  eexists. split; [reflexivity|].
  split; [exact Hu|]. split; [exact Hr|]. split; [exact Hg|]. split; [exact Hp|].
  split; [|exact Hrest]. simpl. split; [now rewrite length_insert|]. split.
  - exists (Emitter_off_obj "did-destroy" ours_d em), (table_off "did-destroy" ours_d tbl).
    split; [apply list_lookup_insert_eq; eapply lookup_lt_Some; eauto|].
    unfold Emitter_off_obj. rewrite Hd, Ht. simpl.
    repeat split; try assumption.
    + exists ld. rewrite entries_table_off.
      destruct (decide ("did-destroy" = "did-destroy")); [|contradiction].
      rewrite Eld, Ha. simpl. split; [|exact Hld].
      rewrite app_nil_r. apply remove_first_last.
      apply old_not_elem; [exact Hld|apply old_cb_ours_d].
    + exists lp. rewrite entries_table_off.
      destruct (decide ("did-destroy" = "did-change-path")); [discriminate|].
      now split.
  - intros e' em' Hl'.
    apply list_lookup_insert_Some in Hl' as [(-> & <- & _)|(Hne & Hl')].
    + unfold Emitter_off_obj. destruct (e_disposed em); simpl; eapply Hsub; eauto.
    + eapply Hsub; eauto.
Qed.

(** The cleanup of line 217's subscription runs. *)
Lemma step_off_p w :
  armed_p w = true ->
  step w (with_armed (armed_d w) false w) (stream_off ed "did-change-path" ours_p).
Proof.
  intros Ha s (Hu & Hr & Hg & Hp & (Hlen & Hed & Hsub) & Hrest).
  destruct Hed as (em & tbl & Hl & Hd & Hs & Ht & (ld & Eld & Hld) & (lp & Elp & Hlp)).
  unfold stream_off, bind, deref. rewrite Hl.
  eexists. split; [reflexivity|].
  split; [exact Hu|]. split; [exact Hr|]. split; [exact Hg|]. split; [exact Hp|].
  split; [|exact Hrest]. simpl. split; [now rewrite length_insert|]. split.
  - exists (Emitter_off_obj "did-change-path" ours_p em),
      (table_off "did-change-path" ours_p tbl).
    split; [apply list_lookup_insert_eq; eapply lookup_lt_Some; eauto|].
    unfold Emitter_off_obj. rewrite Hd, Ht. simpl.
    repeat split; try assumption.
    + exists ld. rewrite entries_table_off.
      destruct (decide ("did-change-path" = "did-destroy")); [discriminate|].
      now split.
    + exists lp. rewrite entries_table_off.
      destruct (decide ("did-change-path" = "did-change-path")); [|contradiction].
      rewrite Elp, Ha. simpl. split; [|exact Hlp].
      rewrite app_nil_r. apply remove_first_last.
      apply old_not_elem; [exact Hlp|apply old_cb_ours_p].
  - intros e' em' Hl'.
    apply list_lookup_insert_Some in Hl' as [(-> & <- & _)|(Hne & Hl')].
    + unfold Emitter_off_obj. destruct (e_disposed em); simpl; eapply Hsub; eauto.
    + eapply Hsub; eauto.
Qed.

(** The action of one of the two subscriptions, once the composite is
    marked disposed. *)
Lemma step_unsubscribe w w' m name f :
  c_disposed (o_cd w) = true ->
  step w w' (stream_off ed name f) ->
  step w w' (run_action m (AOffStream ed name f)).
Proof.
  intros Hdis Hoff s Hs.
  pose proof Hs as (_ & _ & _ & _ & (_ & (em & tbl & Hl & _ & Hsb & _) & Hsub) & _).
  unfold run_action, bind at 1, deref. rewrite Hl.
  apply (step_bind w w w'); [|exact Hoff|exact Hs].
  apply step_group_remove; [exact Hdis|]. eapply Hsub; eauto.
Qed.

(** Disposing member [i] of our composite, whose action takes [w] to [w']. *)
Lemma step_dispose_ours w w' i a :
  o_ds w !! i = Some (mkDisposable false (Some a)) ->
  step (with_ds (<[i := mkDisposable true (Some a)]> (o_ds w)) w) w'
    (run_action (d1 + i) a) ->
  length (o_ds w') = length (o_ds w) ->
  step w (with_ds (<[i := mkDisposable true None]> (o_ds w')) w')
    (Disposable_dispose (d1 + i)).
Proof.
  intros Hi Hact Hlen s Hs.
  pose proof Hs as (_ & _ & _ & (_ & _ & Hds & _) & _).
  pose proof (lookup_lt_Some _ _ _ Hi) as Hlt.
  unfold Disposable_dispose, bind at 1, deref. rewrite (Hds i _ Hi). simpl.
  clear Hds. revert s Hs.
  change (step w (with_ds (<[i:=mkDisposable true None]> (o_ds w')) w')
            (modify (fun s => set_plain (<[d1 + i := mkDisposable true (Some a)]>
                                           (plain s)) s) ;;;
             run_action (d1 + i) a ;;;
             modify (fun s => set_plain (<[d1 + i := mkDisposable true None]>
                                           (plain s)) s))) .
  eapply step_bind; [now apply step_set_ds|].
  eapply step_bind; [exact Hact|].
  apply step_set_ds. lia.
Qed.

(** *** From registered to fired *)

Definition spent : Disposable := mkDisposable true None.

(** Right after [waitToSave]: the composite holds its three members, both
    callbacks are registered, the promise is pending. *)
Definition w_armed (V : list value) : ours :=
  mkOurs true true (mkComposite false [d1 + 0; d1 + 1; d1 + 2])
    [mkDisposable false (Some (ADetach cd));
     mkDisposable false (Some (AOffStream ed "did-destroy" ours_d));
     mkDisposable false (Some (AOffStream ed "did-change-path" ours_p))]
    Pending V false.

(** After the first notification: all disposed, nothing registered. *)
Definition w_fired (pr : promise) (V : list value) : ours :=
  mkOurs false false (mkComposite true []) [spent; spent; spent] pr V true.

(** [cd.dispose()], when it is the first thing to happen to the waiter. *)
Lemma fire V : step (w_armed V) (w_fired Pending V) (group_dispose cd).
Proof.
  intros s Hs. pose proof Hs as (_ & _ & (_ & Hcd & _) & _).
  unfold group_dispose, bind at 1, deref. rewrite Hcd. simpl.
  revert s Hs Hcd. intros s Hs _. revert s Hs.
  change (step (w_armed V) (w_fired Pending V)
    (modify (fun s => set_groups
       (<[cd := mkComposite true [d1 + 0; d1 + 1; d1 + 2]]> (groups s)) s) ;;;
     (Disposable_dispose (d1 + 0) ;;; Disposable_dispose (d1 + 1) ;;;
      Disposable_dispose (d1 + 2) ;;; ret tt) ;;;
     modify (fun s => set_groups (<[cd := mkComposite true []]> (groups s)) s))).
  set (w1 := with_cd (mkComposite true [d1 + 0; d1 + 1; d1 + 2]) (w_armed V)).
  set (a1 := ADetach cd).
  set (a2 := AOffStream ed "did-destroy" ours_d).
  set (a3 := AOffStream ed "did-change-path" ours_p).
  set (w1a := with_gone (with_ds (<[0 := mkDisposable true (Some a1)]> (o_ds w1)) w1)).
  set (w2 := with_ds (<[0 := spent]> (o_ds w1a)) w1a).
  set (w2a := with_armed false true
                (with_ds (<[1 := mkDisposable true (Some a2)]> (o_ds w2)) w2)).
  set (w3 := with_ds (<[1 := spent]> (o_ds w2a)) w2a).
  set (w3a := with_armed false false
                (with_ds (<[2 := mkDisposable true (Some a3)]> (o_ds w3)) w3)).
  set (w4 := with_ds (<[2 := spent]> (o_ds w3a)) w3a).
  apply (step_bind _ w1).
  { apply step_set_cd. repeat constructor; lia. }
  apply (step_bind _ w4).
  { apply (step_bind _ w2).
    { apply (step_dispose_ours w1 w1a 0 a1); [reflexivity| |reflexivity].
      apply step_detach. }
    apply (step_bind _ w3).
    { apply (step_dispose_ours w2 w2a 1 a2); [reflexivity| |reflexivity].
      apply step_unsubscribe; [reflexivity|].
      apply (step_off_d (with_ds (<[1 := mkDisposable true (Some a2)]> (o_ds w2)) w2)).
      reflexivity. }
    apply (step_bind _ w4).
    { apply (step_dispose_ours w3 w3a 2 a3); [reflexivity| |reflexivity].
      apply step_unsubscribe; [reflexivity|].
      apply (step_off_p (with_ds (<[2 := mkDisposable true (Some a3)]> (o_ds w3)) w3)).
      reflexivity. }
    apply step_safe, safe_ret. }
  apply (step_set_cd w4 (mkComposite true [])). constructor.
Qed.

Lemma step_resolve_ours w v :
  o_promise w = Pending ->
  step w (with_promise (Resolved v) (o_resolved w ++ [v]) w) (resolve p v).
Proof.
  intros Hpe s (Hu & Hr & Hg & Hp & Hs & Hh & Hru & Hpr & Hl).
  unfold resolve, emit_log, bind, modify, deref. simpl. rewrite Hpr, Hpe.
  eexists. split; [reflexivity|].
  split; [exact Hu|]. split; [exact Hr|]. split; [exact Hg|]. split; [exact Hp|].
  split; [exact Hs|]. split; [exact Hh|]. split; [exact Hru|]. simpl. split.
  - apply list_lookup_insert_eq. eapply lookup_lt_Some; eauto.
  - rewrite resolved_with_app, Hl. simpl.
    destruct (decide (p = p)); [reflexivity|contradiction].
Qed.

(** *** Notifications *)

Lemma forEach_app {A} (body : A -> M unit) l1 l2 s :
  forEach body (l1 ++ l2) s = (forEach body l1 ;;; forEach body l2) s.
Proof.
  revert s. induction l1 as [|a l1 IH]; intros s; simpl; [reflexivity|].
  unfold bind in *. destruct (body a s) as [[] s'|e s']; [|reflexivity].
  apply IH.
Qed.

(** A dispatch on the document runs the callbacks found for the name. *)
Lemma stream_emit_entries w name v s :
  is_inherited name = false -> Inv w s ->
  exists tbl,
    (exists em, streams s !! ed = Some em /\ e_handlers em = Some tbl) /\
    stream_emit ed name v s = forEach (fun f => call_cb f v) (entries tbl name) s.
Proof.
  intros Hn (_ & _ & _ & _ & (_ & (em & tbl & Hl & _ & _ & Ht & _) & _) & _).
  exists tbl. split; [now exists em|].
  unfold stream_emit, Emitter_emit, bind, deref, entries. rewrite Hl, Ht.
  rewrite (inherited_own _ _ Hn). destruct (tbl !! name); reflexivity.
Qed.

Lemma step_dispatch w w' l tail v s :
  Forall old_cb l -> step w w' (forEach (fun f => call_cb f v) tail) ->
  Inv w s ->
  exists s', forEach (fun f => call_cb f v) (l ++ tail) s = Ok tt s' /\ Inv w' s'.
Proof.
  intros Hl Ht Hs. rewrite forEach_app.
  apply (step_bind w w w'); [|exact Ht|exact Hs].
  apply step_safe. now apply safe_dispatch.
Qed.

(** The first notification is a new path. *)
Lemma notify_path_armed V file :
  step (w_armed V) (w_fired (Resolved (VString file)) (V ++ [VString file]))
    (notify_path_changed ed file).
Proof.
  intros s Hs.
  destruct (stream_emit_entries _ "did-change-path" (VString file) s eq_refl Hs)
    as (tbl & (em & Hl & Ht) & E).
  unfold notify_path_changed. rewrite E.
  pose proof Hs as (_ & _ & _ & _ & (_ & (em' & tbl' & Hl' & _ & _ & Ht' & _ & (lp & Elp & Hlp)) & _) & _).
  rewrite Hl in Hl'. injection Hl' as <-. rewrite Ht in Ht'. injection Ht' as <-.
  rewrite Elp. apply (step_dispatch (w_armed V)); [exact Hlp| |exact Hs].
  simpl. apply (step_bind _ (with_promise (Resolved (VString file)) (V ++ [VString file])
                               (w_fired Pending V))); [|apply step_safe, safe_ret].
  apply (step_bind _ (w_fired Pending V)); [apply fire|].
  now apply (step_resolve_ours (w_fired Pending V)).
Qed.

(** The first notification is the destruction. *)
Lemma notify_destroyed_armed V :
  step (w_armed V) (w_fired Pending V) (notify_destroyed ed).
Proof.
  intros s Hs.
  destruct (stream_emit_entries _ "did-destroy" VUndefined s eq_refl Hs)
    as (tbl & (em & Hl & Ht) & E).
  unfold notify_destroyed. rewrite E.
  pose proof Hs as (_ & _ & _ & _ & (_ & (em' & tbl' & Hl' & _ & _ & Ht' & (ld & Eld & Hld) & _) & _) & _).
  rewrite Hl in Hl'. injection Hl' as <-. rewrite Ht in Ht'. injection Ht' as <-.
  rewrite Eld. apply (step_dispatch (w_armed V)); [exact Hld| |exact Hs].
  simpl. apply (step_bind _ (w_fired Pending V)); [apply fire|apply step_safe, safe_ret].
Qed.

(** Any notification once nothing of ours is registered. *)
Lemma notify_disarmed w name v :
  armed_d w = false -> armed_p w = false ->
  name = "did-destroy" \/ name = "did-change-path" ->
  step w w (stream_emit ed name v).
Proof.
  intros Hd Hp Hn s Hs.
  assert (Hi : is_inherited name = false) by (destruct Hn as [->| ->]; reflexivity).
  destruct (stream_emit_entries _ name v s Hi Hs) as (tbl & (em & Hl & Ht) & E).
  rewrite E.
  pose proof Hs as (_ & _ & _ & _ & (_ & (em' & tbl' & Hl' & _ & _ & Ht' & (ld & Eld & Hld) & (lp & Elp & Hlp)) & _) & _).
  rewrite Hl in Hl'. injection Hl' as <-. rewrite Ht in Ht'. injection Ht' as <-.
  rewrite Hd in Eld. rewrite Hp in Elp. simpl in Eld, Elp.
  destruct Hn as [->| ->].
  - rewrite Eld. apply (step_dispatch w); [exact Hld|apply step_safe, safe_ret|exact Hs].
  - rewrite Elp. apply (step_dispatch w); [exact Hlp|apply step_safe, safe_ret|exact Hs].
Qed.

(** What is known after the first notification [n]. *)
Definition after_first (V : list value) (n : note) : ours :=
  match n with
  | PathChanged file => w_fired (Resolved (VString file)) (V ++ [VString file])
  | Destroyed => w_fired Pending V
  end.

Lemma notify_first V n : step (w_armed V) (after_first V n) (notify ed n).
Proof.
  destruct n as [file|]; simpl; [apply notify_path_armed|apply notify_destroyed_armed].
Qed.

Lemma notify_later w n :
  armed_d w = false -> armed_p w = false -> step w w (notify ed n).
Proof.
  intros Hd Hp. destruct n as [file|]; simpl;
    unfold notify_path_changed, notify_destroyed; apply notify_disarmed; auto.
Qed.

Lemma notify_all_later w ns :
  armed_d w = false -> armed_p w = false -> step w w (forEach (notify ed) ns).
Proof.
  intros Hd Hp. induction ns as [|n ns IH]; simpl.
  - apply step_safe, safe_ret.
  - eapply step_bind; [now apply notify_later|exact IH].
Qed.

(** Any notifications of the document, from right after [waitToSave]. *)
Lemma notify_all V n ns :
  step (w_armed V) (after_first V n) (forEach (notify ed) (n :: ns)).
Proof.
  simpl. eapply step_bind; [apply notify_first|].
  apply notify_all_later; now destruct n.
Qed.
End Waiter.

(** *** The state [waitToSave] needs, and the state it leaves *)

Definition cb_wf (s : state) (f : cb) : Prop :=
  match f with
  | CbDestroy g | CbChangePath g _ => g < length (groups s)
  | _ => True
  end.

Definition action_wf (s : state) (a : action) : Prop :=
  match a with
  | ANoop => True
  | AOffHub e _ _ => e < length (hubs s)
  | AOffStream e _ f => e < length (streams s) /\ cb_wf s f
  | ADetach _ => True
  | ARestoreTop r _ => r < length (rules s)
  end.

(** The object is constructed and its composite in use; the document is a
    live stream on which only earlier calls of [waitToSave] listen for the
    two notifications; and every stored reference is to an object that is
    there. *)
Definition waitable (editor : nat) (s : state) : Prop :=
  exists root rc em tbl sc,
    ui_disposables s = Some root /\ roots s !! root = Some rc /\
    c_disposed rc = false /\
    streams s !! editor = Some em /\ e_disposed em = false /\
    e_handlers em = Some tbl /\ groups s !! e_subscriptions em = Some sc /\
    Forall (old_cb (length (groups s)) (length (promises s)) (e_subscriptions em))
      (entries tbl "did-destroy") /\
    Forall (old_cb (length (groups s)) (length (promises s)) (e_subscriptions em))
      (entries tbl "did-change-path") /\
    Forall (fun c => Forall (fun m => m < length (plain s)) (c_members c)) (groups s) /\
    Forall (fun o => forall a, d_action o = Some a -> action_wf s a) (plain s) /\
    Forall (fun em => e_subscriptions em < length (groups s)) (streams s) /\
    Forall (fun em => e_subscriptions em < length (groups s)) (hubs s).

Lemma stream_on_live e name f s em tbl c :
  streams s !! e = Some em -> e_disposed em = false -> e_handlers em = Some tbl ->
  groups s !! e_subscriptions em = Some c -> is_inherited name = false ->
  stream_on e name f s =
  Ok (length (plain s))
     (set_groups (<[e_subscriptions em := Composite_add (length (plain s)) c]> (groups s))
        (set_plain (plain s ++ [mkDisposable false (Some (AOffStream e name f))])
           (set_streams (<[e := mkEmitter false (e_subscriptions em)
                                 (Some (table_on name f tbl))]> (streams s)) s))).
Proof.
  intros He Hd Ht Hg Hn. unfold stream_on, Emitter_on.
  rewrite (bind_Ok _ _ _ _ _ (deref_Ok _ _ _ _ He)). rewrite Hd, Ht.
  unfold new_plain, group_add, bind, ret, modify, deref; simpl.
  rewrite (inherited_own _ _ Hn). now rewrite Hg.
Qed.

Lemma new_group_of_3 a b c s :
  a <> b -> a <> c -> b <> c ->
  new_group_of [a; b; c] s = new_group [a; b; c] s.
Proof.
  intros Hab Hac Hbc. unfold new_group_of. simpl. unfold Composite_add at 3. simpl.
  destruct (decide (a ∈ [])) as [Hin|_]; [now apply elem_of_nil in Hin|]. simpl.
  unfold Composite_add at 2. simpl.
  destruct (decide (b ∈ [a])) as [Hin|_].
  { apply list_elem_of_singleton in Hin. congruence. }
  simpl. unfold Composite_add. simpl.
  destruct (decide (c ∈ [a; b])) as [Hin|_]; [|reflexivity].
  rewrite !elem_of_cons in Hin. destruct Hin as [?|[?|Hin]]; try congruence.
  now apply elem_of_nil in Hin.
Qed.

Lemma entries_table_on {F} n (f : F) tbl n' :
  entries (table_on n f tbl) n' =
  if decide (n = n') then entries tbl n ++ [f] else entries tbl n'.
Proof.
  unfold entries. destruct (decide (n = n')) as [<-|Hne].
  - apply table_on_lookup.
  - now rewrite table_on_lookup_ne.
Qed.

(** The state lines 214-222 leave. *)
Definition arm_state (editor root : nat) (em : Emitter cb) (tbl : gmap string (list cb))
    (sc : Composite nat) (rc : Composite member) (p : nat) (s : state) : state :=
  let cd := length (groups s) in
  let d1 := length (plain s) in
  let subs := e_subscriptions em in
  set_roots (<[root := Composite_add (MGroup cd) rc]> (roots s))
    (set_groups
       (<[subs := Composite_add (S (S d1)) (Composite_add (S d1) sc)]> (groups s)
          ++ [mkComposite false [d1; S d1; S (S d1)]])
       (set_plain
          (plain s ++
             [mkDisposable false (Some (ADetach cd));
              mkDisposable false (Some (AOffStream editor "did-destroy" (CbDestroy cd)));
              mkDisposable false
                (Some (AOffStream editor "did-change-path" (CbChangePath cd p)))])
          (set_streams
             (<[editor := mkEmitter false subs
                  (Some (table_on "did-change-path" (CbChangePath cd p)
                           (table_on "did-destroy" (CbDestroy cd) tbl)))]> (streams s))
             s))).

Lemma executor_arms editor p s root rc em tbl sc :
  ui_disposables s = Some root -> roots s !! root = Some rc ->
  streams s !! editor = Some em -> e_disposed em = false ->
  e_handlers em = Some tbl -> groups s !! e_subscriptions em = Some sc ->
  (s0 <- get ;;
   let cd := length (groups s0) in
   d1 <- new_plain (ADetach cd) ;;
   d2 <- stream_on editor "did-destroy" (CbDestroy cd) ;;
   d3 <- stream_on editor "did-change-path" (CbChangePath cd p) ;;
   cd' <- new_group_of [d1; d2; d3] ;;
   r <- defined ui_disposables ;;
   root_add r (MGroup cd')) s = Ok tt (arm_state editor root em tbl sc rc p s).
Proof.
  intros Hu Hr He Hd Ht Hg.
  assert (Hel : editor < length (streams s)) by (eapply lookup_lt_Some; eauto).
  assert (Hgl : e_subscriptions em < length (groups s)) by (eapply lookup_lt_Some; eauto).
  rewrite (bind_Ok get _ s s s eq_refl). cbv zeta.
  set (cd := length (groups s)). set (d1 := length (plain s)).
  set (sB := set_plain (plain s ++ [mkDisposable false (Some (ADetach cd))]) s).
  rewrite (bind_Ok (new_plain (ADetach cd)) _ s d1 sB eq_refl).
  pose proof (stream_on_live editor "did-destroy" (CbDestroy cd) sB em tbl sc
                He Hd Ht Hg eq_refl) as E1.
  rewrite (bind_Ok _ _ _ _ _ E1). clear E1.
  match goal with |- bind _ _ ?st = _ => set (sC := st) end.
  set (em1 := mkEmitter false (e_subscriptions em)
                (Some (table_on "did-destroy" (CbDestroy cd) tbl))).
  assert (He1 : streams sC !! editor = Some em1).
  { subst sC. simpl. now apply list_lookup_insert_eq. }
  assert (Hg1 : groups sC !! e_subscriptions em1
                = Some (Composite_add (length (plain sB)) sc)).
  { subst sC. simpl. now apply list_lookup_insert_eq. }
  pose proof (stream_on_live editor "did-change-path" (CbChangePath cd p) sC em1 _ _
                He1 eq_refl eq_refl Hg1 eq_refl) as E2.
  rewrite (bind_Ok _ _ _ _ _ E2). clear E2.
  assert (HlB : length (plain sB) = S d1).
  { subst sB. simpl. rewrite length_app. simpl. lia. }
  assert (HlC : length (plain sC) = S (S d1)).
  { subst sC sB. simpl. rewrite !length_app. simpl. lia. }
  rewrite HlC.
  unfold bind at 1. rewrite new_group_of_3 by lia.
  unfold new_group, bind, defined. simpl ui_disposables. rewrite Hu.
  unfold root_add, bind, deref, modify. simpl roots. rewrite Hr.
  f_equal. unfold arm_state. fold cd d1.
  apply state_ext; simpl; try reflexivity;
    rewrite ?length_app, ?length_insert; simpl; fold d1 cd;
    rewrite ?Nat.add_1_r, ?list_insert_insert_eq, <- ?app_assoc; reflexivity.
Qed.

Lemma waitToSave_arms editor s root rc em tbl sc :
  ui_disposables s = Some root -> roots s !! root = Some rc ->
  streams s !! editor = Some em -> e_disposed em = false ->
  e_handlers em = Some tbl -> groups s !! e_subscriptions em = Some sc ->
  waitToSave editor s =
  Ok (length (promises s))
     (arm_state editor root em tbl sc rc (length (promises s))
        (set_promises (promises s ++ [Pending]) s)).
Proof.
  intros Hu Hr He Hd Ht Hg. unfold waitToSave.
  set (sA := set_promises (promises s ++ [Pending]) s).
  rewrite (bind_Ok new_promise _ s (length (promises s)) sA eq_refl).
  pose proof (executor_arms editor (length (promises s)) sA root rc em tbl sc
                Hu Hr He Hd Ht Hg) as E.
  cbv zeta in E. unfold bind at 1, run_executor. rewrite E. reflexivity.
Qed.

Lemma cb_wf_not_ours s f q :
  cb_wf s f -> f <> CbDestroy (length (groups s)) /\ f <> CbChangePath (length (groups s)) q.
Proof.
  destruct f; simpl; intros H; split; try discriminate; intros [=]; lia.
Qed.

Lemma arm_state_Inv editor s root rc em tbl sc :
  ui_disposables s = Some root -> roots s !! root = Some rc -> c_disposed rc = false ->
  streams s !! editor = Some em -> e_disposed em = false ->
  e_handlers em = Some tbl -> groups s !! e_subscriptions em = Some sc ->
  Forall (old_cb (length (groups s)) (length (promises s)) (e_subscriptions em))
    (entries tbl "did-destroy") ->
  Forall (old_cb (length (groups s)) (length (promises s)) (e_subscriptions em))
    (entries tbl "did-change-path") ->
  Forall (fun c => Forall (fun m => m < length (plain s)) (c_members c)) (groups s) ->
  Forall (fun o => forall a, d_action o = Some a -> action_wf s a) (plain s) ->
  Forall (fun em => e_subscriptions em < length (groups s)) (streams s) ->
  Forall (fun em => e_subscriptions em < length (groups s)) (hubs s) ->
  Inv editor root (length (groups s)) (length (promises s)) (length (plain s))
    (e_subscriptions em) (S (length (groups s))) (3 + length (plain s))
    (length (hubs s)) (length (streams s)) (length (rules s))
    (w_armed editor (length (groups s)) (length (promises s)) (length (plain s))
       (resolved_with (length (promises s)) (log s)))
    (arm_state editor root em tbl sc rc (length (promises s))
       (set_promises (promises s ++ [Pending]) s)).
Proof.
  intros Hu Hr Hrd He Hd Ht Hg Hod Hop Hgm Hpa Hss Hsh.
  assert (Hel : editor < length (streams s)) by (eapply lookup_lt_Some; eauto).
  assert (Hgl : e_subscriptions em < length (groups s)) by (eapply lookup_lt_Some; eauto).
  assert (Hrl : root < length (roots s)) by (eapply lookup_lt_Some; eauto).
  set (cd := length (groups s)) in *. set (p := length (promises s)) in *.
  set (d1 := length (plain s)) in *.
  unfold Inv, arm_state. simpl. fold cd d1.
  split; [exact Hu|]. split; [|split; [|split; [|split; [|split; [|split; [|split]]]]]].
  - (* roots *)
    exists (Composite_add (MGroup cd) rc).
    split; [now apply list_lookup_insert_eq|].
    split; [now rewrite Composite_add_disposed|discriminate].
  - (* groups *)
    split; [rewrite length_app, length_insert; simpl; lia|].
    split.
    { rewrite lookup_app_r by (rewrite length_insert; fold cd; lia).
      rewrite length_insert. fold cd. rewrite Nat.sub_diag. simpl.
      rewrite Nat.add_0_r. repeat f_equal; lia. }
    split; [repeat constructor; lia|].
    intros g c Hl Hlt Hns.
    rewrite lookup_app_l in Hl by (rewrite length_insert; fold cd; lia).
    rewrite list_lookup_insert_ne in Hl by congruence.
    rewrite Forall_lookup in Hgm. eapply Hgm; eauto.
  - (* the store of disposables *)
    split; [rewrite length_app; simpl; fold d1; lia|]. split; [lia|]. split.
    + intros i o Hi. destruct i as [|[|[|i]]]; simpl in Hi; try discriminate;
        injection Hi as <-; rewrite lookup_app_r by (fold d1; lia); fold d1.
      * now replace (d1 + 0 - d1) with 0 by lia.
      * now replace (d1 + 1 - d1) with 1 by lia.
      * now replace (d1 + 2 - d1) with 2 by lia.
    + intros m o a Hl Hlt Ha.
      rewrite lookup_app_l in Hl by (fold d1; lia).
      rewrite Forall_lookup in Hpa. specialize (Hpa m o Hl a Ha).
      destruct a as [|e n f|e n f|g|r off]; simpl in *; try assumption.
      destruct Hpa as [Hlt' Hcb]. split; [exact Hlt'|].
      now apply cb_wf_not_ours.
  - (* streams *)
    split; [now rewrite length_insert|]. split.
    + eexists _, _. split; [now apply list_lookup_insert_eq|]. simpl.
      repeat split.
      * exists (entries tbl "did-destroy"). split; [|exact Hod].
        rewrite !entries_table_on.
        destruct (decide ("did-change-path" = "did-destroy")); [discriminate|].
        destruct (decide ("did-destroy" = "did-destroy")); [reflexivity|contradiction].
      * exists (entries tbl "did-change-path"). split; [|exact Hop].
        rewrite !entries_table_on.
        destruct (decide ("did-change-path" = "did-change-path")); [|contradiction].
        destruct (decide ("did-destroy" = "did-change-path")); [discriminate|].
        reflexivity.
    + intros e em' Hl.
      apply list_lookup_insert_Some in Hl as [(-> & <- & _)|(Hne & Hl)]; simpl.
      * fold cd. lia.
      * rewrite Forall_lookup in Hss. specialize (Hss e em' Hl). simpl in Hss.
        fold cd in Hss. lia.
  - (* hubs *)
    split; [reflexivity|]. intros e em' Hl.
    rewrite Forall_lookup in Hsh. specialize (Hsh e em' Hl). simpl in Hsh.
    fold cd in Hsh. lia.
  - reflexivity.
  - fold p. apply lookup_snoc.
  - reflexivity.
Qed.

(** C6. From a state in order, [waitToSave] returns a pending promise, with
    the child composite of three members built and a member of
    [this.disposables].  Let then the document report anything, any number
    of times.  Every report returns.  [resolve] is called once, with the
    new path, if the first report is a path change, and the promise is
    resolved with that path; it is never called if the first report is the
    destruction, and the promise stays pending; whatever is reported
    afterwards changes neither.  And once anything has been reported, the
    child composite is disposed and is no member of [this.disposables]. *)
Theorem waitToSave_resolves_at_most_once editor s ns :
  waitable editor s ->
  let p := length (promises s) in
  let cd := length (groups s) in
  exists root s1 s2,
    ui_disposables s = Some root /\
    waitToSave editor s = Ok p s1 /\
    promises s1 !! p = Some Pending /\
    resolved_with p (log s1) = resolved_with p (log s) /\
    (exists c, groups s1 !! cd = Some c /\ c_disposed c = false /\
               length (c_members c) = 3) /\
    (exists rc, roots s1 !! root = Some rc /\ MGroup cd ∈ c_members rc) /\
    forEach (notify editor) ns s1 = Ok tt s2 /\
    match ns with
    | [] => s2 = s1
    | PathChanged file :: _ =>
        promises s2 !! p = Some (Resolved (VString file)) /\
        resolved_with p (log s2) = resolved_with p (log s) ++ [VString file]
    | Destroyed :: _ =>
        promises s2 !! p = Some Pending /\
        resolved_with p (log s2) = resolved_with p (log s)
    end /\
    (ns <> [] ->
       ui_disposables s2 = Some root /\
       groups s2 !! cd = Some (mkComposite true []) /\
       exists rc, roots s2 !! root = Some rc /\ MGroup cd ∉ c_members rc).
Proof.
  intros (root & rc & em & tbl & sc & Hu & Hr & Hrd & He & Hd & Ht & Hg & Hod & Hop
          & Hgm & Hpa & Hss & Hsh) p cd.
  pose proof (waitToSave_arms editor s root rc em tbl sc Hu Hr He Hd Ht Hg) as E.
  pose proof (arm_state_Inv editor s root rc em tbl sc Hu Hr Hrd He Hd Ht Hg Hod Hop
                Hgm Hpa Hss Hsh) as HI.
  fold p cd in E, HI.
  set (s1 := arm_state editor root em tbl sc rc p
               (set_promises (promises s ++ [Pending]) s)) in *.
  set (V := resolved_with p (log s)) in *.
  assert (Hrl : root < length (roots s)) by (eapply lookup_lt_Some; eauto).
  pose proof HI as (_ & _ & (_ & Hcd1 & _) & _ & _ & _ & _ & Hp1 & Hl1).
  assert (Hin1 : exists rc1, roots s1 !! root = Some rc1 /\ MGroup cd ∈ c_members rc1).
  { exists (Composite_add (MGroup cd) rc). split.
    - subst s1. unfold arm_state. simpl. now apply list_lookup_insert_eq.
    - rewrite Composite_add_elem by exact Hrd. now left. }
  destruct ns as [|n ns].
  - exists root, s1, s1. split; [exact Hu|]. split; [exact E|]. split; [exact Hp1|].
    split; [exact Hl1|]. split; [eexists; split; [exact Hcd1|split; reflexivity]|].
    split; [exact Hin1|]. split; [reflexivity|]. split; [reflexivity|].
    intros Hne. now contradict Hne.
  - destruct (notify_all editor root cd p (length (plain s)) (e_subscriptions em)
                _ _ _ _ _ V n ns s1 HI) as (s2 & E2 & H2).
    exists root, s1, s2. split; [exact Hu|]. split; [exact E|]. split; [exact Hp1|].
    split; [exact Hl1|]. split; [eexists; split; [exact Hcd1|split; reflexivity]|].
    split; [exact Hin1|]. split; [exact E2|].
    destruct H2 as (Hu2 & (rc2 & Hr2 & _ & Hgone) & (_ & Hcd2 & _) & _ & _ & _ & _
                    & Hp2 & Hl2).
    split.
    + destruct n as [file|]; simpl in *; auto.
    + intros _. split; [exact Hu2|]. split.
      * destruct n; exact Hcd2.
      * exists rc2. split; [exact Hr2|]. apply Hgone. now destruct n.
Qed.

(** A document on which an earlier call of [waitToSave] still listens. *)
Definition waiting_state : state :=
  final (waitToSave 2 (final (stream_new (loaded [] [] None)))).

Definition listeners : gmap string (list cb) :=
  table_on "did-change-path" (CbChangePath 4 0) (table_on "did-destroy" (CbDestroy 4) ∅).

Definition reports : list note :=
  [PathChanged "/a.txt"; Destroyed; PathChanged "/b.txt"].

Lemma waitToSave_resolves_at_most_once_witness :
  waitable 2 waiting_state /\
  let p := length (promises waiting_state) in
  let cd := length (groups waiting_state) in
  exists root s1 s2,
    ui_disposables waiting_state = Some root /\
    waitToSave 2 waiting_state = Ok p s1 /\
    promises s1 !! p = Some Pending /\
    resolved_with p (log s1) = resolved_with p (log waiting_state) /\
    (exists c, groups s1 !! cd = Some c /\ c_disposed c = false /\
               length (c_members c) = 3) /\
    (exists rc, roots s1 !! root = Some rc /\ MGroup cd ∈ c_members rc) /\
    forEach (notify 2) reports s1 = Ok tt s2 /\
    (promises s2 !! p = Some (Resolved (VString "/a.txt")) /\
     resolved_with p (log s2) =
     resolved_with p (log waiting_state) ++ [VString "/a.txt"]) /\
    (reports <> [] ->
       ui_disposables s2 = Some root /\
       groups s2 !! cd = Some (mkComposite true []) /\
       exists rc, roots s2 !! root = Some rc /\ MGroup cd ∉ c_members rc).
Proof.
  assert (Hw : waitable 2 waiting_state).
  { exists 0, (mkComposite false [MGroup 4]),
      (mkEmitter false 3 (Some listeners)), listeners, (mkComposite false [1; 2]).
    split; [vm_compute; reflexivity|]. split; [vm_compute; reflexivity|].
    split; [vm_compute; reflexivity|]. split; [vm_compute; reflexivity|].
    split; [vm_compute; reflexivity|]. split; [vm_compute; reflexivity|].
    split; [vm_compute; reflexivity|].
    split; [vm_compute; repeat constructor; discriminate|].
    split; [vm_compute; repeat constructor; discriminate|].
    split; [vm_compute; repeat constructor|].
    split.
    { vm_compute. repeat constructor; intros a Ha; inversion Ha; subst; clear Ha;
        vm_compute; repeat constructor. }
    split; vm_compute; repeat constructor. }
  split; [exact Hw|].
  exact (waitToSave_resolves_at_most_once 2 waiting_state reports Hw).
Defined.

(** * Further properties of the module *)

(** ** The hub is never torn down *)

(** [this.emitter] is an emitter that has not been disposed. *)
Definition hub_live (s : state) : Prop :=
  exists e em tbl,
    ui_emitter s = Some e /\ hubs s !! e = Some em /\ e_disposed em = false /\
    e_handlers em = Some tbl /\ e_subscriptions em < length (groups s).

Lemma live_congr s s' :
  ui_emitter s' = ui_emitter s -> hubs s' = hubs s ->
  length (groups s) <= length (groups s') -> hub_live s -> hub_live s'.
Proof.
  intros Hu Hh Hg (e & em & tbl & H1 & H2 & H3 & H4 & H5).
  exists e, em, tbl. rewrite Hu, Hh. repeat split; try assumption. lia.
Qed.

Create HintDb live.

Ltac live_step :=
  first
    [ pres_step
    | match goal with
      | |- pres _ (modify _) =>
          apply pres_modify; intros ? HI;
          first [ exact HI
                | eapply live_congr; [..|exact HI]; simpl;
                  rewrite ?length_insert, ?length_app; first [reflexivity | lia] ]
      end
    | solve [auto with live] ].
Ltac live_auto := repeat live_step.

Lemma live_new_plain a : pres hub_live (new_plain a).
Proof. intros s Hs; exact Hs. Qed.
Lemma live_new_root : pres hub_live new_root.
Proof. intros s Hs; exact Hs. Qed.
Lemma live_new_promise : pres hub_live new_promise.
Proof. intros s Hs; exact Hs. Qed.
Lemma live_new_group ms : pres hub_live (new_group ms).
Proof.
  intros s Hs. simpl. eapply live_congr; [..|exact Hs]; simpl;
    rewrite ?length_app; first [reflexivity | lia].
Qed.
#[global] Hint Resolve live_new_plain live_new_root live_new_promise live_new_group : live.

Lemma live_group_add g x : pres hub_live (group_add g x).
Proof. unfold group_add. live_auto. Qed.
Lemma live_group_remove g x : pres hub_live (group_remove g x).
Proof. unfold group_remove. live_auto. Qed.
Lemma live_root_add r x : pres hub_live (root_add r x).
Proof. unfold root_add. live_auto. Qed.
Lemma live_root_remove r x : pres hub_live (root_remove r x).
Proof. unfold root_remove. live_auto. Qed.
Lemma live_stream_off e n f : pres hub_live (stream_off e n f).
Proof. unfold stream_off. live_auto. Qed.
Lemma live_setImmediate t : pres hub_live (setImmediate t).
Proof. unfold setImmediate. live_auto. Qed.
Lemma live_emit_log ev : pres hub_live (emit_log ev).
Proof. unfold emit_log. live_auto. Qed.
#[global] Hint Resolve live_group_add live_group_remove live_root_add live_root_remove
  live_stream_off live_setImmediate live_emit_log : live.

(** [off] leaves the emitter live. *)
Lemma live_hub_off e0 n0 f0 : pres hub_live (hub_off e0 n0 f0).
Proof.
  intros s Hs. unfold hub_off, bind, deref.
  destruct (hubs s !! e0) as [em0|] eqn:E0; simpl; [|exact Hs].
  destruct Hs as (e & em & tbl & Hu & He & Hd & Ht & Hg).
  destruct (decide (e = e0)) as [->|Hne].
  - rewrite E0 in He. injection He as ->.
    exists e0, (Emitter_off_obj n0 f0 em), (table_off n0 f0 tbl). simpl.
    split; [exact Hu|]. split.
    { apply list_lookup_insert_eq. eapply lookup_lt_Some; eauto. }
    unfold Emitter_off_obj. rewrite Hd, Ht. simpl. auto.
  - exists e, em, tbl. simpl. split; [exact Hu|]. split; [|auto].
    rewrite list_lookup_insert_ne by congruence. exact He.
Qed.
#[global] Hint Resolve live_hub_off : live.

Lemma live_run_action d a : pres hub_live (run_action d a).
Proof. unfold run_action. live_auto. Qed.
#[global] Hint Resolve live_run_action : live.
Lemma live_Disposable_dispose d : pres hub_live (Disposable_dispose d).
Proof. unfold Disposable_dispose. live_auto. Qed.
#[global] Hint Resolve live_Disposable_dispose : live.
Lemma live_group_dispose g : pres hub_live (group_dispose g).
Proof. unfold group_dispose. live_auto. Qed.
#[global] Hint Resolve live_group_dispose : live.
Lemma live_member_dispose x : pres hub_live (member_dispose x).
Proof. unfold member_dispose. live_auto. Qed.
#[global] Hint Resolve live_member_dispose : live.
Lemma live_root_dispose r : pres hub_live (root_dispose r).
Proof. unfold root_dispose. live_auto. Qed.
#[global] Hint Resolve live_root_dispose : live.

(** [on] leaves the emitter live, whether or not it returns. *)
Lemma live_hub_on e0 n0 f0 : pres hub_live (hub_on e0 n0 f0).
Proof.
  intros s Hs. unfold hub_on, Emitter_on, bind, deref.
  destruct (hubs s !! e0) as [em0|] eqn:E0; [|exact Hs].
  destruct (e_disposed em0) eqn:Ed0; [exact Hs|].
  destruct (e_handlers em0) as [tbl0|] eqn:Et; [|exact Hs].
  simpl. destruct (inherited n0 tbl0); [exact Hs|].
  assert (Hs' : hub_live (set_hubs (<[e0 := mkEmitter false (e_subscriptions em0)
                                      (Some (table_on n0 f0 tbl0))]> (hubs s)) s)).
  { destruct Hs as (e & em & tbl & Hu & He & Hd & Ht & Hg).
    destruct (decide (e = e0)) as [->|Hne].
    - rewrite E0 in He. injection He as ->.
      eexists e0, _, _. simpl. split; [exact Hu|]. split.
      { apply list_lookup_insert_eq. eapply lookup_lt_Some; eauto. }
      simpl. auto.
    - exists e, em, tbl. simpl. split; [exact Hu|]. split; [|auto].
      rewrite list_lookup_insert_ne by congruence. exact He. }
  unfold new_plain, group_add, bind, deref, modify, ret. simpl.
  destruct (groups s !! e_subscriptions em0); simpl; [|exact Hs'].
  eapply live_congr; [..|exact Hs']; simpl; rewrite ?length_insert; reflexivity.
Qed.
#[global] Hint Resolve live_hub_on : live.

Lemma live_stream_on e n f : pres hub_live (stream_on e n f).
Proof. unfold stream_on, Emitter_on. live_auto. Qed.
Lemma live_stream_new : pres hub_live stream_new.
Proof.
  intros s Hs. unfold stream_new, Emitter_new, bind, new_group. simpl.
  eapply live_congr; [..|exact Hs]; simpl; rewrite ?length_app; first [reflexivity | lia].
Qed.
#[global] Hint Resolve live_stream_on live_stream_new : live.

Lemma live_call_hfn f v : pres hub_live (call_hfn f v).
Proof. unfold call_hfn. live_auto. Qed.
#[global] Hint Resolve live_call_hfn : live.
Lemma live_emit n args : pres hub_live (emit n args).
Proof. unfold emit, hub_emit, Emitter_emit. live_auto. Qed.
#[global] Hint Resolve live_emit : live.

Lemma live_subscribe n h : pres hub_live (subscribe n h).
Proof.
  intros s Hs. rewrite subscribe_unfold.
  assert (Hc : hub_live (consumed s)).
  { eapply live_congr; [..|exact Hs]; unfold consumed; now destruct (delayNext s). }
  destruct (ui_emitter s); [|exact Hc].
  now apply live_hub_on.
Qed.
#[global] Hint Resolve live_subscribe : live.

Lemma live_setProjects to : pres hub_live (setProjects to).
Proof.
  unfold setProjects, emitProjectsAvailable, emitProjectsEmptied,
    emitProjectsChanged. live_auto.
Qed.
Lemma live_patchOffset r ru : pres hub_live (patchOffset r ru).
Proof. unfold patchOffset. live_auto. Qed.
#[global] Hint Resolve live_setProjects live_patchOffset : live.
Lemma live_fixOffset_rules rs : pres hub_live (fixOffset_rules rs).
Proof. induction rs; simpl; live_auto. Qed.
#[global] Hint Resolve live_fixOffset_rules : live.
Lemma live_fixOffset_sheets l : pres hub_live (fixOffset_sheets l).
Proof. induction l; simpl; live_auto. Qed.
#[global] Hint Resolve live_fixOffset_sheets : live.
Lemma live_fixOffset : pres hub_live fixOffset.
Proof. unfold fixOffset. live_auto. Qed.
Lemma live_resolve p v : pres hub_live (resolve p v).
Proof. unfold resolve. live_auto. Qed.
#[global] Hint Resolve live_fixOffset live_resolve : live.

Lemma live_waitToSave editor : pres hub_live (waitToSave editor).
Proof.
  unfold waitToSave. live_auto.
  apply pres_run_executor; [|intros s Hs; exact Hs].
  unfold new_group_of. live_auto.
Qed.
Lemma live_init : pres hub_live init.
Proof. unfold init. live_auto. Qed.
#[global] Hint Resolve live_waitToSave live_init : live.
Lemma live_call_cb f v : pres hub_live (call_cb f v).
Proof. unfold call_cb. live_auto. Qed.
#[global] Hint Resolve live_call_cb : live.
Lemma live_stream_emit e n v : pres hub_live (stream_emit e n v).
Proof. unfold stream_emit, Emitter_emit. live_auto. Qed.
#[global] Hint Resolve live_stream_emit : live.

Lemma live_checkMotif env : pres hub_live (checkMotif env).
Proof.
  unfold checkMotif, motif_edge, emitMotifChanged, getThemeColour, getStyleElement.
  live_auto.
  match goal with |- pres _ (themeColour_rules _ ?rs) => induction rs end;
    simpl; live_auto.
Qed.

Lemma live_turn env : pres hub_live (turn env).
Proof. unfold turn, run_task. live_auto. apply live_checkMotif. Qed.

(** The disposals of lines 32-33 can only end early with the hub still
    live; once they are through, lines 34-35 install a new one. *)
Lemma live_teardown_Throw s err s' :
  teardown s = Throw err s' -> hub_live s -> hub_live s'.
Proof.
  unfold teardown, bind, get. intros E Hs.
  pose proof (fun r => live_root_dispose r s Hs) as H1.
  destruct (ui_disposables s) as [r|].
  - specialize (H1 r). destruct (root_dispose r s) as [[] s1|e1 s1]; simpl in H1.
    + destruct (ui_emitter s) as [e|]; [|discriminate].
      unfold hub_dispose, Emitter_dispose, bind, deref, modify in E.
      destruct (hubs s1 !! e) as [em|]; [|now injection E as _ <-].
      pose proof (live_group_dispose (e_subscriptions em) s1 H1) as H2.
      destruct (group_dispose (e_subscriptions em) s1) as [[] s2|e2 s2]; [discriminate|].
      now injection E as _ <-.
    + now injection E as _ <-.
  - simpl in E. destruct (ui_emitter s) as [e|]; [|discriminate].
    unfold hub_dispose, Emitter_dispose, bind, deref, modify in E.
    destruct (hubs s !! e) as [em|]; [|now injection E as _ <-].
    pose proof (live_group_dispose (e_subscriptions em) s Hs) as H2.
    destruct (group_dispose (e_subscriptions em) s) as [[] s2|e2 s2]; [discriminate|].
    now injection E as _ <-.
Qed.

Lemma live_installed s : hub_live (installed s).
Proof.
  exists (length (hubs s)), (mkEmitter false (length (groups s)) (Some ∅)), ∅.
  simpl. split; [reflexivity|]. split; [apply lookup_snoc|].
  repeat split. rewrite length_app. simpl. lia.
Qed.

Lemma live_reset : pres hub_live reset.
Proof.
  intros s Hs. rewrite reset_unfold.
  destruct (teardown s) as [[] s'|err s'] eqn:E; simpl.
  - apply live_installed.
  - eapply live_teardown_Throw; eauto.
Qed.

Lemma live_exec env c : pres hub_live (exec env c).
Proof.
  destruct c; simpl; unfold notify_path_changed, notify_destroyed, delay; live_auto.
  - apply live_reset.
  - apply live_checkMotif.
  - apply live_turn.
Qed.

Lemma live_run env cs s : hub_live s -> hub_live (run env cs s).
Proof.
  revert s. induction cs as [|c cs IH]; intros s Hs; simpl; [exact Hs|].
  apply IH. now apply live_exec.
Qed.

Lemma live_loaded sheets rs pkg : hub_live (loaded sheets rs pkg).
Proof.
  exists 0, (mkEmitter false 2 (Some ∅)), ∅. vm_compute. repeat split. lia.
Qed.

(** Once the module is loaded (line 262), whatever is called and in
    whatever order, [this.emitter] is a live emitter: for an event name
    that is not the name of a property of [Object.prototype], [subscribe]
    returns the Disposable of a registration it has added to the hub, the
    last for its event, and [emit] returns.  Neither meets a missing or a
    disposed emitter. *)
Theorem hub_never_torn_down env sheets rs pkg cs name h args :
  is_inherited name = false ->
  let s := run env cs (loaded sheets rs pkg) in
  exists e,
    ui_emitter s = Some e /\
    (exists s', subscribe name h s = Ok (length (plain s)) s' /\
                registered e name s' = registered e name s ++ [wrapped s h]) /\
    exists s', emit name args s = Ok tt s'.
Proof.
  intros Hn s.
  assert (Hs : hub_live s) by apply live_run, live_loaded.
  destruct Hs as (e & em & tbl & Hu & He & Hd & Ht & Hg).
  apply lookup_lt_is_Some in Hg as [c Hc].
  exists e. split; [exact Hu|]. split.
  - rewrite (subscribe_live name h s e em tbl c Hu He Hd Ht Hc Hn).
    eexists. split; [reflexivity|].
    eapply registered_after_on; [exact He|exact Ht|].
    unfold consumed. now destruct (delayNext s).
  - rewrite (emit_live e name args s em tbl Hu He Ht Hn). eauto.
Qed.

Lemma hub_never_torn_down_witness :
  let s := run quiet_host [CInit; CSubscribe "open-file" 4; CReset; CDelay]
             (loaded [] [] None) in
  exists e,
    ui_emitter s = Some e /\
    (exists s', subscribe "open-file" 5 s = Ok (length (plain s)) s' /\
                registered e "open-file" s' = registered e "open-file" s ++ [wrapped s 5]) /\
    exists s', emit "open-file" [VOther 1] s = Ok tt s'.
Proof.
  apply (hub_never_torn_down quiet_host [] [] None
           [CInit; CSubscribe "open-file" 4; CReset; CDelay] "open-file" 5 [VOther 1]).
  reflexivity.
Defined.

(** ** What [init] sets up *)

Lemma insert_alter_lookup {A} (f : A -> A) (l : list A) i c :
  l !! i = Some c -> <[i := f c]> l = alter f i l.
Proof.
  revert i. induction l as [|x l IH]; intros [|i] E; simpl in *; try discriminate.
  - now injection E as ->.
  - f_equal. now apply IH.
Qed.

Lemma bind_ret_tt (m : M unit) s : (m ;;; ret tt) s = m s.
Proof. unfold bind, ret. now destruct (m s) as [[] s'|e s']. Qed.

(** The state lines 18-27 leave: the two fields, the two callbacks on the
    streams of [atom.project] and [atom.themes], and the Disposables that
    unregister them in [this.disposables]. *)
Definition init_state (root : nat) (rc : Composite member) (emp emt : Emitter cb)
    (tblp tblt : gmap string (list cb)) (s : state) : state :=
  let n := length (plain s) in
  let k := closures s in
  set_roots (<[root := Composite_add (MPlain (S n)) (Composite_add (MPlain n) rc)]> (roots s))
    (set_groups
       (alter (Composite_add (S n)) (e_subscriptions emt)
          (alter (Composite_add n) (e_subscriptions emp) (groups s)))
       (set_plain
          (plain s ++
             [mkDisposable false
                (Some (AOffStream (atom_project s) "did-change-paths" (CbSetProjects k)));
              mkDisposable false
                (Some (AOffStream (atom_themes s) "did-change-active-themes"
                         (CbThemes (S k))))])
          (set_streams
             (<[atom_themes s := mkEmitter false (e_subscriptions emt)
                  (Some (table_on "did-change-active-themes" (CbThemes (S k)) tblt))]>
                (<[atom_project s := mkEmitter false (e_subscriptions emp)
                     (Some (table_on "did-change-paths" (CbSetProjects k) tblp))]>
                   (streams s)))
             (set_closures (S (S k))
                (set_ui_lightTheme (Some false) (set_ui_projects (Some []) s)))))).

Lemma init_arms s root rc emp tblp cp emt tblt ct :
  ui_disposables s = Some root -> roots s !! root = Some rc ->
  streams s !! atom_project s = Some emp -> e_disposed emp = false ->
  e_handlers emp = Some tblp -> groups s !! e_subscriptions emp = Some cp ->
  streams s !! atom_themes s = Some emt -> e_disposed emt = false ->
  e_handlers emt = Some tblt -> groups s !! e_subscriptions emt = Some ct ->
  atom_project s <> atom_themes s ->
  init s = Ok tt (init_state root rc emp emt tblp tblt s).
Proof.
  intros Hu Hr Hp Hpd Hpt Hpg Ht Htd Htt Htg Hne.
  assert (Hrl : root < length (roots s)) by (eapply lookup_lt_Some; eauto).
  unfold init.
  rewrite (bind_Ok _ _ s tt (set_ui_projects (Some []) s) eq_refl).
  set (s0 := set_ui_projects (Some []) s).
  rewrite (bind_Ok _ _ s0 tt (set_ui_lightTheme (Some false) s0) eq_refl).
  set (sA := set_ui_lightTheme (Some false) s0).
  rewrite (bind_Ok _ _ sA root sA (defined_Ok ui_disposables root sA Hu)).
  rewrite (bind_Ok get _ sA sA sA eq_refl).
  set (k := closures s).
  rewrite (bind_Ok _ _ sA tt (set_closures (S (S k)) sA) eq_refl).
  set (sB := set_closures (S (S k)) sA).
  pose proof (stream_on_live (atom_project s) "did-change-paths" (CbSetProjects k)
                sB emp tblp cp Hp Hpd Hpt Hpg eq_refl) as E1.
  change (atom_project sA) with (atom_project s).
  change (atom_themes sA) with (atom_themes s).
  change (closures sA) with k.
  rewrite (bind_Ok _ _ _ _ _ E1). clear E1.
  match goal with |- bind _ _ ?st = _ => set (sC := st) end.
  assert (Ht1 : streams sC !! atom_themes s = Some emt).
  { subst sC. simpl. rewrite list_lookup_insert_ne by exact Hne. exact Ht. }
  assert (Hg1 : exists ct1, groups sC !! e_subscriptions emt = Some ct1).
  { apply lookup_lt_is_Some. subst sC. simpl. rewrite length_insert.
    eapply lookup_lt_Some; eauto. }
  destruct Hg1 as [ct1 Hg1].
  pose proof (stream_on_live (atom_themes s) "did-change-active-themes" (CbThemes (S k))
                sC emt tblt ct1 Ht1 Htd Htt Hg1 eq_refl) as E2.
  rewrite (bind_Ok _ _ _ _ _ E2). clear E2.
  assert (HlC : length (plain sC) = S (length (plain s))).
  { subst sC. simpl. rewrite length_app. simpl. lia. }
  rewrite HlC.
  unfold root_add, bind, deref, modify. simpl roots. rewrite Hr. simpl roots.
  rewrite list_lookup_insert_eq by exact Hrl.
  f_equal. unfold init_state. fold k.
  apply state_ext; simpl; try reflexivity.
  - now rewrite <- app_assoc.
  - rewrite (insert_alter_lookup _ _ _ _ Hpg).
    subst sC. simpl in Hg1. rewrite (insert_alter_lookup _ _ _ _ Hpg) in Hg1.
    now rewrite (insert_alter_lookup _ _ _ _ Hg1).
  - now rewrite list_insert_insert_eq.
Qed.

(** A collaborator's stream that can be listened to. *)
Definition stream_ready (e : nat) (s : state) (em : Emitter cb)
    (tbl : gmap string (list cb)) : Prop :=
  streams s !! e = Some em /\ e_disposed em = false /\ e_handlers em = Some tbl /\
  is_Some (groups s !! e_subscriptions em).

(** The object is constructed, and nothing listens yet for the
    notifications that [init] asks for. *)
Definition init_ready (s : state) : Prop :=
  (exists root rc, ui_disposables s = Some root /\ roots s !! root = Some rc) /\
  (exists em tbl, stream_ready (atom_project s) s em tbl /\
                  entries tbl "did-change-paths" = []) /\
  (exists em tbl, stream_ready (atom_themes s) s em tbl /\
                  entries tbl "did-change-active-themes" = []) /\
  atom_project s <> atom_themes s.

Lemma init_ready_arms s :
  init_ready s ->
  exists root rc emp tblp emt tblt,
    init s = Ok tt (init_state root rc emp emt tblp tblt s) /\
    atom_project s < length (streams s) /\ atom_themes s < length (streams s) /\
    atom_project s <> atom_themes s /\
    entries tblp "did-change-paths" = [] /\
    entries tblt "did-change-active-themes" = [].
Proof.
  intros ((root & rc & Hu & Hr) & (emp & tblp & (Hp & Hpd & Hpt & [cp Hpg]) & Hpe)
          & (emt & tblt & (Ht & Htd & Htt & [ct Htg]) & Hte) & Hne).
  exists root, rc, emp, tblp, emt, tblt.
  split; [eapply init_arms; eauto|].
  split; [eapply lookup_lt_Some; eauto|]. split; [eapply lookup_lt_Some; eauto|]. auto.
Qed.

Lemma stream_emit_one e name v s em tbl f :
  streams s !! e = Some em -> e_handlers em = Some tbl -> entries tbl name = [f] ->
  stream_emit e name v s = call_cb f v s.
Proof.
  intros He Ht Hf. unfold stream_emit, Emitter_emit, bind, deref. rewrite He, Ht.
  unfold entries in Hf. unfold inherited.
  destruct (tbl !! name) as [l|]; simpl in Hf; [|discriminate].
  subst l. simpl. apply bind_ret_tt.
Qed.

(** After [init], what [atom.project] reports reaches [setProjects]: the
    dispatch of new paths on its stream is the call [setProjects(to)].  The
    baseline is the empty sequence, so a first report whose joined text is
    empty (no path at all, in particular) dispatches nothing, not even
    [projects-emptied]; any other first report makes [to] the baseline and
    dispatches [projects-available] and then [projects-changed] with
    [{from: [], to}]. *)
Theorem init_listens_to_project_paths s to :
  init_ready s ->
  exists s1,
    init s = Ok tt s1 /\ ui_projects s1 = Some [] /\ log s1 = log s /\
    stream_emit (atom_project s1) "did-change-paths" (VPaths to) s1 = setProjects to s1 /\
    (join newline to = "" -> setProjects to s1 = Ok tt s1) /\
    forall e em tbl,
      ui_emitter s = Some e -> hubs s !! e = Some em -> e_handlers em = Some tbl ->
      join newline to <> "" ->
      exists s2,
        setProjects to s1 = Ok tt s2 /\ ui_projects s2 = Some to /\
        emitted (log s2) = emitted (log s) ++
          [("projects-available", VUndefined); ("projects-changed", VChange [] to)].
Proof.
  intros Hrdy.
  destruct (init_ready_arms s Hrdy)
    as (root & rc & emp & tblp & emt & tblt & E & Hpl & Htl & Hne & Hpe & Hte).
  set (s1 := init_state root rc emp emt tblp tblt s) in *.
  exists s1. split; [exact E|]. split; [reflexivity|]. split; [reflexivity|].
  split; [|split].
  - transitivity (call_cb (CbSetProjects (closures s)) (VPaths to) s1); [|reflexivity].
    eapply stream_emit_one.
    + subst s1. simpl. rewrite list_lookup_insert_ne by congruence.
      apply list_lookup_insert_eq. exact Hpl.
    + reflexivity.
    + rewrite entries_table_on. rewrite decide_True by reflexivity. now rewrite Hpe.
  - intros Hj. apply (setProjects_same s1 []); [reflexivity|]. now rewrite Hj.
  - intros e em tbl Hu He Ht Hj.
    destruct (setProjects_changed s1 [] to e em tbl eq_refl Hu He Ht)
      as (_ & s2 & E2 & Hp2 & Hl2).
    { simpl. congruence. }
    exists s2. split; [exact E2|]. split; [exact Hp2|].
    rewrite Hl2. change (log s1) with (log s).
    assert (Ha : availability to = "projects-available").
    { destruct to; [now contradict Hj|reflexivity]. }
    rewrite Ha, !emitted_app. simpl. now rewrite !emitted_calls_of.
Qed.

Lemma init_listens_to_project_paths_witness :
  exists s1,
    init (loaded [] [] None) = Ok tt s1 /\ ui_projects s1 = Some [] /\
    log s1 = log (loaded [] [] None) /\
    stream_emit (atom_project s1) "did-change-paths" (VPaths ["/home/a"]) s1
      = setProjects ["/home/a"] s1 /\
    (join newline ["/home/a"] = "" -> setProjects ["/home/a"] s1 = Ok tt s1) /\
    forall e em tbl,
      ui_emitter (loaded [] [] None) = Some e -> hubs (loaded [] [] None) !! e = Some em ->
      e_handlers em = Some tbl ->
      join newline ["/home/a"] <> "" ->
      exists s2,
        setProjects ["/home/a"] s1 = Ok tt s2 /\ ui_projects s2 = Some ["/home/a"] /\
        emitted (log s2) = emitted (log (loaded [] [] None)) ++
          [("projects-available", VUndefined);
           ("projects-changed", VChange [] ["/home/a"])].
Proof.
  apply (init_listens_to_project_paths (loaded [] [] None) ["/home/a"]).
  split.
  { exists 0, (mkComposite false []). split; vm_compute; reflexivity. }
  split.
  { exists (mkEmitter false 0 (Some ∅)), ∅. split; [|reflexivity].
    split; [vm_compute; reflexivity|]. split; [reflexivity|]. split; [reflexivity|].
    exists (mkComposite false []). vm_compute; reflexivity. }
  split.
  { exists (mkEmitter false 1 (Some ∅)), ∅. split; [|reflexivity].
    split; [vm_compute; reflexivity|]. split; [reflexivity|]. split; [reflexivity|].
    exists (mkComposite false []). vm_compute; reflexivity. }
  vm_compute. discriminate.
Defined.

(** ** What [fixOffset] leaves alone *)

Section PatchFrame.
Context {X : Type} (f : state -> X).
Hypothesis f_plain : forall x s, f (set_plain x s) = f s.
Hypothesis f_groups : forall x s, f (set_groups x s) = f s.
Hypothesis f_roots : forall x s, f (set_roots x s) = f s.
Hypothesis f_hubs : forall x s, f (set_hubs x s) = f s.
Hypothesis f_streams : forall x s, f (set_streams x s) = f s.
Hypothesis f_rules : forall x s, f (set_rules x s) = f s.
Hypothesis f_restoreOffset : forall x s, f (set_ui_restoreOffset x s) = f s.

Lemma fr_patchOffset r ru : keeps f (patchOffset r ru).
Proof.
  unfold patchOffset, root_remove, root_add. keeps_auto.
  - now apply fr_Disposable_dispose.
  - intros s. apply f_plain.
Qed.

Lemma fr_fixOffset_rules rs : keeps f (fixOffset_rules rs).
Proof. induction rs; simpl; keeps_auto. apply fr_patchOffset. Qed.

Lemma fr_fixOffset_sheets l : keeps f (fixOffset_sheets l).
Proof. induction l; simpl; keeps_auto. apply fr_fixOffset_rules. Qed.

Lemma fr_fixOffset : keeps f fixOffset.
Proof. unfold fixOffset. keeps_auto. apply fr_fixOffset_sheets. Qed.
End PatchFrame.

(** After [init], a change of the active themes runs [fixOffset] during
    the notification and only schedules [checkMotif]: when the dispatch on
    the stream of [atom.themes] is over, the task is the last of the
    [setImmediate] queue, nothing has been dispatched on the hub, and the
    stored flag is still the [false] that [init] wrote.  The check itself is
    what the scheduler runs when it comes to that task. *)
Theorem init_defers_motif_check env s v :
  init_ready s ->
  exists s1,
    init s = Ok tt s1 /\ ui_lightTheme s1 = Some false /\
    let dispatch := stream_emit (atom_themes s1) "did-change-active-themes" v in
    dispatch s1 = (setImmediate TCheckMotif ;;; fixOffset) s1 /\
    immediates (final (dispatch s1)) = immediates s ++ [TCheckMotif] /\
    log (final (dispatch s1)) = log s /\
    ui_lightTheme (final (dispatch s1)) = Some false /\
    (immediates s = [] ->
     turn env (final (dispatch s1)) =
     checkMotif env (set_immediates [] (final (dispatch s1)))).
Proof.
  intros Hrdy.
  destruct (init_ready_arms s Hrdy)
    as (root & rc & emp & tblp & emt & tblt & E & Hpl & Htl & Hne & Hpe & Hte).
  set (s1 := init_state root rc emp emt tblp tblt s) in *.
  exists s1. split; [exact E|]. split; [reflexivity|]. intros dispatch.
  assert (Ed : dispatch s1 = (setImmediate TCheckMotif ;;; fixOffset) s1).
  { subst dispatch.
    transitivity (call_cb (CbThemes (S (closures s))) v s1); [|reflexivity].
    eapply stream_emit_one.
    - subst s1. simpl. apply list_lookup_insert_eq. now rewrite length_insert.
    - reflexivity.
    - rewrite entries_table_on. rewrite decide_True by reflexivity. now rewrite Hte. }
  split; [exact Ed|]. rewrite Ed.
  set (sq := set_immediates (immediates s1 ++ [TCheckMotif]) s1).
  assert (Ef : (setImmediate TCheckMotif ;;; fixOffset) s1 = fixOffset sq) by reflexivity.
  rewrite Ef.
  assert (Hi : immediates (final (fixOffset sq)) = immediates s ++ [TCheckMotif]).
  { now rewrite (fr_fixOffset immediates). }
  split; [exact Hi|]. split; [now rewrite (fr_fixOffset log)|].
  split; [now rewrite (fr_fixOffset ui_lightTheme)|].
  intros Hq. unfold turn, bind, get. rewrite Hi, Hq. reflexivity.
Qed.

Lemma init_defers_motif_check_witness :
  exists s1,
    init (loaded [] [] None) = Ok tt s1 /\ ui_lightTheme s1 = Some false /\
    let dispatch := stream_emit (atom_themes s1) "did-change-active-themes" VUndefined in
    dispatch s1 = (setImmediate TCheckMotif ;;; fixOffset) s1 /\
    immediates (final (dispatch s1)) = immediates (loaded [] [] None) ++ [TCheckMotif] /\
    log (final (dispatch s1)) = log (loaded [] [] None) /\
    ui_lightTheme (final (dispatch s1)) = Some false /\
    (immediates (loaded [] [] None) = [] ->
     turn quiet_host (final (dispatch s1)) =
     checkMotif quiet_host (set_immediates [] (final (dispatch s1)))).
Proof.
  apply (init_defers_motif_check quiet_host (loaded [] [] None) VUndefined).
  split.
  { exists 0, (mkComposite false []). split; vm_compute; reflexivity. }
  split.
  { exists (mkEmitter false 0 (Some ∅)), ∅. split; [|reflexivity].
    split; [vm_compute; reflexivity|]. split; [reflexivity|]. split; [reflexivity|].
    exists (mkComposite false []). vm_compute; reflexivity. }
  split.
  { exists (mkEmitter false 1 (Some ∅)), ∅. split; [|reflexivity].
    split; [vm_compute; reflexivity|]. split; [reflexivity|]. split; [reflexivity|].
    exists (mkComposite false []). vm_compute; reflexivity. }
  vm_compute. discriminate.
Defined.

(** ** What [reset] undoes *)

(** The callbacks registered for [name] on stream [e]. *)
Definition listening (e : nat) (name : string) (s : state) : list cb :=
  match streams s !! e with
  | Some em =>
      match e_handlers em with
      | Some tbl => entries tbl name
      | None => []
      end
  | None => []
  end.

Lemma stream_emit_none e name v s :
  is_inherited name = false ->
  listening e name s = [] -> e < length (streams s) -> stream_emit e name v s = Ok tt s.
Proof.
  unfold listening, stream_emit, Emitter_emit, bind, deref, entries. intros Hn Hl He.
  apply lookup_lt_is_Some in He as [em He]. rewrite He in *.
  destruct (e_handlers em) as [tbl|]; [|reflexivity].
  rewrite (inherited_own _ _ Hn).
  destruct (tbl !! name) as [l|]; [|reflexivity]. simpl in Hl. now subst l.
Qed.

Lemma root_dispose_members r ms s :
  roots s !! r = Some (mkComposite false ms) ->
  root_dispose r s =
  (forEach member_dispose ms ;;;
   modify (fun s => set_roots (<[r := mkComposite true []]> (roots s)) s))
    (set_roots (<[r := mkComposite true ms]> (roots s)) s).
Proof.
  intros Hr. unfold root_dispose. rewrite (bind_Ok _ _ _ _ _ (deref_Ok _ _ _ _ Hr)).
  reflexivity.
Qed.

(** Disposing the Disposable that [on] returned for a callback on a
    stream. *)
Lemma dispose_listener s d e name f em c :
  plain s !! d = Some (mkDisposable false (Some (AOffStream e name f))) ->
  streams s !! e = Some em -> groups s !! e_subscriptions em = Some c ->
  Disposable_dispose d s =
  Ok tt (set_plain (<[d := mkDisposable true None]> (plain s))
           (set_streams (<[e := Emitter_off_obj name f em]> (streams s))
              (set_groups (<[e_subscriptions em := Composite_remove d c]> (groups s)) s))).
Proof.
  intros Ho He Hg. unfold Disposable_dispose, bind, deref. rewrite Ho. simpl.
  unfold modify, run_action, group_remove, stream_off, bind, deref. simpl.
  rewrite He. simpl. rewrite Hg. simpl. rewrite He. simpl.
  f_equal. apply state_ext; simpl; try reflexivity.
  apply list_insert_insert_eq.
Qed.

(** Every member of the composite is a Disposable that has been disposed
    or unregisters a function from hub [e]. *)
Definition hub_subscription (e : nat) (s : state) (d : nat) : Prop :=
  exists o, plain s !! d = Some o /\
    (d_disposed o = true \/
     exists name f, o = mkDisposable false (Some (AOffHub e name f))).

(** What the disposal of such members leaves alone. *)
Definition untouched (s s' : state) : Prop :=
  streams s' = streams s /\ rules s' = rules s /\ roots s' = roots s /\
  length (plain s') = length (plain s) /\
  forall d, plain s !! d = Some (mkDisposable true None) ->
            plain s' !! d = Some (mkDisposable true None).

Lemma untouched_refl s : untouched s s.
Proof. repeat split; auto. Qed.

Lemma untouched_trans s1 s2 s3 : untouched s1 s2 -> untouched s2 s3 -> untouched s1 s3.
Proof.
  intros (A1 & B1 & R1 & C1 & D1) (A2 & B2 & R2 & C2 & D2).
  repeat split; try congruence. auto.
Qed.

Lemma dispose_hub_subscriptions e subs l s :
  (exists em, hubs s !! e = Some em /\ e_subscriptions em = subs) ->
  is_Some (groups s !! subs) ->
  Forall (hub_subscription e s) l ->
  exists s', forEach Disposable_dispose l s = Ok tt s' /\ untouched s s'.
Proof.
  revert s. induction l as [|d l IH]; intros s Hh Hg Hl; simpl.
  - exists s. split; [reflexivity|apply untouched_refl].
  - apply Forall_cons in Hl as [(o & Ho & Hd) Hl].
    assert (Hdl : d < length (plain s)) by (eapply lookup_lt_Some; eauto).
    destruct Hd as [Hd|(name & f & ->)].
    + unfold bind. rewrite (dispose_spent s d o Ho Hd). now apply IH.
    + destruct Hh as (em & He & Hs). destruct Hg as [c Hc].
      assert (Hel : e < length (hubs s)) by (eapply lookup_lt_Some; eauto).
      assert (Hgl : subs < length (groups s)) by (eapply lookup_lt_Some; eauto).
      set (s1 := set_plain (<[d := mkDisposable true None]> (plain s))
                   (set_hubs (<[e := Emitter_off_obj name f em]> (hubs s))
                      (set_groups (<[subs := Composite_remove d c]> (groups s)) s))).
      assert (E : Disposable_dispose d s = Ok tt s1).
      { unfold Disposable_dispose, bind, deref. rewrite Ho. simpl.
        unfold modify, run_action, group_remove, hub_off, bind, deref. simpl.
        rewrite He. simpl. rewrite Hs, Hc. simpl. rewrite He. simpl.
        f_equal. apply state_ext; simpl; try reflexivity.
        apply list_insert_insert_eq. }
      assert (U1 : untouched s s1).
      { subst s1. repeat split; simpl; [now rewrite length_insert|].
        intros d' Hd'. destruct (decide (d' = d)) as [->|Hne'].
        - now apply list_lookup_insert_eq.
        - now rewrite list_lookup_insert_ne by congruence. }
      destruct (IH s1) as (s' & E' & U').
      * exists (Emitter_off_obj name f em). split.
        { subst s1. simpl. now apply list_lookup_insert_eq. }
        unfold Emitter_off_obj. now destruct (e_disposed em).
      * subst s1. simpl. apply lookup_lt_is_Some. now rewrite length_insert.
      * rewrite Forall_forall in *. intros d' Hin.
        destruct (Hl d' Hin) as (o' & Ho' & Hd').
        destruct (decide (d' = d)) as [->|Hne].
        { exists (mkDisposable true None). split; [|now left].
          subst s1. simpl. now apply list_lookup_insert_eq. }
        exists o'. split; [|exact Hd'].
        subst s1. simpl. now rewrite list_lookup_insert_ne by congruence.
      * exists s'. unfold bind. rewrite E. split; [exact E'|].
        eapply untouched_trans; eauto.
Qed.

(** [Emitter.dispose] on a hub whose subscriptions are as [on] left
    them. *)
Lemma group_dispose_hub e em c s :
  hubs s !! e = Some em -> groups s !! e_subscriptions em = Some c ->
  Forall (hub_subscription e s) (c_members c) ->
  exists s', group_dispose (e_subscriptions em) s = Ok tt s' /\ untouched s s'.
Proof.
  intros He Hc Hl.
  assert (Hgl : e_subscriptions em < length (groups s)) by (eapply lookup_lt_Some; eauto).
  unfold group_dispose. rewrite (bind_Ok _ _ _ _ _ (deref_Ok _ _ _ _ Hc)).
  destruct (c_disposed c) eqn:Hd.
  - exists s. split; [reflexivity|apply untouched_refl].
  - set (s1 := set_groups (<[e_subscriptions em := mkComposite true (c_members c)]>
                             (groups s)) s).
    cbv iota. unfold bind at 1. unfold modify at 1. fold s1.
    destruct (dispose_hub_subscriptions e (e_subscriptions em) (c_members c) s1)
      as (s' & E' & U').
    + now exists em.
    + subst s1. simpl. apply lookup_lt_is_Some. now rewrite length_insert.
    + exact Hl.
    + rewrite (bind_Ok _ _ _ _ _ E'). eexists. split; [reflexivity|]. exact U'.
Qed.

Lemma hub_dispose_tidy e em c s :
  hubs s !! e = Some em -> groups s !! e_subscriptions em = Some c ->
  Forall (hub_subscription e s) (c_members c) ->
  exists s', hub_dispose e s = Ok tt s' /\ untouched s s'.
Proof.
  intros He Hc Hl. unfold hub_dispose, Emitter_dispose.
  rewrite (bind_Ok _ _ _ _ _ (deref_Ok _ _ _ _ He)).
  destruct (group_dispose_hub e em c s He Hc Hl) as (s' & E' & U').
  rewrite (bind_Ok _ _ _ _ _ E'). eexists. split; [reflexivity|]. exact U'.
Qed.

Lemma entries_off_on {F} `{EqDecision F} n (f : F) tbl n' :
  entries tbl n = [] -> entries (table_off n f (table_on n f tbl)) n' = entries tbl n'.
Proof.
  intros He. rewrite entries_table_off. destruct (decide (n = n')) as [<-|Hne].
  - rewrite entries_table_on, decide_True by reflexivity. rewrite He. simpl.
    now rewrite decide_True by reflexivity.
  - rewrite entries_table_on. now rewrite decide_False by exact Hne.
Qed.

Lemma Composite_add_new {A} `{EqDecision A} (x : A) ms :
  x ∉ ms -> Composite_add x (mkComposite false ms) = mkComposite false (ms ++ [x]).
Proof. intros Hn. unfold Composite_add. simpl. now rewrite decide_False by exact Hn. Qed.

(** [this.disposables] holds nothing yet. *)
Definition fresh_root (s : state) : Prop :=
  exists root, ui_disposables s = Some root /\
               roots s !! root = Some (mkComposite false []).

(** The hub is there, the members of its subscriptions are the Disposables
    that [on] made, and no stream shares that composite. *)
Definition hub_tidy (s : state) : Prop :=
  exists e em c,
    ui_emitter s = Some e /\ hubs s !! e = Some em /\
    groups s !! e_subscriptions em = Some c /\
    Forall (hub_subscription e s) (c_members c) /\
    forall e' em', streams s !! e' = Some em' -> e_subscriptions em' <> e_subscriptions em.

(** [init] and then [reset]: the disposal of [this.disposables] at line 32
    takes the two callbacks off the streams of [atom.project] and
    [atom.themes] again.  [reset] returns; each stream holds for every
    notification what it held before [init]; what the collaborators report
    from then on calls nothing of the object.  The baseline that [init]
    wrote is still there: [reset] does not clear it. *)
Theorem reset_unhooks_collaborators s v :
  init_ready s -> fresh_root s -> hub_tidy s ->
  exists s1 s2,
    init s = Ok tt s1 /\ reset s1 = Ok tt s2 /\
    (forall name, listening (atom_project s) name s2 = listening (atom_project s) name s) /\
    (forall name, listening (atom_themes s) name s2 = listening (atom_themes s) name s) /\
    stream_emit (atom_project s2) "did-change-paths" v s2 = Ok tt s2 /\
    stream_emit (atom_themes s2) "did-change-active-themes" v s2 = Ok tt s2 /\
    ui_projects s2 = Some [] /\ ui_lightTheme s2 = Some false.
Proof.
  intros ((root0 & rc0 & Hu0 & Hr0) & (emp & tblp & (Hp & Hpd & Hpt & [cp Hpg]) & Hpe)
          & (emt & tblt & (Ht & Htd & Htt & [ct Htg]) & Hte) & Hne)
         (root & Hu & Hr) (e & emh & ch & Hue & Hh & Hhg & Hhm & Hsep).
  pose proof (init_arms s root _ emp tblp cp emt tblt ct Hu Hr Hp Hpd Hpt Hpg
                Ht Htd Htt Htg Hne) as E1.
  set (s1 := init_state root (mkComposite false []) emp emt tblp tblt s) in *.
  set (n := length (plain s)).
  set (k := closures s).
  assert (Hrl : root < length (roots s)) by (eapply lookup_lt_Some; eauto).
  assert (Hpl : atom_project s < length (streams s)) by (eapply lookup_lt_Some; eauto).
  assert (Htl : atom_themes s < length (streams s)) by (eapply lookup_lt_Some; eauto).
  assert (Hr1 : roots s1 !! root = Some (mkComposite false [MPlain n; MPlain (S n)])).
  { subst s1. unfold init_state. simpl. rewrite list_lookup_insert_eq by exact Hrl.
    f_equal. rewrite Composite_add_new by apply not_elem_of_nil. simpl.
    rewrite Composite_add_new; [reflexivity|].
    rewrite list_elem_of_singleton. intros [=]. lia. }
  assert (Ep : exists cp1, groups s1 !! e_subscriptions emp = Some cp1).
  { apply lookup_lt_is_Some. subst s1. simpl. rewrite !length_alter.
    eapply lookup_lt_Some; eauto. }
  destruct Ep as [cp1 Hpg1].
  assert (Hp1 : streams s1 !! atom_project s = Some
            (mkEmitter false (e_subscriptions emp)
               (Some (table_on "did-change-paths" (CbSetProjects k) tblp)))).
  { subst s1. simpl. rewrite list_lookup_insert_ne by congruence.
    now apply list_lookup_insert_eq. }
  assert (Ht1 : streams s1 !! atom_themes s = Some
            (mkEmitter false (e_subscriptions emt)
               (Some (table_on "did-change-active-themes" (CbThemes (S k)) tblt)))).
  { subst s1. simpl. apply list_lookup_insert_eq. now rewrite length_insert. }
  set (emp1 := mkEmitter false (e_subscriptions emp)
                 (Some (table_on "did-change-paths" (CbSetProjects k) tblp))) in *.
  set (emt1 := mkEmitter false (e_subscriptions emt)
                 (Some (table_on "did-change-active-themes" (CbThemes (S k)) tblt))) in *.
  (* line 32 *)
  set (sA := set_roots (<[root := mkComposite true [MPlain n; MPlain (S n)]]> (roots s1)) s1).
  assert (EA : Disposable_dispose n sA = Ok tt
            (set_plain (<[n := mkDisposable true None]> (plain sA))
               (set_streams (<[atom_project s := Emitter_off_obj "did-change-paths"
                                 (CbSetProjects k) emp1]> (streams sA))
                  (set_groups (<[e_subscriptions emp1 := Composite_remove n cp1]>
                                 (groups sA)) sA)))).
  { apply dispose_listener.
    - subst sA s1. simpl. fold n. rewrite lookup_app_r by lia.
      now rewrite Nat.sub_diag.
    - exact Hp1.
    - exact Hpg1. }
  match type of EA with _ = Ok tt ?st => set (sB := st) in * end.
  assert (Et : exists ct1, groups sB !! e_subscriptions emt = Some ct1).
  { apply lookup_lt_is_Some. subst sB sA s1. simpl. rewrite length_insert, !length_alter.
    eapply lookup_lt_Some; eauto. }
  destruct Et as [ct1 Htg1].
  assert (EB : Disposable_dispose (S n) sB = Ok tt
            (set_plain (<[S n := mkDisposable true None]> (plain sB))
               (set_streams (<[atom_themes s := Emitter_off_obj "did-change-active-themes"
                                 (CbThemes (S k)) emt1]> (streams sB))
                  (set_groups (<[e_subscriptions emt1 := Composite_remove (S n) ct1]>
                                 (groups sB)) sB)))).
  { apply dispose_listener.
    - subst sB sA s1. simpl. unfold n. rewrite list_lookup_insert_ne by lia.
      rewrite lookup_app_r by lia.
      now replace (S (length (plain s)) - length (plain s)) with 1 by lia.
    - subst sB sA. simpl. rewrite list_lookup_insert_ne by congruence. exact Ht1.
    - exact Htg1. }
  match type of EB with _ = Ok tt ?st => set (sC := st) in * end.
  set (sD := set_roots (<[root := mkComposite true []]> (roots sC)) sC).
  assert (ER : root_dispose root s1 = Ok tt sD).
  { rewrite (root_dispose_members root _ s1 Hr1). fold sA.
    unfold bind. simpl forEach. unfold bind. simpl member_dispose.
    rewrite EA, EB. reflexivity. }
  (* line 33 *)
  assert (Hh' : exists s', hub_dispose e sD = Ok tt s' /\ untouched sD s').
  { apply (hub_dispose_tidy e emh ch); [exact Hh| |].
    - subst sD sC sB sA s1. simpl.
      rewrite !list_lookup_insert_ne, !list_lookup_alter_ne; eauto.
    - rewrite Forall_forall in *. intros d Hin.
      destruct (Hhm d Hin) as (o & Ho & Hd). exists o. split; [|exact Hd].
      assert (d < n) by (eapply lookup_lt_Some; eauto).
      subst sD sC sB sA s1. simpl. fold n.
      rewrite !list_lookup_insert_ne by lia. now apply lookup_app_l_Some. }
  destruct Hh' as (s' & EH & Hst & _).
  assert (ET : teardown s1 = Ok tt s').
  { unfold teardown. rewrite (bind_Ok get _ s1 s1 s1 eq_refl).
    change (ui_disposables s1) with (ui_disposables s). rewrite Hu.
    rewrite (bind_Ok _ _ _ _ _ ER).
    change (ui_emitter s1) with (ui_emitter s). rewrite Hue. exact EH. }
  exists s1, (installed s'). split; [exact E1|]. split.
  { rewrite reset_unfold, ET. reflexivity. }
  assert (Hlp : forall name,
            listening (atom_project s) name (installed s') = listening (atom_project s) name s).
  { intros name. unfold listening. simpl. rewrite Hst. subst sD sC sB sA. simpl.
    rewrite list_lookup_insert_ne by congruence.
    rewrite list_lookup_insert_eq by (subst s1; simpl; now rewrite !length_insert).
    rewrite Hp, Hpt. simpl. now apply entries_off_on. }
  assert (Hlt : forall name,
            listening (atom_themes s) name (installed s') = listening (atom_themes s) name s).
  { intros name. unfold listening. simpl. rewrite Hst. subst sD sC sB sA. simpl.
    rewrite list_lookup_insert_eq by (subst s1; simpl; now rewrite !length_insert).
    rewrite Ht, Htt. simpl. now apply entries_off_on. }
  assert (Hlen : length (streams (installed s')) = length (streams s)).
  { simpl. rewrite Hst. subst sD sC sB sA s1. simpl. now rewrite !length_insert. }
  assert (Hkp : forall X (f : state -> X),
            (forall x s, f (set_plain x s) = f s) -> (forall x s, f (set_groups x s) = f s) ->
            (forall x s, f (set_roots x s) = f s) -> (forall x s, f (set_hubs x s) = f s) ->
            (forall x s, f (set_streams x s) = f s) -> (forall x s, f (set_rules x s) = f s) ->
            f s' = f s1).
  { intros X f H1 H2 H3 H4 H5 H6.
    pose proof (keeps_teardown f H1 H2 H3 H4 H5 H6 s1) as Hk. now rewrite ET in Hk. }
  split; [exact Hlp|]. split; [exact Hlt|].
  split.
  { apply stream_emit_none; [reflexivity| |].
    - change (atom_project (installed s')) with (atom_project s').
      rewrite (Hkp _ atom_project) by reflexivity.
      change (atom_project s1) with (atom_project s). rewrite Hlp.
      unfold listening. now rewrite Hp, Hpt.
    - change (atom_project (installed s')) with (atom_project s').
      rewrite (Hkp _ atom_project) by reflexivity. now rewrite Hlen. }
  split.
  { apply stream_emit_none; [reflexivity| |].
    - change (atom_themes (installed s')) with (atom_themes s').
      rewrite (Hkp _ atom_themes) by reflexivity.
      change (atom_themes s1) with (atom_themes s). rewrite Hlt.
      unfold listening. now rewrite Ht, Htt.
    - change (atom_themes (installed s')) with (atom_themes s').
      rewrite (Hkp _ atom_themes) by reflexivity. now rewrite Hlen. }
  split.
  - change (ui_projects (installed s')) with (ui_projects s').
    now rewrite (Hkp _ ui_projects) by reflexivity.
  - change (ui_lightTheme (installed s')) with (ui_lightTheme s').
    now rewrite (Hkp _ ui_lightTheme) by reflexivity.
Qed.

(** A loaded module on which a client has subscribed. *)
Definition subscribed_state : state :=
  final (subscribe "open-file" 5 (loaded [] [] None)).

Lemma reset_unhooks_collaborators_witness :
  exists s1 s2,
    init subscribed_state = Ok tt s1 /\ reset s1 = Ok tt s2 /\
    (forall name, listening (atom_project subscribed_state) name s2
                  = listening (atom_project subscribed_state) name subscribed_state) /\
    (forall name, listening (atom_themes subscribed_state) name s2
                  = listening (atom_themes subscribed_state) name subscribed_state) /\
    stream_emit (atom_project s2) "did-change-paths" (VPaths ["/a"]) s2 = Ok tt s2 /\
    stream_emit (atom_themes s2) "did-change-active-themes" (VPaths ["/a"]) s2 = Ok tt s2 /\
    ui_projects s2 = Some [] /\ ui_lightTheme s2 = Some false.
Proof.
  apply (reset_unhooks_collaborators subscribed_state (VPaths ["/a"])).
  - split.
    { exists 0, (mkComposite false []). split; vm_compute; reflexivity. }
    split.
    { exists (mkEmitter false 0 (Some ∅)), ∅. split; [|reflexivity].
      split; [vm_compute; reflexivity|]. split; [reflexivity|]. split; [reflexivity|].
      exists (mkComposite false []). vm_compute; reflexivity. }
    split.
    { exists (mkEmitter false 1 (Some ∅)), ∅. split; [|reflexivity].
      split; [vm_compute; reflexivity|]. split; [reflexivity|]. split; [reflexivity|].
      exists (mkComposite false []). vm_compute; reflexivity. }
    vm_compute. discriminate.
  - exists 0. split; vm_compute; reflexivity.
  - exists 0, (mkEmitter false 2 (Some (table_on "open-file" (Handler 5) ∅))),
      (mkComposite false [0]).
    split; [vm_compute; reflexivity|]. split; [vm_compute; reflexivity|].
    split; [vm_compute; reflexivity|]. split.
    + constructor; [|constructor].
      exists (mkDisposable false (Some (AOffHub 0 "open-file" (Handler 5)))).
      split; [vm_compute; reflexivity|]. right. now exists "open-file", (Handler 5).
    + intros e' em' H. destruct e' as [|[|e']]; vm_compute in H.
      * injection H as <-. vm_compute. discriminate.
      * injection H as <-. vm_compute. discriminate.
      * discriminate.
Defined.

(** ** Unsubscribing *)

(** Disposing the Disposable that [on] returned for a function on a hub. *)
Lemma dispose_registration s d e name f em c :
  plain s !! d = Some (mkDisposable false (Some (AOffHub e name f))) ->
  hubs s !! e = Some em -> groups s !! e_subscriptions em = Some c ->
  Disposable_dispose d s =
  Ok tt (set_plain (<[d := mkDisposable true None]> (plain s))
           (set_hubs (<[e := Emitter_off_obj name f em]> (hubs s))
              (set_groups (<[e_subscriptions em := Composite_remove d c]> (groups s)) s))).
Proof.
  intros Ho He Hg. unfold Disposable_dispose, bind, deref. rewrite Ho. simpl.
  unfold modify, run_action, group_remove, hub_off, bind, deref. simpl.
  rewrite He. simpl. rewrite Hg. simpl. rewrite He. simpl.
  f_equal. apply state_ext; simpl; try reflexivity.
  apply list_insert_insert_eq.
Qed.

Lemma registered_entries e name s em tbl :
  hubs s !! e = Some em -> e_handlers em = Some tbl ->
  registered e name s = entries tbl name.
Proof. intros He Ht. unfold registered. now rewrite He, Ht. Qed.

Lemma table_off_lookup_ne {F} `{EqDecision F} name name' (f : F) tbl :
  name <> name' -> table_off name f tbl !! name' = tbl !! name'.
Proof.
  intros Hne. unfold table_off. destruct (tbl !! name) as [l|]; [|reflexivity].
  destruct (remove_first f l).
  - now rewrite lookup_delete_ne.
  - now rewrite lookup_insert_ne.
Qed.

Lemma inherited_off_on {F} `{EqDecision F} name name' (f : F) tbl :
  is_inherited name = false ->
  inherited name' (table_off name f (table_on name f tbl)) = inherited name' tbl.
Proof.
  intros Hn. destruct (decide (name = name')) as [<-|Hne].
  - now rewrite !inherited_own.
  - unfold inherited. rewrite table_off_lookup_ne by exact Hne.
    now rewrite table_on_lookup_ne.
Qed.

(** What an [emit] on a live hub has logged and scheduled when it ends,
    with an exception or without. *)
Lemma emit_final e name args s em tbl :
  ui_emitter s = Some e -> hubs s !! e = Some em -> e_handlers em = Some tbl ->
  let v := default VUndefined (head args) in
  log (final (emit name args s)) =
    log s ++ [Emitted name v] ++
      (if inherited name tbl then [] else calls_of v (entries tbl name)) /\
  immediates (final (emit name args s)) =
    immediates s ++ (if inherited name tbl then [] else tasks_of v (entries tbl name)).
Proof.
  intros Hu He Ht v. unfold emit, bind, get. rewrite Hu.
  unfold emit_log, modify, hub_emit, Emitter_emit, bind, deref. simpl.
  rewrite He, Ht. destruct (inherited name tbl); simpl.
  - now rewrite app_nil_r.
  - unfold entries. destruct (tbl !! name) as [l|]; simpl.
    + rewrite dispatch_hfn. simpl. now rewrite <- app_assoc.
    + now rewrite app_nil_r.
Qed.

(** [subscribe], for an event that is not the name of a property of
    [Object.prototype], and then [dispose] on what it returned.  When the
    function that [subscribe] registers (the handler, or its deferring
    wrapper) was not already registered for the event, the hub holds for
    every event what it held before, and an [emit] of any name logs and
    schedules what it would have; disposing a second time does nothing. *)
Theorem unsubscribe_restores_hub name h s e em tbl c :
  ui_emitter s = Some e -> hubs s !! e = Some em -> e_disposed em = false ->
  e_handlers em = Some tbl -> groups s !! e_subscriptions em = Some c ->
  is_inherited name = false ->
  wrapped s h ∉ registered e name s ->
  exists d s1 s2,
    subscribe name h s = Ok d s1 /\
    registered e name s1 = registered e name s ++ [wrapped s h] /\
    Disposable_dispose d s1 = Ok tt s2 /\
    (forall name', registered e name' s2 = registered e name' s) /\
    (forall name' args,
       log (final (emit name' args s2)) = log (final (emit name' args s)) /\
       immediates (final (emit name' args s2)) = immediates (final (emit name' args s))) /\
    Disposable_dispose d s2 = Ok tt s2.
Proof.
  intros Hu He Hd Ht Hg Hn Hnew.
  assert (Hel : e < length (hubs s)) by (eapply lookup_lt_Some; eauto).
  assert (Hgl : e_subscriptions em < length (groups s)) by (eapply lookup_lt_Some; eauto).
  pose proof (subscribe_live name h s e em tbl c Hu He Hd Ht Hg Hn) as E1.
  set (f := wrapped s h) in *. set (d := length (plain s)) in *.
  match type of E1 with _ = Ok _ ?st => set (s1 := st) in * end.
  set (em1 := mkEmitter false (e_subscriptions em) (Some (table_on name f tbl))).
  assert (Ho1 : plain s1 !! d = Some (mkDisposable false (Some (AOffHub e name f)))).
  { subst s1. simpl. rewrite ?consumed_plain. apply lookup_snoc. }
  assert (He1 : hubs s1 !! e = Some em1).
  { subst s1. simpl. rewrite ?consumed_hubs. now apply list_lookup_insert_eq. }
  assert (Hg1 : groups s1 !! e_subscriptions em1 = Some (Composite_add d c)).
  { subst s1. simpl. rewrite ?consumed_groups. now apply list_lookup_insert_eq. }
  pose proof (dispose_registration s1 d e name f em1 _ Ho1 He1 Hg1) as E2.
  match type of E2 with _ = Ok _ ?st => set (s2 := st) in * end.
  set (tbl2 := table_off name f (table_on name f tbl)).
  assert (He2 : hubs s2 !! e = Some (mkEmitter false (e_subscriptions em) (Some tbl2))).
  { subst s2. simpl. apply list_lookup_insert_eq.
    subst s1. simpl. rewrite ?consumed_hubs. now rewrite length_insert. }
  assert (Hent : forall name', entries tbl2 name' = entries tbl name').
  { intros name'. subst tbl2. rewrite entries_table_off.
    destruct (decide (name = name')) as [<-|Hne].
    - rewrite entries_table_on, decide_True by reflexivity. apply remove_first_last.
      now rewrite (registered_entries e name s em tbl He Ht) in Hnew.
    - rewrite entries_table_on. now rewrite decide_False by exact Hne. }
  exists d, s1, s2. split; [exact E1|]. split.
  { eapply registered_after_on; [exact He|exact Ht|].
    subst s1. simpl. now rewrite ?consumed_hubs. }
  split; [exact E2|]. split.
  { intros name'. rewrite (registered_entries e name' s2 _ tbl2 He2 eq_refl).
    rewrite (registered_entries e name' s em tbl He Ht). apply Hent. }
  split.
  { intros name' args.
    assert (Hu2 : ui_emitter s2 = Some e).
    { subst s2 s1. simpl. now rewrite ?consumed_ui_emitter. }
    destruct (emit_final e name' args s2 _ tbl2 Hu2 He2 eq_refl) as [L2 I2].
    destruct (emit_final e name' args s em tbl Hu He Ht) as [L0 I0].
    rewrite L2, I2, L0, I0, Hent. subst tbl2. rewrite (inherited_off_on _ _ _ _ Hn).
    subst s2 s1. simpl. now rewrite ?consumed_log, ?consumed_immediates. }
  apply (dispose_spent s2 d (mkDisposable true None)); [|reflexivity].
  subst s2. simpl. apply list_lookup_insert_eq.
  subst s1. simpl. rewrite ?consumed_plain, length_app. simpl. lia.
Qed.

Lemma unsubscribe_restores_hub_witness :
  exists d s1 s2,
    subscribe "open-file" 6 subscribed_state = Ok d s1 /\
    registered 0 "open-file" s1
      = registered 0 "open-file" subscribed_state ++ [wrapped subscribed_state 6] /\
    Disposable_dispose d s1 = Ok tt s2 /\
    (forall name', registered 0 name' s2 = registered 0 name' subscribed_state) /\
    (forall name' args,
       log (final (emit name' args s2)) = log (final (emit name' args subscribed_state)) /\
       immediates (final (emit name' args s2))
         = immediates (final (emit name' args subscribed_state))) /\
    Disposable_dispose d s2 = Ok tt s2.
Proof.
  apply (unsubscribe_restores_hub "open-file" 6 subscribed_state 0
           (mkEmitter false 2 (Some (table_on "open-file" (Handler 5) ∅)))
           (table_on "open-file" (Handler 5) ∅) (mkComposite false [0]));
    try (vm_compute; reflexivity).
  vm_compute. intros H. apply list_elem_of_singleton in H. discriminate.
Defined.

(** A handler subscribed through [delay], for an event that is not the
    name of a property of [Object.prototype], that an [emit] has reached is
    called on a later turn even when its subscription is disposed in
    between: the disposal takes the wrapper off the hub, and leaves the
    [setImmediate] queue as it is.  Nothing has called the handler when the
    disposal returns; the scheduler does, when it comes to the task. *)
Theorem queued_call_survives_unsubscribe env name h args s e em tbl c :
  ui_emitter s = Some e -> hubs s !! e = Some em -> e_disposed em = false ->
  e_handlers em = Some tbl -> groups s !! e_subscriptions em = Some c ->
  is_inherited name = false ->
  let v := default VUndefined (head args) in
  let old := registered e name s in
  exists d s1 s2 s3,
    subscribe name h (final (delay s)) = Ok d s1 /\
    emit name args s1 = Ok tt s2 /\
    Disposable_dispose d s2 = Ok tt s3 /\
    immediates s3 = immediates s ++ tasks_of v old ++ [TCall h v] /\
    log s3 = log s ++ [Emitted name v] ++ calls_of v old /\
    (Deferred (closures s) h ∉ old -> registered e name s3 = old) /\
    (immediates s = [] -> tasks_of v old = [] ->
       log (final (turn env s3)) = log s3 ++ [Called h v]).
Proof.
  intros Hu He Hd Ht Hg Hn v old.
  assert (Hel : e < length (hubs s)) by (eapply lookup_lt_Some; eauto).
  assert (Hgl : e_subscriptions em < length (groups s)) by (eapply lookup_lt_Some; eauto).
  assert (Hold : old = entries tbl name) by (apply registered_entries with em; auto).
  set (s0 := final (delay s)).
  pose proof (subscribe_live name h s0 e em tbl c Hu He Hd Ht Hg Hn) as E1.
  change (wrapped s0 h) with (Deferred (closures s) h) in E1.
  set (f := Deferred (closures s) h) in *.
  change (plain s0) with (plain s) in E1. change (hubs s0) with (hubs s) in E1.
  change (groups s0) with (groups s) in E1.
  set (d := length (plain s)) in *.
  match type of E1 with _ = Ok _ ?st => set (s1 := st) in * end.
  set (tbl1 := table_on name f tbl).
  set (em1 := mkEmitter false (e_subscriptions em) (Some tbl1)).
  assert (Hu1 : ui_emitter s1 = Some e) by exact Hu.
  assert (He1 : hubs s1 !! e = Some em1).
  { subst s1. simpl. now apply list_lookup_insert_eq. }
  pose proof (emit_live e name args s1 em1 tbl1 Hu1 He1 eq_refl Hn) as E2.
  cbv zeta in E2. fold v in E2.
  assert (Hl1 : default [] (tbl1 !! name) = old ++ [f]).
  { subst tbl1. rewrite Hold. apply table_on_lookup. }
  rewrite Hl1 in E2.
  match type of E2 with _ = Ok _ ?st => set (s2 := st) in * end.
  assert (Ho2 : plain s2 !! d = Some (mkDisposable false (Some (AOffHub e name f)))).
  { subst s2 s1. simpl. apply lookup_snoc. }
  assert (He2 : hubs s2 !! e = Some em1) by exact He1.
  assert (Hg2 : groups s2 !! e_subscriptions em1 = Some (Composite_add d c)).
  { subst s2 s1. simpl. now apply list_lookup_insert_eq. }
  pose proof (dispose_registration s2 d e name f em1 _ Ho2 He2 Hg2) as E3.
  match type of E3 with _ = Ok _ ?st => set (s3 := st) in * end.
  assert (Hi3 : immediates s3 = immediates s ++ tasks_of v old ++ [TCall h v]).
  { subst s3 s2 s1. simpl. rewrite tasks_of_app. reflexivity. }
  assert (Hl3 : log s3 = log s ++ [Emitted name v] ++ calls_of v old).
  { subst s3 s2 s1. simpl. rewrite calls_of_app. simpl. now rewrite app_nil_r. }
  exists d, s1, s2, s3.
  split; [exact E1|]. split; [exact E2|]. split; [exact E3|].
  split; [exact Hi3|]. split; [exact Hl3|]. split.
  - intros Hnew.
    assert (He3 : hubs s3 !! e = Some (mkEmitter false (e_subscriptions em)
                                         (Some (table_off name f tbl1)))).
    { subst s3. simpl. apply list_lookup_insert_eq.
      subst s2 s1. simpl. now rewrite length_insert. }
    rewrite (registered_entries e name s3 _ _ He3 eq_refl).
    subst tbl1. rewrite entries_table_off, decide_True by reflexivity.
    rewrite entries_table_on, decide_True by reflexivity.
    rewrite <- Hold. now apply remove_first_last.
  - intros Hq Hto. unfold turn, bind, get. rewrite Hi3, Hq, Hto. reflexivity.
Qed.

Lemma queued_call_survives_unsubscribe_witness :
  let s := subscribed_state in
  let v := VOther 9 in
  let old := registered 0 "open-file" s in
  exists d s1 s2 s3,
    subscribe "open-file" 6 (final (delay s)) = Ok d s1 /\
    emit "open-file" [VOther 9] s1 = Ok tt s2 /\
    Disposable_dispose d s2 = Ok tt s3 /\
    immediates s3 = immediates s ++ tasks_of v old ++ [TCall 6 v] /\
    log s3 = log s ++ [Emitted "open-file" v] ++ calls_of v old /\
    (Deferred (closures s) 6 ∉ old -> registered 0 "open-file" s3 = old) /\
    (immediates s = [] -> tasks_of v old = [] ->
       log (final (turn quiet_host s3)) = log s3 ++ [Called 6 v]).
Proof.
  apply (queued_call_survives_unsubscribe quiet_host "open-file" 6 [VOther 9]
           subscribed_state 0
           (mkEmitter false 2 (Some (table_on "open-file" (Handler 5) ∅)))
           (table_on "open-file" (Handler 5) ∅) (mkComposite false [0]));
    vm_compute; reflexivity.
Defined.

(** ** [observeFiles] *)

(** The calls that line 141 makes, in the order of the loop. *)
Definition file_calls (fn : nat) (editors : list TextEditor) : list event :=
  flat_map (fun editor =>
              if truthy (getFileName editor)
              then [Called fn (VOther (ed_ref editor))] else []) editors.

Lemma observeFiles_loop fn editors s :
  forEach (fun editor =>
             if truthy (getFileName editor)
             then emit_log (Called fn (VOther (ed_ref editor)))
             else ret tt) editors s =
  Ok tt (set_log (log s ++ file_calls fn editors) s).
Proof.
  revert s. induction editors as [|ed eds IH]; intros s; simpl.
  - unfold ret. f_equal. apply state_ext; simpl; now rewrite ?app_nil_r.
  - unfold bind. destruct (truthy (getFileName ed)); simpl.
    + unfold emit_log, modify. rewrite IH. f_equal.
      apply state_ext; simpl; try reflexivity. now rewrite <- app_assoc.
    + unfold ret. apply IH.
Qed.

(** [observeFiles] calls the function at once for every open editor whose
    file name is a non-empty string, in the order of the editors, and for
    no other; then it subscribes the function to [open-file].  The flag of
    [delay] bears on the subscription only: when it is set, the calls for
    the open editors are still made before the method returns, none is
    scheduled, and what gets registered is the deferring wrapper. *)
Theorem observeFiles_reports_open_files editors fn s e em tbl c :
  ui_emitter s = Some e -> hubs s !! e = Some em -> e_disposed em = false ->
  e_handlers em = Some tbl -> groups s !! e_subscriptions em = Some c ->
  exists s',
    observeFiles editors fn s = Ok (length (plain s)) s' /\
    log s' = log s ++ file_calls fn editors /\
    immediates s' = immediates s /\
    registered e "open-file" s' = registered e "open-file" s ++ [wrapped s fn] /\
    (forall name, name <> "open-file" -> registered e name s' = registered e name s) /\
    delayNext s' = false.
Proof.
  intros Hu He Hd Ht Hg. unfold observeFiles.
  rewrite (bind_Ok _ _ _ _ _ (observeFiles_loop fn editors s)).
  set (s0 := set_log (log s ++ file_calls fn editors) s).
  unfold onOpenFile.
  rewrite (subscribe_live "open-file" fn s0 e em tbl c Hu He Hd Ht Hg eq_refl).
  eexists. split; [reflexivity|].
  assert (Hel : e < length (hubs s)) by (eapply lookup_lt_Some; eauto).
  split. { simpl. now rewrite ?consumed_log. }
  split. { simpl. now rewrite ?consumed_immediates. }
  split.
  { eapply registered_after_on; [exact He|exact Ht|]. simpl.
    now rewrite ?consumed_hubs. }
  split.
  { intros name Hne. unfold registered. simpl. rewrite ?consumed_hubs. simpl.
    rewrite list_lookup_insert_eq by exact Hel. rewrite He, Ht. simpl.
    now rewrite table_on_lookup_ne by congruence. }
  simpl. apply consumed_delayNext.
Qed.

Definition open_editors : list TextEditor :=
  [mkEditor 10 (Some "a.txt"); mkEditor 11 None; mkEditor 12 (Some "");
   mkEditor 13 (Some "b.txt")].

Lemma observeFiles_reports_open_files_witness :
  let s := final (delay subscribed_state) in
  exists s',
    observeFiles open_editors 6 s = Ok (length (plain s)) s' /\
    log s' = log s ++ [Called 6 (VOther 10); Called 6 (VOther 13)] /\
    immediates s' = immediates s /\
    registered 0 "open-file" s' = registered 0 "open-file" s ++ [Deferred 0 6] /\
    (forall name, name <> "open-file" -> registered 0 name s' = registered 0 name s) /\
    delayNext s' = false.
Proof.
  apply (observeFiles_reports_open_files open_editors 6 (final (delay subscribed_state)) 0
           (mkEmitter false 2 (Some (table_on "open-file" (Handler 5) ∅)))
           (table_on "open-file" (Handler 5) ∅) (mkComposite false [0]));
    vm_compute; reflexivity.
Defined.

(** ** The named wrappers *)

(** The methods of lines 116-125 and of lines 128-136, each in the order
    of the source. *)
Definition subscribers : list (nat -> M nat) :=
  [onMotifChanged; onOpenArchive; onOpenEditor; onOpenFile; onOpenBlank;
   onOpenProject; onProjectsAvailable; onProjectsChanged; onProjectsEmptied;
   onSaveNewFile].
Definition emitters : list (list value -> M unit) :=
  [emitMotifChanged; emitOpenedArchive; emitOpenedEditor; emitOpenedFile;
   emitOpenedBlank; emitOpenedProject; emitProjectsAvailable; emitProjectsChanged;
   emitProjectsEmptied].

Lemma elem_of_calls_of_iff h v v' l :
  Called h v ∈ calls_of v' l <-> v = v' /\ Handler h ∈ l.
Proof.
  unfold calls_of. rewrite list_elem_of_In, in_flat_map. split.
  - intros [f [Hf Hin]]. destruct f as [h'|w h']; simpl in Hin; [|easy].
    destruct Hin as [[= <- <-]|[]]. split; [reflexivity|]. now apply list_elem_of_In.
  - intros [<- Hin]. exists (Handler h). split; [now apply list_elem_of_In|now left].
Qed.

Lemma subscribe_then_emit n n' h args s e em tbl c :
  ui_emitter s = Some e -> hubs s !! e = Some em -> e_disposed em = false ->
  e_handlers em = Some tbl -> groups s !! e_subscriptions em = Some c ->
  delayNext s = false -> (forall m, Handler h ∉ registered e m s) ->
  is_inherited n = false -> is_inherited n' = false ->
  exists d s1 s2 delta,
    subscribe n h s = Ok d s1 /\ emit n' args s1 = Ok tt s2 /\
    log s2 = log s ++ delta /\
    (Called h (default VUndefined (head args)) ∈ delta <-> n = n').
Proof.
  intros Hu He Hd Ht Hg Hdn Hnew Hown Hown'.
  assert (Hel : e < length (hubs s)) by (eapply lookup_lt_Some; eauto).
  pose proof (subscribe_live n h s e em tbl c Hu He Hd Ht Hg Hown) as E1.
  assert (Hw : wrapped s h = Handler h) by (unfold wrapped; now rewrite Hdn).
  assert (Hc : consumed s = s) by (unfold consumed; now rewrite Hdn).
  rewrite Hw, Hc in E1.
  match type of E1 with _ = Ok ?d ?st => set (s1 := st) in *; exists d, s1 end.
  set (tbl1 := table_on n (Handler h) tbl).
  assert (He1 : hubs s1 !! e = Some (mkEmitter false (e_subscriptions em) (Some tbl1))).
  { subst s1. simpl. now apply list_lookup_insert_eq. }
  pose proof (emit_live e n' args s1 _ tbl1 Hu He1 eq_refl Hown') as E2. cbv zeta in E2.
  set (v := default VUndefined (head args)) in *.
  match type of E2 with _ = Ok _ ?st => exists st end.
  exists ([Emitted n' v] ++ calls_of v (default [] (tbl1 !! n'))).
  split; [exact E1|]. split; [exact E2|]. split; [reflexivity|].
  rewrite elem_of_app, list_elem_of_singleton, elem_of_calls_of_iff.
  fold (entries tbl1 n'). subst tbl1. rewrite entries_table_on.
  specialize (Hnew n'). rewrite (registered_entries e n' s em tbl He Ht) in Hnew.
  destruct (decide (n = n')) as [<-|Hne].
  - split; [reflexivity|]. intros _. right. split; [reflexivity|].
    rewrite elem_of_app, list_elem_of_singleton. now right.
  - split; [|contradiction]. intros [[=]|[_ Hin]]. contradiction.
Qed.

(** Each [emitX] reaches the handlers of the [onX] at the same place of
    the list, and of no other: a handler given to the [i]-th method of
    lines 116-125 is called during the [j]-th method of lines 128-136
    exactly when [i = j].  No method of lines 128-136 reaches a handler of
    [onSaveNewFile], which is the tenth. *)
Theorem wrappers_pair_up i j on_ emit_ h args s e em tbl c :
  subscribers !! i = Some on_ -> emitters !! j = Some emit_ ->
  ui_emitter s = Some e -> hubs s !! e = Some em -> e_disposed em = false ->
  e_handlers em = Some tbl -> groups s !! e_subscriptions em = Some c ->
  delayNext s = false -> (forall m, Handler h ∉ registered e m s) ->
  exists d s1 s2 delta,
    on_ h s = Ok d s1 /\ emit_ args s1 = Ok tt s2 /\
    log s2 = log s ++ delta /\
    (Called h (default VUndefined (head args)) ∈ delta <-> i = j).
Proof.
  intros Hi Hj Hu He Hd Ht Hg Hdn Hnew.
  assert (Hn : exists n n',
             on_ = subscribe n /\ emit_ = emit n' /\
             is_inherited n = false /\ is_inherited n' = false /\ (n = n' <-> i = j)).
  { do 10 (destruct i as [|i]; [injection Hi as <-;
      (do 9 (destruct j as [|j]; [injection Hj as <-; eexists _, _;
             split; [reflexivity|]; split; [reflexivity|];
             split; [reflexivity|]; split; [reflexivity|];
             split; intros [=]; reflexivity|])); discriminate|]).
    discriminate. }
  destruct Hn as (n & n' & -> & -> & Hin & Hin' & Hiff).
  destruct (subscribe_then_emit n n' h args s e em tbl c Hu He Hd Ht Hg Hdn Hnew Hin Hin')
    as (d & s1 & s2 & delta & E1 & E2 & Hl & Hc).
  exists d, s1, s2, delta. split; [exact E1|]. split; [exact E2|].
  split; [exact Hl|]. now rewrite Hc.
Qed.

Lemma wrappers_pair_up_witness :
  exists d s1 s2 delta,
    onProjectsChanged 6 subscribed_state = Ok d s1 /\
    emitProjectsChanged [VChange [] ["/a"]] s1 = Ok tt s2 /\
    log s2 = log subscribed_state ++ delta /\
    (Called 6 (VChange [] ["/a"]) ∈ delta <-> 7 = 7).
Proof.
  apply (wrappers_pair_up 7 7 onProjectsChanged emitProjectsChanged 6
           [VChange [] ["/a"]] subscribed_state 0
           (mkEmitter false 2 (Some (table_on "open-file" (Handler 5) ∅)))
           (table_on "open-file" (Handler 5) ∅) (mkComposite false [0])).
  - reflexivity.
  - reflexivity.
  - vm_compute; reflexivity.
  - vm_compute; reflexivity.
  - reflexivity.
  - reflexivity.
  - vm_compute; reflexivity.
  - vm_compute; reflexivity.
  - intros m Hin.
    change (registered 0 m subscribed_state)
      with (entries (table_on "open-file" (Handler 5) ∅) m) in Hin.
    rewrite entries_table_on in Hin. unfold entries in Hin.
    rewrite lookup_empty in Hin. simpl in Hin.
    destruct (decide ("open-file" = m)).
    + apply list_elem_of_singleton in Hin. discriminate.
    + now apply elem_of_nil in Hin.
Defined.

(** ** Where the theme colour is read *)

Lemma find_first {A} (p : A -> bool) pre x post :
  Forall (fun y => p y = false) pre -> p x = true ->
  List.find p (pre ++ x :: post) = Some x.
Proof.
  intros Hpre Hx. induction Hpre as [|y pre Hy _ IH]; simpl.
  - now rewrite Hx.
  - now rewrite Hy.
Qed.

Lemma themeColour_rules_first env rpre r ru rpost s :
  Forall (fun r' => exists ru', rules s !! r' = Some ru' /\
                      selectorText ru' <> Some ".theme-colour-check") rpre ->
  rules s !! r = Some ru -> selectorText ru = Some ".theme-colour-check" ->
  themeColour_rules env (rpre ++ r :: rpost) s =
  match match_rgb env (cssText ru) with
  | None => Ok None s
  | Some m =>
      match match_channels env m with
      | Some l => Ok (Some (map (Number env) l)) s
      | None => Throw TypeError s
      end
  end.
Proof.
  intros Hpre Hr Hs. induction Hpre as [|r' rpre (ru' & Hr' & Hn) _ IH]; simpl.
  - unfold bind, deref. rewrite Hr. rewrite decide_True by exact Hs.
    destruct (match_rgb env (cssText ru)) as [m|]; [|reflexivity].
    now destruct (match_channels env m).
  - unfold bind, deref. rewrite Hr'. rewrite decide_False by exact Hn. exact IH.
Qed.

(** [getThemeColour] reads one rule: the first with the selector
    [.theme-colour-check], in the first style sheet whose node has the path
    of [colours.less].  Whatever comes after that rule and that sheet is not
    looked at.  When the text of the rule holds no [rgb(...)], the result is
    null and [checkMotif] returns without a word, even if a later rule has a
    colour; when it holds one in which no number is found, the [map] of line
    164 is called on null and the [TypeError] leaves [checkMotif]; else the
    result is the numbers found.  The state is as it was. *)
Theorem theme_colour_reads_first_rule env s pkg pre sh post rpre r ru rpost :
  packagePath s = Some pkg ->
  styleSheets s = pre ++ sh :: post ->
  Forall (fun sh' =>
            ownerNode sh' <> Some (Some (path_join env [pkg; "styles"; "colours.less"])))
         pre ->
  ownerNode sh = Some (Some (path_join env [pkg; "styles"; "colours.less"])) ->
  cssRules sh = rpre ++ r :: rpost ->
  Forall (fun r' => exists ru', rules s !! r' = Some ru' /\
                      selectorText ru' <> Some ".theme-colour-check") rpre ->
  rules s !! r = Some ru -> selectorText ru = Some ".theme-colour-check" ->
  getThemeColour env s =
    match match_rgb env (cssText ru) with
    | None => Ok None s
    | Some m =>
        match match_channels env m with
        | Some l => Ok (Some (map (Number env) l)) s
        | None => Throw TypeError s
        end
    end /\
  (match_rgb env (cssText ru) = None -> checkMotif env s = Ok tt s) /\
  (forall m, match_rgb env (cssText ru) = Some m -> match_channels env m = None ->
             checkMotif env s = Throw TypeError s).
Proof.
  intros Hpk Hsh Hpre Hown Hrs Hrpre Hr Hsel.
  assert (Eg : getStyleElement env "colours.less" s = Ok (Some sh) s).
  { unfold getStyleElement, bind, defined, get, ret. rewrite Hpk, Hsh. f_equal. f_equal.
    apply find_first.
    - eapply Forall_impl; [exact Hpre|]. intros sh' Hne. simpl in Hne.
      now apply bool_decide_eq_false.
    - now apply bool_decide_eq_true. }
  assert (Ec : getThemeColour env s = themeColour_rules env (cssRules sh) s).
  { unfold getThemeColour, bind. now rewrite Eg. }
  rewrite Hrs, (themeColour_rules_first env rpre r ru rpost s Hrpre Hr Hsel) in Ec.
  split; [exact Ec|]. split.
  - intros Hn. unfold checkMotif, bind. rewrite Ec, Hn. reflexivity.
  - intros m Hm Hc. unfold checkMotif, bind. rewrite Ec, Hm, Hc. reflexivity.
Qed.

(** A host whose [match] finds a colour only in the text that starts with
    [rgb(], and numbers only in the text [rgb(1, 2, 3)]. *)
Definition picky_host : host :=
  mkHost nat (String.concat "/")
    (fun s => if String.prefix "rgb(" s then Some s else None)
    (fun s => if String.eqb s "rgb(1, 2, 3)" then Some ["1"; "2"; "3"] else None)
    String.length (fun l => [0; 0; hd 0 l]) (fun n => Nat.leb 1 n).

Definition theme_sheets : list StyleSheet :=
  [mkSheet None [3]; mkSheet (Some (Some "/pkg/styles/icons.less")) [3];
   mkSheet (Some (Some "/pkg/styles/colours.less")) [0; 1; 2];
   mkSheet (Some (Some "/pkg/styles/colours.less")) [2]].
Definition theme_rules : list CSSRule :=
  [mkRule None "@charset" "";
   mkRule (Some ".theme-colour-check") "color: inherit" "";
   mkRule (Some ".theme-colour-check") "rgb(1, 2, 3)" "";
   mkRule (Some ".icon") "rgb(1, 2, 3)" ""].

Lemma theme_colour_reads_first_rule_witness :
  let s := loaded theme_sheets theme_rules (Some "/pkg") in
  getThemeColour picky_host s = Ok None s /\
  (match_rgb picky_host "color: inherit" = None -> checkMotif picky_host s = Ok tt s) /\
  (forall m, match_rgb picky_host "color: inherit" = Some m ->
             match_channels picky_host m = None ->
             checkMotif picky_host s = Throw TypeError s).
Proof.
  intros s.
  apply (theme_colour_reads_first_rule picky_host s "/pkg"
           [mkSheet None [3]; mkSheet (Some (Some "/pkg/styles/icons.less")) [3]]
           (mkSheet (Some (Some "/pkg/styles/colours.less")) [0; 1; 2])
           [mkSheet (Some (Some "/pkg/styles/colours.less")) [2]]
           [0] 1 (mkRule (Some ".theme-colour-check") "color: inherit" "") [2]).
  - reflexivity.
  - reflexivity.
  - repeat constructor; discriminate.
  - reflexivity.
  - reflexivity.
  - repeat constructor. eexists. split; [reflexivity|discriminate].
  - reflexivity.
  - reflexivity.
Defined.

(** ** Which rule [fixOffset] clears *)

Lemma keeps_install {X} (f : state -> X) r off :
  (forall x s, f (set_plain x s) = f s) -> (forall x s, f (set_roots x s) = f s) ->
  (forall x s, f (set_ui_restoreOffset x s) = f s) ->
  keeps f (install r off).
Proof.
  intros H1 H2 H3. unfold install, root_add. keeps_auto. intros s. apply H1.
Qed.

(** The rules after lines 195-205, when no capability was held. *)
Lemma patchOffset_rules_fresh r ru s :
  ui_restoreOffset s = None ->
  rules (final (patchOffset r ru s)) =
  <[r := mkRule (selectorText ru) (cssText ru) ""]> (rules s).
Proof.
  intros Hn. rewrite patchOffset_unfold.
  assert (E : release_held (cleared r ru s) = Ok tt (cleared r ru s)).
  { unfold release_held, bind, get. simpl. now rewrite Hn. }
  rewrite (bind_Ok _ _ _ _ _ E).
  now rewrite (keeps_install rules).
Qed.

(** The rules after lines 195-205, when the capability held restores
    another rule. *)
Lemma patchOffset_rules_swap r ru s old r' off' ru' :
  ui_restoreOffset s = Some old ->
  plain s !! old = Some (mkDisposable false (Some (ARestoreTop r' off'))) ->
  rules s !! r' = Some ru' -> r' <> r ->
  rules (final (patchOffset r ru s)) =
  <[r' := mkRule (selectorText ru') (cssText ru') off']>
    (<[r := mkRule (selectorText ru) (cssText ru) ""]> (rules s)).
Proof.
  intros Ho Hp Hr Hne. rewrite patchOffset_unfold.
  set (sc := cleared r ru s).
  assert (Hr' : rules sc !! r' = Some ru').
  { subst sc. unfold cleared. simpl. now rewrite list_lookup_insert_ne by congruence. }
  pose proof (dispose_restorer sc old r' off' ru' Hp Hr') as Ed.
  match type of Ed with _ = Ok _ ?st => set (sd := st) in * end.
  assert (Erel : release_held sc
                 = (d <- defined ui_disposables ;; root_remove d (MPlain old)) sd).
  { unfold release_held. rewrite (bind_Ok get _ sc sc sc eq_refl).
    change (ui_restoreOffset sc) with (ui_restoreOffset s). rewrite Ho.
    unfold bind at 1. now rewrite Ed. }
  assert (Ek : forall k : M unit, keeps rules k ->
            rules (final ((release_held ;;; k) sc)) = rules sd).
  { intros k Hk. unfold bind at 1. rewrite Erel.
    assert (Hrm : keeps rules (d <- defined ui_disposables ;; root_remove d (MPlain old))).
    { unfold root_remove. keeps_auto. }
    specialize (Hrm sd).
    destruct ((d <- defined ui_disposables ;; root_remove d (MPlain old)) sd)
      as [[] s'|err s']; simpl in *; [|exact Hrm].
    now rewrite Hk. }
  rewrite Ek; [reflexivity|]. now apply keeps_install.
Qed.

Lemma scan_rules_congr rs s s' :
  rules s' = rules s -> scan_rules rs s' = scan_rules rs s.
Proof. intros E. induction rs as [|r rs IH]; simpl; [reflexivity|]. now rewrite E, IH. Qed.

Lemma scan_sheets_congr l s s' :
  rules s' = rules s -> scan_sheets l s' = scan_sheets l s.
Proof.
  intros E. induction l as [|sh l IH]; simpl; [reflexivity|].
  now rewrite (scan_rules_congr _ s s' E), IH.
Qed.

(** A rule that does not qualify, written over one the scan did not stop
    at, does not change where the scan stops. *)
Lemma scan_rules_insert rs s s' r1 cl :
  rules s' = <[r1 := cl]> (rules s) -> ~ patchable cl ->
  (forall x, scan_rules rs s <> Some (r1, x)) ->
  scan_rules rs s' = scan_rules rs s.
Proof.
  intros E Hcl. induction rs as [|r rs IH]; intros Hno; simpl in *; [reflexivity|].
  rewrite E. destruct (decide (r = r1)) as [->|Hne].
  - destruct (rules s !! r1) as [x|] eqn:Ex.
    + rewrite list_lookup_insert_eq by (eapply lookup_lt_Some; eauto).
      rewrite decide_False by exact Hcl.
      destruct (decide (patchable x)); [exfalso; now apply (Hno x)|]. now apply IH.
    + rewrite (proj2 (lookup_ge_None _ _)); [reflexivity|].
      rewrite length_insert. now apply lookup_ge_None.
  - rewrite list_lookup_insert_ne by congruence.
    destruct (rules s !! r) as [x|]; [|reflexivity].
    destruct (decide (patchable x)); [reflexivity|]. now apply IH.
Qed.

Lemma scan_sheets_insert l s s' r1 cl :
  rules s' = <[r1 := cl]> (rules s) -> ~ patchable cl ->
  (forall x, scan_sheets l s <> Some (r1, x)) ->
  scan_sheets l s' = scan_sheets l s.
Proof.
  intros E Hcl. induction l as [|sh l IH]; intros Hno; simpl in *; [reflexivity|].
  destruct (scan_rules (cssRules sh) s) as [[r x]|] eqn:Es.
  - rewrite (scan_rules_insert _ s s' r1 cl E Hcl), Es; [reflexivity|].
    intros y Hy. rewrite Es in Hy. injection Hy as -> ->. now apply (Hno y).
  - rewrite (scan_rules_insert _ s s' r1 cl E Hcl), Es; [now apply IH|].
    intros y Hy. now rewrite Es in Hy.
Qed.

(** One [fixOffset] from a state in order that finds a rule to patch. *)
Lemma fixOffset_step root s r ru :
  ready root s -> to_patch s = Some (r, ru) ->
  exists s',
    fixOffset s = Ok tt s' /\ ready root s' /\
    ui_restoreOffset s' = Some (length (plain s)) /\
    plain s' !! length (plain s)
      = Some (mkDisposable false (Some (ARestoreTop r (style_top ru)))) /\
    rules s' = rules (final (patchOffset r ru s)) /\
    styleSheets s' = styleSheets s /\
    rules s !! r = Some ru /\ patchable ru.
Proof.
  intros Hrdy Hp. destruct (scan_sheets_Some _ _ _ _ Hp) as [Hru Hpa].
  destruct (patchOffset_ready root s r ru Hrdy Hru)
    as (s1 & E1 & Hh1 & Hn1 & _ & _ & Hrdy1).
  assert (F : fixOffset s = Ok tt s1).
  { rewrite fixOffset_scan by apply Hrdy. rewrite Hp. unfold bind. now rewrite E1. }
  exists s1. split; [exact F|]. split; [exact Hrdy1|]. split; [exact Hh1|].
  split; [exact Hn1|]. split; [now rewrite E1|]. split; [|auto].
  pose proof (fr_fixOffset styleSheets) as Hk. unfold keeps in Hk.
  specialize (Hk ltac:(easy) ltac:(easy) ltac:(easy) ltac:(easy) ltac:(easy)
                 ltac:(easy) ltac:(easy) s).
  now rewrite F in Hk.
Qed.

Lemma rule_eta ru : mkRule (selectorText ru) (cssText ru) (style_top ru) = ru.
Proof. now destruct ru. Qed.

(** With two rules that qualify, [fixOffset] takes them in turns.  The
    first call clears the first; the second call finds it cleared, clears
    the next that qualifies, and, disposing the capability of the first
    call, gives the first rule its offset back; the third call is back at
    the first rule and restores the second.  So the calls never leave both
    rules cleared, and which one is cleared depends on how many calls there
    were. *)
Theorem fixOffset_takes_turns root s r0 ru0 r1 ru1 :
  ready root s -> ui_restoreOffset s = None ->
  to_patch s = Some (r0, ru0) -> to_patch (cleared r0 ru0 s) = Some (r1, ru1) ->
  exists s1 s2 s3,
    fixOffset s = Ok tt s1 /\ fixOffset s1 = Ok tt s2 /\ fixOffset s2 = Ok tt s3 /\
    r1 <> r0 /\
    rules s1 = <[r0 := mkRule (selectorText ru0) (cssText ru0) ""]> (rules s) /\
    rules s2 = <[r1 := mkRule (selectorText ru1) (cssText ru1) ""]> (rules s) /\
    rules s3 = rules s1.
Proof.
  intros Hrdy Hn Hp0 Hp1.
  set (cl0 := mkRule (selectorText ru0) (cssText ru0) "").
  set (cl1 := mkRule (selectorText ru1) (cssText ru1) "").
  destruct (fixOffset_step root s r0 ru0 Hrdy Hp0)
    as (s1 & F1 & Hrdy1 & Hh1 & Hpl1 & Hr1 & Hs1 & Hru0 & Hpa0).
  rewrite (patchOffset_rules_fresh r0 ru0 s Hn) in Hr1. fold cl0 in Hr1.
  assert (Hl0 : r0 < length (rules s)) by (eapply lookup_lt_Some; eauto).
  destruct (scan_sheets_Some _ _ _ _ Hp1) as [Hru1c Hpa1].
  assert (Hne : r1 <> r0).
  { intros ->. unfold cleared in Hru1c. simpl in Hru1c.
    rewrite list_lookup_insert_eq in Hru1c by exact Hl0.
    injection Hru1c as <-. now destruct Hpa1 as [_ Ht]. }
  assert (Hru1 : rules s !! r1 = Some ru1).
  { unfold cleared in Hru1c. simpl in Hru1c.
    now rewrite list_lookup_insert_ne in Hru1c by congruence. }
  assert (Hl1 : r1 < length (rules s)) by (eapply lookup_lt_Some; eauto).
  assert (Hp1' : to_patch s1 = Some (r1, ru1)).
  { unfold to_patch in *. rewrite Hs1.
    now rewrite (scan_sheets_congr _ (cleared r0 ru0 s) s1 Hr1). }
  destruct (fixOffset_step root s1 r1 ru1 Hrdy1 Hp1')
    as (s2 & F2 & Hrdy2 & Hh2 & Hpl2 & Hr2 & Hs2 & _ & _).
  rewrite (patchOffset_rules_swap r1 ru1 s1 _ r0 (style_top ru0) cl0 Hh1 Hpl1) in Hr2;
    [| rewrite Hr1; now apply list_lookup_insert_eq | congruence].
  assert (Hr2' : rules s2 = <[r1 := cl1]> (rules s)).
  { rewrite Hr2, Hr1. fold cl1. subst cl0. simpl. rewrite rule_eta.
    rewrite (list_insert_insert_ne _ r0 r1) by congruence.
    rewrite list_insert_insert_eq. now rewrite (list_insert_id _ _ _ Hru0). }
  assert (Hp2 : to_patch s2 = Some (r0, ru0)).
  { unfold to_patch in *. rewrite Hs2, Hs1.
    rewrite (scan_sheets_insert _ s s2 r1 cl1 Hr2'); [exact Hp0| |].
    - intros [_ Ht]. now apply Ht.
    - intros x Hx. rewrite Hp0 in Hx. injection Hx as -> _. now apply Hne. }
  destruct (fixOffset_step root s2 r0 ru0 Hrdy2 Hp2)
    as (s3 & F3 & _ & _ & _ & Hr3 & _ & _ & _).
  rewrite (patchOffset_rules_swap r0 ru0 s2 _ r1 (style_top ru1) cl1 Hh2 Hpl2) in Hr3;
    [| rewrite Hr2'; now apply list_lookup_insert_eq | exact Hne].
  exists s1, s2, s3. split; [exact F1|]. split; [exact F2|]. split; [exact F3|].
  split; [exact Hne|]. split; [exact Hr1|]. split; [exact Hr2'|].
  rewrite Hr3, Hr2', Hr1. fold cl0. subst cl1. simpl. rewrite rule_eta.
  rewrite (list_insert_insert_ne (rules s) r0 r1) by congruence.
  rewrite list_insert_insert_eq.
  rewrite (list_insert_insert_ne _ r1 r0) by exact Hne.
  now rewrite (list_insert_id _ _ _ Hru1).
Qed.

Definition two_offset_sheets : list StyleSheet := [mkSheet None [0; 1]; mkSheet None [2]].
Definition two_offset_rules : list CSSRule :=
  [mkRule (Some ".icon") "" "9px";
   mkRule (Some offsetSelector) "" "5px";
   mkRule (Some offsetSelector) "" "7px"].

Lemma fixOffset_takes_turns_witness :
  let s := loaded two_offset_sheets two_offset_rules None in
  exists s1 s2 s3,
    fixOffset s = Ok tt s1 /\ fixOffset s1 = Ok tt s2 /\ fixOffset s2 = Ok tt s3 /\
    2 <> 1 /\
    rules s1 = [mkRule (Some ".icon") "" "9px"; mkRule (Some offsetSelector) "" "";
                mkRule (Some offsetSelector) "" "7px"] /\
    rules s2 = [mkRule (Some ".icon") "" "9px"; mkRule (Some offsetSelector) "" "5px";
                mkRule (Some offsetSelector) "" ""] /\
    rules s3 = rules s1.
Proof.
  intros s.
  assert (Hrdy : ready 0 s).
  { split; [vm_compute; reflexivity|]. split.
    { exists (mkComposite false []). split; vm_compute; reflexivity. }
    split.
    { unfold rules_valid. change (styleSheets s) with two_offset_sheets.
      change (rules s) with two_offset_rules. repeat constructor. }
    split.
    { intros old Hold. vm_compute in Hold. discriminate. }
    intros d (r & off & Hl). change (plain s) with (@nil Disposable) in Hl.
    now rewrite lookup_nil in Hl. }
  apply (fixOffset_takes_turns 0 s 1 (mkRule (Some offsetSelector) "" "5px")
           2 (mkRule (Some offsetSelector) "" "7px") Hrdy);
    vm_compute; reflexivity.
Defined.

(** ** [reset] and the style patch *)

(** Lines 195-205 when no capability was held. *)
Lemma patchOffset_fresh root rc r ru s :
  ui_disposables s = Some root -> roots s !! root = Some rc ->
  ui_restoreOffset s = None ->
  patchOffset r ru s =
  Ok tt (set_roots (<[root := Composite_add (MPlain (length (plain s))) rc]> (roots s))
           (set_ui_restoreOffset (Some (length (plain s)))
              (set_plain
                 (plain s ++ [mkDisposable false (Some (ARestoreTop r (style_top ru)))])
                 (cleared r ru s)))).
Proof.
  intros Hu Hr Hn. rewrite patchOffset_unfold.
  assert (E : release_held (cleared r ru s) = Ok tt (cleared r ru s)).
  { unfold release_held, bind, get. simpl. now rewrite Hn. }
  rewrite (bind_Ok _ _ _ _ _ E).
  now rewrite (install_ready root r (style_top ru) (cleared r ru s) rc Hu Hr).
Qed.

(** The rules after lines 195-205, when the capability held has been
    disposed already. *)
Lemma patchOffset_rules_spent r ru s old o :
  ui_restoreOffset s = Some old -> plain s !! old = Some o -> d_disposed o = true ->
  rules (final (patchOffset r ru s)) =
  <[r := mkRule (selectorText ru) (cssText ru) ""]> (rules s).
Proof.
  intros Ho Hp Hd. rewrite patchOffset_unfold.
  set (sc := cleared r ru s).
  assert (Erel : release_held sc
                 = (d <- defined ui_disposables ;; root_remove d (MPlain old)) sc).
  { unfold release_held. rewrite (bind_Ok get _ sc sc sc eq_refl).
    change (ui_restoreOffset sc) with (ui_restoreOffset s). rewrite Ho.
    unfold bind at 1. now rewrite (dispose_spent sc old o Hp Hd). }
  unfold bind at 1. rewrite Erel.
  assert (Hrm : keeps rules (d <- defined ui_disposables ;; root_remove d (MPlain old))).
  { unfold root_remove. keeps_auto. }
  specialize (Hrm sc).
  destruct ((d <- defined ui_disposables ;; root_remove d (MPlain old)) sc)
    as [[] s'|err s']; simpl in *; [|exact Hrm].
  now rewrite (keeps_install rules).
Qed.

(** [fixOffset], then [reset], then [fixOffset] again, on an object in
    order on which [init] has not been called: [this.disposables] holds
    nothing yet, no patch has been made, and the hub holds only
    registrations made through [on].  The first call clears the rule.
    [reset] disposes the capability, the one member of [this.disposables],
    so that every rule is as it was before the patch, and it leaves
    [this.restoreOffset] holding the disposed capability.  The next
    [fixOffset] is not troubled by that: it clears the rule again and puts
    a new capability, for the same offset, in the new composite. *)
Theorem reset_restores_offset root s r0 ru0 :
  ready root s -> roots s !! root = Some (mkComposite false []) ->
  ui_restoreOffset s = None -> hub_tidy s -> to_patch s = Some (r0, ru0) ->
  exists s1 s2 s3,
    fixOffset s = Ok tt s1 /\
    rules s1 = <[r0 := mkRule (selectorText ru0) (cssText ru0) ""]> (rules s) /\
    reset s1 = Ok tt s2 /\ rules s2 = rules s /\
    ui_restoreOffset s2 = Some (length (plain s)) /\
    plain s2 !! length (plain s) = Some (mkDisposable true None) /\
    fixOffset s2 = Ok tt s3 /\
    rules s3 = <[r0 := mkRule (selectorText ru0) (cssText ru0) ""]> (rules s) /\
    exists d root' c,
      ui_restoreOffset s3 = Some d /\
      plain s3 !! d = Some (mkDisposable false (Some (ARestoreTop r0 (style_top ru0)))) /\
      ui_disposables s3 = Some root' /\ root' <> root /\
      roots s3 !! root' = Some c /\ MPlain d ∈ c_members c.
Proof.
  intros Hrdy Hr Hn (e & emh & ch & Hue & Hh & Hhg & Hhm & _) Hp.
  pose proof Hrdy as (Hu & _ & Hv & _ & Hone).
  destruct (scan_sheets_Some _ _ _ _ Hp) as [Hru0 Hpa0].
  assert (Hl0 : r0 < length (rules s)) by (eapply lookup_lt_Some; eauto).
  assert (Hrl : root < length (roots s)) by (eapply lookup_lt_Some; eauto).
  set (n := length (plain s)).
  set (cl0 := mkRule (selectorText ru0) (cssText ru0) "").
  (* the first call *)
  pose proof (patchOffset_fresh root _ r0 ru0 s Hu Hr Hn) as E1.
  rewrite Composite_add_new in E1 by apply not_elem_of_nil. simpl app in E1. fold n in E1.
  match type of E1 with _ = Ok _ ?st => set (s1 := st) in * end.
  assert (F1 : fixOffset s = Ok tt s1).
  { rewrite fixOffset_scan by exact Hv. rewrite Hp. unfold bind. now rewrite E1. }
  assert (Hone1 : one_patch s1).
  { pose proof (one_fixOffset s Hone) as H1. now rewrite F1 in H1. }
  (* line 32 *)
  set (sA := set_roots (<[root := mkComposite true [MPlain n]]> (roots s1)) s1).
  assert (EA : Disposable_dispose n sA = Ok tt
            (set_plain (<[n := mkDisposable true None]> (plain sA))
               (set_rules (<[r0 := mkRule (selectorText cl0) (cssText cl0) (style_top ru0)]>
                             (rules sA)) sA))).
  { apply dispose_restorer.
    - subst sA s1. simpl. apply lookup_snoc.
    - subst sA s1. unfold cleared. simpl. now apply list_lookup_insert_eq. }
  match type of EA with _ = Ok _ ?st => set (sB := st) in * end.
  set (sD := set_roots (<[root := mkComposite true []]> (roots sB)) sB).
  assert (ER : root_dispose root s1 = Ok tt sD).
  { rewrite (root_dispose_members root [MPlain n] s1).
    - fold sA. unfold bind. simpl forEach. unfold bind. simpl member_dispose.
      rewrite EA. reflexivity.
    - subst s1. simpl. now apply list_lookup_insert_eq. }
  assert (HrD : rules sD = rules s).
  { subst sD sB sA s1. unfold cleared. simpl. rewrite list_insert_insert_eq.
    subst cl0. simpl. rewrite rule_eta. now apply list_insert_id. }
  (* line 33 *)
  assert (Hh' : exists s', hub_dispose e sD = Ok tt s' /\ untouched sD s').
  { apply (hub_dispose_tidy e emh ch); [exact Hh|exact Hhg|].
    rewrite Forall_forall in *. intros d Hin.
    destruct (Hhm d Hin) as (o & Ho & Hd). exists o. split; [|exact Hd].
    assert (d < n) by (eapply lookup_lt_Some; eauto).
    subst sD sB sA s1. simpl. fold n.
    rewrite list_lookup_insert_ne by lia. now apply lookup_app_l_Some. }
  destruct Hh' as (s' & EH & _ & Hrs' & Hro' & Hlen' & Hsp').
  assert (ET : teardown s1 = Ok tt s').
  { unfold teardown. rewrite (bind_Ok get _ s1 s1 s1 eq_refl).
    change (ui_disposables s1) with (ui_disposables s). rewrite Hu.
    rewrite (bind_Ok _ _ _ _ _ ER).
    change (ui_emitter s1) with (ui_emitter s). rewrite Hue. exact EH. }
  assert (Hkp : forall X (f : state -> X),
            (forall x s, f (set_plain x s) = f s) -> (forall x s, f (set_groups x s) = f s) ->
            (forall x s, f (set_roots x s) = f s) -> (forall x s, f (set_hubs x s) = f s) ->
            (forall x s, f (set_streams x s) = f s) -> (forall x s, f (set_rules x s) = f s) ->
            f s' = f s1).
  { intros X f H1 H2 H3 H4 H5 H6.
    pose proof (keeps_teardown f H1 H2 H3 H4 H5 H6 s1) as Hk. now rewrite ET in Hk. }
  set (s2 := installed s').
  assert (R : reset s1 = Ok tt s2).
  { rewrite reset_unfold, ET. reflexivity. }
  assert (Hr2 : rules s2 = rules s) by (subst s2; simpl; congruence).
  assert (Hh2 : ui_restoreOffset s2 = Some n).
  { change (ui_restoreOffset s2) with (ui_restoreOffset s').
    now rewrite (Hkp _ ui_restoreOffset) by reflexivity. }
  assert (Hpl2 : plain s2 !! n = Some (mkDisposable true None)).
  { change (plain s2) with (plain s'). apply Hsp'.
    subst sD sB. simpl. apply list_lookup_insert_eq.
    subst sA s1. simpl. rewrite length_app. simpl. fold n. lia. }
  (* the second call *)
  set (root2 := length (roots s')).
  assert (Hrdy2 : ready root2 s2).
  { split; [reflexivity|]. split.
    { exists (mkComposite false []). split; [|reflexivity].
      subst s2. simpl. apply lookup_snoc. }
    split.
    { unfold rules_valid. rewrite Hr2.
      change (styleSheets s2) with (styleSheets s').
      rewrite (Hkp _ styleSheets) by reflexivity. exact Hv. }
    split.
    { intros old Hold. rewrite Hh2 in Hold. injection Hold as <-.
      exists (mkDisposable true None). split; [exact Hpl2|now left]. }
    pose proof (one_reset s1 Hone1) as H2. now rewrite R in H2. }
  assert (Hp2 : to_patch s2 = Some (r0, ru0)).
  { unfold to_patch in *. change (styleSheets s2) with (styleSheets s').
    rewrite (Hkp _ styleSheets) by reflexivity.
    change (styleSheets s1) with (styleSheets s).
    now rewrite (scan_sheets_congr _ s s2 Hr2). }
  assert (Hru2 : rules s2 !! r0 = Some ru0) by now rewrite Hr2.
  destruct (patchOffset_ready root2 s2 r0 ru0 Hrdy2 Hru2)
    as (s3 & E3 & Hh3 & Hn3 & _ & (c3 & Hc3 & Hin3) & Hrdy3).
  assert (F3 : fixOffset s2 = Ok tt s3).
  { rewrite fixOffset_scan by apply Hrdy2. rewrite Hp2. unfold bind. now rewrite E3. }
  assert (Hr3 : rules s3 = <[r0 := cl0]> (rules s)).
  { pose proof (patchOffset_rules_spent r0 ru0 s2 n _ Hh2 Hpl2 eq_refl) as H3.
    rewrite E3 in H3. unfold final in H3. now rewrite H3, Hr2. }
  exists s1, s2, s3. split; [exact F1|]. split; [reflexivity|]. split; [exact R|].
  split; [exact Hr2|]. split; [exact Hh2|]. split; [exact Hpl2|].
  split; [exact F3|]. split; [exact Hr3|].
  exists (length (plain s2)), root2, c3.
  split; [exact Hh3|]. split; [exact Hn3|]. split; [apply Hrdy3|].
  split; [|split; [exact Hc3|exact Hin3]].
  subst root2. rewrite Hro'. subst sD sB sA s1. simpl. rewrite !length_insert. lia.
Qed.

Definition patched_state : state :=
  final (subscribe "open-file" 5 (loaded patch_sheets patch_rules None)).

Lemma reset_restores_offset_witness :
  let s := patched_state in
  exists s1 s2 s3,
    fixOffset s = Ok tt s1 /\
    rules s1 = [mkRule (Some offsetSelector) "" ""] /\
    reset s1 = Ok tt s2 /\ rules s2 = rules s /\
    ui_restoreOffset s2 = Some (length (plain s)) /\
    plain s2 !! length (plain s) = Some (mkDisposable true None) /\
    fixOffset s2 = Ok tt s3 /\
    rules s3 = [mkRule (Some offsetSelector) "" ""] /\
    exists d root' c,
      ui_restoreOffset s3 = Some d /\
      plain s3 !! d = Some (mkDisposable false (Some (ARestoreTop 0 "5px"))) /\
      ui_disposables s3 = Some root' /\ root' <> 0 /\
      roots s3 !! root' = Some c /\ MPlain d ∈ c_members c.
Proof.
  intros s.
  assert (Hrdy : ready 0 s).
  { split; [vm_compute; reflexivity|]. split.
    { exists (mkComposite false []). split; vm_compute; reflexivity. }
    split.
    { unfold rules_valid. change (styleSheets s) with patch_sheets.
      change (rules s) with patch_rules. repeat constructor. }
    split.
    { intros old Hold. vm_compute in Hold. discriminate. }
    intros d (r & off & Hl).
    change (plain s)
      with [mkDisposable false (Some (AOffHub 0 "open-file" (Handler 5)))] in Hl.
    apply list_lookup_singleton_Some in Hl as [_ [=]]. }
  apply (reset_restores_offset 0 s 0 (mkRule (Some offsetSelector) "" "5px") Hrdy).
  - vm_compute; reflexivity.
  - vm_compute; reflexivity.
  - exists 0, (mkEmitter false 2 (Some (table_on "open-file" (Handler 5) ∅))),
      (mkComposite false [0]).
    split; [vm_compute; reflexivity|]. split; [vm_compute; reflexivity|].
    split; [vm_compute; reflexivity|]. split.
    + constructor; [|constructor].
      exists (mkDisposable false (Some (AOffHub 0 "open-file" (Handler 5)))).
      split; [vm_compute; reflexivity|]. right. now exists "open-file", (Handler 5).
    + intros e' em' H. destruct e' as [|[|e']]; vm_compute in H.
      * injection H as <-. vm_compute. discriminate.
      * injection H as <-. vm_compute. discriminate.
      * discriminate.
  - vm_compute; reflexivity.
Defined.

(** ** What is never done to the style sheets *)

(** Rule [ru'] has the selector of rule [ru], and is [ru] unless this is
    the selector of the offset patch. *)
Definition same_but_offset (ru ru' : CSSRule) : Prop :=
  selectorText ru' = selectorText ru /\
  (selectorText ru = Some offsetSelector \/ ru' = ru).

Lemma same_but_offset_refl ru : same_but_offset ru ru.
Proof. repeat split. now right. Qed.

Section StyleFrame.
Variable sheets0 : list StyleSheet.
Variable rs0 : list CSSRule.

(** The sheets are those of the start, the rules too but for the offsets
    of rules with the selector of the patch, and every restoring capability
    is for such a rule. *)
Definition styles_kept (s : state) : Prop :=
  styleSheets s = sheets0 /\
  Forall2 same_but_offset rs0 (rules s) /\
  forall d o r off,
    plain s !! d = Some o -> d_action o = Some (ARestoreTop r off) ->
    exists ru, rs0 !! r = Some ru /\ selectorText ru = Some offsetSelector.

Lemma kept_congr s s' :
  styleSheets s' = styleSheets s -> rules s' = rules s -> plain s' = plain s ->
  styles_kept s -> styles_kept s'.
Proof. intros H1 H2 H3 Hs. unfold styles_kept. now rewrite H1, H2, H3. Qed.

Lemma kept_plain_insert s d o x :
  plain s !! d = Some o ->
  (forall r off, d_action x = Some (ARestoreTop r off) -> d_action o = Some (ARestoreTop r off)) ->
  styles_kept s -> styles_kept (set_plain (<[d := x]> (plain s)) s).
Proof.
  intros Ho Hx (H1 & H2 & H3). split; [exact H1|]. split; [exact H2|].
  intros d' o' r off Hl Ha. simpl in Hl.
  apply list_lookup_insert_Some in Hl as [(-> & <- & _)|(_ & Hl)].
  - eapply H3; eauto.
  - eapply H3; eauto.
Qed.

Lemma kept_plain_spent s d :
  styles_kept s -> styles_kept (set_plain (<[d := mkDisposable true None]> (plain s)) s).
Proof.
  intros (H1 & H2 & H3). split; [exact H1|]. split; [exact H2|].
  intros d' o' r off Hl Ha. simpl in Hl.
  apply list_lookup_insert_Some in Hl as [(-> & <- & _)|(_ & Hl)]; [discriminate|].
  eapply H3; eauto.
Qed.

Lemma kept_plain_snoc s a :
  (forall r off, a = ARestoreTop r off ->
     exists ru, rs0 !! r = Some ru /\ selectorText ru = Some offsetSelector) ->
  styles_kept s ->
  styles_kept (set_plain (plain s ++ [mkDisposable false (Some a)]) s).
Proof.
  intros Ha (H1 & H2 & H3). split; [exact H1|]. split; [exact H2|].
  intros d o r off Hl Hact. simpl in Hl.
  apply lookup_app_Some in Hl as [Hl|[_ Hl]].
  - eapply H3; eauto.
  - apply list_lookup_singleton_Some in Hl as [_ <-]. simpl in Hact.
    injection Hact as ->. now apply (Ha r off).
Qed.

(** Writing the [top] of a rule that has the selector of the patch. *)
Lemma kept_rules_top s r ru ru0 top :
  rules s !! r = Some ru -> rs0 !! r = Some ru0 ->
  selectorText ru0 = Some offsetSelector ->
  styles_kept s ->
  styles_kept (set_rules (<[r := mkRule (selectorText ru) (cssText ru) top]> (rules s)) s).
Proof.
  intros Hr Hr0 Hsel (H1 & H2 & H3). split; [exact H1|]. split; [|exact H3].
  simpl. rewrite <- (list_insert_id rs0 r ru0 Hr0). apply Forall2_insert; [exact H2|].
  pose proof (Forall2_lookup_lr _ _ _ _ _ _ H2 Hr0 Hr) as (Ha & _).
  repeat split; simpl; auto.
Qed.

Create HintDb kept.

Ltac kept_step :=
  first
    [ pres_step
    | match goal with
      | |- pres _ (modify _) =>
          apply pres_modify; intros ? HI;
          first [ exact HI
                | apply kept_plain_spent; exact HI
                | eapply kept_congr; [..|exact HI]; reflexivity ]
      end
    | solve [auto with kept] ].
Ltac kept_auto := repeat kept_step.

Lemma kept_new_plain a :
  (forall r off, a <> ARestoreTop r off) -> pres styles_kept (new_plain a).
Proof.
  intros Ha s Hs. simpl. apply kept_plain_snoc; [|exact Hs].
  intros r off ->. exfalso. now apply (Ha r off).
Qed.
Lemma kept_new_group ms : pres styles_kept (new_group ms).
Proof. intros s Hs; exact Hs. Qed.
Lemma kept_new_root : pres styles_kept new_root.
Proof. intros s Hs; exact Hs. Qed.
Lemma kept_new_promise : pres styles_kept new_promise.
Proof. intros s Hs; exact Hs. Qed.
Hint Resolve kept_new_group kept_new_root kept_new_promise : kept.

Lemma kept_group_add g x : pres styles_kept (group_add g x).
Proof. unfold group_add. kept_auto. Qed.
Lemma kept_group_remove g x : pres styles_kept (group_remove g x).
Proof. unfold group_remove. kept_auto. Qed.
Lemma kept_root_add r x : pres styles_kept (root_add r x).
Proof. unfold root_add. kept_auto. Qed.
Lemma kept_root_remove r x : pres styles_kept (root_remove r x).
Proof. unfold root_remove. kept_auto. Qed.
Lemma kept_hub_off e n f : pres styles_kept (hub_off e n f).
Proof. unfold hub_off. kept_auto. Qed.
Lemma kept_stream_off e n f : pres styles_kept (stream_off e n f).
Proof. unfold stream_off. kept_auto. Qed.
Lemma kept_setImmediate t : pres styles_kept (setImmediate t).
Proof. unfold setImmediate. kept_auto. Qed.
Lemma kept_emit_log ev : pres styles_kept (emit_log ev).
Proof. unfold emit_log. kept_auto. Qed.
Hint Resolve kept_group_add kept_group_remove kept_root_add kept_root_remove
  kept_hub_off kept_stream_off kept_setImmediate kept_emit_log : kept.

(** The function of a Disposable of the store runs. *)
Lemma kept_run_action d a s :
  (forall r off, a = ARestoreTop r off ->
     exists ru, rs0 !! r = Some ru /\ selectorText ru = Some offsetSelector) ->
  styles_kept s -> styles_kept (final (run_action d a s)).
Proof.
  intros Ha Hs. destruct a as [|e n f|e n f|cd|r off].
  - exact Hs.
  - revert s Hs. change (pres styles_kept (run_action d (AOffHub e n f))).
    unfold run_action. kept_auto.
  - revert s Hs. change (pres styles_kept (run_action d (AOffStream e n f))).
    unfold run_action. kept_auto.
  - revert s Hs. change (pres styles_kept (run_action d (ADetach cd))).
    unfold run_action. kept_auto.
  - destruct (Ha r off eq_refl) as (ru0 & Hr0 & Hsel).
    unfold run_action, bind, deref.
    destruct (rules s !! r) as [ru|] eqn:Er; [|exact Hs].
    simpl. now apply (kept_rules_top s r ru ru0).
Qed.

Lemma kept_Disposable_dispose d : pres styles_kept (Disposable_dispose d).
Proof.
  intros s Hs. unfold Disposable_dispose, bind, deref.
  destruct (plain s !! d) as [o|] eqn:Eo; [|exact Hs].
  destruct (d_disposed o); [exact Hs|].
  unfold modify at 1.
  set (s1 := set_plain (<[d := mkDisposable true (d_action o)]> (plain s)) s).
  assert (Hs1 : styles_kept s1).
  { apply (kept_plain_insert s d o); auto. }
  destruct (d_action o) as [a|] eqn:Ea.
  - assert (Hs2 : styles_kept (final (run_action d a s1))).
    { apply kept_run_action; [|exact Hs1].
      intros r off ->. destruct Hs as (_ & _ & H3). eapply H3; eauto. }
    destruct (run_action d a s1) as [[] s2|err s2]; simpl in *; [|exact Hs2].
    now apply kept_plain_spent.
  - simpl. now apply kept_plain_spent.
Qed.
Hint Resolve kept_Disposable_dispose : kept.

Lemma kept_group_dispose g : pres styles_kept (group_dispose g).
Proof. unfold group_dispose. kept_auto. Qed.
Hint Resolve kept_group_dispose : kept.
Lemma kept_member_dispose x : pres styles_kept (member_dispose x).
Proof. unfold member_dispose. kept_auto. Qed.
Hint Resolve kept_member_dispose : kept.
Lemma kept_root_dispose r : pres styles_kept (root_dispose r).
Proof. unfold root_dispose. kept_auto. Qed.
Hint Resolve kept_root_dispose : kept.

Lemma kept_hub_new : pres styles_kept hub_new.
Proof. intros s Hs; exact Hs. Qed.
Lemma kept_stream_new : pres styles_kept stream_new.
Proof. intros s Hs; exact Hs. Qed.
Lemma kept_hub_on e n f : pres styles_kept (hub_on e n f).
Proof.
  unfold hub_on, Emitter_on. kept_auto. apply kept_new_plain. discriminate.
Qed.
Lemma kept_stream_on e n f : pres styles_kept (stream_on e n f).
Proof.
  unfold stream_on, Emitter_on. kept_auto. apply kept_new_plain. discriminate.
Qed.
Lemma kept_hub_dispose e : pres styles_kept (hub_dispose e).
Proof. unfold hub_dispose, Emitter_dispose. kept_auto. Qed.
Hint Resolve kept_hub_new kept_stream_new kept_hub_on kept_stream_on kept_hub_dispose : kept.

Lemma kept_call_hfn f v : pres styles_kept (call_hfn f v).
Proof. unfold call_hfn. kept_auto. Qed.
Hint Resolve kept_call_hfn : kept.
Lemma kept_emit n args : pres styles_kept (emit n args).
Proof. unfold emit, hub_emit, Emitter_emit. kept_auto. Qed.
Hint Resolve kept_emit : kept.

Lemma kept_subscribe n h : pres styles_kept (subscribe n h).
Proof.
  unfold subscribe. kept_auto. apply kept_new_plain. discriminate.
Qed.
Lemma kept_reset : pres styles_kept reset.
Proof. unfold reset. kept_auto. Qed.
Lemma kept_setProjects to : pres styles_kept (setProjects to).
Proof.
  unfold setProjects, emitProjectsAvailable, emitProjectsEmptied,
    emitProjectsChanged. kept_auto.
Qed.
Hint Resolve kept_subscribe kept_reset kept_setProjects : kept.

(** Lines 195-205 for a rule that the loops stopped at. *)
Lemma kept_patchOffset r ru s :
  rules s !! r = Some ru -> patchable ru ->
  styles_kept s -> styles_kept (final (patchOffset r ru s)).
Proof.
  intros Hr [Hsel _] Hs.
  assert (H0 : exists ru0, rs0 !! r = Some ru0 /\ selectorText ru0 = Some offsetSelector).
  { destruct Hs as (_ & H2 & _).
    destruct (Forall2_lookup_r _ _ _ _ _ H2 Hr) as (ru0 & Hr0 & Ha & _).
    exists ru0. split; [exact Hr0|]. congruence. }
  destruct H0 as (ru0 & Hr0 & Hsel0).
  assert (Hc : styles_kept (cleared r ru s)) by now apply (kept_rules_top s r ru ru0).
  rewrite patchOffset_unfold. revert Hc. generalize (cleared r ru s). clear s Hr Hs.
  change (pres styles_kept (release_held ;;; install r (style_top ru))).
  unfold release_held, install. kept_auto.
  intros s Hs. simpl. apply kept_plain_snoc; [|exact Hs].
  intros r' off' [= <- <-]. eauto.
Qed.

Lemma kept_fixOffset_rules rs : pres styles_kept (fixOffset_rules rs).
Proof.
  induction rs as [|r rs IH]; simpl; [apply pres_ret|].
  intros s Hs. unfold bind, deref.
  destruct (rules s !! r) as [ru|] eqn:Er; [|exact Hs].
  destruct (decide (selectorText ru = Some offsetSelector /\ style_top ru <> ""))
    as [Hp|_]; [|now apply IH].
  pose proof (kept_patchOffset r ru s Er Hp Hs) as H1.
  now destruct (patchOffset r ru s).
Qed.
Hint Resolve kept_fixOffset_rules : kept.
Lemma kept_fixOffset_sheets l : pres styles_kept (fixOffset_sheets l).
Proof. induction l; simpl; kept_auto. Qed.
Hint Resolve kept_fixOffset_sheets : kept.
Lemma kept_fixOffset : pres styles_kept fixOffset.
Proof. unfold fixOffset. kept_auto. Qed.
Lemma kept_resolve p v : pres styles_kept (resolve p v).
Proof. unfold resolve. kept_auto. Qed.
Hint Resolve kept_fixOffset kept_resolve : kept.

Lemma kept_waitToSave editor : pres styles_kept (waitToSave editor).
Proof.
  unfold waitToSave. kept_auto.
  apply pres_run_executor; [|intros s Hs; exact Hs].
  unfold new_group_of. kept_auto. apply kept_new_plain. discriminate.
Qed.
Lemma kept_init : pres styles_kept init.
Proof. unfold init. kept_auto. Qed.
Hint Resolve kept_waitToSave kept_init : kept.
Lemma kept_call_cb f v : pres styles_kept (call_cb f v).
Proof. unfold call_cb. kept_auto. Qed.
Hint Resolve kept_call_cb : kept.
Lemma kept_stream_emit e n v : pres styles_kept (stream_emit e n v).
Proof. unfold stream_emit, Emitter_emit. kept_auto. Qed.
Hint Resolve kept_stream_emit : kept.

Lemma kept_checkMotif env : pres styles_kept (checkMotif env).
Proof.
  unfold checkMotif, motif_edge, emitMotifChanged, getThemeColour, getStyleElement.
  kept_auto.
  match goal with |- pres _ (themeColour_rules _ ?rs) => induction rs end;
    simpl; kept_auto.
Qed.

Lemma kept_turn env : pres styles_kept (turn env).
Proof. unfold turn, run_task. kept_auto. apply kept_checkMotif. Qed.

Lemma kept_exec env c : pres styles_kept (exec env c).
Proof.
  destruct c; simpl; unfold notify_path_changed, notify_destroyed, delay; kept_auto.
  - apply kept_checkMotif.
  - apply kept_turn.
Qed.

Lemma kept_run env cs s : styles_kept s -> styles_kept (run env cs s).
Proof.
  revert s. induction cs as [|c cs IH]; intros s Hs; simpl; [exact Hs|].
  apply IH. now apply kept_exec.
Qed.
End StyleFrame.

Lemma kept_loaded sheets rs pkg : styles_kept sheets rs (loaded sheets rs pkg).
Proof.
  split; [reflexivity|]. split.
  - change (rules (loaded sheets rs pkg)) with rs.
    induction rs; constructor; auto using same_but_offset_refl.
  - intros d o r off Hl. change (plain (loaded sheets rs pkg)) with (@nil Disposable) in Hl.
    now rewrite lookup_nil in Hl.
Qed.

(** Whatever is called on the loaded module, and in whatever order, the
    document keeps its style sheets and its rules, each with its selector;
    and a rule whose selector is not the one of the offset patch is never
    written at all.  The only rules the module ever writes to are those
    with that selector. *)
Theorem styles_only_offsets_change env sheets rs pkg cs :
  let s := run env cs (loaded sheets rs pkg) in
  styleSheets s = sheets /\ Forall2 same_but_offset rs (rules s).
Proof.
  intros s.
  destruct (kept_run sheets rs env cs _ (kept_loaded sheets rs pkg)) as (H1 & H2 & _).
  auto.
Qed.

(** ** Reporting the same project roots again *)

(** Whatever [setProjects] is called with, calling it again with the same
    sequence dispatches nothing and changes nothing: either the first call
    made the sequence the baseline, or the baseline already gave the same
    joined text. *)
Theorem setProjects_twice_is_once to s from e em tbl :
  ui_projects s = Some from -> ui_emitter s = Some e -> hubs s !! e = Some em ->
  e_handlers em = Some tbl ->
  exists s1,
    setProjects to s = Ok tt s1 /\ setProjects to s1 = Ok tt s1 /\
    (join newline from <> join newline to -> ui_projects s1 = Some to) /\
    (join newline from = join newline to -> s1 = s).
Proof.
  intros Hp Hu He Ht.
  destruct (decide (join newline from = join newline to)) as [Heq|Hne].
  - exists s. rewrite (setProjects_same s from to Hp Heq).
    split; [reflexivity|]. split; [reflexivity|]. split; [|reflexivity].
    intros Hne. contradiction.
  - destruct (setProjects_changed s from to e em tbl Hp Hu He Ht Hne)
      as (_ & s1 & E1 & Hp1 & _).
    exists s1. split; [exact E1|]. split.
    + now apply (setProjects_same s1 to to).
    + split; [auto|]. intros Heq. contradiction.
Qed.

Lemma setProjects_twice_is_once_witness :
  let s := final (init (loaded [] [] None)) in
  exists s1,
    setProjects ["/a"; "/b"] s = Ok tt s1 /\ setProjects ["/a"; "/b"] s1 = Ok tt s1 /\
    (join newline [] <> join newline ["/a"; "/b"] -> ui_projects s1 = Some ["/a"; "/b"]) /\
    (join newline [] = join newline ["/a"; "/b"] -> s1 = s).
Proof.
  intros s.
  apply (setProjects_twice_is_once ["/a"; "/b"] s [] 0 (mkEmitter false 2 (Some ∅)) ∅);
    vm_compute; reflexivity.
Defined.

(** ** [reset] and the documents waited for *)

(** Disposing the Disposable of line 215. *)
Lemma dispose_detach s d cd root c :
  plain s !! d = Some (mkDisposable false (Some (ADetach cd))) ->
  ui_disposables s = Some root -> roots s !! root = Some c ->
  Disposable_dispose d s =
  Ok tt (set_plain (<[d := mkDisposable true None]> (plain s))
           (set_roots (<[root := Composite_remove (MGroup cd) c]> (roots s)) s)).
Proof.
  intros Ho Hu Hr. unfold Disposable_dispose, bind, deref. rewrite Ho. simpl.
  unfold modify, run_action, root_remove, bind, deref, defined. simpl.
  rewrite Hu. simpl. rewrite Hr. simpl.
  f_equal. apply state_ext; simpl; try reflexivity.
  apply list_insert_insert_eq.
Qed.

Lemma group_dispose_members g ms s :
  groups s !! g = Some (mkComposite false ms) ->
  group_dispose g s =
  (forEach Disposable_dispose ms ;;;
   modify (fun s => set_groups (<[g := mkComposite true []]> (groups s)) s))
    (set_groups (<[g := mkComposite true ms]> (groups s)) s).
Proof.
  intros Hg. unfold group_dispose. rewrite (bind_Ok _ _ _ _ _ (deref_Ok _ _ _ _ Hg)).
  reflexivity.
Qed.

Lemma notify_nobody editor ns s :
  editor < length (streams s) ->
  listening editor "did-destroy" s = [] ->
  listening editor "did-change-path" s = [] ->
  forEach (notify editor) ns s = Ok tt s.
Proof.
  intros He Hd Hp. induction ns as [|n ns IH]; simpl; [reflexivity|].
  unfold bind. destruct n as [file|]; simpl.
  - unfold notify_path_changed. now rewrite stream_emit_none.
  - unfold notify_destroyed. now rewrite stream_emit_none.
Qed.

(** A promise of [waitToSave] that is pending when [reset] is called is
    abandoned, on an object on which [init] has not been called and for a
    document nobody else waits for: [this.disposables] holds nothing but
    the composite of line 214, the hub holds only registrations made
    through [on], and the document has no other listener for the two
    notifications.  [reset] disposes the composite of line 214, which takes
    both callbacks off the document; it returns, and the promise is
    pending.  Whatever the document reports afterwards, and however often,
    calls nothing: [resolve] is never called. *)
Theorem reset_abandons_waiters editor s ns :
  fresh_root s -> hub_tidy s ->
  (exists em tbl, stream_ready editor s em tbl /\
                  entries tbl "did-destroy" = [] /\ entries tbl "did-change-path" = []) ->
  exists s1 s2,
    waitToSave editor s = Ok (length (promises s)) s1 /\
    reset s1 = Ok tt s2 /\
    promises s2 !! length (promises s) = Some Pending /\
    listening editor "did-destroy" s2 = [] /\
    listening editor "did-change-path" s2 = [] /\
    forEach (notify editor) ns s2 = Ok tt s2.
Proof.
  intros (root & Hu & Hr) (e & emh & ch & Hue & Hh & Hhg & Hhm & Hsep)
         (em & tbl & (He & Hed & Het & [sc Hsc]) & Hdd & Hcp).
  pose proof (waitToSave_arms editor s root _ em tbl sc Hu Hr He Hed Het Hsc) as E1.
  set (p := length (promises s)) in *.
  match type of E1 with _ = Ok _ ?st => set (s1 := st) in * end.
  set (cd := length (groups s)). set (d1 := length (plain s)).
  set (subs := e_subscriptions em).
  assert (Hrl : root < length (roots s)) by (eapply lookup_lt_Some; eauto).
  assert (Hel : editor < length (streams s)) by (eapply lookup_lt_Some; eauto).
  assert (Hsl : subs < cd) by (eapply lookup_lt_Some; eauto).
  assert (Hhl : e_subscriptions emh < cd) by (eapply lookup_lt_Some; eauto).
  assert (Hns : e_subscriptions emh <> subs) by (intros E; now apply (Hsep editor em He)).
  set (fd := CbDestroy cd). set (fp := CbChangePath cd p).
  set (em1 := mkEmitter false subs
                (Some (table_on "did-change-path" fp (table_on "did-destroy" fd tbl)))).
  (* line 32: the composite of the object, then the one of line 214 *)
  set (sA := set_roots (<[root := mkComposite true [MGroup cd]]> (roots s1)) s1).
  assert (Hr1 : roots s1 !! root = Some (mkComposite false [MGroup cd])).
  { subst s1. unfold arm_state. simpl. rewrite list_lookup_insert_eq by exact Hrl.
    now rewrite Composite_add_new by apply not_elem_of_nil. }
  set (sB := set_groups (<[cd := mkComposite true [d1; S d1; S (S d1)]]> (groups sA)) sA).
  assert (Hg1 : groups sA !! cd = Some (mkComposite false [d1; S d1; S (S d1)])).
  { subst sA s1. unfold arm_state. simpl. fold cd d1.
    rewrite lookup_app_r by (rewrite length_insert; unfold cd; lia).
    rewrite length_insert. fold cd. now rewrite Nat.sub_diag. }
  pose proof (dispose_detach sB d1 cd root (mkComposite true [MGroup cd])) as EC.
  match type of EC with _ -> _ -> _ -> _ = Ok _ ?st => set (sC := st) in * end.
  assert (EC' : Disposable_dispose d1 sB = Ok tt sC).
  { apply EC.
    - subst sB sA s1. unfold arm_state. simpl. fold d1.
      rewrite lookup_app_r by (unfold d1; lia). now rewrite Nat.sub_diag.
    - exact Hu.
    - subst sB sA. simpl. apply list_lookup_insert_eq.
      subst s1. unfold arm_state. simpl. now rewrite length_insert. }
  clear EC.
  assert (Hgs : exists c, groups sC !! subs = Some c).
  { apply lookup_lt_is_Some. subst sC sB sA s1. unfold arm_state. simpl.
    rewrite length_insert, length_app, length_insert. fold cd. lia. }
  destruct Hgs as [c2 Hc2].
  pose proof (dispose_listener sC (S d1) editor "did-destroy" fd em1 c2) as ED.
  match type of ED with _ -> _ -> _ -> _ = Ok _ ?st => set (sD := st) in * end.
  assert (ED' : Disposable_dispose (S d1) sC = Ok tt sD).
  { apply ED.
    - subst sC sB sA s1. unfold arm_state. simpl. fold d1.
      rewrite list_lookup_insert_ne by lia.
      rewrite lookup_app_r by (unfold d1; lia).
      now replace (S d1 - length (plain s)) with 1 by (unfold d1; lia).
    - subst sC sB sA s1. unfold arm_state. simpl. now apply list_lookup_insert_eq.
    - exact Hc2. }
  clear ED.
  assert (Hgs : exists c, groups sD !! subs = Some c).
  { apply lookup_lt_is_Some. subst sD sC sB sA s1. unfold arm_state. simpl.
    rewrite !length_insert, length_app, length_insert. fold cd. lia. }
  destruct Hgs as [c3 Hc3].
  set (em2 := Emitter_off_obj "did-destroy" fd em1).
  pose proof (dispose_listener sD (S (S d1)) editor "did-change-path" fp em2 c3) as EE.
  match type of EE with _ -> _ -> _ -> _ = Ok _ ?st => set (sE := st) in * end.
  assert (EE' : Disposable_dispose (S (S d1)) sD = Ok tt sE).
  { apply EE.
    - subst sD sC sB sA s1. unfold arm_state. simpl. fold d1.
      rewrite !list_lookup_insert_ne by lia.
      rewrite lookup_app_r by (unfold d1; lia).
      now replace (S (S d1) - length (plain s)) with 2 by (unfold d1; lia).
    - subst sD sC sB sA s1. unfold arm_state. simpl.
      apply list_lookup_insert_eq. now rewrite length_insert.
    - exact Hc3. }
  clear EE.
  set (sF := set_groups (<[cd := mkComposite true []]> (groups sE)) sE).
  assert (EG : group_dispose cd sA = Ok tt sF).
  { rewrite (group_dispose_members cd _ sA Hg1). fold sB.
    unfold bind. simpl forEach. unfold bind. rewrite EC', ED', EE'. reflexivity. }
  set (sH := set_roots (<[root := mkComposite true []]> (roots sF)) sF).
  assert (ER : root_dispose root s1 = Ok tt sH).
  { rewrite (root_dispose_members root _ s1 Hr1). fold sA.
    unfold bind. simpl forEach. unfold bind. simpl member_dispose.
    rewrite EG. reflexivity. }
  (* line 33 *)
  assert (Hh' : exists s', hub_dispose e sH = Ok tt s' /\ untouched sH s').
  { apply (hub_dispose_tidy e emh ch); [exact Hh| |].
    - subst sH sF sE sD sC sB sA s1. unfold arm_state. simpl. fold cd subs.
      rewrite !list_lookup_insert_ne by lia.
      rewrite lookup_app_l by (rewrite length_insert; exact Hhl).
      now rewrite list_lookup_insert_ne by congruence.
    - rewrite Forall_forall in *. intros d Hin.
      destruct (Hhm d Hin) as (o & Ho & Hd). exists o. split; [|exact Hd].
      assert (d < d1) by (eapply lookup_lt_Some; eauto).
      subst sH sF sE sD sC sB sA s1. unfold arm_state. simpl. fold d1.
      rewrite !list_lookup_insert_ne by lia. now apply lookup_app_l_Some. }
  destruct Hh' as (s' & EH & Hst & _).
  assert (ET : teardown s1 = Ok tt s').
  { unfold teardown. rewrite (bind_Ok get _ s1 s1 s1 eq_refl).
    change (ui_disposables s1) with (ui_disposables s). rewrite Hu.
    rewrite (bind_Ok _ _ _ _ _ ER).
    change (ui_emitter s1) with (ui_emitter s). rewrite Hue. exact EH. }
  exists s1, (installed s'). split; [exact E1|]. split.
  { rewrite reset_unfold, ET. reflexivity. }
  assert (Hse : streams (installed s') !! editor
                = Some (Emitter_off_obj "did-change-path" fp em2)).
  { simpl. rewrite Hst. subst sH sF sE. simpl. apply list_lookup_insert_eq.
    subst sD sC sB sA s1. unfold arm_state. simpl. now rewrite !length_insert. }
  assert (Hld : listening editor "did-destroy" (installed s') = []).
  { unfold listening. rewrite Hse. simpl.
    rewrite entries_table_off, decide_False by discriminate.
    rewrite entries_table_off, decide_True by reflexivity.
    rewrite entries_table_on, decide_False by discriminate.
    rewrite entries_table_on, decide_True by reflexivity.
    rewrite Hdd. simpl. now rewrite decide_True by reflexivity. }
  assert (Hlp : listening editor "did-change-path" (installed s') = []).
  { unfold listening. rewrite Hse. simpl.
    rewrite entries_table_off, decide_True by reflexivity.
    rewrite entries_table_off, decide_False by discriminate.
    rewrite entries_table_on, decide_True by reflexivity.
    rewrite entries_table_on, decide_False by discriminate.
    rewrite Hcp. simpl. now rewrite decide_True by reflexivity. }
  split.
  { change (promises (installed s')) with (promises s').
    pose proof (keeps_teardown promises ltac:(easy) ltac:(easy) ltac:(easy)
                  ltac:(easy) ltac:(easy) ltac:(easy) s1) as Hk.
    rewrite ET in Hk. simpl in Hk. rewrite Hk. subst s1. unfold arm_state. simpl.
    apply lookup_snoc. }
  split; [exact Hld|]. split; [exact Hlp|].
  apply notify_nobody; [|exact Hld|exact Hlp].
  eapply lookup_lt_Some; eauto.
Qed.

(** A loaded module with a subscribed client and an open document. *)
Definition document_state : state := final (stream_new subscribed_state).

Lemma reset_abandons_waiters_witness :
  let s := document_state in
  let ns := [PathChanged "/a.txt"; Destroyed; PathChanged "/b.txt"] in
  exists s1 s2,
    waitToSave 2 s = Ok (length (promises s)) s1 /\
    reset s1 = Ok tt s2 /\
    promises s2 !! length (promises s) = Some Pending /\
    listening 2 "did-destroy" s2 = [] /\
    listening 2 "did-change-path" s2 = [] /\
    forEach (notify 2) ns s2 = Ok tt s2.
Proof.
  intros s ns. apply (reset_abandons_waiters 2 s ns).
  - exists 0. split; vm_compute; reflexivity.
  - exists 0, (mkEmitter false 2 (Some (table_on "open-file" (Handler 5) ∅))),
      (mkComposite false [0]).
    split; [vm_compute; reflexivity|]. split; [vm_compute; reflexivity|].
    split; [vm_compute; reflexivity|]. split.
    + constructor; [|constructor].
      exists (mkDisposable false (Some (AOffHub 0 "open-file" (Handler 5)))).
      split; [vm_compute; reflexivity|]. right. now exists "open-file", (Handler 5).
    + intros e' em' H. destruct e' as [|[|[|e']]]; vm_compute in H.
      * injection H as <-. vm_compute. discriminate.
      * injection H as <-. vm_compute. discriminate.
      * injection H as <-. vm_compute. discriminate.
      * discriminate.
  - exists (mkEmitter false 3 (Some ∅)), ∅. split; [|split; reflexivity].
    split; [vm_compute; reflexivity|]. split; [reflexivity|]. split; [reflexivity|].
    exists (mkComposite false []). vm_compute; reflexivity.
Defined.

(** ** From the collaborators to the clients *)

(** What [init] leaves of the hub: the hub itself, untouched. *)
Lemma init_keeps_hub s s1 e em :
  init s = Ok tt s1 -> ui_emitter s = Some e -> hubs s !! e = Some em ->
  e_subscriptions em < length (groups s) ->
  ui_emitter s1 = Some e /\ hubs s1 !! e = Some em /\
  is_Some (groups s1 !! e_subscriptions em) /\
  delayNext s1 = delayNext s /\ log s1 = log s /\ immediates s1 = immediates s.
Proof.
  intros E Hu He Hg.
  assert (K : forall X (f : state -> X),
            (forall x s, f (set_plain x s) = f s) -> (forall x s, f (set_groups x s) = f s) ->
            (forall x s, f (set_roots x s) = f s) -> (forall x s, f (set_streams x s) = f s) ->
            (forall x s, f (set_ui_projects x s) = f s) ->
            (forall x s, f (set_ui_lightTheme x s) = f s) ->
            (forall x s, f (set_closures x s) = f s) -> f s1 = f s).
  { intros X f H1 H2 H3 H4 H5 H6 H7.
    assert (Hk : keeps f init).
    { unfold init, stream_on, Emitter_on, group_add, root_add. keeps_auto.
      all: intros s0; apply H1. }
    specialize (Hk s). now rewrite E in Hk. }
  split; [now rewrite (K _ ui_emitter)|]. split; [now rewrite (K _ hubs)|].
  split.
  { apply lookup_lt_is_Some.
    assert (Hl : length (groups s) <= length (groups s1)).
    { assert (Hk : pres (fun s' => length (groups s) <= length (groups s')) init).
      { unfold init, stream_on, Emitter_on, group_add, root_add, new_plain.
        repeat first [pres_step
                     | apply pres_modify; intros ? HI; simpl;
                       rewrite ?length_insert; exact HI
                     | intros ? HI; exact HI]. }
      specialize (Hk s (le_n _)). now rewrite E in Hk. }
    lia. }
  split; [now rewrite (K _ delayNext)|]. split; [now rewrite (K _ log)|].
  now rewrite (K _ immediates).
Qed.

(** A report of [atom.project] reaches the clients.  After [init], a
    client subscribes with [onProjectsChanged]; when [atom.project] then
    reports paths whose joined text is not empty, the handlers of
    [projects-available] are called first, then those of
    [projects-changed] in the order of their subscriptions, the new client
    last, each with [{from: [], to}]; all this happens before the
    notification returns. *)
Theorem project_report_reaches_clients s to h e em tbl :
  init_ready s -> ui_emitter s = Some e -> hubs s !! e = Some em ->
  e_disposed em = false -> e_handlers em = Some tbl ->
  e_subscriptions em < length (groups s) -> delayNext s = false ->
  join newline to <> "" ->
  exists d s1 s2 s3,
    init s = Ok tt s1 /\ onProjectsChanged h s1 = Ok d s2 /\
    stream_emit (atom_project s2) "did-change-paths" (VPaths to) s2 = Ok tt s3 /\
    ui_projects s3 = Some to /\
    log s3 = log s ++
      [Emitted "projects-available" VUndefined] ++
      calls_of VUndefined (entries tbl "projects-available") ++
      [Emitted "projects-changed" (VChange [] to)] ++
      calls_of (VChange [] to) (entries tbl "projects-changed") ++
      [Called h (VChange [] to)].
Proof.
  intros Hrdy Hu He Hd Ht Hg Hdn Hj.
  destruct (init_ready_arms s Hrdy)
    as (root & rc & emp & tblp & emt & tblt & E1 & Hpl & Htl & Hne & Hpe & Hte).
  set (s1 := init_state root rc emp emt tblp tblt s) in *.
  destruct (init_keeps_hub s s1 e em E1 Hu He Hg) as (Hu1 & He1 & [c1 Hc1] & Hdn1 & Hl1 & _).
  pose proof (subscribe_live "projects-changed" h s1 e em tbl c1 Hu1 He1 Hd Ht Hc1 eq_refl) as E2.
  assert (Hw : wrapped s1 h = Handler h) by (unfold wrapped; now rewrite Hdn1, Hdn).
  assert (Hc : consumed s1 = s1) by (unfold consumed; now rewrite Hdn1, Hdn).
  rewrite Hw, Hc in E2.
  match type of E2 with _ = Ok ?x ?st => set (d := x) in *; set (s2 := st) in * end.
  set (tbl2 := table_on "projects-changed" (Handler h) tbl).
  assert (He2 : hubs s2 !! e = Some (mkEmitter false (e_subscriptions em) (Some tbl2))).
  { subst s2. simpl. apply list_lookup_insert_eq. eapply lookup_lt_Some; eauto. }
  assert (E3 : stream_emit (atom_project s2) "did-change-paths" (VPaths to) s2
               = setProjects to s2).
  { transitivity (call_cb (CbSetProjects (closures s)) (VPaths to) s2); [|reflexivity].
    eapply stream_emit_one.
    - subst s2 s1. simpl. rewrite list_lookup_insert_ne by congruence.
      apply list_lookup_insert_eq. exact Hpl.
    - reflexivity.
    - rewrite entries_table_on. rewrite decide_True by reflexivity. now rewrite Hpe. }
  destruct (setProjects_changed s2 [] to e _ tbl2 eq_refl Hu1 He2 eq_refl)
    as (_ & s3 & E4 & Hp3 & Hl3).
  { simpl. congruence. }
  exists d, s1, s2, s3. split; [exact E1|]. split; [exact E2|].
  split; [now rewrite E3|]. split; [exact Hp3|].
  rewrite Hl3. change (log s2) with (log s1). rewrite Hl1.
  assert (Ha : availability to = "projects-available").
  { destruct to; [now contradict Hj|reflexivity]. }
  rewrite Ha. subst tbl2.
  rewrite table_on_lookup_ne by discriminate. rewrite table_on_lookup.
  rewrite calls_of_app. simpl. unfold entries. reflexivity.
Qed.

Lemma project_report_reaches_clients_witness :
  let s := subscribed_state in
  exists d s1 s2 s3,
    init s = Ok tt s1 /\ onProjectsChanged 6 s1 = Ok d s2 /\
    stream_emit (atom_project s2) "did-change-paths" (VPaths ["/a"]) s2 = Ok tt s3 /\
    ui_projects s3 = Some ["/a"] /\
    log s3 = log s ++
      [Emitted "projects-available" VUndefined] ++
      calls_of VUndefined (entries (table_on "open-file" (Handler 5) ∅) "projects-available") ++
      [Emitted "projects-changed" (VChange [] ["/a"])] ++
      calls_of (VChange [] ["/a"])
        (entries (table_on "open-file" (Handler 5) ∅) "projects-changed") ++
      [Called 6 (VChange [] ["/a"])].
Proof.
  intros s.
  apply (project_report_reaches_clients s ["/a"] 6 0
           (mkEmitter false 2 (Some (table_on "open-file" (Handler 5) ∅)))
           (table_on "open-file" (Handler 5) ∅)).
  - split.
    { exists 0, (mkComposite false []). split; vm_compute; reflexivity. }
    split.
    { exists (mkEmitter false 0 (Some ∅)), ∅. split; [|reflexivity].
      split; [vm_compute; reflexivity|]. split; [reflexivity|]. split; [reflexivity|].
      exists (mkComposite false []). vm_compute; reflexivity. }
    split.
    { exists (mkEmitter false 1 (Some ∅)), ∅. split; [|reflexivity].
      split; [vm_compute; reflexivity|]. split; [reflexivity|]. split; [reflexivity|].
      exists (mkComposite false []). vm_compute; reflexivity. }
    vm_compute. discriminate.
  - vm_compute; reflexivity.
  - vm_compute; reflexivity.
  - reflexivity.
  - reflexivity.
  - vm_compute. lia.
  - vm_compute; reflexivity.
  - vm_compute. discriminate.
Defined.

(** Two rules with the same selector and the same text. *)
Definition same_text (ru ru' : CSSRule) : Prop :=
  selectorText ru' = selectorText ru /\ cssText ru' = cssText ru.

Lemma themeColour_rules_same_text env rs s s' :
  Forall2 same_text (rules s) (rules s') ->
  themeColour_rules env rs s' =
  match themeColour_rules env rs s with
  | Ok r _ => Ok r s'
  | Throw err _ => Throw err s'
  end.
Proof.
  intros HF. induction rs as [|r rs IH]; simpl; [reflexivity|].
  unfold bind, deref.
  destruct (rules s !! r) as [ru|] eqn:Er.
  - destruct (Forall2_lookup_l _ _ _ _ _ HF Er) as (ru' & Er' & Hs & Hc).
    rewrite Er', Hs, Hc.
    destruct (decide (selectorText ru = Some ".theme-colour-check")); [|exact IH].
    destruct (match_rgb env (cssText ru)) as [m|]; [|reflexivity].
    now destruct (match_channels env m).
  - assert (Er' : rules s' !! r = None).
    { apply lookup_ge_None. rewrite <- (Forall2_length _ _ _ HF). now apply lookup_ge_None. }
    now rewrite Er'.
Qed.

(** The colour read depends on the path of the package, the sheets, and the
    selectors and texts of the rules only. *)
Lemma getThemeColour_same_text env s s' r :
  packagePath s' = packagePath s -> styleSheets s' = styleSheets s ->
  Forall2 same_text (rules s) (rules s') ->
  getThemeColour env s = Ok r s -> getThemeColour env s' = Ok r s'.
Proof.
  intros Hp Hs HF. unfold getThemeColour, getStyleElement, bind, defined, get, ret.
  rewrite Hp. destruct (packagePath s) as [pkg|]; [|discriminate].
  rewrite Hs. destruct (List.find _ (styleSheets s)) as [sh|]; [|discriminate].
  rewrite (themeColour_rules_same_text env (cssRules sh) s s' HF).
  destruct (themeColour_rules env (cssRules sh) s) as [r0 s0|]; [|discriminate].
  now intros [= -> _].
Qed.

Lemma same_text_refl_list l : Forall2 same_text l l.
Proof. induction l; constructor; auto. now split. Qed.

(** [fixOffset] when no capability is held: until a rule is patched the
    state is as it was. *)
Lemma fixOffset_rules_fresh_cases rs s :
  (exists b, fixOffset_rules rs s = Ok b s) \/ (exists e, fixOffset_rules rs s = Throw e s) \/
  exists r ru, rules s !! r = Some ru /\
    fixOffset_rules rs s = (patchOffset r ru ;;; ret true) s.
Proof.
  induction rs as [|r rs IH].
  - left. now exists false.
  - destruct (rules s !! r) as [ru|] eqn:Er.
    + destruct (decide (selectorText ru = Some offsetSelector /\ style_top ru <> ""))
        as [Hp|Hp].
      * right. right. exists r, ru. split; [exact Er|].
        simpl. unfold bind at 1, deref. rewrite Er. now rewrite decide_True by exact Hp.
      * assert (E : fixOffset_rules (r :: rs) s = fixOffset_rules rs s).
        { simpl. unfold bind at 1, deref. rewrite Er. now rewrite decide_False by exact Hp. }
        now rewrite E.
    + right. left. exists Dangling. simpl. unfold bind, deref. now rewrite Er.
Qed.

Lemma fixOffset_sheets_fresh_cases l s :
  final (fixOffset_sheets l s) = s \/
  exists r ru, rules s !! r = Some ru /\
    final (fixOffset_sheets l s) = final (patchOffset r ru s).
Proof.
  induction l as [|sh l IH]; [now left|].
  destruct (fixOffset_rules_fresh_cases (cssRules sh) s)
    as [[b E]|[[e E]|(r & ru & Hr & E)]].
  - assert (E' : fixOffset_sheets (sh :: l) s
                 = if b then Ok tt s else fixOffset_sheets l s).
    { simpl. unfold bind at 1. rewrite E. now destruct b. }
    rewrite E'. destruct b; [now left|exact IH].
  - assert (E' : fixOffset_sheets (sh :: l) s = Throw e s).
    { simpl. unfold bind at 1. now rewrite E. }
    rewrite E'. now left.
  - right. exists r, ru. split; [exact Hr|].
    simpl. unfold bind at 1. rewrite E.
    unfold bind, ret. now destruct (patchOffset r ru s) as [[] s1|err s1].
Qed.

Lemma fixOffset_fresh_cases s :
  final (fixOffset s) = s \/
  exists r ru, rules s !! r = Some ru /\ final (fixOffset s) = final (patchOffset r ru s).
Proof. apply fixOffset_sheets_fresh_cases. Qed.

Lemma patchOffset_fresh_keeps {X} (f : state -> X) r ru s :
  (forall x s, f (set_plain x s) = f s) -> (forall x s, f (set_roots x s) = f s) ->
  (forall x s, f (set_ui_restoreOffset x s) = f s) ->
  (forall x s, f (set_rules x s) = f s) ->
  ui_restoreOffset s = None -> f (final (patchOffset r ru s)) = f s.
Proof.
  intros H1 H2 H3 H4 Hn. rewrite patchOffset_unfold.
  assert (E : release_held (cleared r ru s) = Ok tt (cleared r ru s)).
  { unfold release_held, bind, get. simpl. now rewrite Hn. }
  rewrite (bind_Ok _ _ _ _ _ E). rewrite (keeps_install f) by assumption.
  apply H4.
Qed.

Lemma fixOffset_fresh_keeps {X} (f : state -> X) s :
  (forall x s, f (set_plain x s) = f s) -> (forall x s, f (set_roots x s) = f s) ->
  (forall x s, f (set_ui_restoreOffset x s) = f s) ->
  (forall x s, f (set_rules x s) = f s) ->
  ui_restoreOffset s = None -> f (final (fixOffset s)) = f s.
Proof.
  intros H1 H2 H3 H4 Hn.
  destruct (fixOffset_fresh_cases s) as [E|(r & ru & _ & E)]; rewrite E; [reflexivity|].
  now apply patchOffset_fresh_keeps.
Qed.

Lemma fixOffset_fresh_same_text s :
  ui_restoreOffset s = None -> Forall2 same_text (rules s) (rules (final (fixOffset s))).
Proof.
  intros Hn.
  destruct (fixOffset_fresh_cases s) as [E|(r & ru & Hr & E)]; rewrite E.
  - apply same_text_refl_list.
  - rewrite (patchOffset_rules_fresh r ru s Hn).
    rewrite <- (list_insert_id (rules s) r ru Hr) at 1.
    apply Forall2_insert; [apply same_text_refl_list|]. now split.
Qed.


Definition themed_state : state :=
  final (subscribe "motif-changed" 5 (loaded demo_sheets demo_rules (Some "/pkg"))).

(** ** No reference dangles *)

(** How many objects of each kind there are, and whether [this.projects]
    has been set. *)
Record sizes := mkSizes {
  n_plain : nat;
  n_groups : nat;
  n_roots : nat;
  n_hubs : nat;
  n_streams : nat;
  n_promises : nat;
  n_rules : nat;
  n_inited : bool
}.

Definition sizes_of (s : state) : sizes :=
  mkSizes (length (plain s)) (length (groups s)) (length (roots s)) (length (hubs s))
    (length (streams s)) (length (promises s)) (length (rules s))
    (match ui_projects s with Some _ => true | None => false end).

(** Objects are never freed, and [this.projects] is never unset. *)
Definition grows (L L' : sizes) : Prop :=
  n_plain L <= n_plain L' /\ n_groups L <= n_groups L' /\ n_roots L <= n_roots L' /\
  n_hubs L <= n_hubs L' /\ n_streams L <= n_streams L' /\
  n_promises L <= n_promises L' /\ n_rules L <= n_rules L' /\
  (n_inited L = true -> n_inited L' = true).

(** What a function needs to be there when it is called. *)
Definition ok_action (L : sizes) (a : action) : Prop :=
  match a with
  | ANoop => True
  | AOffHub e _ _ => e < n_hubs L
  | AOffStream e _ _ => e < n_streams L
  | ADetach _ => True
  | ARestoreTop r _ => r < n_rules L
  end.

Definition ok_member (L : sizes) (m : member) : Prop :=
  match m with
  | MPlain d => d < n_plain L
  | MGroup g => g < n_groups L
  end.

Definition ok_cb (L : sizes) (name : string) (f : cb) : Prop :=
  match f with
  | CbSetProjects _ => n_inited L = true /\ name = "did-change-paths"
  | CbThemes _ => True
  | CbDestroy g => g < n_groups L
  | CbChangePath g p => g < n_groups L /\ p < n_promises L
  end.

Definition ok_table (L : sizes) (tbl : gmap string (list cb)) : Prop :=
  forall name l, tbl !! name = Some l -> Forall (ok_cb L name) l.

Definition ok_disposable (L : sizes) (o : Disposable) : Prop :=
  forall a, d_action o = Some a -> ok_action L a.

Definition ok_group (L : sizes) (c : Composite nat) : Prop :=
  Forall (fun d => d < n_plain L) (c_members c).

Definition ok_root (L : sizes) (c : Composite member) : Prop :=
  Forall (ok_member L) (c_members c).

Definition ok_hub (L : sizes) (em : Emitter hfn) : Prop :=
  e_subscriptions em < n_groups L.

(** The streams of the host are never disposed. *)
Definition ok_stream (L : sizes) (em : Emitter cb) : Prop :=
  e_subscriptions em < n_groups L /\ e_disposed em = false /\
  exists tbl, e_handlers em = Some tbl /\ ok_table L tbl.

Definition ok_fields (L : sizes) (s : state) : Prop :=
  (exists r, ui_disposables s = Some r /\ r < n_roots L) /\
  (forall e, ui_emitter s = Some e -> e < n_hubs L) /\
  (forall d, ui_restoreOffset s = Some d -> d < n_plain L) /\
  atom_project s < n_streams L /\ atom_themes s < n_streams L /\
  atom_project s <> atom_themes s /\
  Forall (fun sh => Forall (fun r => r < n_rules L) (cssRules sh)) (styleSheets s) /\
  Forall (fun pr => pr <> Rejected) (promises s).

Definition sound_at (L : sizes) (s : state) : Prop :=
  Forall (ok_disposable L) (plain s) /\ Forall (ok_group L) (groups s) /\
  Forall (ok_root L) (roots s) /\ Forall (ok_hub L) (hubs s) /\
  Forall (ok_stream L) (streams s) /\ ok_fields L s.

(** Every reference held by an object or by a registered function is to
    an object that is there. *)
Definition sound (s : state) : Prop := sound_at (sizes_of s) s.

(** No promise has been rejected. *)
Lemma sound_promises s : sound s -> Forall (fun pr => pr <> Rejected) (promises s).
Proof. intros (_ & _ & _ & _ & _ & _ & _ & _ & _ & _ & _ & _ & H). exact H. Qed.

Lemma grows_refl L : grows L L.
Proof. unfold grows. repeat split; auto. Qed.

Lemma grows_trans L1 L2 L3 : grows L1 L2 -> grows L2 L3 -> grows L1 L3.
Proof. unfold grows. intros H1 H2. destruct_and!. repeat split; auto; lia. Qed.

Lemma ok_action_grows L L' a : grows L L' -> ok_action L a -> ok_action L' a.
Proof. unfold grows. intros H. destruct_and!. destruct a; simpl; auto; lia. Qed.

Lemma ok_member_grows L L' m : grows L L' -> ok_member L m -> ok_member L' m.
Proof. unfold grows. intros H. destruct_and!. destruct m; simpl; lia. Qed.

Lemma ok_cb_grows L L' name f : grows L L' -> ok_cb L name f -> ok_cb L' name f.
Proof.
  unfold grows. intros H. destruct_and!. destruct f; simpl; auto; [|lia|lia].
  intros [? ?]. auto.
Qed.

Lemma ok_table_grows L L' tbl : grows L L' -> ok_table L tbl -> ok_table L' tbl.
Proof.
  intros H Ht name l Hl. eapply Forall_impl; [exact (Ht name l Hl)|].
  intros f. now apply ok_cb_grows.
Qed.

Lemma ok_disposable_grows L L' o : grows L L' -> ok_disposable L o -> ok_disposable L' o.
Proof. intros H Ho a Ha. eapply ok_action_grows; eauto. Qed.

Lemma ok_group_grows L L' c : grows L L' -> ok_group L c -> ok_group L' c.
Proof.
  intros H Hc. eapply Forall_impl; [exact Hc|]. intros d. unfold grows in H. simpl. lia.
Qed.

Lemma ok_root_grows L L' c : grows L L' -> ok_root L c -> ok_root L' c.
Proof.
  intros H Hc. eapply Forall_impl; [exact Hc|]. intros m. now apply ok_member_grows.
Qed.

Lemma ok_hub_grows L L' em : grows L L' -> ok_hub L em -> ok_hub L' em.
Proof. unfold grows, ok_hub. lia. Qed.

Lemma ok_stream_grows L L' em : grows L L' -> ok_stream L em -> ok_stream L' em.
Proof.
  intros H (H1 & H2 & tbl & H3 & H4). repeat split; [unfold grows in H; lia|assumption|].
  exists tbl. split; [assumption|]. eapply ok_table_grows; eauto.
Qed.

Lemma ok_fields_grows L L' s : grows L L' -> ok_fields L s -> ok_fields L' s.
Proof.
  intros H ((r & Hr & Hrl) & He & Hd & Hp & Ht & Hne & Hs & Hq).
  pose proof H as (G1 & G2 & G3 & G4 & G5 & G6 & G7 & G8).
  refine (conj _ (conj _ (conj _ (conj _ (conj _ (conj _ (conj _ Hq))))))).
  - exists r. split; [assumption|lia].
  - intros e E. specialize (He e E). lia.
  - intros d E. specialize (Hd d E). lia.
  - lia.
  - lia.
  - assumption.
  - eapply Forall_impl; [exact Hs|]. intros sh Hsh.
    eapply Forall_impl; [exact Hsh|]. intros r0. simpl. lia.
Qed.

Lemma sound_at_grows L L' s : grows L L' -> sound_at L s -> sound_at L' s.
Proof.
  intros H (H1 & H2 & H3 & H4 & H5 & H6).
  refine (conj _ (conj _ (conj _ (conj _ (conj _ _))))).
  - eapply Forall_impl; [exact H1|]. intros o. now apply ok_disposable_grows.
  - eapply Forall_impl; [exact H2|]. intros o. now apply ok_group_grows.
  - eapply Forall_impl; [exact H3|]. intros o. now apply ok_root_grows.
  - eapply Forall_impl; [exact H4|]. intros o. now apply ok_hub_grows.
  - eapply Forall_impl; [exact H5|]. intros o. now apply ok_stream_grows.
  - now apply (ok_fields_grows L).
Qed.

Ltac grows_tac :=
  unfold grows, sizes_of; simpl;
  rewrite ?length_app, ?length_insert, ?length_alter; simpl;
  repeat split; solve [lia | auto].

(** Replacing one store. *)
Lemma sound_at_set_plain L ps s :
  sound_at L s -> Forall (ok_disposable L) ps -> sound_at L (set_plain ps s).
Proof.
  intros (H1 & H2 & H3 & H4 & H5 & H6) H.
  refine (conj _ (conj _ (conj _ (conj _ (conj _ _))))); assumption.
Qed.

Lemma sound_at_set_groups L gs s :
  sound_at L s -> Forall (ok_group L) gs -> sound_at L (set_groups gs s).
Proof.
  intros (H1 & H2 & H3 & H4 & H5 & H6) H.
  refine (conj _ (conj _ (conj _ (conj _ (conj _ _))))); assumption.
Qed.

Lemma sound_at_set_roots L rs s :
  sound_at L s -> Forall (ok_root L) rs -> sound_at L (set_roots rs s).
Proof.
  intros (H1 & H2 & H3 & H4 & H5 & H6) H.
  refine (conj _ (conj _ (conj _ (conj _ (conj _ _))))); assumption.
Qed.

Lemma sound_at_set_hubs L hs s :
  sound_at L s -> Forall (ok_hub L) hs -> sound_at L (set_hubs hs s).
Proof.
  intros (H1 & H2 & H3 & H4 & H5 & H6) H.
  refine (conj _ (conj _ (conj _ (conj _ (conj _ _))))); assumption.
Qed.

Lemma sound_at_set_streams L ss s :
  sound_at L s -> Forall (ok_stream L) ss -> sound_at L (set_streams ss s).
Proof.
  intros (H1 & H2 & H3 & H4 & H5 & H6) H.
  refine (conj _ (conj _ (conj _ (conj _ (conj _ _))))); assumption.
Qed.

Lemma sound_set_plain ps s :
  sound s -> length (plain s) <= length ps ->
  Forall (ok_disposable (sizes_of (set_plain ps s))) ps -> sound (set_plain ps s).
Proof.
  intros Hs Hl Hp.
  assert (G : grows (sizes_of s) (sizes_of (set_plain ps s))) by grows_tac.
  apply (sound_at_grows _ _ _ G) in Hs. now apply sound_at_set_plain.
Qed.

Lemma sound_set_groups gs s :
  sound s -> length (groups s) <= length gs ->
  Forall (ok_group (sizes_of (set_groups gs s))) gs -> sound (set_groups gs s).
Proof.
  intros Hs Hl Hp.
  assert (G : grows (sizes_of s) (sizes_of (set_groups gs s))) by grows_tac.
  apply (sound_at_grows _ _ _ G) in Hs. now apply sound_at_set_groups.
Qed.

Lemma sound_set_roots rs s :
  sound s -> length (roots s) <= length rs ->
  Forall (ok_root (sizes_of (set_roots rs s))) rs -> sound (set_roots rs s).
Proof.
  intros Hs Hl Hp.
  assert (G : grows (sizes_of s) (sizes_of (set_roots rs s))) by grows_tac.
  apply (sound_at_grows _ _ _ G) in Hs. now apply sound_at_set_roots.
Qed.

Lemma sound_set_hubs hs s :
  sound s -> length (hubs s) <= length hs ->
  Forall (ok_hub (sizes_of (set_hubs hs s))) hs -> sound (set_hubs hs s).
Proof.
  intros Hs Hl Hp.
  assert (G : grows (sizes_of s) (sizes_of (set_hubs hs s))) by grows_tac.
  apply (sound_at_grows _ _ _ G) in Hs. now apply sound_at_set_hubs.
Qed.

Lemma sound_set_streams ss s :
  sound s -> length (streams s) <= length ss ->
  Forall (ok_stream (sizes_of (set_streams ss s))) ss -> sound (set_streams ss s).
Proof.
  intros Hs Hl Hp.
  assert (G : grows (sizes_of s) (sizes_of (set_streams ss s))) by grows_tac.
  apply (sound_at_grows _ _ _ G) in Hs. now apply sound_at_set_streams.
Qed.

Lemma sound_set_promises ps s :
  sound s -> length (promises s) <= length ps ->
  Forall (fun pr => pr <> Rejected) ps -> sound (set_promises ps s).
Proof.
  intros Hs Hl Hq.
  assert (G : grows (sizes_of s) (sizes_of (set_promises ps s))) by grows_tac.
  apply (sound_at_grows _ _ _ G) in Hs.
  destruct Hs as (H1 & H2 & H3 & H4 & H5 & H6).
  refine (conj _ (conj _ (conj _ (conj _ (conj _ _))))); try assumption.
  destruct H6 as (F1 & F2 & F3 & F4 & F5 & F6 & F7 & _).
  refine (conj _ (conj _ (conj _ (conj _ (conj _ (conj _ (conj _ _))))))); assumption.
Qed.

Lemma sound_set_rules rs s :
  sound s -> length (rules s) <= length rs -> sound (set_rules rs s).
Proof.
  intros Hs Hl.
  assert (G : grows (sizes_of s) (sizes_of (set_rules rs s))) by grows_tac.
  apply (sound_at_grows _ _ _ G) in Hs. exact Hs.
Qed.

(** Assigning a field of [this]. *)
Lemma sound_set_ui_disposables r s :
  sound s -> r < length (roots s) -> sound (set_ui_disposables (Some r) s).
Proof.
  intros (H1 & H2 & H3 & H4 & H5 & H6) Hr.
  refine (conj _ (conj _ (conj _ (conj _ (conj _ _))))); try assumption.
  destruct H6 as (_ & H6). split; [|exact H6]. exists r. now split.
Qed.

Lemma sound_set_ui_emitter e s :
  sound s -> e < length (hubs s) -> sound (set_ui_emitter (Some e) s).
Proof.
  intros (H1 & H2 & H3 & H4 & H5 & H6) Hr.
  refine (conj _ (conj _ (conj _ (conj _ (conj _ _))))); try assumption.
  destruct H6 as (H6 & _ & H7). split; [exact H6|]. split; [|exact H7].
  intros e' E. simpl in E. now inversion E; subst.
Qed.

Lemma sound_set_ui_restoreOffset d s :
  sound s -> d < length (plain s) -> sound (set_ui_restoreOffset (Some d) s).
Proof.
  intros (H1 & H2 & H3 & H4 & H5 & H6) Hr.
  refine (conj _ (conj _ (conj _ (conj _ (conj _ _))))); try assumption.
  destruct H6 as (H6 & H6' & _ & H7). split; [exact H6|]. split; [exact H6'|].
  split; [|exact H7].
  intros e' E. simpl in E. now inversion E; subst.
Qed.

Lemma sound_set_ui_projects l s : sound s -> sound (set_ui_projects (Some l) s).
Proof.
  intros Hs.
  assert (G : grows (sizes_of s) (sizes_of (set_ui_projects (Some l) s))) by grows_tac.
  apply (sound_at_grows _ _ _ G) in Hs. exact Hs.
Qed.

Lemma sound_plain s L : sound s -> grows (sizes_of s) L -> Forall (ok_disposable L) (plain s).
Proof. intros Hs G. apply (sound_at_grows _ _ _ G) in Hs. apply Hs. Qed.

Lemma sound_groups s L : sound s -> grows (sizes_of s) L -> Forall (ok_group L) (groups s).
Proof. intros Hs G. apply (sound_at_grows _ _ _ G) in Hs. apply Hs. Qed.

Lemma sound_roots s L : sound s -> grows (sizes_of s) L -> Forall (ok_root L) (roots s).
Proof. intros Hs G. apply (sound_at_grows _ _ _ G) in Hs. apply Hs. Qed.

Lemma sound_hubs s L : sound s -> grows (sizes_of s) L -> Forall (ok_hub L) (hubs s).
Proof. intros Hs G. apply (sound_at_grows _ _ _ G) in Hs. apply Hs. Qed.

Lemma sound_streams s L : sound s -> grows (sizes_of s) L -> Forall (ok_stream L) (streams s).
Proof. intros Hs G. apply (sound_at_grows _ _ _ G) in Hs. apply Hs. Qed.

Lemma sound_fields s : sound s -> ok_fields (sizes_of s) s.
Proof. intros Hs. apply Hs. Qed.

Lemma sound_root s : sound s -> exists r, ui_disposables s = Some r /\ r < length (roots s).
Proof. intros Hs. apply Hs. Qed.

(** A computation that returns, and leaves a sound state. *)
Definition fine {A} (s : state) (m : M A) (Q : A -> state -> Prop) : Prop :=
  exists a s', m s = Ok a s' /\ sound s' /\ grows (sizes_of s) (sizes_of s') /\ Q a s'.

Lemma fine_intro {A} s (m : M A) (Q : A -> state -> Prop) a s' :
  m s = Ok a s' -> sound s' -> grows (sizes_of s) (sizes_of s') -> Q a s' -> fine s m Q.
Proof. intros. exists a, s'. auto. Qed.

Lemma fine_ret {A} (a : A) s (Q : A -> state -> Prop) :
  sound s -> Q a s -> fine s (ret a) Q.
Proof. intros Hs HQ. apply (fine_intro _ _ _ a s); auto using grows_refl. Qed.

Lemma fine_bind {A B} s (m : M A) (k : A -> M B) Q R :
  fine s m Q ->
  (forall a s', sound s' -> grows (sizes_of s) (sizes_of s') -> Q a s' -> fine s' (k a) R) ->
  fine s (x <- m ;; k x) R.
Proof.
  intros (a & s' & E & Hs' & G & HQ) Hk.
  destruct (Hk a s' Hs' G HQ) as (b & s'' & E' & Hs'' & G' & HR).
  exists b, s''. split; [now rewrite (bind_Ok _ _ _ _ _ E)|].
  split; [assumption|]. split; [|assumption]. eapply grows_trans; eauto.
Qed.

Lemma fine_mono {A} s (m : M A) (Q Q' : A -> state -> Prop) :
  fine s m Q ->
  (forall a s', sound s' -> grows (sizes_of s) (sizes_of s') -> Q a s' -> Q' a s') ->
  fine s m Q'.
Proof.
  intros (a & s' & E & Hs' & G & HQ) H. apply (fine_intro _ _ _ a s'); auto.
Qed.

Lemma fine_any {A} s (m : M A) (Q : A -> state -> Prop) :
  fine s m Q -> fine s m (fun _ _ => True).
Proof. intros H. eapply fine_mono; [exact H|]. auto. Qed.

Lemma fine_modify g s :
  sound (g s) -> grows (sizes_of s) (sizes_of (g s)) ->
  fine s (modify g) (fun _ s' => s' = g s).
Proof. intros Hs G. now apply (fine_intro _ _ _ tt (g s)). Qed.

Lemma fine_deref {A} (store : state -> list A) i a s :
  sound s -> store s !! i = Some a ->
  fine s (deref store i) (fun x s' => x = a /\ s' = s).
Proof.
  intros Hs E. apply (fine_intro _ _ _ a s); auto using grows_refl. now apply deref_Ok.
Qed.

Lemma fine_get s : sound s -> fine s get (fun x s' => x = s /\ s' = s).
Proof. intros Hs. apply (fine_intro _ _ _ s s); auto using grows_refl. Qed.

Lemma fine_root s :
  sound s ->
  fine s (defined ui_disposables) (fun r s' => r < length (roots s) /\ s' = s).
Proof.
  intros Hs. destruct (sound_root s Hs) as (r & E & Hr).
  apply (fine_intro _ _ _ r s); auto using grows_refl. now apply defined_Ok.
Qed.

Lemma fine_forEach {A} (P : sizes -> A -> Prop) (body : A -> M unit) l s :
  (forall L L' x, grows L L' -> P L x -> P L' x) ->
  (forall x s, sound s -> P (sizes_of s) x -> fine s (body x) (fun _ _ => True)) ->
  sound s -> Forall (P (sizes_of s)) l ->
  fine s (forEach body l) (fun _ _ => True).
Proof.
  intros Hmono Hbody. revert s. induction l as [|x l IH]; intros s Hs Hl; simpl.
  - now apply fine_ret.
  - inversion Hl as [|? ? Hx Hl']; subst.
    eapply fine_bind; [now apply Hbody|].
    intros _ s' Hs' G _. apply IH; [assumption|].
    eapply Forall_impl; [exact Hl'|]. intros y. now apply Hmono.
Qed.

(** *** The classes of the [atom] module *)

Lemma members_add {A} `{EqDecision A} (P : A -> Prop) x (c : Composite A) :
  Forall P (c_members c) -> P x -> Forall P (c_members (Composite_add x c)).
Proof.
  intros Hc Hx. unfold Composite_add. destruct (c_disposed c); [assumption|].
  destruct (decide (x ∈ c_members c)); [assumption|]. simpl.
  apply Forall_app. split; [assumption|]. now constructor.
Qed.

Lemma fine_new_plain a s :
  sound s -> ok_action (sizes_of s) a ->
  fine s (new_plain a) (fun d s' => d < length (plain s')).
Proof.
  intros Hs Ha.
  set (s' := set_plain (plain s ++ [mkDisposable false (Some a)]) s).
  assert (G : grows (sizes_of s) (sizes_of s')) by (subst s'; grows_tac).
  exists (length (plain s)), s'. split; [reflexivity|]. split.
  - apply sound_set_plain; [assumption|rewrite length_app; lia|].
    apply Forall_app. split; [now apply sound_plain|].
    constructor; [|constructor]. intros a' E. simpl in E. inversion E; subst a'.
    eapply ok_action_grows; eauto.
  - split; [assumption|]. subst s'. simpl. rewrite length_app. simpl. lia.
Qed.

Lemma fine_new_group ms s :
  sound s -> Forall (fun d => d < length (plain s)) ms ->
  fine s (new_group ms) (fun g s' => g < length (groups s')).
Proof.
  intros Hs Hm.
  set (s' := set_groups (groups s ++ [mkComposite false ms]) s).
  assert (G : grows (sizes_of s) (sizes_of s')) by (subst s'; grows_tac).
  exists (length (groups s)), s'. split; [reflexivity|]. split.
  - apply sound_set_groups; [assumption|rewrite length_app; lia|].
    apply Forall_app. split; [now apply sound_groups|].
    constructor; [|constructor]. exact Hm.
  - split; [assumption|]. subst s'. simpl. rewrite length_app. simpl. lia.
Qed.

Lemma fine_new_root s :
  sound s -> fine s new_root (fun r s' => r < length (roots s')).
Proof.
  intros Hs.
  set (s' := set_roots (roots s ++ [mkComposite false []]) s).
  assert (G : grows (sizes_of s) (sizes_of s')) by (subst s'; grows_tac).
  exists (length (roots s)), s'. split; [reflexivity|]. split.
  - apply sound_set_roots; [assumption|rewrite length_app; lia|].
    apply Forall_app. split; [now apply sound_roots|].
    constructor; [|constructor]. constructor.
  - split; [assumption|]. subst s'. simpl. rewrite length_app. simpl. lia.
Qed.

Lemma fine_new_promise s :
  sound s ->
  fine s new_promise (fun p s' => p < length (promises s') /\ promises s' !! p = Some Pending).
Proof.
  intros Hs.
  set (s' := set_promises (promises s ++ [Pending]) s).
  assert (G : grows (sizes_of s) (sizes_of s')) by (subst s'; grows_tac).
  exists (length (promises s)), s'. split; [reflexivity|]. split.
  - apply sound_set_promises; [assumption|rewrite length_app; lia|].
    apply Forall_app. split; [now apply sound_promises|]. now repeat constructor.
  - split; [assumption|]. subst s'. simpl. rewrite length_app. simpl. split; [lia|].
    rewrite lookup_app_r by lia. now rewrite Nat.sub_diag.
Qed.

Lemma fine_group_add g x s :
  sound s -> g < length (groups s) -> x < length (plain s) ->
  fine s (group_add g x) (fun _ _ => True).
Proof.
  intros Hs Hg Hx. destruct (lookup_lt_is_Some_2 _ _ Hg) as [c Hc].
  unfold group_add. eapply fine_bind; [now apply fine_deref with (a := c)|].
  intros c' s' _ _ [-> ->]. eapply fine_any. apply fine_modify; [|grows_tac].
  apply sound_set_groups; [assumption|now rewrite length_insert|].
  apply Forall_insert; [now apply sound_groups; [|grows_tac]|].
  apply members_add; [|simpl; assumption].
  pose proof (sound_groups s _ Hs (grows_refl _)) as H.
  rewrite Forall_lookup in H. apply (H g c Hc).
Qed.

Lemma fine_group_remove g x s :
  sound s -> g < length (groups s) -> fine s (group_remove g x) (fun _ _ => True).
Proof.
  intros Hs Hg. destruct (lookup_lt_is_Some_2 _ _ Hg) as [c Hc].
  unfold group_remove. eapply fine_bind; [now apply fine_deref with (a := c)|].
  intros c' s' _ _ [-> ->]. eapply fine_any. apply fine_modify; [|grows_tac].
  apply sound_set_groups; [assumption|now rewrite length_insert|].
  apply Forall_insert; [now apply sound_groups; [|grows_tac]|].
  apply Composite_remove_Forall.
  pose proof (sound_groups s _ Hs (grows_refl _)) as H.
  rewrite Forall_lookup in H. apply (H g c Hc).
Qed.

Lemma fine_root_add r x s :
  sound s -> r < length (roots s) -> ok_member (sizes_of s) x ->
  fine s (root_add r x) (fun _ _ => True).
Proof.
  intros Hs Hg Hx. destruct (lookup_lt_is_Some_2 _ _ Hg) as [c Hc].
  unfold root_add. eapply fine_bind; [now apply fine_deref with (a := c)|].
  intros c' s' _ _ [-> ->]. eapply fine_any. apply fine_modify; [|grows_tac].
  apply sound_set_roots; [assumption|now rewrite length_insert|].
  apply Forall_insert; [now apply sound_roots; [|grows_tac]|].
  apply members_add; [|eapply ok_member_grows; [|exact Hx]; grows_tac].
  pose proof (sound_roots s _ Hs (grows_refl _)) as H.
  rewrite Forall_lookup in H. eapply Forall_impl; [apply (H r c Hc)|].
  intros m. apply ok_member_grows. grows_tac.
Qed.

Lemma fine_root_remove r x s :
  sound s -> r < length (roots s) -> fine s (root_remove r x) (fun _ _ => True).
Proof.
  intros Hs Hg. destruct (lookup_lt_is_Some_2 _ _ Hg) as [c Hc].
  unfold root_remove. eapply fine_bind; [now apply fine_deref with (a := c)|].
  intros c' s' _ _ [-> ->]. eapply fine_any. apply fine_modify; [|grows_tac].
  apply sound_set_roots; [assumption|now rewrite length_insert|].
  apply Forall_insert; [now apply sound_roots; [|grows_tac]|].
  apply Composite_remove_Forall.
  pose proof (sound_roots s _ Hs (grows_refl _)) as H.
  rewrite Forall_lookup in H. eapply Forall_impl; [apply (H r c Hc)|].
  intros m. apply ok_member_grows. grows_tac.
Qed.

Lemma fine_hub_off e name f s :
  sound s -> e < length (hubs s) -> fine s (hub_off e name f) (fun _ _ => True).
Proof.
  intros Hs Hg. destruct (lookup_lt_is_Some_2 _ _ Hg) as [em He].
  unfold hub_off. eapply fine_bind; [now apply fine_deref with (a := em)|].
  intros c' s' _ _ [-> ->]. eapply fine_any. apply fine_modify; [|grows_tac].
  apply sound_set_hubs; [assumption|now rewrite length_insert|].
  apply Forall_insert; [now apply sound_hubs; [|grows_tac]|].
  pose proof (sound_hubs s _ Hs (grows_refl _)) as H.
  rewrite Forall_lookup in H. specialize (H e em He).
  unfold ok_hub, Emitter_off_obj in *. now destruct (e_disposed em).
Qed.

Lemma ok_table_off L name f tbl : ok_table L tbl -> ok_table L (table_off name f tbl).
Proof.
  intros Ht n l Hl. apply Forall_forall. intros g Hg.
  destruct (table_off_elem name f tbl n l g Hl Hg) as (l0 & Hl0 & Hg0).
  specialize (Ht n l0 Hl0). rewrite Forall_forall in Ht. now apply Ht.
Qed.

Lemma ok_table_on L name f tbl :
  ok_table L tbl -> ok_cb L name f -> ok_table L (table_on name f tbl).
Proof.
  intros Ht Hf n l Hl. unfold table_on in Hl.
  destruct (tbl !! name) as [l0|] eqn:E.
  - destruct (decide (n = name)) as [->|Hne].
    + rewrite lookup_insert_eq in Hl. inversion Hl; subst l.
      apply Forall_app. split; [now apply (Ht name)|]. now constructor.
    + rewrite lookup_insert_ne in Hl by congruence. now apply (Ht n).
  - destruct (decide (n = name)) as [->|Hne].
    + rewrite lookup_insert_eq in Hl. inversion Hl; subst l. now constructor.
    + rewrite lookup_insert_ne in Hl by congruence. now apply (Ht n).
Qed.

Lemma fine_stream_off e name f s :
  sound s -> e < length (streams s) -> fine s (stream_off e name f) (fun _ _ => True).
Proof.
  intros Hs Hg. destruct (lookup_lt_is_Some_2 _ _ Hg) as [em He].
  unfold stream_off. eapply fine_bind; [now apply fine_deref with (a := em)|].
  intros c' s' _ _ [-> ->]. eapply fine_any. apply fine_modify; [|grows_tac].
  apply sound_set_streams; [assumption|now rewrite length_insert|].
  apply Forall_insert; [now apply sound_streams; [|grows_tac]|].
  pose proof (sound_streams s _ Hs (grows_refl _)) as H.
  rewrite Forall_lookup in H. destruct (H e em He) as (H1 & H2 & tbl & H3 & H4).
  unfold Emitter_off_obj. rewrite H2, H3. simpl.
  split; [exact H1|]. split; [reflexivity|].
  exists (table_off name f tbl). split; [reflexivity|].
  apply ok_table_off. eapply ok_table_grows; [|exact H4]. grows_tac.
Qed.

Lemma fine_run_action d a s :
  sound s -> ok_action (sizes_of s) a -> fine s (run_action d a) (fun _ _ => True).
Proof.
  intros Hs Ha. destruct a as [|e name f|e name f|cd|r off]; simpl in *.
  - now apply fine_ret.
  - destruct (lookup_lt_is_Some_2 _ _ Ha) as [em He].
    pose proof (sound_hubs s _ Hs (grows_refl _)) as H.
    rewrite Forall_lookup in H. specialize (H e em He). unfold ok_hub in H. simpl in H.
    eapply fine_bind; [now apply fine_deref with (a := em)|].
    intros em' s' _ _ [-> ->].
    eapply fine_bind; [now apply fine_group_remove|].
    intros _ s' Hs' G _. apply fine_hub_off; [assumption|].
    destruct G as (_ & _ & _ & G & _). simpl in G. lia.
  - destruct (lookup_lt_is_Some_2 _ _ Ha) as [em He].
    pose proof (sound_streams s _ Hs (grows_refl _)) as H.
    rewrite Forall_lookup in H. destruct (H e em He) as (H1 & _). simpl in H1.
    eapply fine_bind; [now apply fine_deref with (a := em)|].
    intros em' s' _ _ [-> ->].
    eapply fine_bind; [now apply fine_group_remove|].
    intros _ s' Hs' G _. apply fine_stream_off; [assumption|].
    destruct G as (_ & _ & _ & _ & G & _). simpl in G. lia.
  - eapply fine_bind; [now apply fine_root|].
    intros r s' _ _ [Hr ->]. now apply fine_root_remove.
  - destruct (lookup_lt_is_Some_2 _ _ Ha) as [ru Hru].
    eapply fine_bind; [now apply fine_deref with (a := ru)|].
    intros ru' s' _ _ [-> ->]. eapply fine_any. apply fine_modify; [|grows_tac].
    apply sound_set_rules; [assumption|now rewrite length_insert].
Qed.

Lemma fine_Disposable_dispose d s :
  sound s -> d < length (plain s) -> fine s (Disposable_dispose d) (fun _ _ => True).
Proof.
  intros Hs Hd. destruct (lookup_lt_is_Some_2 _ _ Hd) as [o Ho].
  pose proof (sound_plain s _ Hs (grows_refl _)) as H.
  rewrite Forall_lookup in H. specialize (H d o Ho).
  unfold Disposable_dispose.
  eapply fine_bind; [now apply fine_deref with (a := o)|].
  intros o' s' _ _ [-> ->]. destruct (d_disposed o); [now apply fine_ret|].
  eapply fine_bind.
  { apply fine_modify; [|grows_tac].
    apply sound_set_plain; [assumption|now rewrite length_insert|].
    apply Forall_insert; [now apply sound_plain; [|grows_tac]|].
    intros a E. simpl in E. eapply ok_action_grows; [|exact (H a E)]. grows_tac. }
  intros _ s1 Hs1 G1 _.
  eapply fine_bind.
  { instantiate (1 := fun _ _ => True). destruct (d_action o) as [a|] eqn:Ea; [|now apply fine_ret].
    apply fine_run_action; [assumption|]. eapply ok_action_grows; [exact G1|]. now apply H. }
  intros _ s2 Hs2 G2 _. eapply fine_any. apply fine_modify; [|grows_tac].
  apply sound_set_plain; [assumption|now rewrite length_insert|].
  apply Forall_insert; [now apply sound_plain; [|grows_tac]|].
  intros a E. discriminate E.
Qed.

Lemma fine_group_dispose g s :
  sound s -> g < length (groups s) -> fine s (group_dispose g) (fun _ _ => True).
Proof.
  intros Hs Hg. destruct (lookup_lt_is_Some_2 _ _ Hg) as [c Hc].
  pose proof (sound_groups s _ Hs (grows_refl _)) as H.
  rewrite Forall_lookup in H. specialize (H g c Hc).
  unfold group_dispose.
  eapply fine_bind; [now apply fine_deref with (a := c)|].
  intros c' s' _ _ [-> ->]. destruct (c_disposed c); [now apply fine_ret|].
  eapply fine_bind.
  { apply fine_modify; [|grows_tac].
    apply sound_set_groups; [assumption|now rewrite length_insert|].
    apply Forall_insert; [now apply sound_groups; [|grows_tac]|]. exact H. }
  intros _ s1 Hs1 G1 ->.
  eapply fine_bind.
  { apply (fine_forEach (fun L d => d < n_plain L)); [|intros; now apply fine_Disposable_dispose|assumption|exact H].
    intros L L' x GL. unfold grows in GL. lia. }
  intros _ s2 Hs2 G2 _. eapply fine_any. apply fine_modify; [|grows_tac].
  apply sound_set_groups; [assumption|now rewrite length_insert|].
  apply Forall_insert; [now apply sound_groups; [|grows_tac]|]. constructor.
Qed.

Lemma fine_member_dispose x s :
  sound s -> ok_member (sizes_of s) x -> fine s (member_dispose x) (fun _ _ => True).
Proof.
  intros Hs Hx. destruct x; simpl in *.
  - now apply fine_Disposable_dispose.
  - now apply fine_group_dispose.
Qed.

Lemma fine_root_dispose r s :
  sound s -> r < length (roots s) -> fine s (root_dispose r) (fun _ _ => True).
Proof.
  intros Hs Hg. destruct (lookup_lt_is_Some_2 _ _ Hg) as [c Hc].
  pose proof (sound_roots s _ Hs (grows_refl _)) as H.
  rewrite Forall_lookup in H. specialize (H r c Hc).
  unfold root_dispose.
  eapply fine_bind; [now apply fine_deref with (a := c)|].
  intros c' s' _ _ [-> ->]. destruct (c_disposed c); [now apply fine_ret|].
  eapply fine_bind.
  { apply fine_modify; [|grows_tac].
    apply sound_set_roots; [assumption|now rewrite length_insert|].
    apply Forall_insert; [now apply sound_roots; [|grows_tac]|].
    eapply Forall_impl; [exact H|]. intros m. apply ok_member_grows. grows_tac. }
  intros _ s1 Hs1 G1 ->.
  eapply fine_bind.
  { apply (fine_forEach ok_member); [|intros; now apply fine_member_dispose|assumption|].
    - intros L L' x GL. now apply ok_member_grows.
    - eapply Forall_impl; [exact H|]. intros m. apply ok_member_grows. grows_tac. }
  intros _ s2 Hs2 G2 _. eapply fine_any. apply fine_modify; [|grows_tac].
  apply sound_set_roots; [assumption|now rewrite length_insert|].
  apply Forall_insert; [now apply sound_roots; [|grows_tac]|]. constructor.
Qed.

Lemma fine_hub_dispose e s :
  sound s -> e < length (hubs s) -> fine s (hub_dispose e) (fun _ _ => True).
Proof.
  intros Hs He. destruct (lookup_lt_is_Some_2 _ _ He) as [em Hem].
  pose proof (sound_hubs s _ Hs (grows_refl _)) as H.
  rewrite Forall_lookup in H. specialize (H e em Hem). unfold ok_hub in H. simpl in H.
  unfold hub_dispose, Emitter_dispose.
  eapply fine_bind; [now apply fine_deref with (a := em)|].
  intros c' s' _ _ [-> ->].
  eapply fine_bind; [now apply fine_group_dispose|].
  intros _ s1 Hs1 G1 _. eapply fine_any. apply fine_modify; [|grows_tac].
  apply sound_set_hubs; [assumption|now rewrite length_alter|].
  apply Forall_alter; [now apply sound_hubs; [|grows_tac]|].
  intros em' _ H1. exact H1.
Qed.

Lemma fine_hub_new s : sound s -> fine s hub_new (fun e s' => e < length (hubs s')).
Proof.
  intros Hs. unfold hub_new, Emitter_new.
  eapply fine_bind; [apply fine_new_group; [assumption|constructor]|].
  intros g s1 Hs1 G1 Hg.
  set (s' := set_hubs (hubs s1 ++ [mkEmitter false g (Some ∅)]) s1).
  apply (fine_intro _ _ _ (length (hubs s1)) s'); [reflexivity| |subst s'; grows_tac|].
  - apply sound_set_hubs; [assumption|rewrite length_app; lia|].
    apply Forall_app. split; [now apply sound_hubs; [|grows_tac]|].
    constructor; [|constructor]. exact Hg.
  - subst s'. simpl. rewrite length_app. simpl. lia.
Qed.

Lemma fine_stream_new s : sound s -> fine s stream_new (fun e s' => e < length (streams s')).
Proof.
  intros Hs. unfold stream_new, Emitter_new.
  eapply fine_bind; [apply fine_new_group; [assumption|constructor]|].
  intros g s1 Hs1 G1 Hg.
  set (s' := set_streams (streams s1 ++ [mkEmitter false g (Some ∅)]) s1).
  apply (fine_intro _ _ _ (length (streams s1)) s'); [reflexivity| |subst s'; grows_tac|].
  - apply sound_set_streams; [assumption|rewrite length_app; lia|].
    apply Forall_app. split; [now apply sound_streams; [|grows_tac]|].
    constructor; [|constructor]. split; [exact Hg|]. split; [reflexivity|].
    exists ∅. split; [reflexivity|]. intros n l E. now rewrite lookup_empty in E.
  - subst s'. simpl. rewrite length_app. simpl. lia.
Qed.

Lemma fine_hub_on e name f s em tbl :
  sound s -> hubs s !! e = Some em -> e_disposed em = false ->
  e_handlers em = Some tbl -> inherited name tbl = false ->
  fine s (hub_on e name f) (fun d s' => d < length (plain s')).
Proof.
  intros Hs He Hd Ht Hn.
  pose proof (sound_hubs s _ Hs (grows_refl _)) as H.
  rewrite Forall_lookup in H. specialize (H e em He). unfold ok_hub in H. simpl in H.
  unfold hub_on, Emitter_on.
  eapply fine_bind; [now apply fine_deref with (a := em)|].
  intros c' s' _ _ [-> ->]. rewrite Hd, Ht.
  eapply fine_bind; [now apply fine_ret with (Q := fun x s' => x = tbl /\ s' = s)|].
  intros tbl' s' _ _ [-> ->]. rewrite Hn.
  eapply fine_bind.
  { apply fine_modify; [|grows_tac].
    apply sound_set_hubs; [assumption|now rewrite length_insert|].
    apply Forall_insert; [now apply sound_hubs; [|grows_tac]|]. exact H. }
  intros _ s1 Hs1 G1 _.
  eapply fine_bind.
  { apply fine_new_plain; [assumption|]. simpl. apply lookup_lt_Some in He.
    destruct G1 as (_ & _ & _ & G1 & _). simpl in G1. lia. }
  intros d s2 Hs2 G2 Hd2.
  eapply fine_bind.
  { apply fine_group_add; [assumption| |exact Hd2].
    destruct G1 as (_ & G1 & _), G2 as (_ & G2 & _). simpl in *. lia. }
  intros _ s3 Hs3 G3 _. apply fine_ret; [assumption|].
  destruct G3 as (G3 & _). simpl in *. lia.
Qed.

Lemma fine_stream_on e name f s :
  sound s -> e < length (streams s) -> ok_cb (sizes_of s) name f ->
  is_inherited name = false ->
  fine s (stream_on e name f) (fun d s' => d < length (plain s')).
Proof.
  intros Hs He Hf Hn. destruct (lookup_lt_is_Some_2 _ _ He) as [em Hem].
  pose proof (sound_streams s _ Hs (grows_refl _)) as H.
  rewrite Forall_lookup in H. destruct (H e em Hem) as (H1 & H2 & tbl & H3 & H4).
  simpl in H1.
  unfold stream_on, Emitter_on.
  eapply fine_bind; [now apply fine_deref with (a := em)|].
  intros c' s' _ _ [-> ->]. rewrite H2, H3.
  eapply fine_bind; [now apply fine_ret with (Q := fun x s' => x = tbl /\ s' = s)|].
  intros tbl' s' _ _ [-> ->]. rewrite (inherited_own _ _ Hn).
  eapply fine_bind.
  { apply fine_modify; [|grows_tac].
    apply sound_set_streams; [assumption|now rewrite length_insert|].
    apply Forall_insert; [now apply sound_streams; [|grows_tac]|].
    split; [exact H1|]. split; [reflexivity|].
    exists (table_on name f tbl). split; [reflexivity|].
    apply ok_table_on; [eapply ok_table_grows; [|exact H4]; grows_tac|].
    eapply ok_cb_grows; [|exact Hf]. grows_tac. }
  intros _ s1 Hs1 G1 _.
  eapply fine_bind.
  { apply fine_new_plain; [assumption|]. simpl.
    destruct G1 as (_ & _ & _ & _ & G1 & _). simpl in G1. lia. }
  intros d s2 Hs2 G2 Hd2.
  eapply fine_bind.
  { apply fine_group_add; [assumption| |exact Hd2].
    destruct G1 as (_ & G1 & _), G2 as (_ & G2 & _). simpl in *. lia. }
  intros _ s3 Hs3 G3 _. apply fine_ret; [assumption|].
  destruct G3 as (G3 & _). simpl in *. lia.
Qed.

(** *** The class *)

Ltac sizes_lia :=
  repeat match goal with G : grows _ _ |- _ => destruct G as (? & ? & ? & ? & ? & ? & ? & ?) end;
  simpl in *; lia.

Lemma fine_defined {A} (field : state -> option A) a s :
  sound s -> field s = Some a ->
  fine s (defined field) (fun x s' => x = a /\ s' = s).
Proof.
  intros Hs E. apply (fine_intro _ _ _ a s); auto using grows_refl. now apply defined_Ok.
Qed.

Lemma fine_emit_log ev s : sound s -> fine s (emit_log ev) (fun _ _ => True).
Proof.
  intros Hs. unfold emit_log. eapply fine_any. apply fine_modify; [exact Hs|grows_tac].
Qed.

Lemma fine_setImmediate t s : sound s -> fine s (setImmediate t) (fun _ _ => True).
Proof.
  intros Hs. unfold setImmediate. eapply fine_any. apply fine_modify; [exact Hs|grows_tac].
Qed.

Lemma fine_call_hfn f v s : sound s -> fine s (call_hfn f v) (fun _ _ => True).
Proof.
  intros Hs. destruct f; simpl; [now apply fine_emit_log|now apply fine_setImmediate].
Qed.

Lemma fine_hub_emit_own e name v s :
  sound s -> e < length (hubs s) ->
  (forall em tbl, hubs s !! e = Some em -> e_handlers em = Some tbl ->
                  inherited name tbl = false) ->
  fine s (hub_emit e name v) (fun _ _ => True).
Proof.
  intros Hs He Hn. destruct (lookup_lt_is_Some_2 _ _ He) as [em Hem].
  unfold hub_emit, Emitter_emit.
  eapply fine_bind; [now apply fine_deref with (a := em)|].
  intros em' s' _ _ [-> ->].
  destruct (e_handlers em) as [tbl|] eqn:Et; [|now apply fine_ret].
  rewrite (Hn em tbl Hem Et).
  destruct (tbl !! name) as [l|]; [|now apply fine_ret].
  apply (fine_forEach (fun _ _ => True)); auto.
  - intros. now apply fine_call_hfn.
  - now apply Forall_true.
Qed.

Lemma fine_hub_emit e name v s :
  sound s -> e < length (hubs s) -> is_inherited name = false ->
  fine s (hub_emit e name v) (fun _ _ => True).
Proof.
  intros Hs He Hn. apply fine_hub_emit_own; [assumption|assumption|].
  intros em tbl _ _. now apply inherited_own.
Qed.

Lemma fine_reset s : sound s -> fine s reset (fun _ _ => True).
Proof.
  intros Hs. unfold reset.
  eapply fine_bind; [now apply fine_get|]. intros s0 s' _ _ [-> ->].
  destruct (sound_fields s Hs) as ((r & Hr & Hrl) & He & _). simpl in Hrl, He.
  rewrite Hr.
  eapply fine_bind; [now apply fine_root_dispose|]. intros _ s1 Hs1 G1 _.
  eapply fine_bind.
  { instantiate (1 := fun _ _ => True).
    destruct (ui_emitter s) as [e|]; [|now apply fine_ret].
    apply fine_hub_dispose; [assumption|]. specialize (He e eq_refl).
    destruct G1 as (_ & _ & _ & G1 & _). simpl in G1. lia. }
  intros _ s2 Hs2 G2 _.
  eapply fine_bind; [now apply fine_new_root|]. intros r' s3 Hs3 G3 Hr'.
  eapply fine_bind.
  { apply fine_modify; [now apply sound_set_ui_disposables|grows_tac]. }
  intros _ s4 Hs4 G4 _.
  eapply fine_bind; [now apply fine_hub_new|]. intros e' s5 Hs5 G5 He'.
  eapply fine_any. apply fine_modify; [now apply sound_set_ui_emitter|grows_tac].
Qed.

(** [subscribe] returns, unless the table of the hub has the name of the
    event from [Object.prototype]. *)
Lemma subscribe_outcome name h s :
  sound s -> hub_live s ->
  fine s (subscribe name h) (fun d s' => d < length (plain s')) \/
  (is_inherited name = true /\
   exists s', subscribe name h s = Throw TypeError s' /\ sound s').
Proof.
  intros Hs (e & em & tbl & Hu & He & Hd & Ht & Hsub).
  assert (Hc : sound (consumed s)) by (unfold consumed; destruct (delayNext s); exact Hs).
  assert (Hz : sizes_of (consumed s) = sizes_of s).
  { unfold consumed. now destruct (delayNext s). }
  assert (He' : hubs (consumed s) !! e = Some em) by now rewrite consumed_hubs.
  destruct (inherited name tbl) eqn:Ei.
  - right. split; [eapply inherited_true; eauto|]. exists (consumed s).
    split; [|exact Hc]. rewrite subscribe_unfold, Hu.
    now apply hub_on_inherited with em tbl.
  - left.
    destruct (fine_hub_on e name (wrapped s h) (consumed s) em tbl Hc He' Hd Ht Ei)
      as (d & s' & E & Hs' & G & HQ).
    apply (fine_intro _ _ _ d s'); [|exact Hs'| |exact HQ].
    + now rewrite subscribe_unfold, Hu.
    + now rewrite <- Hz.
Qed.

Lemma fine_subscribe name h s :
  sound s -> hub_live s -> is_inherited name = false ->
  fine s (subscribe name h) (fun d s' => d < length (plain s')).
Proof.
  intros Hs Hl Hn. destruct (subscribe_outcome name h s Hs Hl) as [F|[Hi _]]; [exact F|].
  congruence.
Qed.

(** [emit] returns, unless the table of the hub has the name of the event
    from [Object.prototype]. *)
Lemma emit_outcome name args s :
  sound s ->
  fine s (emit name args) (fun _ _ => True) \/
  (is_inherited name = true /\ exists s', emit name args s = Throw TypeError s' /\ sound s').
Proof.
  intros Hs. destruct (ui_emitter s) as [e|] eqn:E.
  2: { left. apply (fine_intro _ _ _ tt s); auto using grows_refl.
       unfold emit, bind, get. now rewrite E. }
  destruct (sound_fields s Hs) as (_ & He & _). specialize (He e E). simpl in He.
  destruct (lookup_lt_is_Some_2 _ _ He) as [em Hem].
  set (v := default VUndefined (head args)).
  set (s1 := set_log (log s ++ [Emitted name v]) s).
  assert (Hs1 : sound s1) by exact Hs.
  assert (E1 : emit name args s = hub_emit e name v s1).
  { unfold emit, bind, get. now rewrite E. }
  assert (Hcase : (exists tbl, e_handlers em = Some tbl /\ inherited name tbl = true) \/
                  (forall em' tbl, hubs s1 !! e = Some em' -> e_handlers em' = Some tbl ->
                                   inherited name tbl = false)).
  { destruct (e_handlers em) as [tbl|] eqn:Et.
    - destruct (inherited name tbl) eqn:Ei; [left; now exists tbl|].
      right. intros em' tbl' Hem' Et'. change (hubs s1) with (hubs s) in Hem'.
      rewrite Hem in Hem'. injection Hem' as <-. rewrite Et in Et'. now injection Et' as <-.
    - right. intros em' tbl' Hem' Et'. change (hubs s1) with (hubs s) in Hem'.
      rewrite Hem in Hem'. injection Hem' as <-. rewrite Et in Et'. discriminate. }
  destruct Hcase as [(tbl & Et & Ei)|Hown].
  - right. split; [eapply inherited_true; eauto|]. exists s1. split; [|exact Hs1].
    rewrite E1. unfold hub_emit, Emitter_emit, bind, deref.
    change (hubs s1) with (hubs s). now rewrite Hem, Et, Ei.
  - left. destruct (fine_hub_emit_own e name v s1 Hs1 He Hown) as (a & s' & E' & Hs' & G & _).
    apply (fine_intro _ _ _ a s'); [now rewrite E1|exact Hs'|exact G|exact I].
Qed.

Lemma fine_emit name args s :
  sound s -> is_inherited name = false -> fine s (emit name args) (fun _ _ => True).
Proof.
  intros Hs Hn. destruct (emit_outcome name args s Hs) as [F|[Hi _]]; [exact F|].
  congruence.
Qed.

Lemma fine_setProjects to s :
  sound s -> n_inited (sizes_of s) = true -> fine s (setProjects to) (fun _ _ => True).
Proof.
  intros Hs Hi. simpl in Hi. destruct (ui_projects s) as [from|] eqn:E; [|discriminate].
  unfold setProjects.
  eapply fine_bind; [now apply fine_defined with (a := from)|].
  intros from' s' _ _ [-> ->].
  destruct (decide (join newline from <> join newline to)); [|now apply fine_ret].
  eapply fine_bind.
  { apply fine_modify; [now apply sound_set_ui_projects|grows_tac]. }
  intros _ s1 Hs1 G1 _.
  eapply fine_bind.
  { instantiate (1 := fun _ _ => True). destruct to; now apply fine_emit. }
  intros _ s2 Hs2 G2 _. now apply fine_emit.
Qed.

Lemma fine_patchOffset r ru s :
  sound s -> r < length (rules s) -> fine s (patchOffset r ru) (fun _ _ => True).
Proof.
  intros Hs Hr. unfold patchOffset. cbv zeta.
  eapply fine_bind.
  { apply fine_modify; [|grows_tac].
    apply sound_set_rules; [assumption|now rewrite length_insert]. }
  intros _ s1 Hs1 G1 _.
  eapply fine_bind; [now apply fine_get|]. intros s0 s' _ _ [-> ->].
  eapply fine_bind.
  { instantiate (1 := fun _ _ => True).
    destruct (ui_restoreOffset s1) as [old|] eqn:E; [|now apply fine_ret].
    destruct (sound_fields s1 Hs1) as (_ & _ & Ho & _). specialize (Ho old E).
    eapply fine_bind; [now apply fine_Disposable_dispose|]. intros _ s2 Hs2 G2 _.
    eapply fine_bind; [now apply fine_root|]. intros d s3 _ _ [Hd ->].
    now apply fine_root_remove. }
  intros _ s2 Hs2 G2 _.
  eapply fine_bind.
  { apply fine_new_plain; [assumption|]. simpl.
    destruct G1 as (_ & _ & _ & _ & _ & _ & G1 & _).
    destruct G2 as (_ & _ & _ & _ & _ & _ & G2 & _). simpl in *. lia. }
  intros n s3 Hs3 G3 Hn.
  eapply fine_bind.
  { apply fine_modify; [now apply sound_set_ui_restoreOffset|grows_tac]. }
  intros _ s4 Hs4 G4 ->.
  eapply fine_bind; [now apply fine_root|]. intros d s5 _ _ [Hd ->].
  apply fine_root_add; [assumption|assumption|]. exact Hn.
Qed.

Lemma fine_fixOffset_rules rs s :
  sound s -> Forall (fun r => r < length (rules s)) rs ->
  fine s (fixOffset_rules rs) (fun _ _ => True).
Proof.
  intros Hs. induction rs as [|r rs IH]; intros Hrs; simpl.
  - now apply fine_ret.
  - inversion Hrs as [|? ? Hr Hrs']; subst.
    destruct (lookup_lt_is_Some_2 _ _ Hr) as [ru Hru].
    eapply fine_bind; [now apply fine_deref with (a := ru)|].
    intros ru' s' _ _ [-> ->].
    destruct (decide (selectorText ru = Some offsetSelector /\ style_top ru <> "")).
    + eapply fine_bind; [now apply fine_patchOffset|].
      intros _ s1 Hs1 _ _. now apply fine_ret.
    + now apply IH.
Qed.

Lemma fine_fixOffset_sheets sheets s :
  sound s ->
  Forall (fun sh => Forall (fun r => r < length (rules s)) (cssRules sh)) sheets ->
  fine s (fixOffset_sheets sheets) (fun _ _ => True).
Proof.
  revert s. induction sheets as [|sh sheets IH]; intros s Hs Hsh; simpl.
  - now apply fine_ret.
  - inversion Hsh as [|? ? H1 H2]; subst.
    eapply fine_bind; [now apply fine_fixOffset_rules|].
    intros b s1 Hs1 G1 _. destruct b; [now apply fine_ret|].
    apply IH; [assumption|].
    eapply Forall_impl; [exact H2|]. intros sh' Hsh'.
    eapply Forall_impl; [exact Hsh'|]. intros r' Hr'.
    destruct G1 as (_ & _ & _ & _ & _ & _ & G1 & _). simpl in *. lia.
Qed.

Lemma fine_fixOffset s : sound s -> fine s fixOffset (fun _ _ => True).
Proof.
  intros Hs. unfold fixOffset.
  eapply fine_bind; [now apply fine_get|]. intros s0 s' _ _ [-> ->].
  apply fine_fixOffset_sheets; [assumption|].
  destruct (sound_fields s Hs) as (_ & _ & _ & _ & _ & _ & H & _). exact H.
Qed.

Lemma fine_resolve p v s :
  sound s -> p < length (promises s) -> fine s (resolve p v) (fun _ _ => True).
Proof.
  intros Hs Hp. unfold resolve.
  eapply fine_bind; [now apply fine_emit_log|]. intros _ s1 Hs1 G1 _.
  assert (Hp1 : p < length (promises s1)).
  { destruct G1 as (_ & _ & _ & _ & _ & G1 & _). simpl in G1. lia. }
  destruct (lookup_lt_is_Some_2 _ _ Hp1) as [pr Hpr].
  eapply fine_bind; [now apply fine_deref with (a := pr)|].
  intros pr' s' _ _ [-> ->].
  destruct pr; try now apply fine_ret.
  eapply fine_any. apply fine_modify; [|grows_tac].
  apply sound_set_promises; [assumption|now rewrite length_insert|].
  apply Forall_insert; [now apply sound_promises|discriminate].
Qed.

Lemma fine_init s :
  sound s -> fine s init (fun _ s' => n_inited (sizes_of s') = true).
Proof.
  intros Hs. unfold init.
  eapply fine_bind.
  { apply fine_modify; [now apply sound_set_ui_projects|grows_tac]. }
  intros u1 s1 Hs1 G1 E1. simpl in E1.
  assert (I1 : n_inited (sizes_of s1) = true) by now rewrite E1.
  eapply fine_bind; [apply fine_modify; [exact Hs1|grows_tac]|].
  intros u2 s2 Hs2 G2 _.
  assert (I2 : n_inited (sizes_of s2) = true) by (now apply G2).
  eapply fine_bind; [now apply fine_root|]. intros r s' _ _ [Hr ->].
  eapply fine_bind; [now apply fine_get|]. intros s0 s' _ _ [-> ->].
  eapply fine_bind; [apply fine_modify; [exact Hs2|grows_tac]|].
  intros u3 s3 Hs3 G3 _.
  assert (I3 : n_inited (sizes_of s3) = true) by (now apply G3).
  destruct (sound_fields s2 Hs2) as (_ & _ & _ & Hp & Ht & _). simpl in Hp, Ht.
  eapply fine_bind.
  { apply fine_stream_on; [assumption| |now split|reflexivity].
    destruct G3 as (_ & _ & _ & _ & G3 & _). simpl in G3. lia. }
  intros d1 s4 Hs4 G4 Hd1.
  eapply fine_bind.
  { apply fine_stream_on; [assumption| |exact I|reflexivity].
    destruct G3 as (_ & _ & _ & _ & G3 & _), G4 as (_ & _ & _ & _ & G4 & _).
    simpl in *. lia. }
  intros d2 s5 Hs5 G5 Hd2.
  assert (G25 : grows (sizes_of s2) (sizes_of s5)).
  { eapply grows_trans; [exact G3|]. eapply grows_trans; [exact G4|exact G5]. }
  assert (I5 : n_inited (sizes_of s5) = true) by (now apply G25).
  eapply fine_bind.
  { apply fine_root_add; [assumption| |]; clear G25; sizes_lia. }
  intros _ s6 Hs6 G6 _.
  eapply fine_mono.
  { apply fine_root_add; [assumption| |]; clear G25; sizes_lia. }
  intros _ s7 _ G7 _. apply G7. apply G6. exact I5.
Qed.

Lemma fine_waitToSave editor s :
  sound s -> editor < length (streams s) ->
  fine s (waitToSave editor)
       (fun p s' => p < length (promises s') /\ promises s' !! p = Some Pending).
Proof.
  intros Hs He.
  destruct (sound_root s Hs) as (root & Hu & Hrl).
  destruct (lookup_lt_is_Some_2 _ _ Hrl) as [rc Hrc].
  destruct (lookup_lt_is_Some_2 _ _ He) as [em Hem].
  pose proof (sound_streams s _ Hs (grows_refl _)) as H.
  rewrite Forall_lookup in H. destruct (H editor em Hem) as (H1 & H2 & tbl & H3 & H4).
  simpl in H1. clear H.
  destruct (lookup_lt_is_Some_2 _ _ H1) as [sc Hsc].
  set (p := length (promises s)).
  set (s0 := set_promises (promises s ++ [Pending]) s).
  set (s' := arm_state editor root em tbl sc rc p s0).
  assert (Hs0 : sound s0).
  { apply sound_set_promises; [assumption|rewrite length_app; lia|].
    apply Forall_app. split; [now apply sound_promises|]. now repeat constructor. }
  assert (G0 : grows (sizes_of s) (sizes_of s0)) by (subst s0; grows_tac).
  assert (G : grows (sizes_of s0) (sizes_of s')).
  { subst s' s0. unfold arm_state. grows_tac. }
  assert (Lp : n_plain (sizes_of s') = length (plain s) + 3).
  { subst s' s0. unfold arm_state. simpl. rewrite length_app. simpl. lia. }
  assert (Lg : n_groups (sizes_of s') = S (length (groups s))).
  { subst s' s0. unfold arm_state. simpl. rewrite length_app, length_insert. simpl. lia. }
  assert (Ls : n_streams (sizes_of s') = length (streams s)).
  { subst s' s0. unfold arm_state. simpl. now rewrite length_insert. }
  assert (Lq : n_promises (sizes_of s') = S (length (promises s))).
  { subst s' s0. unfold arm_state. simpl. rewrite length_app. simpl. lia. }
  pose proof (sound_at_grows _ _ _ G Hs0) as Hat.
  apply (fine_intro _ _ _ p s').
  - now apply waitToSave_arms.
  - unfold sound. generalize dependent (sizes_of s'). intros L G Lp Lg Ls Lq Hat.
    subst s'. unfold arm_state.
    apply sound_at_set_roots; [apply sound_at_set_groups;
      [apply sound_at_set_plain; [apply sound_at_set_streams; [exact Hat|]|]|]|].
    + apply Forall_insert; [apply Hat|]. split; [simpl; lia|]. split; [reflexivity|].
      eexists. split; [reflexivity|].
      apply ok_table_on; [apply ok_table_on|].
      * eapply ok_table_grows; [|exact H4]. eapply grows_trans; eauto.
      * simpl. subst s0. simpl. lia.
      * simpl. subst s0 p. simpl. lia.
    + apply Forall_app. split; [apply Hat|].
      repeat (constructor; [intros a E; simpl in E; inversion E; subst a; simpl; try lia|]);
        auto.
    + apply Forall_app. split.
      * apply Forall_insert; [apply Hat|].
        pose proof (sound_groups s0 _ Hs0 G) as Hg. rewrite Forall_lookup in Hg.
        specialize (Hg _ _ Hsc).
        apply members_add; [apply members_add; [exact Hg|]|]; subst s0; simpl; lia.
      * constructor; [|constructor]. unfold ok_group. simpl.
        repeat (constructor; [subst s0; simpl; lia|]). constructor.
    + apply Forall_insert; [apply Hat|].
      pose proof (sound_roots s0 _ Hs0 G) as Hr. rewrite Forall_lookup in Hr.
      specialize (Hr _ _ Hrc).
      apply members_add; [exact Hr|]. subst s0. simpl. lia.
  - eapply grows_trans; eauto.
  - subst s' s0 p. unfold arm_state. simpl. rewrite length_app. simpl. split; [lia|].
    rewrite lookup_app_r by lia. now rewrite Nat.sub_diag.
Qed.

(** *** Notifications *)

(** [atom.project] reports an array of paths, or nothing. *)
Definition fits (name : string) (v : value) : Prop :=
  name = "did-change-paths" ->
  match v with VPaths _ | VUndefined => True | _ => False end.

Lemma fine_call_cb name f v s :
  sound s -> ok_cb (sizes_of s) name f -> fits name v ->
  fine s (call_cb f v) (fun _ _ => True).
Proof.
  intros Hs Hf Hv. destruct f as [k|k|cd|cd p]; simpl in *.
  - destruct Hf as [Hi Hn]. specialize (Hv Hn).
    destruct v; try contradiction; now apply fine_setProjects.
  - eapply fine_bind; [now apply fine_setImmediate|].
    intros _ s1 Hs1 _ _. now apply fine_fixOffset.
  - now apply fine_group_dispose.
  - destruct Hf as [Hg Hp].
    eapply fine_bind; [now apply fine_group_dispose|].
    intros _ s1 Hs1 G1 _. apply fine_resolve; [assumption|]. sizes_lia.
Qed.

Lemma fine_stream_emit e name v s :
  sound s -> e < length (streams s) -> fits name v -> is_inherited name = false ->
  fine s (stream_emit e name v) (fun _ _ => True).
Proof.
  intros Hs He Hv Hn. destruct (lookup_lt_is_Some_2 _ _ He) as [em Hem].
  pose proof (sound_streams s _ Hs (grows_refl _)) as H.
  rewrite Forall_lookup in H. destruct (H e em Hem) as (H1 & H2 & tbl & H3 & H4).
  unfold stream_emit, Emitter_emit.
  eapply fine_bind; [now apply fine_deref with (a := em)|].
  intros em' s' _ _ [-> ->]. rewrite H3, (inherited_own _ _ Hn).
  destruct (tbl !! name) as [l|] eqn:El; [|now apply fine_ret].
  apply (fine_forEach (fun L f => ok_cb L name f)).
  - intros L L' f G. now apply ok_cb_grows.
  - intros f s1 Hs1 Hf. now apply (fine_call_cb name).
  - assumption.
  - exact (H4 name l El).
Qed.

(** *** The theme colour *)

Lemma themeColour_rules_outcome env rs s :
  Forall (fun r => r < length (rules s)) rs ->
  (exists c, themeColour_rules env rs s = Ok c s) \/
  themeColour_rules env rs s = Throw TypeError s.
Proof.
  induction rs as [|r rs IH]; intros Hrs; simpl.
  - left. now exists None.
  - inversion Hrs as [|? ? Hr Hrs']; subst.
    destruct (lookup_lt_is_Some_2 _ _ Hr) as [ru Hru].
    rewrite (bind_Ok _ _ _ _ _ (deref_Ok _ _ _ _ Hru)).
    destruct (decide (selectorText ru = Some ".theme-colour-check")); [|now apply IH].
    destruct (match_rgb env (cssText ru)) as [m|]; [|left; now exists None].
    destruct (match_channels env m) as [l|]; [left; now eexists|now right].
Qed.

Lemma getThemeColour_outcome env s :
  sound s ->
  (exists c, getThemeColour env s = Ok c s) \/ getThemeColour env s = Throw TypeError s.
Proof.
  intros Hs. unfold getThemeColour, getStyleElement, bind, defined, get, ret.
  destruct (packagePath s) as [pkg|]; [|now right].
  destruct (List.find _ (styleSheets s)) as [sh|] eqn:E; [|now right].
  apply themeColour_rules_outcome.
  apply find_some in E. destruct E as [Hin _].
  destruct (sound_fields s Hs) as (_ & _ & _ & _ & _ & _ & H & _).
  rewrite Forall_forall in H. apply H. now apply list_elem_of_In.
Qed.

Lemma fine_motif_edge b s : sound s -> fine s (motif_edge b) (fun _ _ => True).
Proof.
  intros Hs. unfold motif_edge.
  eapply fine_bind; [now apply fine_get|]. intros s0 s' _ _ [-> ->].
  destruct (decide (Some b <> ui_lightTheme s)); [|now apply fine_ret].
  eapply fine_bind; [apply fine_modify; [exact Hs|grows_tac]|].
  intros _ s1 Hs1 _ _. now apply fine_emit.
Qed.

Lemma checkMotif_outcome env s :
  sound s ->
  fine s (checkMotif env) (fun _ _ => True) \/ checkMotif env s = Throw TypeError s.
Proof.
  intros Hs. unfold checkMotif.
  destruct (getThemeColour_outcome env s Hs) as [[c E]|E].
  - left. destruct c as [c|].
    + destruct (fine_motif_edge (isLightColour env c) s Hs) as (a & s' & E' & H).
      exists a, s'. split; [|exact H]. now rewrite (bind_Ok _ _ _ _ _ E).
    + exists tt, s. split; [now rewrite (bind_Ok _ _ _ _ _ E)|].
      split; [assumption|]. split; [apply grows_refl|exact I].
  - right. now rewrite (bind_Throw _ _ _ _ _ E).
Qed.

(** *** Every call *)

Lemma turn_outcome env s :
  sound s ->
  fine s (turn env) (fun _ _ => True) \/
  exists ts, immediates s = TCheckMotif :: ts /\
             turn env s = Throw TypeError (set_immediates ts s).
Proof.
  intros Hs.
  assert (E0 : turn env s = match immediates s with
                            | [] => Ok tt s
                            | t :: ts => run_task env t (set_immediates ts s)
                            end).
  { unfold turn, bind, get, modify, ret. now destruct (immediates s). }
  destruct (immediates s) as [|t ts] eqn:E.
  - left. apply (fine_intro _ _ _ tt s); auto using grows_refl.
  - assert (Hs' : sound (set_immediates ts s)) by exact Hs.
    assert (G : grows (sizes_of s) (sizes_of (set_immediates ts s))) by apply grows_refl.
    destruct t as [h v|]; simpl in E0.
    + left. destruct (fine_emit_log (Called h v) _ Hs') as (a & s' & E' & H1 & H2 & H3).
      apply (fine_intro _ _ _ a s'); auto. now rewrite E0.
    + destruct (checkMotif_outcome env _ Hs') as [(a & s' & E' & H1 & H2 & H3)|T].
      * left. apply (fine_intro _ _ _ a s'); auto. now rewrite E0.
      * right. exists ts. split; [reflexivity|]. now rewrite E0.
Qed.

(** The objects a call names are there. *)
Definition call_ok (s : state) (c : call) : Prop :=
  match c with
  | CDispose d => d < length (plain s)
  | CWaitToSave editor | CPathChanged editor _ | CDestroyed editor =>
      editor < length (streams s)
  | _ => True
  end.

(** The calls that can throw, and when. *)
Definition may_throw (s : state) (c : call) : Prop :=
  match c with
  | CCheckMotif => True
  | CTurn => exists ts, immediates s = TCheckMotif :: ts
  | CSetProjects _ => ui_projects s = None
  | CSubscribe name _ | CEmit name _ => is_inherited name = true
  | _ => False
  end.

Lemma exec_outcome env c s :
  sound s -> hub_live s -> call_ok s c ->
  fine s (exec env c) (fun _ _ => True) \/
  (may_throw s c /\ exists s', exec env c s = Throw TypeError s' /\ sound s').
Proof.
  intros Hs Hl Hc. destruct c; simpl in *.
  - left. eapply fine_any. now apply fine_init.
  - left. now apply fine_reset.
  - left. unfold delay. eapply fine_any. apply fine_modify; [exact Hs|grows_tac].
  - destruct (subscribe_outcome name h s Hs Hl) as [F|(Hi & s' & E & Hs')].
    + left. eapply fine_bind; [exact F|]. intros _ s1 Hs1 _ _. now apply fine_ret.
    + right. split; [exact Hi|]. exists s'. split; [|exact Hs'].
      now rewrite (bind_Throw _ _ _ _ _ E).
  - destruct (emit_outcome name args s Hs) as [F|(Hi & s' & E & Hs')]; [now left|].
    right. split; [exact Hi|]. now exists s'.
  - destruct (ui_projects s) as [from|] eqn:E.
    + left. apply fine_setProjects; [assumption|]. simpl. now rewrite E.
    + right. split; [reflexivity|]. exists s. split; [|assumption].
      unfold setProjects, bind, defined. now rewrite E.
  - destruct (checkMotif_outcome env s Hs) as [F|T]; [now left|].
    right. split; [exact I|]. now exists s.
  - left. now apply fine_fixOffset.
  - left. eapply fine_bind; [now apply fine_waitToSave|]. intros _ s1 Hs1 _ _.
    now apply fine_ret.
  - left. now apply fine_Disposable_dispose.
  - left. apply fine_stream_emit; [assumption|assumption| |reflexivity].
    intros Hn. discriminate Hn.
  - left. apply fine_stream_emit; [assumption|assumption| |reflexivity].
    intros Hn. discriminate Hn.
  - left. eapply fine_bind; [now apply fine_get|]. intros s0 s' _ _ [-> ->].
    apply fine_stream_emit; [assumption|apply Hs| |reflexivity]. intros _. exact I.
  - left. eapply fine_bind; [now apply fine_get|]. intros s0 s' _ _ [-> ->].
    apply fine_stream_emit; [assumption|apply Hs| |reflexivity]. intros Hn. discriminate Hn.
  - left. eapply fine_bind; [now apply fine_stream_new|]. intros _ s1 Hs1 _ _.
    now apply fine_ret.
  - destruct (turn_outcome env s Hs) as [F|(ts & E & T)]; [now left|].
    right. split; [now exists ts|]. exists (set_immediates ts s). split; [assumption|exact Hs].
Qed.

(** What holds between two calls. *)
Definition steady (s : state) : Prop := sound s /\ hub_live s.

Lemma steady_exec env c s :
  steady s -> call_ok s c -> steady (final (exec env c s)).
Proof.
  intros [Hs Hl] Hc. split; [|now apply live_exec].
  destruct (exec_outcome env c s Hs Hl Hc) as [(a & s' & E & H & _)|(_ & s' & E & H)];
    now rewrite E.
Qed.

Lemma steady_loaded sheets rs pkg :
  Forall (fun sh => Forall (fun r => r < length rs) (cssRules sh)) sheets ->
  steady (loaded sheets rs pkg).
Proof.
  intros H. split; [|apply live_loaded].
  unfold sound, sound_at, sizes_of, loaded. simpl.
  refine (conj _ (conj _ (conj _ (conj _ (conj _ _))))).
  - constructor.
  - repeat constructor.
  - repeat constructor.
  - repeat constructor.
  - assert (T : ok_table (mkSizes 0 3 1 1 2 0 (length rs) false) ∅).
    { intros n l E. now rewrite lookup_empty in E. }
    repeat (constructor; [split; [simpl; lia|]; split; [reflexivity|];
                          exists ∅; split; [reflexivity|exact T]|]).
    constructor.
  - refine (conj _ (conj _ (conj _ (conj _ (conj _ (conj _ (conj _ _))))))); simpl; try lia.
    + exists 0. split; [reflexivity|lia].
    + intros e E. inversion E. lia.
    + intros d E. discriminate E.
    + exact H.
    + constructor.
Qed.

(** A sequence of calls each of which names objects that are there when it
    is made. *)
Fixpoint calls_ok (env : host) (cs : list call) (s : state) : Prop :=
  match cs with
  | [] => True
  | c :: cs' => call_ok s c /\ calls_ok env cs' (final (exec env c s))
  end.

Lemma steady_run env cs s : steady s -> calls_ok env cs s -> steady (run env cs s).
Proof.
  revert s. induction cs as [|c cs IH]; intros s Hs Hc; simpl in *; [assumption|].
  destruct Hc as [Hc Hcs]. apply IH; [|assumption]. now apply steady_exec.
Qed.

(** X17.  Whatever sequence of calls has been made on the loaded module,
    each naming only objects that exist, the next such call returns, or
    throws a TypeError; and only these calls can throw: [checkMotif], a
    scheduler turn whose oldest pending task is the deferred [checkMotif],
    [setProjects] while [this.projects] is still undefined, and [subscribe]
    and [emit] under an event name that is the name of a property of
    [Object.prototype].  So [init], [reset], [delay], [fixOffset],
    [waitToSave], the disposal of a Disposable, every notification of a
    document, of [atom.project] and of [atom.themes], and [subscribe] and
    [emit] under any other event name always return.  (The functions of
    clients are calls that return: the hub records that it called them.) *)
Theorem calls_throw_only_TypeError env sheets rs pkg cs c :
  Forall (fun sh => Forall (fun r => r < length rs) (cssRules sh)) sheets ->
  calls_ok env cs (loaded sheets rs pkg) ->
  let s := run env cs (loaded sheets rs pkg) in
  call_ok s c ->
  (exists s', exec env c s = Ok tt s') \/
  (may_throw s c /\ exists s', exec env c s = Throw TypeError s').
Proof.
  intros Hsh Hcs s Hc.
  assert (Hst : steady s) by (apply steady_run; [now apply steady_loaded|assumption]).
  destruct Hst as [Hs Hl].
  destruct (exec_outcome env c s Hs Hl Hc) as [(a & s' & E & _)|(Hm & s' & E & _)].
  - left. exists s'. now destruct a.
  - right. split; [assumption|]. now exists s'.
Qed.

Definition busy_calls : list call :=
  [CInit; COpenDocument; CWaitToSave 2; CThemesChanged; CSubscribe "open-file" 5; CReset].

Lemma calls_throw_only_TypeError_witness :
  let s := run demo_host busy_calls (loaded two_offset_sheets two_offset_rules (Some "/pkg")) in
  (exists s', exec demo_host (CPathChanged 2 "a.txt") s = Ok tt s') \/
  (may_throw s (CPathChanged 2 "a.txt") /\
   exists s', exec demo_host (CPathChanged 2 "a.txt") s = Throw TypeError s').
Proof.
  apply (calls_throw_only_TypeError demo_host two_offset_sheets two_offset_rules
           (Some "/pkg") busy_calls (CPathChanged 2 "a.txt")).
  - vm_compute. repeat constructor.
  - vm_compute. repeat split; lia.
  - vm_compute. lia.
Defined.

(** X18.  No promise of [waitToSave] is ever rejected: after any sequence
    of calls on the loaded module, each naming only objects that exist,
    every promise is pending or resolved, and [waitToSave] on a document
    that exists returns a promise that is pending. *)
Theorem waitToSave_never_rejects env sheets rs pkg cs editor :
  Forall (fun sh => Forall (fun r => r < length rs) (cssRules sh)) sheets ->
  calls_ok env cs (loaded sheets rs pkg) ->
  let s := run env cs (loaded sheets rs pkg) in
  editor < length (streams s) ->
  Forall (fun pr => pr <> Rejected) (promises s) /\
  exists p s', waitToSave editor s = Ok p s' /\ promises s' !! p = Some Pending.
Proof.
  intros Hsh Hcs s He.
  assert (Hst : steady s) by (apply steady_run; [now apply steady_loaded|assumption]).
  destruct Hst as [Hs _]. split; [now apply sound_promises|].
  destruct (fine_waitToSave editor s Hs He) as (p & s' & E & _ & _ & _ & Hp).
  now exists p, s'.
Qed.

Lemma waitToSave_never_rejects_witness :
  let s := run demo_host busy_calls (loaded two_offset_sheets two_offset_rules (Some "/pkg")) in
  Forall (fun pr => pr <> Rejected) (promises s) /\
  exists p s', waitToSave 2 s = Ok p s' /\ promises s' !! p = Some Pending.
Proof.
  apply (waitToSave_never_rejects demo_host two_offset_sheets two_offset_rules
           (Some "/pkg") busy_calls 2).
  - vm_compute. repeat constructor.
  - vm_compute. repeat split; lia.
  - vm_compute. lia.
Defined.

(** ** A path change reaches whoever still listens *)

Lemma promises_setProjects to : keeps promises (setProjects to).
Proof.
  unfold setProjects, emitProjectsAvailable, emitProjectsEmptied, emitProjectsChanged,
    emit, hub_emit, Emitter_emit, emit_log.
  keeps_tac; unfold call_hfn, emit_log, setImmediate; keeps_tac.
Qed.

Lemma promises_fixOffset : keeps promises fixOffset.
Proof. apply fr_fixOffset; reflexivity. Qed.

Lemma promises_group_dispose g : keeps promises (group_dispose g).
Proof. apply fr_group_dispose; reflexivity. Qed.

(** Promise [p] has been resolved with [v]; or it may still be. *)
Definition settled (p : nat) (v : value) (s : state) : Prop :=
  promises s !! p = Some (Resolved v).
Definition open_for (p : nat) (v : value) (s : state) : Prop :=
  promises s !! p = Some Pending \/ settled p v s.

Lemma resolve_promise p q v s :
  open_for p v s ->
  open_for p v (final (resolve q v s)) /\
  (settled p v s -> settled p v (final (resolve q v s))) /\
  (q = p -> settled p v (final (resolve q v s))).
Proof.
  intros Ho. unfold resolve, bind, emit_log, modify, deref. simpl.
  destruct (promises s !! q) as [pr|] eqn:E; simpl.
  - destruct pr; simpl.
    + assert (Hq : q < length (promises s)) by (eapply lookup_lt_Some; eauto).
      unfold open_for, settled. simpl. destruct (decide (q = p)) as [->|Hne].
      * rewrite list_lookup_insert_eq by assumption. auto.
      * rewrite list_lookup_insert_ne by assumption.
        repeat split; auto. intros; congruence.
    + repeat split; auto. intros ->. destruct Ho as [Ho|Ho]; [congruence|].
      exact Ho.
    + repeat split; auto. intros ->. destruct Ho as [Ho|Ho]; [congruence|].
      exact Ho.
  - repeat split; auto. intros ->. destruct Ho as [Ho|Ho]; [congruence|].
    unfold settled in Ho. congruence.
Qed.

Lemma call_cb_promise p v f s s' :
  open_for p v s -> call_cb f v s = Ok tt s' ->
  open_for p v s' /\ (settled p v s -> settled p v s') /\
  (forall cd, f = CbChangePath cd p -> settled p v s').
Proof.
  intros Ho E.
  assert (K : forall m : M unit, keeps promises m -> m s = Ok tt s' ->
              open_for p v s' /\ (settled p v s -> settled p v s') /\
              (forall cd, f = CbChangePath cd p -> False) ->
              open_for p v s' /\ (settled p v s -> settled p v s') /\
              (forall cd, f = CbChangePath cd p -> settled p v s')).
  { intros m _ _ (H1 & H2 & H3). repeat split; auto. intros cd Hf. destruct (H3 cd Hf). }
  assert (Kp : forall m : M unit, keeps promises m -> m s = Ok tt s' ->
               promises s' = promises s).
  { intros m Hm Em. specialize (Hm s). now rewrite Em in Hm. }
  destruct f as [k|k|cd|cd q]; simpl in E.
  - assert (Ep : promises s' = promises s).
    { destruct v; try discriminate E; eapply Kp; eauto using promises_setProjects. }
    unfold open_for, settled. rewrite Ep. repeat split; auto. intros; discriminate.
  - assert (Ep : promises s' = promises s).
    { apply (Kp (setImmediate TCheckMotif ;;; fixOffset)); [|exact E].
      apply keeps_bind; [|intros; apply promises_fixOffset].
      unfold setImmediate. keeps_tac. }
    unfold open_for, settled. rewrite Ep. repeat split; auto. intros; discriminate.
  - assert (Ep : promises s' = promises s).
    { eapply Kp; eauto using promises_group_dispose. }
    unfold open_for, settled. rewrite Ep. repeat split; auto. intros; discriminate.
  - unfold bind in E. destruct (group_dispose cd s) as [[] s1|e s1] eqn:E1; [|discriminate].
    assert (Ep : promises s1 = promises s).
    { pose proof (promises_group_dispose cd s) as H. now rewrite E1 in H. }
    assert (Ho1 : open_for p v s1) by (unfold open_for, settled; now rewrite Ep).
    destruct (resolve_promise p q v s1 Ho1) as (H1 & H2 & H3). rewrite E in H1, H2, H3.
    simpl in *. repeat split; auto.
    + intros Hs. apply H2. unfold settled. now rewrite Ep.
    + intros cd' Hf. inversion Hf; subst. now apply H3.
Qed.

Lemma dispatch_settles name p cd v l s :
  sound s -> Forall (ok_cb (sizes_of s) name) l -> fits name v -> open_for p v s ->
  exists s', forEach (fun f => call_cb f v) l s = Ok tt s' /\ open_for p v s' /\
             (settled p v s \/ CbChangePath cd p ∈ l -> settled p v s').
Proof.
  intros Hs Hl Hv. revert s Hs Hl. induction l as [|f l IH]; intros s Hs Hl Ho; simpl.
  - exists s. repeat split; auto. intros [H|H]; [exact H|]. now apply elem_of_nil in H.
  - inversion Hl as [|? ? Hf Hl']; subst.
    destruct (fine_call_cb name f v s Hs Hf Hv) as ([] & s1 & E & Hs1 & G & _).
    destruct (call_cb_promise p v f s s1 Ho E) as (H1 & H2 & H3).
    destruct (IH s1 Hs1) as (s' & E' & Ho' & Hset); [|assumption|].
    { eapply Forall_impl; [exact Hl'|]. intros g. now apply ok_cb_grows. }
    exists s'. split; [now rewrite (bind_Ok _ _ _ _ _ E)|]. split; [assumption|].
    intros [H|H]; apply Hset.
    + left. now apply H2.
    + apply elem_of_cons in H as [<-|H]; [left; now apply (H3 cd)|now right].
Qed.

(** X19.  In any state the loaded module can be brought to by calls that
    name only objects that exist, a path change of a document resolves
    every pending promise whose [onDidChangePath] callback is still
    registered on the document, with the new path; no other callback
    registered there, and no other waiter, keeps it from that. *)
Theorem path_change_resolves_listeners env sheets rs pkg cs editor em tbl cd p file :
  Forall (fun sh => Forall (fun r => r < length rs) (cssRules sh)) sheets ->
  calls_ok env cs (loaded sheets rs pkg) ->
  let s := run env cs (loaded sheets rs pkg) in
  streams s !! editor = Some em -> e_handlers em = Some tbl ->
  CbChangePath cd p ∈ entries tbl "did-change-path" ->
  promises s !! p = Some Pending ->
  exists s', notify_path_changed editor file s = Ok tt s' /\
             promises s' !! p = Some (Resolved (VString file)).
Proof.
  intros Hsh Hcs s He Ht Hin Hp.
  assert (Hst : steady s) by (apply steady_run; [now apply steady_loaded|assumption]).
  destruct Hst as [Hs _].
  pose proof (sound_streams s _ Hs (grows_refl _)) as H.
  rewrite Forall_lookup in H. destruct (H editor em He) as (_ & _ & tbl' & Ht' & Htbl).
  rewrite Ht in Ht'. inversion Ht'; subst tbl'. clear Ht'.
  unfold entries in Hin.
  destruct (tbl !! "did-change-path") as [l|] eqn:El; simpl in Hin;
    [|now apply elem_of_nil in Hin].
  destruct (dispatch_settles "did-change-path" p cd (VString file) l s Hs (Htbl _ _ El))
    as (s' & E & _ & Hset).
  { intros Hn. discriminate Hn. }
  { now left. }
  exists s'. split; [|now apply Hset; right].
  unfold notify_path_changed, stream_emit, Emitter_emit.
  rewrite (bind_Ok _ _ _ _ _ (deref_Ok _ _ _ _ He)). unfold inherited.
  now rewrite Ht, El.
Qed.

Definition waiting_calls : list call := busy_calls ++ [CInit; CWaitToSave 2; CWaitToSave 2].

Lemma path_change_resolves_listeners_witness :
  let s := run demo_host waiting_calls
             (loaded two_offset_sheets two_offset_rules (Some "/pkg")) in
  exists s', notify_path_changed 2 "a.txt" s = Ok tt s' /\
             promises s' !! 2 = Some (Resolved (VString "a.txt")).
Proof.
  apply (path_change_resolves_listeners demo_host two_offset_sheets two_offset_rules
           (Some "/pkg") waiting_calls 2
           (mkEmitter false 3 (Some {[ "did-destroy" := [CbDestroy 6; CbDestroy 7];
                                       "did-change-path" :=
                                         [CbChangePath 6 1; CbChangePath 7 2] ]}))
           {[ "did-destroy" := [CbDestroy 6; CbDestroy 7];
              "did-change-path" := [CbChangePath 6 1; CbChangePath 7 2] ]} 7 2 "a.txt").
  - vm_compute. repeat constructor.
  - vm_compute. repeat split; lia.
  - vm_compute. reflexivity.
  - reflexivity.
  - vm_compute. right. left.
  - vm_compute. reflexivity.
Defined.
